(** * Unrestricted Hartree-Fock with k-point sampling (pyscf/pbc/scf/kuhf.py)

    A shallow embedding of the numerical kernels of [kuhf.py] and the
    properties its specification states about them.

    Conventions of the embedding.
    - Floating-point numbers are idealised as exact rationals ([Qc], the
      canonical rationals, so that equality is Leibniz equality and every
      definition computes); complex numbers are pairs of rationals.  Rounding
      and IEEE infinities/NaN are outside the model.  The entries of a 2-D
      array are complex numbers.  Where the code depends on the dtype of an
      array (the buffers of [canonicalize], the in-place product of
      [get_init_guess]) the dtype is carried next to the entries; a float64
      array is one whose entries have no imaginary part.
    - A numpy array is the nested list of its entries, row-major; a Python
      list of arrays is a list of them.  An array with an axis of length
      zero in front of a non-zero axis has no faithful nested-list image, so
      statements assume [0 < nao].
    - Python exceptions are values of [exn]; a fallible function returns a
      [result].  Shapes must agree exactly: numpy's stretching of axes of
      length one is not modelled, the operations raise [ValueError] there.
    - Logging is an explicit list of [log_event]s returned next to the value.
    - Routines of other modules (eigensolver, projector, level shift, DIIS,
      integrals, molecular guesses, checkpoint reader, square root) are
      Section variables. *)

From Stdlib Require Import String Ascii.
From Stdlib Require Import QArith Qcanon ZArith Bool Lia List Permutation Sorted.
Import ListNotations.
Open Scope nat_scope.

(* ================================================================== *)
(** * Numbers *)
(* ================================================================== *)

Module Num.

Definition Qcltb (x y : Qc) : bool := if Qclt_le_dec x y then true else false.
Definition Qcleb (x y : Qc) : bool := if Qclt_le_dec y x then false else true.
Definition Qceqb (x y : Qc) : bool := if Qc_eq_dec x y then true else false.

(** Python's [abs] on a real number. *)
Definition Qcabs (x : Qc) : Qc := if Qcltb x 0 then (- x)%Qc else x.

(** [int -> float] *)
Definition of_Z (z : Z) : Qc := Q2Qc (inject_Z z).
Definition of_nat (n : nat) : Qc := of_Z (Z.of_nat n).

(** Decimal literals of the source. *)
Definition lit_0_5   : Qc := Q2Qc (1 # 2).
Definition lit_1_01  : Qc := Q2Qc (101 # 100).
Definition lit_0_99  : Qc := Q2Qc (99 # 100).
Definition lit_1e_4  : Qc := Q2Qc (1 # 10000).
Definition lit_1e_5  : Qc := Q2Qc (1 # 100000).
Definition lit_1e_7  : Qc := Q2Qc (1 # 10000000).
Definition lit_1e_8  : Qc := Q2Qc (1 # 100000000).
Definition lit_1e_10 : Qc := Q2Qc (1 # 10000000000).

(** Complex numbers with rational real and imaginary parts. *)
Record C : Set := mkC { re : Qc; im : Qc }.

Definition C0 : C := mkC 0 0.
Definition C1 : C := mkC 1 0.
Definition RtoC (x : Qc) : C := mkC x 0.
Definition Cadd (a b : C) : C := mkC (re a + re b) (im a + im b).
Definition Copp (a : C) : C := mkC (- re a) (- im a).
Definition Csub (a b : C) : C := mkC (re a - re b) (im a - im b).
Definition Cmul (a b : C) : C :=
  mkC (re a * re b - im a * im b) (re a * im b + im a * re b).
Definition Cconj (a : C) : C := mkC (re a) (- im a).
(** Squared modulus. *)
Definition Cnorm2 (a : C) : Qc := (re a * re a + im a * im a)%Qc.
Definition Cinv (a : C) : C :=
  mkC (re a / Cnorm2 a) (- im a / Cnorm2 a).
Definition Cdiv (a b : C) : C := Cmul a (Cinv b).
Definition Ceqb (a b : C) : bool := Qceqb (re a) (re b) && Qceqb (im a) (im b).

(** [abs(z) > t] for a complex [z] and a threshold [0 <= t]: the modulus is
    a square root, the comparison is taken on the squares. *)
Definition Cabs_gt (z : C) (t : Qc) : bool := Qcltb (t * t) (Cnorm2 z).

End Num.
Export Num.

Declare Scope C_scope.
Delimit Scope C_scope with C.
Bind Scope C_scope with C.
Notation "a + b" := (Cadd a b) : C_scope.
Notation "a - b" := (Csub a b) : C_scope.
Notation "a * b" := (Cmul a b) : C_scope.
Notation "a / b" := (Cdiv a b) : C_scope.
Notation "- a" := (Copp a) : C_scope.

(* ================================================================== *)
(** * Python values: exceptions, indexing, logging *)
(* ================================================================== *)

Module Py.

Inductive exn : Type :=
| IndexError
| ValueError
| TypeError
| KeyError
| IOError
| ZeroDivisionError
| RuntimeError (msg : string) (arg : Qc).

Inductive result (A : Type) : Type :=
| Ok (a : A)
| Raise (e : exn).
Arguments Ok {A} a.
Arguments Raise {A} e.

Definition bind {A B} (m : result A) (k : A -> result B) : result B :=
  match m with
  | Ok a => k a
  | Raise e => Raise e
  end.

Fixpoint mapM {A B} (f : A -> result B) (l : list A) : result (list B) :=
  match l with
  | [] => Ok []
  | x :: l' =>
      match f x with
      | Ok y => match mapM f l' with
                | Ok ys => Ok (y :: ys)
                | Raise e => Raise e
                end
      | Raise e => Raise e
      end
  end.

(** [l[k]] for [0 <= k]. *)
Definition py_nth {A} (l : list A) (k : nat) : result A :=
  match nth_error l k with
  | Some x => Ok x
  | None => Raise IndexError
  end.

(** [l[i]] for a Python integer: a negative index counts from the end. *)
Definition py_index {A} (l : list A) (i : Z) : result A :=
  let n := Z.of_nat (length l) in
  if (0 <=? i)%Z then py_nth l (Z.to_nat i)
  else if (- n <=? i)%Z then py_nth l (Z.to_nat (n + i))
  else Raise IndexError.

(** [enumerate(l)] *)
Definition enumerate {A} (l : list A) : list (nat * A) :=
  combine (seq 0 (length l)) l.

(** pyscf.lib.logger levels and records. *)
Inductive level : Set := WARN | INFO | DEBUG.
Definition level_num (l : level) : Z :=
  match l with WARN => 2 | INFO => 4 | DEBUG => 5 end.

Record log_event : Type := Log {
  log_level : level;
  log_format : string;
  log_args : list Qc
}.

End Py.
Export Py.

Notation "x <- e ;; k" := (bind e (fun x => k))
  (at level 61, e at next level, right associativity).
Notation "' p <- e ;; k" := (bind e (fun p => k))
  (at level 61, p pattern, e at next level, right associativity).

(* ================================================================== *)
(** * numpy arrays as nested lists *)
(* ================================================================== *)

Module Np.

(** 1-D real arrays (orbital energies, occupations), 2-D complex arrays. *)
Definition rvec := list Qc.
Definition matrix := list (list C).

Definition nrows (A : matrix) : nat := length A.
Definition ncols (A : matrix) : nat := length (hd [] A).
Definition mget (A : matrix) (i j : nat) : C := nth j (nth i A []) C0.
Definition vget (v : rvec) (j : nat) : Qc := nth j v 0%Qc.

(** [A.shape == (n, m)] *)
Definition has_shape (n m : nat) (A : matrix) : bool :=
  (length A =? n) && forallb (fun r => length r =? m) A.

(** A 3-D array of shape (k, n, m) as a list of k matrices. *)
Definition has_shape3 (k n m : nat) (A : list matrix) : bool :=
  (length A =? k) && forallb (has_shape n m) A.

Definition mk_matrix (n m : nat) (f : nat -> nat -> C) : matrix :=
  map (fun i => map (fun j => f i j) (seq 0 m)) (seq 0 n).

(** Sum of [f 0 .. f (n-1)]. *)
Fixpoint sum_n (n : nat) (f : nat -> C) : C :=
  match n with
  | O => C0
  | S n' => (sum_n n' f + f n')%C
  end.

Definition Qcsum (l : list Qc) : Qc := fold_right Qcplus 0%Qc l.

(** [A.T], [A.conj()], [A.real], [x * A] *)
Definition transpose (A : matrix) : matrix :=
  mk_matrix (ncols A) (nrows A) (fun i j => mget A j i).
Definition conj (A : matrix) : matrix := map (map Cconj) A.
Definition real (A : matrix) : matrix := map (map (fun z => RtoC (re z))) A.
Definition scale (x : C) (A : matrix) : matrix := map (map (fun z => (z * x)%C)) A.

(** The matrix product on well-shaped operands. *)
Definition mmul (A B : matrix) : matrix :=
  mk_matrix (nrows A) (ncols B)
    (fun i j => sum_n (ncols A) (fun l => (mget A i l * mget B l j)%C)).

(** [np.dot(A, B)] for 2-D arrays. *)
Definition np_dot (A B : matrix) : result matrix :=
  if ncols A =? nrows B then Ok (mmul A B) else Raise ValueError.

(** [A * v] for a 2-D array and a 1-D real array: column [j] times [v[j]]. *)
Definition mul_cols (A : matrix) (v : rvec) : result matrix :=
  if ncols A =? length v
  then Ok (mk_matrix (nrows A) (ncols A) (fun i j => (mget A i j * RtoC (vget v j))%C))
  else Raise ValueError.

(** [A + B] for 2-D arrays. *)
Definition madd (A B : matrix) : result matrix :=
  if has_shape (nrows A) (ncols A) B
  then Ok (mk_matrix (nrows A) (ncols A) (fun i j => (mget A i j + mget B i j)%C))
  else Raise ValueError.

(** [np.einsum('kij,kji', A, B)]: the sum over k of tr(A[k] B[k]). *)
Definition einsum_kij_kji (A B : list matrix) : result C :=
  let K := length A in
  let I := nrows (hd [] A) in
  let J := ncols (hd [] A) in
  if has_shape3 K I J A && has_shape3 K J I B
  then Ok (sum_n K (fun k => sum_n I (fun i => sum_n J (fun j =>
         (mget (nth k A []) i j * mget (nth k B []) j i)%C))))
  else Raise ValueError.

(** Boolean-mask indexing [l[mask]] and assignment [l[mask] = new]. *)
Fixpoint mask_select {A} (mask : list bool) (l : list A) : list A :=
  match mask, l with
  | b :: mask', x :: l' =>
      if b then x :: mask_select mask' l' else mask_select mask' l'
  | _, _ => []
  end.

Fixpoint mask_assign {A} (mask : list bool) (old new : list A) : list A :=
  match mask, old with
  | b :: mask', x :: old' =>
      if b
      then match new with
           | y :: new' => y :: mask_assign mask' old' new'
           | [] => x :: mask_assign mask' old' []
           end
      else x :: mask_assign mask' old' new
  | _, _ => old
  end.

(** [np.count_nonzero(mask)] *)
Definition count_nonzero (mask : list bool) : nat :=
  length (filter (fun b => b) mask).

(** [np.sort] of a 1-D real array (ascending). *)
Fixpoint insert_sorted (x : Qc) (l : list Qc) : list Qc :=
  match l with
  | [] => [x]
  | y :: l' => if Qcleb x y then x :: l else y :: insert_sorted x l'
  end.
Definition np_sort (l : list Qc) : list Qc := fold_right insert_sorted [] l.

(** [np.hstack] of a sequence of 1-D arrays. *)
Definition np_hstack (ls : list rvec) : result rvec :=
  match ls with
  | [] => Raise ValueError
  | _ => Ok (concat ls)
  end.

(** The dtype of an array of floating-point numbers. *)
Inductive dtype : Set := Float64 | Complex128.

(** The dtype of the result of an operation on two arrays. *)
Definition result_type (a b : dtype) : dtype :=
  match a, b with
  | Float64, Float64 => Float64
  | _, _ => Complex128
  end.

(** What an item assignment [a[...] = x] stores in an array of dtype [dt]:
    a float64 array keeps the real part of a complex value (numpy warns,
    ComplexWarning, and goes on). *)
Definition cast_entry (dt : dtype) (z : C) : C :=
  match dt with
  | Float64 => RtoC (re z)
  | Complex128 => z
  end.
Definition astype (dt : dtype) (A : matrix) : matrix := map (map (cast_entry dt)) A.

(** An in-place operation [a *= x] casts its result to the dtype of [a]
    under the rule 'same_kind', which has no cast from complex128 to
    float64: numpy raises UFuncTypeError, a TypeError. *)
Definition can_cast_same_kind (from to : dtype) : bool :=
  match from, to with
  | Complex128, Float64 => false
  | _, _ => true
  end.

(** [np.asarray] of the two spin components of a nested sequence of 2-D
    arrays, and of 1-D arrays: every block must have the shape of the
    first, and both components as many blocks (numpy raises ValueError for
    an inhomogeneous shape). *)
Definition asarray_blocks (a : list matrix * list matrix)
  : result (list matrix * list matrix) :=
  let K := length (fst a) in
  let n := nrows (hd [] (fst a)) in
  let m := ncols (hd [] (fst a)) in
  if has_shape3 K n m (fst a) && has_shape3 K n m (snd a)
  then Ok a else Raise ValueError.
Definition asarray_rows (a : list rvec * list rvec)
  : result (list rvec * list rvec) :=
  let K := length (fst a) in
  let n := length (hd [] (fst a)) in
  if (length (snd a) =? K) && forallb (fun v => length v =? n) (fst a ++ snd a)
  then Ok a else Raise ValueError.

End Np.
Export Np.

(* ================================================================== *)
(** * The functions of kuhf.py *)
(* ================================================================== *)

(** Values indexed by spin: component 0 is alpha, component 1 is beta. *)
Definition spin_pair (A : Type) : Type := (A * A)%type.

(** [lib.asarray(blocks).reshape(2, nkpts, nao, nao)] *)
Definition reshape_2k (nkpts nao : nat) (blocks : list matrix)
  : result (spin_pair (list matrix)) :=
  if (length blocks =? 2 * nkpts) && forallb (has_shape nao nao) blocks
  then Ok (firstn nkpts blocks, skipn nkpts blocks)
  else Raise ValueError.

Definition make_dm (nkpts : nat) (mos : list matrix) (occs : list rvec)
  : result (list matrix) :=
  mapM (fun k =>
          mo <- py_nth mos k ;;
          occ <- py_nth occs k ;;
          scaled <- mul_cols mo occ ;;
          np_dot scaled (conj (transpose mo)))
       (seq 0 nkpts).

Definition make_rdm1 (mo_coeff_kpts : spin_pair (list matrix))
                     (mo_occ_kpts : spin_pair (list rvec))
  : result (spin_pair (list matrix)) :=
  let nkpts := length (fst mo_occ_kpts) in
  mo00 <- py_nth (fst mo_coeff_kpts) 0 ;;
  let nao := nrows mo00 in
  dm_a <- make_dm nkpts (fst mo_coeff_kpts) (fst mo_occ_kpts) ;;
  dm_b <- make_dm nkpts (snd mo_coeff_kpts) (snd mo_occ_kpts) ;;
  reshape_2k nkpts nao (dm_a ++ dm_b).

(** ** The objects the functions receive *)

(** A k-point: a vector of three reciprocal-space coordinates. *)
Record kvec : Set := K3 { kx : Qc; ky : Qc; kz : Qc }.

(** The attributes of a [Cell] the functions read; a missing [natm]
    (the [getattr] default) is [0]. *)
Record cell : Set := Cell {
  natm : nat;
  dimension : Z;
  cell_nelec : Z * Z
}.

(** [level_shift] is a number, or a tuple, list or ndarray of numbers. *)
Inductive seq_kind : Set := PyTuple | PyList | NdArray.
Inductive level_shift_factor : Set :=
| LsReal (x : Qc)
| LsSeq (kind : seq_kind) (xs : list Qc).

(** The attributes of the KUHF object ([mf], [self]) the functions read. *)
Record mf : Type := MF {
  mf_cell : cell;
  mf_kpts : list kvec;
  nelec : Z * Z;
  verbose : Z;
  level_shift : level_shift_factor;
  diis_start_cycle : Z;
  damp : Qc;
  mo_energy : option (spin_pair (list rvec));
  mo_coeff : option (spin_pair (list matrix));
  mo_occ : option (spin_pair (list rvec));
  chkfile : string
}.

(** [logger.debug / info / warn (mf, fmt, *args)]: the record is written
    when the object's verbosity reaches the level. *)
Definition logger (lvl : level) (m : mf) (fmt : string) (args : list Qc)
  : list log_event :=
  if (level_num lvl <=? verbose m)%Z then [Log lvl fmt args] else [].

(** An attribute that is still [None] cannot be indexed. *)
Definition not_none {A} (o : option A) : result A :=
  match o with
  | Some a => Ok a
  | None => Raise TypeError
  end.

(** [KUHF.make_rdm1(self)] with its defaults. *)
Definition mf_make_rdm1 (m : mf) : result (spin_pair (list matrix)) :=
  mo_coeff_kpts <- not_none (mo_coeff m) ;;
  mo_occ_kpts <- not_none (mo_occ m) ;;
  make_rdm1 mo_coeff_kpts mo_occ_kpts.

(** ** energy_elec *)

(** [1./n] for a Python integer [n]. *)
Definition float_inv (n : nat) : result Qc :=
  match n with
  | O => Raise ZeroDivisionError
  | _ => Ok (/ of_nat n)%Qc
  end.

(** [abs(b)] of a truth value, and the truth of the number it yields. *)
Definition abs_bool (b : bool) : Z := Z.abs (if b then 1 else 0).
Definition truth (z : Z) : bool := negb (z =? 0)%Z.

Section EnergyElec.

Variable get_hcore : mf -> list matrix.
Variable get_veff : mf -> cell -> spin_pair (list matrix) -> spin_pair (list matrix).

Definition energy_elec (m : mf)
    (dm_kpts : option (spin_pair (list matrix)))
    (h1e_kpts : option (list matrix))
    (vhf_kpts : option (spin_pair (list matrix)))
  : result ((Qc * Qc) * list log_event) :=
  dm_kpts <- match dm_kpts with Some d => Ok d | None => mf_make_rdm1 m end ;;
  let h1e_kpts := match h1e_kpts with Some h => h | None => get_hcore m end in
  let vhf_kpts := match vhf_kpts with
                  | Some v => v
                  | None => get_veff m (mf_cell m) dm_kpts
                  end in
  let nkpts := length h1e_kpts in
  w <- float_inv nkpts ;;
  t <- einsum_kij_kji (fst dm_kpts) h1e_kpts ;;
  let e1 := (RtoC w * t)%C in
  w <- float_inv nkpts ;;
  t <- einsum_kij_kji (snd dm_kpts) h1e_kpts ;;
  let e1 := (e1 + RtoC w * t)%C in
  w <- float_inv nkpts ;;
  t <- einsum_kij_kji (fst dm_kpts) (fst vhf_kpts) ;;
  let e_coul := (RtoC w * t * RtoC lit_0_5)%C in
  w <- float_inv nkpts ;;
  t <- einsum_kij_kji (snd dm_kpts) (snd vhf_kpts) ;;
  let e_coul := (e_coul + RtoC w * t * RtoC lit_0_5)%C in
  if truth (abs_bool (Qcltb lit_1e_10 (im e_coul)))
  then Raise (RuntimeError
                "Coulomb energy has imaginary part, something is wrong!"
                (im e_coul))
  else
    let e1 := re e1 in
    let e_coul := re e_coul in
    Ok ((e1 + e_coul, e_coul)%Qc, logger DEBUG m "E_coul = %.15g" [e_coul]).

End EnergyElec.

(** ** get_occ *)

(** [(mo_e <= fermi).astype(np.double)] *)
Definition occ_of (fermi : Qc) (mo_e : rvec) : rvec :=
  map (fun e => if Qcleb e fermi then 1%Qc else 0%Qc) mo_e.

(** [v[mask]] for a boolean array [mask]. *)
Definition np_mask_index (v : rvec) (mask : list bool) : result rvec :=
  if length mask =? length v then Ok (mask_select mask v) else Raise IndexError.

(** The Fermi filling of one spin channel (lines 76-85 for alpha, 88-96 for
    beta): [n] is [mf.nelec[s]], [es] is [mo_energy_kpts[s]]. *)
Definition fill_channel (m : mf) (homo_lumo homo : string)
    (n : Z) (nkpts : nat) (es : list rvec)
  : result (list rvec * list log_event) :=
  let nocc := (n * Z.of_nat nkpts)%Z in
  pooled <- np_hstack es ;;
  let mo_energy := np_sort pooled in
  fermi <- py_index mo_energy (nocc - 1) ;;
  let occs := map (occ_of fermi) es in
  if (nocc <? Z.of_nat (length mo_energy))%Z
  then lumo <- py_index mo_energy nocc ;;
       Ok (occs, logger INFO m homo_lumo [fermi; lumo])
  else Ok (occs, logger INFO m homo [fermi]).

(** One of the two loops of the debug dump (lines 101-105, 107-111). *)
Definition dump_channel (m : mf) (scaled_kpts : list kvec)
    (es occs : list rvec) : result (list log_event) :=
  logs <- mapM (fun '(k, kpt) =>
            e <- py_nth es k ;;
            o <- py_nth occs k ;;
            occupied <- np_mask_index e (map (fun x => Qcltb 0 x) o) ;;
            e <- py_nth es k ;;
            o <- py_nth occs k ;;
            virtual <- np_mask_index e (map (fun x => Qceqb x 0) o) ;;
            Ok (logger DEBUG m "  %2d (%6.3f %6.3f %6.3f)   %s %s"
                  ([of_nat k; kx kpt; ky kpt; kz kpt] ++ occupied ++ virtual)))
          (enumerate scaled_kpts) ;;
  Ok (concat logs).

Section GetOcc.

(** [cell.get_scaled_kpts(kpts)] *)
Variable get_scaled_kpts : cell -> list kvec -> list kvec.

(** [get_occ(mf, mo_energy_kpts)]; the argument [mo_coeff_kpts] is not read,
    and the numpy print options set around the debug dump are left out. *)

Definition get_occ (m : mf) (mo_energy_kpts : option (spin_pair (list rvec)))
  : result (spin_pair (list rvec) * list log_event) :=
  mo_energy_kpts <- match mo_energy_kpts with
                    | Some e => Ok e
                    | None => not_none (mo_energy m)
                    end ;;
  let nkpts := length (fst mo_energy_kpts) in
  '(occ_a, log_a) <- fill_channel m "alpha HOMO = %.12g  LUMO = %.12g"
                       "alpha HOMO = %.12g  (no LUMO because of small basis) "
                       (fst (nelec m)) nkpts (fst mo_energy_kpts) ;;
  '(occ_b, log_b) <- (if (0 <? snd (nelec m))%Z
                      then fill_channel m "beta HOMO = %.12g  LUMO = %.12g"
                             "beta HOMO = %.12g  (no LUMO because of small basis) "
                             (snd (nelec m)) nkpts (snd mo_energy_kpts)
                      else Ok ([], [])) ;;
  log_d <- (if (level_num DEBUG <=? verbose m)%Z
            then
              let head_a := logger DEBUG m
                  "     k-point                  alpha mo_energy" [] in
              da <- dump_channel m (get_scaled_kpts (mf_cell m) (mf_kpts m))
                      (fst mo_energy_kpts) occ_a ;;
              let head_b := logger DEBUG m
                  "     k-point                  beta  mo_energy" [] in
              db <- dump_channel m (get_scaled_kpts (mf_cell m) (mf_kpts m))
                      (snd mo_energy_kpts) occ_b ;;
              Ok (head_a ++ da ++ head_b ++ db)
            else Ok []) ;;
  Ok ((occ_a, occ_b), log_a ++ log_b ++ log_d).

End GetOcc.

(** ** get_fock *)

(** [h1e_kpts + vhf_kpts[s]]: two arrays of shape (nkpts, nao, nao). *)
Definition add_kpts (A B : list matrix) : result (list matrix) :=
  if length A =? length B
  then mapM (fun '(a, b) => madd a b) (combine A B)
  else Raise ValueError.

(** [shifta, shiftb = level_shift_factor] on a sequence, else both are the
    number. *)
Definition unpack_shift (f : level_shift_factor) : result (Qc * Qc) :=
  match f with
  | LsReal x => Ok (x, x)
  | LsSeq _ [a; b] => Ok (a, b)
  | LsSeq _ _ => Raise ValueError
  end.

(** The truth value of [abs(level_shift_factor) > 1e-4]: [abs] is not
    defined on a tuple or a list; on an ndarray it acts entry by entry and
    the truth value of the comparison exists for at most one entry. *)
Definition shift_is_large (f : level_shift_factor) : result bool :=
  match f with
  | LsReal x => Ok (Qcltb lit_1e_4 (Qcabs x))
  | LsSeq PyTuple _ => Raise TypeError
  | LsSeq PyList _ => Raise TypeError
  | LsSeq NdArray [] => Ok false
  | LsSeq NdArray [x] => Ok (Qcltb lit_1e_4 (Qcabs x))
  | LsSeq NdArray _ => Raise ValueError
  end.

Section GetFock.

(** The DIIS extrapolator: [diis.update(s, dm, f, mf, h1e, vhf)] returns the
    new Fock matrix and leaves the extrapolator in a new state. *)
Variable diis_t : Type.
Variable diis_update :
  diis_t -> list matrix -> spin_pair (list matrix) -> spin_pair (list matrix) ->
  mf -> list matrix -> spin_pair (list matrix) ->
  spin_pair (list matrix) * diis_t.

(** [pyscf.scf.hf.level_shift(s, d, f, factor)] *)
Variable mol_hf_level_shift : matrix -> matrix -> matrix -> Qc -> matrix.

(** [[level_shift(s, dm_kpts[x,k], f_kpts[x,k], shift) for k, s in
    enumerate(s_kpts)]] *)
Definition shift_channel (s_kpts dm f : list matrix) (shift : Qc)
  : result (list matrix) :=
  mapM (fun '(k, s) =>
          d <- py_nth dm k ;;
          fk <- py_nth f k ;;
          Ok (mol_hf_level_shift s d fk shift))
       (enumerate s_kpts).

Definition get_fock (m : mf) (h1e_kpts s_kpts : list matrix)
    (vhf_kpts dm_kpts : spin_pair (list matrix))
    (cycle : Z) (diis : option diis_t)
    (diis_start_cycle_ : option Z)
    (level_shift_factor_ : option level_shift_factor)
    (damp_factor : option Qc)
  : result (spin_pair (list matrix) * option diis_t) :=
  let diis_start_cycle_ := match diis_start_cycle_ with
                           | Some c => c
                           | None => diis_start_cycle m
                           end in
  let level_shift_factor_ := match level_shift_factor_ with
                             | Some f => f
                             | None => level_shift m
                             end in
  let damp_factor := match damp_factor with Some d => d | None => damp m end in
  '(shifta, shiftb) <- unpack_shift level_shift_factor_ ;;
  f_a <- add_kpts h1e_kpts (fst vhf_kpts) ;;
  f_b <- add_kpts h1e_kpts (snd vhf_kpts) ;;
  let f_kpts := (f_a, f_b) in
  let '(f_kpts, diis') :=
    match diis with
    | Some d =>
        if (diis_start_cycle_ <=? cycle)%Z
        then let '(f', d') := diis_update d s_kpts dm_kpts f_kpts m h1e_kpts vhf_kpts
             in (f', Some d')
        else (f_kpts, diis)
    | None => (f_kpts, diis)
    end in
  large <- shift_is_large level_shift_factor_ ;;
  if large
  then
    fa <- shift_channel s_kpts (fst dm_kpts) (fst f_kpts) shifta ;;
    fb <- shift_channel s_kpts (snd dm_kpts) (snd f_kpts) shiftb ;;
    Ok ((fa, fb), diis')
  else Ok (f_kpts, diis').

End GetFock.

(** ** canonicalize *)

(** [mo[:, idx]] for a boolean array [idx]. *)
Definition select_cols (mo : matrix) (idx : list bool) : result matrix :=
  if length idx =? ncols mo then Ok (map (mask_select idx) mo) else Raise IndexError.

(** [es[idx] = e] *)
Definition assign_mask (es : rvec) (idx : list bool) (e : rvec) : result rvec :=
  if negb (length idx =? length es) then Raise IndexError
  else if length e =? count_nonzero idx then Ok (mask_assign idx es e)
  else Raise ValueError.

(** [cs[:, idx] = X] for an array [cs] of dtype [dt]: the entries of [X]
    are stored with the dtype of [cs]. *)
Definition assign_cols (dt : dtype) (cs : matrix) (idx : list bool) (X : matrix)
  : result matrix :=
  if negb (length idx =? ncols cs) then Raise IndexError
  else if has_shape (nrows cs) (count_nonzero idx) X
  then Ok (map (fun '(row, new) => mask_assign idx row new) (combine cs (astype dt X)))
  else Raise ValueError.

Section Canonicalize.

(** [scipy.linalg.eigh]: eigenvalues and eigenvectors of a Hermitian matrix. *)
Variable eigh : matrix -> rvec * matrix.

(** What an uninitialised array ([np.empty_like]) happens to hold. *)
Variable uninit_C : nat -> nat -> C.
Variable uninit_R : nat -> Qc.

(** [np.empty_like(mo)] for an array [mo] of dtype [dt]: the new array has
    the shape and the dtype of [mo]. *)
Definition empty_like_matrix (dt : dtype) (mo : matrix) : matrix :=
  mk_matrix (nrows mo) (ncols mo) (fun i j => cast_entry dt (uninit_C i j)).
Definition empty_like_rvec (v : rvec) : rvec :=
  map uninit_R (seq 0 (length v)).

(** The local function [eig_]: it updates [es] and [cs] in place; here it
    returns their new contents.  [dt] is the dtype of [cs]. *)
Definition eig_ (dt : dtype) (fock mo_coeff_kpts : matrix) (idx : list bool)
    (es : rvec) (cs : matrix) : result (rvec * matrix) :=
  if 0 <? count_nonzero idx
  then
    orb <- select_cols mo_coeff_kpts idx ;;
    t <- np_dot (conj (transpose orb)) fock ;;
    f1 <- np_dot t orb ;;
    let '(e, c) := eigh f1 in
    es <- assign_mask es idx e ;;
    x <- np_dot orb c ;;
    cs <- assign_cols dt cs idx x ;;
    Ok (es, cs)
  else Ok (es, cs).

(** The body of the loop over the k-points of one spin channel (lines
    184-191 for alpha, 193-200 for beta); [dt] is the dtype of [mo]. *)
Definition canonicalize_kpt (dt : dtype) (fock : list matrix) (occs : list rvec)
    (k : nat) (mo : matrix) : result (rvec * matrix) :=
  let mo1 := empty_like_matrix dt mo in
  occ <- py_nth occs k ;;
  let mo_e := empty_like_rvec occ in
  let occidx := map (fun x => Qceqb x 1) occ in
  let viridx := map negb occidx in
  fk <- py_nth fock k ;;
  '(mo_e, mo1) <- eig_ dt fk mo occidx mo_e mo1 ;;
  fk <- py_nth fock k ;;
  '(mo_e, mo1) <- eig_ dt fk mo viridx mo_e mo1 ;;
  Ok (mo_e, mo1).

Definition canonicalize_channel (dt : dtype) (fock mos : list matrix) (occs : list rvec)
  : result (list (rvec * matrix)) :=
  mapM (fun '(k, mo) => canonicalize_kpt dt fock occs k mo) (enumerate mos).

(** [canonicalize(mf, mo_coeff_kpts, mo_occ_kpts, fock)] for a call that
    passes [fock].  (With [fock=None] the source rebuilds it through
    [mf.get_hcore] and [mf.get_jk], which are not part of this file.)
    [dt] is the dtype of the array [np.asarray(mo_coeff_kpts)]: float64
    when every block is a float64 array, complex128 otherwise.  The
    occupations are float64 arrays, as [get_occ] returns them. *)
Definition canonicalize (m : mf) (dt : dtype)
    (mo_coeff_kpts : spin_pair (list matrix))
    (mo_occ_kpts : spin_pair (list rvec))
    (fock : spin_pair (list matrix))
  : result (spin_pair (list rvec) * spin_pair (list matrix)) :=
  mo_coeff_kpts <- asarray_blocks mo_coeff_kpts ;;
  mo_occ_kpts <- asarray_rows mo_occ_kpts ;;
  ra <- canonicalize_channel dt (fst fock) (fst mo_coeff_kpts) (fst mo_occ_kpts) ;;
  rb <- canonicalize_channel dt (snd fock) (snd mo_coeff_kpts) (snd mo_occ_kpts) ;;
  Ok ((map fst ra, map fst rb), (map snd ra, map snd rb)).

End Canonicalize.

(** ** init_guess_by_chkfile *)

(** What [chkfile.load_scf] returns besides the cell.  A record written by
    a single-k-point run has no ['kpts'] entry and holds one matrix per
    spin; a record written by a k-point run has the entry and holds a list
    of matrices per spin.  Restricted runs store one spin-summed set. *)
Inductive gamma_mo : Type :=
| GammaRHF (mo : matrix) (occ : rvec)
| GammaUHF (mo : spin_pair matrix) (occ : spin_pair rvec).

Inductive kpts_mo : Type :=
| KptsRHF (mo : list matrix) (occ : list rvec)
| KptsUHF (mo : spin_pair (list matrix)) (occ : spin_pair (list rvec)).

Inductive scf_rec : Type :=
| RecKpt (kpt : option kvec) (mo : gamma_mo)
| RecKpts (kpt : option kvec) (kpts : list kvec) (mo : kpts_mo).

Definition kzero : kvec := K3 0 0 0.
Definition ksub (a b : kvec) : kvec :=
  K3 (kx a - kx b) (ky a - ky b) (kz a - kz b).

(** [np.allclose(a, b)] with numpy's defaults rtol=1e-5, atol=1e-8. *)
Definition isclose (a b : Qc) : bool :=
  Qcleb (Qcabs (a - b)) (lit_1e_8 + lit_1e_5 * Qcabs b).
Definition kclose (a b : kvec) : bool :=
  isclose (kx a) (kx b) && isclose (ky a) (ky b) && isclose (kz a) (kz b).
Definition allclose_kpts (a b : list kvec) : bool :=
  forallb (fun '(x, y) => kclose x y) (combine a b).
Definition allclose_zero (a : list kvec) : bool :=
  forallb (fun x => kclose x kzero) a.

(** The square of [lib.norm(a - b)].  [np.argmin] compares the norms; the
    square root is monotone, so the squares are compared instead. *)
Definition dist2 (a b : kvec) : Qc :=
  let d := ksub a b in (kx d * kx d + ky d * ky d + kz d * kz d)%Qc.

(** [np.argmin]: the first index of the least entry. *)
Fixpoint argmin_from (best : nat) (vbest : Qc) (i : nat) (l : list Qc) : nat :=
  match l with
  | [] => best
  | x :: l' =>
      if Qcltb x vbest then argmin_from i x (S i) l'
      else argmin_from best vbest (S i) l'
  end.
Definition np_argmin (l : list Qc) : result nat :=
  match l with
  | [] => Raise ValueError
  | x :: l' => Ok (argmin_from 0 x 1 l')
  end.

Section InitGuessByChkfile.

(** [addons.project_mo_nr2nr(chk_cell, mo, cell, kpts)]: called on one
    matrix with [kpts=None], and on a list of matrices with a list of
    displacement vectors. *)
Variable project_mo_nr2nr : cell -> matrix -> cell -> matrix.
Variable project_mo_nr2nr_kpts : cell -> list matrix -> cell -> list kvec -> list matrix.

Section Closures.

Variables (cell_ chk_cell : cell) (project : bool).
Variables (kpts chk_kpts : list kvec).

Definition fproj (mo : matrix) : matrix :=
  if project then project_mo_nr2nr chk_cell mo cell_ else mo.
Definition fproj_kpts (mo : list matrix) (dk : list kvec) : list matrix :=
  if project then project_mo_nr2nr_kpts chk_cell mo cell_ dk else mo.

(** [makedm] when the checkpoint mesh is the target mesh. *)
Definition makedm_same (mos : spin_pair (list matrix)) (occs : spin_pair (list rvec))
  : result (spin_pair (list matrix)) :=
  let '(moa, mob) := mos in
  let mos := (map fproj moa, map fproj mob) in
  make_rdm1 mos occs.

(** [makedm] otherwise. *)
Definition makedm_nearest (mos : spin_pair (list matrix)) (occs : spin_pair (list rvec))
  : result (spin_pair (list matrix)) :=
  where_ <- mapM (fun kpt => np_argmin (map (fun c => dist2 c kpt) chk_kpts)) kpts ;;
  let '(moa, mob) := mos in
  let '(occa, occb) := occs in
  dkpts <- mapM (fun '(i, w) =>
                   c <- py_nth chk_kpts w ;;
                   t <- py_nth kpts i ;;
                   Ok (ksub c t))
                (enumerate where_) ;;
  sel_a <- mapM (py_nth moa) where_ ;;
  let pa := fproj_kpts sel_a dkpts in
  sel_b <- mapM (py_nth mob) where_ ;;
  let pb := fproj_kpts sel_b dkpts in
  oa <- mapM (py_nth occa) where_ ;;
  ob <- mapM (py_nth occb) where_ ;;
  make_rdm1 (pa, pb) (oa, ob).

Definition makedm (mos : spin_pair (list matrix)) (occs : spin_pair (list rvec))
  : result (spin_pair (list matrix)) :=
  if (length kpts =? length chk_kpts) && allclose_kpts kpts chk_kpts
  then makedm_same mos occs
  else makedm_nearest mos occs.

End Closures.

(** [np.expand_dims(., axis=0)] on the data of a single-k-point record. *)
Definition expand_dims (g : gamma_mo) : kpts_mo :=
  match g with
  | GammaRHF mo occ => KptsRHF [mo] [occ]
  | GammaUHF mo occ => KptsUHF ([fst mo], [snd mo]) ([fst occ], [snd occ])
  end.

(** Alpha and beta occupations of a restricted record. *)
Definition rhf_occa (mo_occ : list rvec) : list rvec :=
  map (map (fun x => if Qcltb lit_1e_8 x then 1%Qc else 0%Qc)) mo_occ.
Definition vsub (a b : rvec) : result rvec :=
  if length a =? length b
  then Ok (map (fun '(x, y) => (x - y)%Qc) (combine a b))
  else Raise ValueError.
Definition rhf_occb (mo_occ mo_occa : list rvec) : result (list rvec) :=
  mapM (fun '(k, occ) => oa <- py_nth mo_occa k ;; vsub occ oa) (enumerate mo_occ).

(** [chk_kpts] (lines 215-220). *)
Definition rec_chk_kpts (rec : scf_rec) : list kvec :=
  match rec with
  | RecKpt (Some k) _ | RecKpts (Some k) _ _ => [k]
  | RecKpts None ks _ => ks
  | RecKpt None _ => [kzero]
  end.

(** The orbitals and occupations handed to [makedm] (lines 222-232 and
    257-262): the data of a single k-point get a k-point axis; a restricted
    record is split into alpha and beta occupations. *)
Definition chk_orbitals (rec : scf_rec)
  : result (spin_pair (list matrix) * spin_pair (list rvec)) :=
  let mo :=
    match rec with
    | RecKpt _ g => expand_dims g
    | RecKpts _ _ d => d
    end in
  match mo with
  | KptsRHF mo mo_occ =>
      _ <- py_nth mo 0 ;;
      let mo_occa := rhf_occa mo_occ in
      mo_occb <- rhf_occb mo_occ mo_occa ;;
      Ok ((mo, mo), (mo_occa, mo_occb))
  | KptsUHF mo mo_occ => Ok (mo, mo_occ)
  end.

(** The density matrix before the final test for the gamma point
    (lines 210-262); [chk] is what [chkfile.load_scf(chkfile_name)] gave. *)
Definition chk_density (cell_ : cell) (chk : cell * scf_rec) (project : bool)
    (kpts : list kvec) : result (spin_pair (list matrix)) :=
  let '(chk_cell, rec) := chk in
  let chk_kpts := rec_chk_kpts rec in
  '(mos, occs) <- chk_orbitals rec ;;
  makedm cell_ chk_cell project kpts chk_kpts mos occs.

Definition init_guess_by_chkfile (cell_ : cell) (chk : cell * scf_rec)
    (project : bool) (kpts : option (list kvec))
  : result (spin_pair (list matrix)) :=
  kpts <- match kpts with
          | Some k => Ok k
          | None => match snd chk with
                    | RecKpts _ ks _ => Ok ks
                    | RecKpt _ _ => Raise KeyError
                    end
          end ;;
  dm <- chk_density cell_ chk project kpts ;;
  if allclose_zero kpts
  then Ok (map real (fst dm), map real (snd dm))
  else Ok dm.

End InitGuessByChkfile.

(** ** KUHF.get_init_guess *)

(** [str.lower] on ASCII text. *)
Definition lower_ascii (c : ascii) : ascii :=
  let n := nat_of_ascii c in
  if (65 <=? n) && (n <=? 90) then ascii_of_nat (n + 32) else c.
Fixpoint lower (s : string) : string :=
  match s with
  | EmptyString => EmptyString
  | String c s' => String (lower_ascii c) (lower s')
  end.
Definition startswith (s p : string) : bool := String.prefix p s.

(** [np.einsum('xkij,kji->xk', dm_kpts, s)]: tr(dm[x,k] s[k]). *)
Definition trace_prod (D S : matrix) : C :=
  sum_n (nrows D) (fun i => sum_n (ncols D) (fun j => (mget D i j * mget S j i)%C)).
Definition einsum_xkij_kji (dm : spin_pair (list matrix)) (s : list matrix)
  : result (spin_pair (list C)) :=
  let K := length (fst dm) in
  let I := nrows (hd [] (fst dm)) in
  let J := ncols (hd [] (fst dm)) in
  if has_shape3 K I J (fst dm) && has_shape3 K I J (snd dm) && has_shape3 K J I s
  then Ok (map (fun '(d, sk) => trace_prod d sk) (combine (fst dm) s),
           map (fun '(d, sk) => trace_prod d sk) (combine (snd dm) s))
  else Raise ValueError.

(** [lib.asarray([dm]*nkpts).reshape(nkpts,2,nao,nao).transpose(1,0,2,3)] *)
Definition replicate_kpts (nkpts : nat) (dm : spin_pair matrix)
  : result (spin_pair (list matrix)) :=
  let nao := ncols (fst dm) in
  if (nkpts =? 0) || (has_shape nao nao (fst dm) && has_shape nao nao (snd dm))
  then Ok (repeat (fst dm) nkpts, repeat (snd dm) nkpts)
  else Raise ValueError.

Section GetInitGuess.

(** The guesses of the molecular code, the checkpoint reader and the
    overlap integrals.  The molecular guesses are float64 arrays; the
    density of a checkpoint and the overlap come with their dtype. *)
Variable mol_uhf_init_guess_by_1e : cell -> spin_pair matrix.
Variable init_guess_by_atom : mf -> cell -> spin_pair matrix.
Variable init_guess_by_minao : mf -> cell -> spin_pair matrix.
Variable from_chk : mf -> result (dtype * spin_pair (list matrix)).
Variable get_ovlp : mf -> cell -> dtype * list matrix.

Definition init_guess_by_1e (self : mf) (c : option cell)
  : spin_pair matrix * list log_event :=
  let c := match c with Some c => c | None => mf_cell self end in
  let w := if (dimension c <? 3)%Z
           then logger WARN self
                  "Hcore initial guess is not recommended in the SCF of low-dimensional systems."
                  []
           else [] in
  (mol_uhf_init_guess_by_1e c, w).

(** The renormalisation of a low-dimensional guess (lines 321-331); [dt]
    is the dtype of [dm_kpts].  [ne] has the result type of [dm_kpts] and
    the overlap, and so has the factor [nelec/ne]; the in-place product
    [dm_kpts *= ...] raises when the factor is complex128 and [dm_kpts] is
    float64 (the warning is written before).  The number the warning prints
    ([ne.mean()]) is left out of the record. *)
Definition normalize_low_dim (self : mf) (c : cell) (dt : dtype)
    (dm_kpts : spin_pair (list matrix))
  : result (spin_pair (list matrix) * list log_event) :=
  if (dimension c <? 3)%Z
  then
    let '(dt_s, s) := get_ovlp self c in
    ne <- einsum_xkij_kji dm_kpts s ;;
    let dt_ne := result_type dt dt_s in
    let nelec_ := (RtoC (of_Z (fst (cell_nelec c))), RtoC (of_Z (snd (cell_nelec c)))) in
    if existsb (fun z => Cabs_gt (z - fst nelec_) lit_1e_7) (fst ne)
       || existsb (fun z => Cabs_gt (z - snd nelec_) lit_1e_7) (snd ne)
    then
      if can_cast_same_kind (result_type dt dt_ne) dt
      then
        Ok ((map (fun '(d, n) => scale (fst nelec_ / n) d) (combine (fst dm_kpts) (fst ne)),
             map (fun '(d, n) => scale (snd nelec_ / n) d) (combine (snd dm_kpts) (snd ne))),
            logger WARN self
              "Big error detected in the electron number of initial guess density matrix (Ne/cell = %g)!"
              [])
      else Raise TypeError
    else Ok (dm_kpts, [])
  else Ok (dm_kpts, []).

(** The guess before the low-dimensional check (lines 294-319), with its
    dtype: the density read from the checkpoint, or one molecular guess
    copied to every k-point with alpha scaled by 1.01 and beta by 0.99. *)
Definition initial_dm_kpts (self : mf) (c : cell) (key : string)
  : result (dtype * spin_pair (list matrix) * list log_event) :=
  '(dm_kpts, dm, log1) <-
     (if String.eqb (lower key) "1e"
      then let '(d, w) := init_guess_by_1e self (Some c) in Ok (None, Some d, w)
      else if natm c =? 0
      then let '(d, w) := init_guess_by_1e self (Some c) in
           Ok (None, Some d,
               logger INFO self "No atom found in cell. Use 1e initial guess" [] ++ w)
      else if String.eqb (lower key) "atom"
      then Ok (None, Some (init_guess_by_atom self c), [])
      else if startswith (lower key) "chk"
      then match from_chk self with
           | Ok d => Ok (Some d, None, [])
           | Raise IOError | Raise KeyError =>
               Ok (None, Some (init_guess_by_minao self c),
                   logger WARN self "Fail in reading %s. Use MINAO initial guess" [])
           | Raise e => Raise e
           end
      else Ok (None, Some (init_guess_by_minao self c), [])) ;;
  '(dt, dm_kpts) <- match dm_kpts, dm with
                    | Some d, _ => Ok d
                    | None, Some dm =>
                        let nkpts := length (mf_kpts self) in
                        dm_kpts <- replicate_kpts nkpts dm ;;
                        Ok (Float64,
                            (map (scale (RtoC lit_1_01)) (fst dm_kpts),
                             map (scale (RtoC lit_0_99)) (snd dm_kpts)))
                    | None, None => Raise TypeError
                    end ;;
  Ok (dt, dm_kpts, log1).

Definition get_init_guess (self : mf) (c : option cell) (key : string)
  : result (spin_pair (list matrix) * list log_event) :=
  let c := match c with Some c => c | None => mf_cell self end in
  '(dt, dm_kpts, log1) <- initial_dm_kpts self c key ;;
  '(dm_kpts, log2) <- normalize_low_dim self c dt dm_kpts ;;
  Ok (dm_kpts, log1 ++ log2).

End GetInitGuess.

(* ================================================================== *)
(** * The notions of the specification *)
(* ================================================================== *)

(** The notions the specification uses: the diagonal matrix of a real
    vector, the conjugate transpose and Hermitian matrices. *)
Definition diag (v : rvec) : matrix :=
  mk_matrix (length v) (length v) (fun i j => if i =? j then RtoC (vget v i) else C0).
Definition ctranspose (A : matrix) : matrix := conj (transpose A).
Definition hermitian (A : matrix) : Prop := ctranspose A = A.

(** [C . diag(occ) . C^H] *)
Definition density_block (Cm : matrix) (occ : rvec) : matrix :=
  mmul (mmul Cm (diag occ)) (ctranspose Cm).

(** Orbital coefficients of shape (nao, nmo) with nmo occupations. *)
Definition orbitals_ok (nao : nat) (mo : matrix) (occ : rvec) : bool :=
  has_shape nao (length occ) mo && (0 <? length occ).

(** Orbital coefficients of shape (2, nkpts, nao, nmo) with occupations of
    shape (2, nkpts, nmo). *)
Definition orbital_arrays_ok (nkpts nao nmo : nat)
    (mos : spin_pair (list matrix)) (occs : spin_pair (list rvec)) : bool :=
  has_shape3 nkpts nao nmo (fst mos) && has_shape3 nkpts nao nmo (snd mos)
  && (length (fst occs) =? nkpts) && (length (snd occs) =? nkpts)
  && forallb (fun v => length v =? nmo) (fst occs ++ snd occs)
  && (0 <? nmo).

(** The entries of an array have no imaginary part; the entries of an
    array can be held in a dtype. *)
Definition real_entries (A : matrix) : bool :=
  forallb (forallb (fun z => Qceqb (im z) 0)) A.
Definition fits (dt : dtype) (A : matrix) : bool :=
  match dt with
  | Float64 => real_entries A
  | Complex128 => true
  end.

(** The entries of a density block. *)
Definition density_entry (Cm : matrix) (occ : rvec) (a b : nat) : C :=
  sum_n (length occ) (fun j => (mget Cm a j * RtoC (vget occ j) * Cconj (mget Cm b j))%C).

(** The formulas of the specification: the trace of a matrix, the
    one-electron energy and the Coulomb energy as complex numbers. *)
Definition trace (A : matrix) : C := sum_n (nrows A) (fun i => mget A i i).
Definition spec_e1 (nkpts : nat) (dm : spin_pair (list matrix)) (h : list matrix) : C :=
  (RtoC (/ of_nat nkpts)
   * sum_n nkpts (fun k => trace (mmul (nth k (fst dm) []) (nth k h []))
                           + trace (mmul (nth k (snd dm) []) (nth k h []))))%C.
Definition spec_e_coul (nkpts : nat) (dm vhf : spin_pair (list matrix)) : C :=
  (RtoC (/ of_nat nkpts)
   * sum_n nkpts (fun k => trace (mmul (nth k (fst dm) []) (nth k (fst vhf) []))
                           + trace (mmul (nth k (snd dm) []) (nth k (snd vhf) [])))
   / RtoC (of_nat 2))%C.

(** Density, core Hamiltonian and effective potential of shape
    (2, nkpts, nao, nao), (nkpts, nao, nao) and (2, nkpts, nao, nao). *)
Definition energy_inputs_ok (nkpts nao : nat)
    (dm : spin_pair (list matrix)) (h : list matrix) (vhf : spin_pair (list matrix)) : bool :=
  (0 <? nkpts) && (0 <? nao)
  && has_shape3 nkpts nao nao (fst dm) && has_shape3 nkpts nao nao (snd dm)
  && has_shape3 nkpts nao nao h
  && has_shape3 nkpts nao nao (fst vhf) && has_shape3 nkpts nao nao (snd vhf).

(** The number of entries that are at most [x]. *)
Definition count_le (x : Qc) (l : list Qc) : nat :=
  length (filter (fun e => Qcleb e x) l).

(** [sum(occ)] over all the k-points of a channel. *)
Definition total_occ (occs : list rvec) : Qc := Qcsum (map Qcsum occs).

(** The two spin channels and the component of a pair they name. *)
Inductive spin : Set := Alpha | Beta.
Definition channel {A} (s : spin) (p : spin_pair A) : A :=
  match s with Alpha => fst p | Beta => snd p end.

(** All the orbital energies of a channel, pooled over the k-points and
    sorted in ascending order; the Fermi level is its entry of rank
    [n * nkpts - 1]. *)
Definition pooled_sorted (es : list rvec) : list Qc := np_sort (concat es).
Definition fermi_level (n : Z) (nkpts : nat) (es : list rvec) : Qc :=
  nth (Z.to_nat (n * Z.of_nat nkpts) - 1) (pooled_sorted es) 0%Qc.

(** The channel has electrons, the cutoff rank exists, and the entries at
    ranks [n*nkpts - 1] and [n*nkpts] differ (or the latter does not exist). *)
Definition no_tie_at_cutoff (n : Z) (nkpts : nat) (es : list rvec) : bool :=
  let l := pooled_sorted es in
  let c := Z.to_nat (n * Z.of_nat nkpts) in
  (0 <? n)%Z && (0 <? nkpts) && (c <=? length l)
  && ((c =? length l) || Qcltb (nth (c - 1) l 0%Qc) (nth c l 0%Qc)).

(** [mo_energy[n*nkpts - 1]] is a valid Python index of the pooled energies. *)
Definition cutoff_in_range (n : Z) (nkpts : nat) (es : list rvec) : bool :=
  let len := Z.of_nat (length (concat es)) in
  let i := (n * Z.of_nat nkpts - 1)%Z in
  negb (length es =? 0) && (- len <=? i)%Z && (i <? len)%Z.

(** The value Python's [l[i]] has when [i] is a valid index. *)
Definition py_get (l : list Qc) (i : Z) : Qc :=
  nth (Z.to_nat (if (0 <=? i)%Z then i else Z.of_nat (length l) + i)) l 0%Qc.

Section DumpReturns.
Variable get_scaled_kpts : cell -> list kvec -> list kvec.
(** The debug dump is skipped, or every k-point it prints has energies and
    occupations in both channels. *)
Definition dump_returns (m : mf) (es : spin_pair (list rvec)) : bool :=
  (verbose m <? level_num DEBUG)%Z
  || (let n := length (get_scaled_kpts (mf_cell m) (mf_kpts m)) in
      (n <=? length (fst es))
      && ((n =? 0) || ((0 <? snd (nelec m))%Z && (n <=? length (snd es))))).
End DumpReturns.

(** The channel other than [s] does not stop the call: its cutoff index is
    valid (beta is skipped without electrons). *)
Definition other_channel_returns (m : mf) (es : spin_pair (list rvec)) (s : spin) : bool :=
  match s with
  | Alpha => (snd (nelec m) <=? 0)%Z
             || cutoff_in_range (snd (nelec m)) (length (fst es)) (snd es)
  | Beta => cutoff_in_range (fst (nelec m)) (length (fst es)) (fst es)
  end.

Section ShiftedChannel.
Variable mol_hf_level_shift : matrix -> matrix -> matrix -> Qc -> matrix.
(** The level shift of one channel, k-point by k-point. *)
Definition shifted_channel (s_kpts dm f : list matrix) (shift : Qc) : list matrix :=
  map (fun '(k, s) => mol_hf_level_shift s (nth k dm []) (nth k f []) shift)
      (enumerate s_kpts).
End ShiftedChannel.

(** The Hermitian product of two rows over their first [n] entries. *)
Definition gram (n : nat) (r r' : list C) : C :=
  sum_n n (fun m => (nth m r C0 * Cconj (nth m r' C0))%C).

(** The identity matrix and unitary matrices of order [n]. *)
Definition identity (n : nat) : matrix :=
  mk_matrix n n (fun i j => if i =? j then C1 else C0).
Definition unitary (n : nat) (c : matrix) : Prop :=
  has_shape n n c = true
  /\ mmul c (ctranspose c) = identity n
  /\ mmul (ctranspose c) c = identity n.

(** What the embedding asks of [scipy.linalg.eigh]: on a Hermitian matrix
    of order n it returns n eigenvalues and a unitary matrix of
    eigenvectors. *)
Definition eigh_contract (eigh : matrix -> rvec * matrix) : Prop :=
  forall (f : matrix) (n : nat),
    0 < n -> has_shape n n f = true -> hermitian f ->
    length (fst (eigh f)) = n /\ unitary n (snd (eigh f)).

(** [cs[:, idx] = X], row by row. *)
Definition assign_rows (idx : list bool) (cs X : matrix) : matrix :=
  map (fun '(row, new) => mask_assign idx row new) (combine cs X).

(** Occupations that are exactly 0.0 or 1.0, and the occupations of the
    complementary (virtual) orbitals. *)
Definition binary (occ : rvec) : bool :=
  forallb (fun x => Qceqb x 0 || Qceqb x 1) occ.
Definition complement (occ : rvec) : rvec := map (fun x => (1 - x)%Qc) occ.

(** The keys of the guesses that do not read a checkpoint. *)
Definition non_chk_key (key : string) : bool :=
  String.eqb (lower key) "1e" || String.eqb (lower key) "atom"
  || String.eqb (lower key) "minao".

Section SelectedGuess.
Variable mol_uhf_init_guess_by_1e : cell -> spin_pair matrix.
Variable init_guess_by_atom : mf -> cell -> spin_pair matrix.
Variable init_guess_by_minao : mf -> cell -> spin_pair matrix.
(** The k-point-independent density a non-checkpoint key selects: the
    one-electron guess for ['1e'] and for a cell without atoms, else the
    atomic or the minimal-basis guess. *)
Definition selected_guess (self : mf) (c : cell) (key : string) : spin_pair matrix :=
  if String.eqb (lower key) "1e" || (natm c =? 0) then mol_uhf_init_guess_by_1e c
  else if String.eqb (lower key) "atom" then init_guess_by_atom self c
  else init_guess_by_minao self c.
End SelectedGuess.

Section WithinTolerance.
Variable get_ovlp : mf -> cell -> dtype * list matrix.
(** The electron counts of a guess are all within 1e-7 of [cell.nelec]. *)
Definition within_tolerance (self : mf) (c : cell) (dm : spin_pair (list matrix)) : bool :=
  match einsum_xkij_kji dm (snd (get_ovlp self c)) with
  | Ok ne =>
      negb (existsb (fun z => Cabs_gt (z - RtoC (of_Z (fst (cell_nelec c)))) lit_1e_7) (fst ne)
            || existsb (fun z => Cabs_gt (z - RtoC (of_Z (snd (cell_nelec c)))) lit_1e_7) (snd ne))
  | Raise _ => false
  end.
End WithinTolerance.

(** The number of electrons of a density block: its trace against the
    overlap. *)
Definition electron_count (D S : matrix) : C := trace (mmul D S).

(** [cell.nelec[s]] as a number. *)
Definition nelec_of (c : cell) (s : spin) : C := RtoC (of_Z (channel s (cell_nelec c))).

(** Some electron count of the guess is further than 1e-7 from
    [cell.nelec]. *)
Definition deviates (c : cell) (K : nat) (ne : spin -> nat -> C) : bool :=
  existsb (fun k => Cabs_gt (ne Alpha k - nelec_of c Alpha) lit_1e_7) (seq 0 K)
  || existsb (fun k => Cabs_gt (ne Beta k - nelec_of c Beta) lit_1e_7) (seq 0 K).

(** Some coordinate of the k-point exceeds 1e-8 in magnitude. *)
Definition outside_tolerance (k : kvec) : bool :=
  Qcltb lit_1e_8 (Qcabs (kx k)) || Qcltb lit_1e_8 (Qcabs (ky k))
  || Qcltb lit_1e_8 (Qcabs (kz k)).

(** Every entry of every block has imaginary part zero. *)
Definition purely_real (dm : spin_pair (list matrix)) : Prop :=
  forall s k i j, im (mget (nth k (channel s dm) []) i j) = 0%Qc.

(** The index [np.argmin] returns on a non-empty array. *)
Definition argmin (l : list Qc) : nat :=
  match l with
  | [] => 0
  | x :: l' => argmin_from 0 x 1 l'
  end.

(** The checkpoint k-point nearest to a target k-point. *)
Definition nearest (chk_kpts : list kvec) (kpt : kvec) : nat :=
  argmin (map (fun c => dist2 c kpt) chk_kpts).

(** The orbitals, displacements and occupations the nearest-k-point rule
    selects for a target mesh. *)
Definition nearest_indices (chk_kpts kpts : list kvec) : list nat :=
  map (nearest chk_kpts) kpts.
Definition displacements (chk_kpts kpts : list kvec) : list kvec :=
  map (fun kpt => ksub (nth (nearest chk_kpts kpt) chk_kpts kzero) kpt) kpts.
Definition pick {A} (l : list (list A)) (w : list nat) : list (list A) :=
  map (fun i => nth i l []) w.

(* ================================================================== *)
(** * Further functions of kuhf.py *)
(* ================================================================== *)

(** ** KUHF.__init__ *)

(** The electron numbers the constructor stores (lines 275-276):
    [n_b = (cell.nelectron - cell.spin) // 2] and
    [self.nelec = (cell.nelectron - n_b, n_b)].  Python's [//] on integers
    rounds towards minus infinity, as [Z.div] does for a positive divisor. *)
Definition KUHF_init_nelec (nelectron cell_spin : Z) : Z * Z :=
  let n_b := ((nelectron - cell_spin) / 2)%Z in
  ((nelectron - n_b)%Z, n_b).

(** ** KUHF.get_veff *)

(** [A - B] for 2-D arrays and for arrays of shape (nkpts, nao, nao). *)
Definition msub (A B : matrix) : result matrix :=
  if has_shape (nrows A) (ncols A) B
  then Ok (mk_matrix (nrows A) (ncols A) (fun i j => (mget A i j - mget B i j)%C))
  else Raise ValueError.
Definition sub_kpts (A B : list matrix) : result (list matrix) :=
  if length A =? length B
  then mapM (fun '(a, b) => msub a b) (combine A B)
  else Raise ValueError.

Section GetVeff.

(** [self.get_jk(cell, dm_kpts, hermi, kpts, kpts_band)]: the Coulomb and
    the exchange matrices, each of shape (2, nkpts, nao, nao). *)
Variable get_jk :
  mf -> option cell -> option (spin_pair (list matrix)) -> Z ->
  option (list kvec) -> option (list kvec) ->
  spin_pair (list matrix) * spin_pair (list matrix).

(** [vhf = vj[0] + vj[1] - vk]: the sum has shape (nkpts, nao, nao) and is
    subtracted from both spin components of [vk].  The arguments [dm_last]
    and [vhf_last] are not read. *)
Definition KUHF_get_veff (self : mf) (c : option cell)
    (dm_kpts : option (spin_pair (list matrix))) (hermi : Z)
    (kpts kpts_band : option (list kvec))
  : result (spin_pair (list matrix)) :=
  let '(vj, vk) := get_jk self c dm_kpts hermi kpts kpts_band in
  j <- add_kpts (fst vj) (snd vj) ;;
  va <- sub_kpts j (fst vk) ;;
  vb <- sub_kpts j (snd vk) ;;
  Ok (va, vb).

End GetVeff.

(** ** KUHF.get_grad *)

(** [reduce(np.dot, (L.T.conj(), F, R))] for [L] of shape (n, p), [F] of
    shape (n1, n2) and [R] of shape (n3, q).  The two shape tests are made
    on [L], [F] and [R] themselves: when [p = 0] the transposed array has no
    row, and its number of columns could not be read off the nested list. *)
Definition dot3_ctrans (L F R : matrix) : result matrix :=
  if negb (nrows L =? nrows F) then Raise ValueError
  else if negb (ncols F =? nrows R) then Raise ValueError
  else Ok (mmul (mmul (conj (transpose L)) F) R).

(** [g.ravel()] *)
Definition ravel (g : matrix) : list C := concat g.

(** [np.hstack] of a list of 1-D complex arrays. *)
Definition np_hstack_complex (ls : list (list C)) : result (list C) :=
  match ls with
  | [] => Raise ValueError
  | _ => Ok (concat ls)
  end.

(** The local function [grad] (lines 367-371). *)
Definition grad (mo : matrix) (mo_occ_ : rvec) (fock : matrix) : result (list C) :=
  let occidx := map (fun x => Qcltb 0 x) mo_occ_ in
  let viridx := map negb occidx in
  orb_v <- select_cols mo viridx ;;
  orb_o <- select_cols mo occidx ;;
  g <- dot3_ctrans orb_v fock orb_o ;;
  Ok (ravel g).

(** The gradients of one spin channel, k-point by k-point. *)
Definition grad_channel (nkpts : nat) (mos : list matrix) (occs : list rvec)
    (fock : list matrix) : result (list (list C)) :=
  mapM (fun k =>
          mo <- py_nth mos k ;;
          occ <- py_nth occs k ;;
          f <- py_nth fock k ;;
          grad mo occ f)
       (seq 0 nkpts).

Section GetGrad.

(** [self.get_hcore(cell, kpts)] and [self.get_jk], which [self.get_veff]
    calls. *)
Variable get_hcore : mf -> cell -> list kvec -> list matrix.
Variable get_jk :
  mf -> option cell -> option (spin_pair (list matrix)) -> Z ->
  option (list kvec) -> option (list kvec) ->
  spin_pair (list matrix) * spin_pair (list matrix).

Definition get_grad (self : mf)
    (mo_coeff_kpts : spin_pair (list matrix))
    (mo_occ_kpts : spin_pair (list rvec))
    (fock : option (spin_pair (list matrix)))
  : result (list C) :=
  fock <- match fock with
          | Some f => Ok f
          | None =>
              dm1 <- make_rdm1 mo_coeff_kpts mo_occ_kpts ;;
              let h := get_hcore self (mf_cell self) (mf_kpts self) in
              v <- KUHF_get_veff get_jk self (Some (mf_cell self)) (Some dm1) 1%Z
                     None None ;;
              fa <- add_kpts h (fst v) ;;
              fb <- add_kpts h (snd v) ;;
              Ok (fa, fb)
          end ;;
  let nkpts := length (mf_kpts self) in
  ga <- grad_channel nkpts (fst mo_coeff_kpts) (fst mo_occ_kpts) (fst fock) ;;
  gb <- grad_channel nkpts (snd mo_coeff_kpts) (snd mo_occ_kpts) (snd fock) ;;
  np_hstack_complex (ga ++ gb).

End GetGrad.

(** ** KUHF.spin_square *)

Definition lit_0_25 : Qc := Q2Qc (1 # 4).

(** [np.einsum('ij,ij->', A, B)] *)
Definition einsum_ij_ij (A B : matrix) : result C :=
  if has_shape (nrows A) (ncols A) B
  then Ok (sum_n (nrows A) (fun i => sum_n (ncols A) (fun j =>
         (mget A i j * mget B i j)%C)))
  else Raise ValueError.

(** [sum([mo[k].shape[1] for k in range(nkpts)])] *)
Definition count_columns (nkpts : nat) (mo : list matrix) : result nat :=
  ns <- mapM (fun k => m <- py_nth mo k ;; Ok (ncols m)) (seq 0 nkpts) ;;
  Ok (fold_right Nat.add 0 ns).

(** The occupied orbitals of one spin channel taken from the object
    (lines 439, 440). *)
Definition occupied_orbitals (self : mf) (nkpts : nat)
    (x : spin) : result (list matrix) :=
  mapM (fun k =>
          c <- not_none (mo_coeff self) ;;
          mo <- py_nth (channel x c) k ;;
          o <- not_none (mo_occ self) ;;
          occ <- py_nth (channel x o) k ;;
          select_cols mo (map (fun x => Qcltb 0 x) occ))
       (seq 0 nkpts).

(** The loop of lines 449-451: [ssxy] after the k-points [k0 .. k0+n-1]. *)
Fixpoint ssxy_loop (mo_a mo_b s : list matrix) (k0 n : nat) (ssxy : Qc) : result Qc :=
  match n with
  | O => Ok ssxy
  | S n' =>
      a <- py_nth mo_a k0 ;;
      sk <- py_nth s k0 ;;
      b <- py_nth mo_b k0 ;;
      sij <- dot3_ctrans a sk b ;;
      t <- einsum_ij_ij (conj sij) sij ;;
      ssxy_loop mo_a mo_b s (S k0) n' (ssxy - re t)%Qc
  end.

Section SpinSquare.

(** [self.get_ovlp()] and [np.sqrt]. *)
Variable get_ovlp : mf -> list matrix.
Variable np_sqrt : Qc -> Qc.

Definition spin_square (self : mf)
    (mo_coeff_ : option (list matrix * list matrix))
    (s : option (list matrix)) : result (Qc * Qc) :=
  let nkpts := length (mf_kpts self) in
  '(mo_a, mo_b) <- match mo_coeff_ with
                   | None =>
                       mo_a <- occupied_orbitals self nkpts Alpha ;;
                       mo_b <- occupied_orbitals self nkpts Beta ;;
                       Ok (mo_a, mo_b)
                   | Some p => Ok p
                   end ;;
  let s := match s with Some s => s | None => get_ovlp self end in
  nelec_a <- count_columns nkpts mo_a ;;
  nelec_b <- count_columns nkpts mo_b ;;
  let ssxy := (of_nat (nelec_a + nelec_b) * lit_0_5)%Qc in
  ssxy <- ssxy_loop mo_a mo_b s 0 nkpts ssxy ;;
  let d := (Z.of_nat nelec_b - Z.of_nat nelec_a)%Z in
  let ssz := (of_Z (d * d) * lit_0_25)%Qc in
  let ss := (ssxy + ssz)%Qc in
  let s := (np_sqrt (ss + lit_0_25) - lit_0_5)%Qc in
  Ok (ss, (s * of_nat 2 + 1)%Qc).

End SpinSquare.

(** ** KUHF.init_guess_by_chkfile *)

Section KUHFInitGuessByChkfile.

Variable project_mo_nr2nr : cell -> matrix -> cell -> matrix.
Variable project_mo_nr2nr_kpts : cell -> list matrix -> cell -> list kvec -> list matrix.
(** [chkfile.load_scf(chkfile_name)] *)
Variable load_scf : string -> result (cell * scf_rec).

(** The method: [chk] defaults to [self.chkfile], [kpts] to [self.kpts]. *)
Definition KUHF_init_guess_by_chkfile (self : mf) (chk : option string)
    (project : bool) (kpts : option (list kvec))
  : result (spin_pair (list matrix)) :=
  let chk := match chk with Some c => c | None => chkfile self end in
  let kpts := match kpts with Some k => k | None => mf_kpts self end in
  rec <- load_scf chk ;;
  init_guess_by_chkfile project_mo_nr2nr project_mo_nr2nr_kpts
    (mf_cell self) rec project (Some kpts).

End KUHFInitGuessByChkfile.

(** ** Notions for the further properties *)

(** The pooled, ascending energies of a channel have equal entries at the
    ranks [n*nkpts - 1] and [n*nkpts]: the Fermi level is degenerate. *)
Definition tie_at_cutoff (n : Z) (nkpts : nat) (es : list rvec) : bool :=
  let l := pooled_sorted es in
  let c := Z.to_nat (n * Z.of_nat nkpts) in
  (0 <? c) && (c <? length l) && Qceqb (nth (c - 1) l 0%Qc) (nth c l 0%Qc).

(** The entrywise sum of two arrays of shape (nkpts, n, n). *)
Definition kpts_sum (n : nat) (A B : list matrix) : list matrix :=
  map (fun '(a, b) => mk_matrix n n (fun i j => (mget a i j + mget b i j)%C))
      (combine A B).

(** Orbitals that are orthonormal in the metric of an overlap matrix:
    [C^H S C] is the identity of order [nmo]. *)
Definition orthonormal (S mo : matrix) (nmo : nat) : Prop :=
  mmul (mmul (ctranspose mo) S) mo = identity nmo.

(** The alpha and beta occupations a restricted record is split into: an
    orbital with occupation above 1e-8 has one alpha electron, the rest of
    its occupation is beta. *)
Definition alpha_part (occ : rvec) : rvec :=
  map (fun x => if Qcltb lit_1e_8 x then 1%Qc else 0%Qc) occ.
Definition beta_part (occ : rvec) : rvec :=
  map (fun x => (x - (if Qcltb lit_1e_8 x then 1 else 0))%Qc) occ.

(** Two lists of one length agree at the positions a predicate selects;
    two arrays agree there in every row. *)
Definition agree_on {A} (P : nat -> bool) (l l' : list A) : Prop :=
  length l = length l' /\ forall j d, P j = true -> nth j l d = nth j l' d.
Definition agree_rows (P : nat -> bool) (cs cs' : matrix) : Prop :=
  length cs = length cs' /\ forall a, agree_on P (nth a cs []) (nth a cs' []).

(** The mask of the orbitals [canonicalize] treats as occupied, the Fock
    matrix in the basis of the orbitals a mask selects, and an eigensolver
    result that diagonalises its argument: [c^H f c = diag(e)]. *)
Definition occupied_mask (occ : rvec) : list bool := map (fun x => Qceqb x 1) occ.
Definition fock_block (F mo : matrix) (idx : list bool) : matrix :=
  mmul (mmul (ctranspose (map (mask_select idx) mo)) F) (map (mask_select idx) mo).
Definition diagonalised_by (f : matrix) (r : rvec * matrix) : Prop :=
  length (fst r) = nrows f
  /\ has_shape (nrows f) (nrows f) (snd r) = true
  /\ mmul (mmul (ctranspose (snd r)) f) (snd r) = diag (fst r).

(** The positions a mask selects, in ascending order. *)
Fixpoint positions_from (i : nat) (mask : list bool) : list nat :=
  match mask with
  | [] => []
  | b :: mask' =>
      if b then i :: positions_from (S i) mask' else positions_from (S i) mask'
  end.
Definition positions (mask : list bool) : list nat := positions_from 0 mask.

(** The masks of [get_grad]: an orbital is occupied when its occupation is
    positive.  The Fock matrix in the basis of all the orbitals. *)
Definition positive_mask (occ : rvec) : list bool := map (fun x => Qcltb 0 x) occ.
Definition fock_mo (F mo : matrix) : matrix := mmul (mmul (ctranspose mo) F) mo.

(** The virtual-occupied block of the Fock matrix of one k-point, as
    [grad] builds it. *)
Definition ov_block (F mo : matrix) (occ : rvec) : matrix :=
  mmul (mmul (conj (transpose (map (mask_select (map negb (positive_mask occ))) mo))) F)
       (map (mask_select (positive_mask occ)) mo).

(** The Fock matrix couples no virtual orbital (occupation not positive)
    to an occupied one at any k-point of the channel. *)
Definition brillouin (fock mos : list matrix) (occs : list rvec) : Prop :=
  forall k p q, k < length occs ->
    p < length (nth k occs []) -> q < length (nth k occs []) ->
    nth p (positive_mask (nth k occs [])) false = false ->
    nth q (positive_mask (nth k occs [])) false = true ->
    mget (fock_mo (nth k fock []) (nth k mos [])) p q = C0.

(** The number of entries of the gradient of one spin channel. *)
Definition grad_size (occs : list rvec) : nat :=
  fold_right Nat.add 0
    (map (fun occ => count_nonzero (map negb (positive_mask occ))
                     * count_nonzero (positive_mask occ)) occs).

(** The number of columns of the orbital matrices of all the k-points. *)
Definition n_columns (mo : list matrix) : nat := fold_right Nat.add 0 (map ncols mo).

(* ================================================================== *)
(** * Example data *)
(* ================================================================== *)

(** A complex example: two orbitals on two basis functions, one occupied. *)
Definition Ci : C := mkC 0 1.
Definition ex_mo : matrix := [[C1; Ci]; [Ci; C1]].
Definition ex_occ : rvec := [1%Qc; 0%Qc].

(** A KUHF object with two alpha and two beta electrons on two k-points,
    silent (verbose = 0). *)
Definition ex_cell : cell := Cell 2 3 (2, 2)%Z.
Definition ex_kpts : list kvec := [kzero; K3 lit_0_5 0 0].
Definition ex_mf : mf :=
  MF ex_cell ex_kpts (2, 2)%Z 0%Z (LsReal 0) 1%Z 0 None None None "kuhf.chk".

(** One basis function, two k-points. *)
Definition ex_dm1 : spin_pair (list matrix) := ([[[C1]]; [[C1]]], [[[C1]]; [[C1]]]).
Definition ex_h1 : list matrix := [[[RtoC (of_nat 2)]]; [[RtoC (of_nat 4)]]].
Definition ex_vhf1 : spin_pair (list matrix) :=
  ([[[RtoC (of_nat 3)]]; [[RtoC (of_nat 5)]]], [[[C1]]; [[RtoC (of_nat 3)]]]).

(** One k-point, one basis function: the density [[1]], [[0]] and the
    effective potential [[-2i]], [[0]]. *)
Definition bug_dm : spin_pair (list matrix) := ([[[C1]]], [[[C0]]]).
Definition bug_h : list matrix := [[[C0]]].
Definition bug_vhf : spin_pair (list matrix) :=
  ([[[mkC 0 (- of_nat 2)]]], [[[C0]]]).

(** Two k-points with three orbitals each, two electrons per cell and spin:
    the four lowest pooled energies are -2, -1, 0, 1, so three orbitals are
    filled at the first k-point and one at the second. *)
Definition ex_energies : list rvec :=
  [[of_Z (-2); of_Z (-1); of_Z 1]; [of_Z 0; of_Z 4; of_Z 5]].

(** An eigensolver for matrices that are already diagonal: the diagonal
    entries with the unit vectors. *)
Definition eigh_diagonal (f : matrix) : rvec * matrix :=
  (map (fun i => re (mget f i i)) (seq 0 (nrows f)), identity (nrows f)).

(** Two basis functions, one k-point, the first orbital occupied; the Fock
    matrix is diagonal in the orbitals. *)
Definition ex_unit_mo : matrix := [[C1; C0]; [C0; C1]].
Definition ex_fock : matrix := [[C1; C0]; [C0; RtoC (of_nat 2)]].

(** Two occupied orbitals, a complex Hermitian Fock matrix with the
    eigenvalues 0 and 25 and unitary eigenvectors of it; the real parts of
    the eigenvectors and their density. *)
Definition ex_occ_full : rvec := [1%Qc; 1%Qc].
Definition ex_fock_complex : matrix :=
  [[RtoC (of_nat 16); mkC 0 (of_nat 12)]; [mkC 0 (- of_nat 12); RtoC (of_nat 9)]].
Definition ex_evals : rvec := [0%Qc; of_nat 25].
Definition ex_evecs : matrix :=
  [[RtoC (- Q2Qc (3 # 5)); RtoC (- Q2Qc (4 # 5))];
   [mkC 0 (- Q2Qc (4 # 5)); mkC 0 (Q2Qc (3 # 5))]].
Definition ex_mo_cast : matrix :=
  [[RtoC (- Q2Qc (3 # 5)); RtoC (- Q2Qc (4 # 5))]; [C0; C0]].
Definition ex_dm_cast : matrix := [[C1; C0]; [C0; C0]].

(** A two-dimensional cell with one electron per spin, one basis function
    and one k-point; every molecular guess is the density [[1]], [[1]] and
    the overlap is [[1]]. *)
Definition ex_cell_2d : cell := Cell 1 2 (1, 1)%Z.
Definition ex_mf_2d : mf :=
  MF ex_cell_2d [kzero] (1, 1)%Z 0%Z (LsReal 0) 1%Z 0 None None None "kuhf.chk".
Definition ex_guess : spin_pair matrix := ([[C1]], [[C1]]).
(** The same cell sampled at the single k-point (1/2, 0, 0), where the
    overlap integrals are a complex128 array. *)
Definition ex_mf_2d_k : mf :=
  MF ex_cell_2d [K3 lit_0_5 0 0] (1, 1)%Z 0%Z (LsReal 0) 1%Z 0 None None None "kuhf.chk".
Definition ex_mf_3d : mf :=
  MF (Cell 1 3 (1, 1)%Z) [kzero; kzero] (1, 1)%Z 0%Z (LsReal 0) 1%Z 0 None None None "kuhf.chk".

(** A checkpoint of a k-point UHF run with one k-point at (1e-9, 0, 0) and
    complex orbitals, read back on the same mesh without projection. *)
Definition k_tiny : kvec := K3 (Q2Qc (1 # 1000000000)) 0 0.
Definition ex_rec_tiny : scf_rec :=
  RecKpts None [k_tiny] (KptsUHF ([ex_mo], [ex_mo]) ([ex_occ], [ex_occ])).

(** A checkpoint on the mesh {0, (1/2,0,0)} with the orbitals [[1]] and
    [[2]], read back on the single k-point (2/5, 0, 0): the nearest
    checkpoint k-point is the second one. *)
Definition ex_mos2 : list matrix := [[[C1]]; [[RtoC (of_nat 2)]]].
Definition ex_occs2 : list rvec := [[1%Qc]; [1%Qc]].
Definition ex_rec2 : scf_rec :=
  RecKpts None ex_kpts (KptsUHF (ex_mos2, ex_mos2) (ex_occs2, ex_occs2)).
Definition k_near : kvec := K3 (Q2Qc (2 # 5)) 0 0.

(** The same orbitals on the checkpoint mesh {0, (1e-9,0,0)}. *)
Definition ex_rec_swapped : scf_rec :=
  RecKpts None [kzero; k_tiny] (KptsUHF (ex_mos2, ex_mos2) (ex_occs2, ex_occs2)).

(** The object of [ex_mf] without alpha electrons, without beta electrons,
    and without beta electrons at debug verbosity. *)
Definition ex_mf_no_alpha : mf :=
  MF ex_cell ex_kpts (0, 2)%Z 0%Z (LsReal 0) 1%Z 0 None None None "kuhf.chk".
Definition ex_mf_no_beta : mf :=
  MF ex_cell ex_kpts (2, 0)%Z 0%Z (LsReal 0) 1%Z 0 None None None "kuhf.chk".
Definition ex_mf_no_beta_debug : mf :=
  MF ex_cell ex_kpts (2, 0)%Z 5%Z (LsReal 0) 1%Z 0 None None None "kuhf.chk".

(** Four electrons per spin and cell: eight alpha electrons on two k-points. *)
Definition ex_mf_crowded : mf :=
  MF ex_cell ex_kpts (4, 4)%Z 0%Z (LsReal 0) 1%Z 0 None None None "kuhf.chk".

(** Two k-points whose pooled energies -1, 0, 0, 2 are degenerate at the
    second rank. *)
Definition ex_energies_tie : list rvec := [[of_Z (-1); of_Z 0]; [of_Z 0; of_Z 2]].
Definition ex_mf_one : mf :=
  MF ex_cell ex_kpts (1, 1)%Z 0%Z (LsReal 0) 1%Z 0 None None None "kuhf.chk".

(** Three orbitals on two basis functions at each of two k-points. *)
Definition ex_mo3 : matrix := [[C1; C0; Ci]; [C0; C1; C1]].

(** An extrapolator that counts its calls and returns the Fock matrix it
    is given. *)
Definition ex_diis_update (d : nat) (s : list matrix) (dm f : spin_pair (list matrix))
    (m : mf) (h : list matrix) (v : spin_pair (list matrix))
  : spin_pair (list matrix) * nat := (f, S d).

(** An object on a three-dimensional cell without atoms. *)
Definition ex_mf_no_atoms : mf :=
  MF (Cell 0 3 (1, 1)%Z) [kzero; kzero] (1, 1)%Z 0%Z (LsReal 0) 1%Z 0 None None None
     "kuhf.chk".

(** Two orbitals that are orthonormal in the metric diag(4, 1). *)
Definition ex_ovlp : matrix := [[RtoC (of_nat 4); C0]; [C0; C1]].
Definition ex_mo_metric : matrix := [[RtoC lit_0_5; C0]; [C0; Ci]].

(** A checkpoint of a restricted k-point run on the mesh [ex_kpts]: three
    orbitals on two basis functions, the first doubly and the second singly
    occupied. *)
Definition ex_rec_rhf : scf_rec :=
  RecKpts None ex_kpts
    (KptsRHF [ex_mo3; ex_mo3] [[of_nat 2; 1%Qc; 0%Qc]; [of_nat 2; 1%Qc; 0%Qc]]).

(** Orbitals on two basis functions without any column: no electron. *)
Definition ex_mo_none : matrix := [[]; []].

(* ================================================================== *)
(** * Properties *)
(* ================================================================== *)

(** ** Numbers *)

Lemma Qcltb_true (x y : Qc) : Qcltb x y = true <-> (x < y)%Qc.
Proof.
  unfold Qcltb. destruct (Qclt_le_dec x y) as [H|H]; split; intro K; auto.
  - discriminate.
  - exfalso. exact (Qcle_not_lt _ _ H K).
Qed.

Lemma Qcltb_false (x y : Qc) : Qcltb x y = false <-> (y <= x)%Qc.
Proof.
  unfold Qcltb. destruct (Qclt_le_dec x y) as [H|H]; split; intro K; auto.
  - discriminate.
  - exfalso. exact (Qcle_not_lt _ _ K H).
Qed.

Lemma Qcleb_true (x y : Qc) : Qcleb x y = true <-> (x <= y)%Qc.
Proof.
  unfold Qcleb. destruct (Qclt_le_dec y x) as [H|H]; split; intro K; auto.
  - discriminate.
  - exfalso. exact (Qcle_not_lt _ _ K H).
Qed.

Lemma Qcleb_false (x y : Qc) : Qcleb x y = false <-> (y < x)%Qc.
Proof.
  unfold Qcleb. destruct (Qclt_le_dec y x) as [H|H]; split; intro K; auto.
  - discriminate.
  - exfalso. exact (Qcle_not_lt _ _ H K).
Qed.

Lemma Qceqb_true (x y : Qc) : Qceqb x y = true <-> x = y.
Proof.
  unfold Qceqb. destruct (Qc_eq_dec x y); split; intro K; auto; try discriminate;
    try contradiction.
Qed.

Lemma Qceqb_refl (x : Qc) : Qceqb x x = true.
Proof. apply Qceqb_true. reflexivity. Qed.

Lemma C_eq (a b : C) : re a = re b -> im a = im b -> a = b.
Proof. destruct a, b; simpl; intros; subst; reflexivity. Qed.

Ltac cring :=
  intros; apply C_eq;
  unfold Cadd, Cmul, Csub, Copp, Cconj, RtoC, C0, C1; cbn [re im]; ring.

Lemma Cring_theory : ring_theory C0 C1 Cadd Cmul Csub Copp (@eq C).
Proof. constructor; cring. Qed.

Add Ring Cring : Cring_theory.

Lemma Cconj_add (a b : C) : Cconj (a + b) = (Cconj a + Cconj b)%C.
Proof. cring. Qed.
Lemma Cconj_mul (a b : C) : Cconj (a * b) = (Cconj a * Cconj b)%C.
Proof. cring. Qed.
Lemma Cconj_conj (a : C) : Cconj (Cconj a) = a.
Proof. cring. Qed.
Lemma Cconj_RtoC (x : Qc) : Cconj (RtoC x) = RtoC x.
Proof. cring. Qed.
Lemma Cconj_0 : Cconj C0 = C0.
Proof. cring. Qed.

(** ** Finite sums *)

Lemma sum_n_ext (n : nat) (f g : nat -> C) :
  (forall i, i < n -> f i = g i) -> sum_n n f = sum_n n g.
Proof.
  induction n as [|n IH]; intro H; simpl; [reflexivity|].
  rewrite IH by (intros; apply H; lia). rewrite H by lia. reflexivity.
Qed.

Lemma sum_n_zero (n : nat) : sum_n n (fun _ => C0) = C0.
Proof. induction n as [|n IH]; simpl; [reflexivity|]. rewrite IH. ring. Qed.

Lemma sum_n_add (n : nat) (f g : nat -> C) :
  sum_n n (fun i => (f i + g i)%C) = (sum_n n f + sum_n n g)%C.
Proof. induction n as [|n IH]; simpl; [ring|]. rewrite IH. ring. Qed.

Lemma sum_n_mul_l (n : nat) (c : C) (f : nat -> C) :
  sum_n n (fun i => (c * f i)%C) = (c * sum_n n f)%C.
Proof. induction n as [|n IH]; simpl; [ring|]. rewrite IH. ring. Qed.

Lemma sum_n_mul_r (n : nat) (c : C) (f : nat -> C) :
  sum_n n (fun i => (f i * c)%C) = (sum_n n f * c)%C.
Proof. induction n as [|n IH]; simpl; [ring|]. rewrite IH. ring. Qed.

Lemma sum_n_conj (n : nat) (f : nat -> C) :
  Cconj (sum_n n f) = sum_n n (fun i => Cconj (f i)).
Proof.
  induction n as [|n IH]; simpl; [apply Cconj_0|].
  rewrite Cconj_add, IH. reflexivity.
Qed.

Lemma sum_n_swap (n m : nat) (f : nat -> nat -> C) :
  sum_n n (fun i => sum_n m (fun j => f i j))
  = sum_n m (fun j => sum_n n (fun i => f i j)).
Proof.
  induction n as [|n IH]; simpl.
  - symmetry. apply sum_n_zero.
  - rewrite IH, <- sum_n_add. reflexivity.
Qed.

Lemma sum_n_shift (n : nat) (f : nat -> C) :
  sum_n (S n) f = (f 0 + sum_n n (fun i => f (S i)))%C.
Proof.
  induction n as [|n IH].
  - simpl. ring.
  - change (sum_n (S (S n)) f) with (sum_n (S n) f + f (S n))%C.
    rewrite IH. simpl. ring.
Qed.

(** A sum against a Kronecker delta picks one term. *)
Lemma sum_n_delta (n k : nat) (f : nat -> C) :
  k < n ->
  sum_n n (fun l => if l =? k then f l else C0) = f k.
Proof.
  induction n as [|n IH]; intro H; [lia|]. simpl.
  destruct (Nat.eq_dec k n) as [->|Hne].
  - rewrite Nat.eqb_refl.
    rewrite (sum_n_ext n _ (fun _ => C0)).
    + rewrite sum_n_zero. ring.
    + intros i Hi. destruct (Nat.eqb_spec i n); [lia|reflexivity].
  - rewrite IH by lia. destruct (Nat.eqb_spec n k); [lia|]. ring.
Qed.

(** ** Shapes and entries of nested lists *)

Lemma has_shape_iff (n m : nat) (A : matrix) :
  has_shape n m A = true <-> length A = n /\ Forall (fun r => length r = m) A.
Proof.
  unfold has_shape. rewrite andb_true_iff, Nat.eqb_eq, forallb_forall, Forall_forall.
  split; intros [H1 H2]; split; auto; intros r Hr.
  - apply Nat.eqb_eq. auto.
  - apply Nat.eqb_eq. auto.
Qed.

Lemma has_shape_nrows (n m : nat) (A : matrix) :
  has_shape n m A = true -> nrows A = n.
Proof. intro H. apply has_shape_iff in H. tauto. Qed.

Lemma has_shape_ncols (n m : nat) (A : matrix) :
  has_shape n m A = true -> 0 < n -> ncols A = m.
Proof.
  intros H Hn. apply has_shape_iff in H. destruct H as [H1 H2].
  unfold ncols. destruct A as [|r A]; simpl in *; [lia|].
  inversion H2; auto.
Qed.

Lemma has_shape_row (n m : nat) (A : matrix) (i : nat) :
  has_shape n m A = true -> i < n -> length (nth i A []) = m.
Proof.
  intros H Hi. apply has_shape_iff in H. destruct H as [H1 H2].
  rewrite Forall_forall in H2. apply H2. apply nth_In. lia.
Qed.

Lemma mk_matrix_length (n m : nat) (f : nat -> nat -> C) :
  length (mk_matrix n m f) = n.
Proof. unfold mk_matrix. rewrite length_map, length_seq. reflexivity. Qed.

Lemma has_shape_mk (n m : nat) (f : nat -> nat -> C) :
  has_shape n m (mk_matrix n m f) = true.
Proof.
  apply has_shape_iff. split; [apply mk_matrix_length|].
  unfold mk_matrix. apply Forall_forall. intros r Hr.
  apply in_map_iff in Hr. destruct Hr as [i [<- _]].
  rewrite length_map, length_seq. reflexivity.
Qed.

Lemma nrows_mk (n m : nat) (f : nat -> nat -> C) : nrows (mk_matrix n m f) = n.
Proof. apply mk_matrix_length. Qed.

Lemma ncols_mk (n m : nat) (f : nat -> nat -> C) :
  0 < n -> ncols (mk_matrix n m f) = m.
Proof. intro H. exact (has_shape_ncols n m _ (has_shape_mk n m f) H). Qed.

Lemma mget_mk (n m : nat) (f : nat -> nat -> C) (i j : nat) :
  i < n -> j < m -> mget (mk_matrix n m f) i j = f i j.
Proof.
  intros Hi Hj. unfold mget, mk_matrix.
  rewrite (nth_indep _ [] (map (fun j => f 0 j) (seq 0 m)))
    by (rewrite length_map, length_seq; exact Hi).
  rewrite (map_nth (fun i => map (fun j => f i j) (seq 0 m)) (seq 0 n) 0 i).
  rewrite seq_nth by exact Hi. simpl.
  rewrite (nth_indep _ C0 (f i 0)) by (rewrite length_map, length_seq; exact Hj).
  rewrite (map_nth (fun j => f i j) (seq 0 m) 0 j).
  rewrite seq_nth by exact Hj. reflexivity.
Qed.

Lemma mk_matrix_ext (n m : nat) (f g : nat -> nat -> C) :
  (forall i j, i < n -> j < m -> f i j = g i j) ->
  mk_matrix n m f = mk_matrix n m g.
Proof.
  intro H. unfold mk_matrix. apply map_ext_in. intros i Hi.
  apply in_seq in Hi. apply map_ext_in. intros j Hj. apply in_seq in Hj.
  apply H; lia.
Qed.

(** A well-shaped matrix is the table of its entries. *)
Lemma matrix_eta (n m : nat) (A : matrix) :
  has_shape n m A = true -> A = mk_matrix n m (mget A).
Proof.
  intro H. pose proof H as H0. apply has_shape_iff in H. destruct H as [H1 H2].
  apply (nth_ext _ _ [] []).
  - rewrite mk_matrix_length. exact H1.
  - intros i Hi. rewrite H1 in Hi.
    apply (nth_ext _ _ C0 C0).
    + rewrite (has_shape_row n m A i H0 Hi).
      rewrite (has_shape_row n m _ i (has_shape_mk n m _) Hi). reflexivity.
    + intros j Hj. rewrite (has_shape_row n m A i H0 Hi) in Hj.
      change (mget A i j = mget (mk_matrix n m (mget A)) i j).
      rewrite mget_mk by assumption. reflexivity.
Qed.

Lemma matrix_ext (n m : nat) (A B : matrix) :
  has_shape n m A = true -> has_shape n m B = true ->
  (forall i j, i < n -> j < m -> mget A i j = mget B i j) -> A = B.
Proof.
  intros HA HB H. rewrite (matrix_eta n m A HA), (matrix_eta n m B HB).
  apply mk_matrix_ext. exact H.
Qed.

Lemma mget_conj (A : matrix) (i j : nat) : mget (conj A) i j = Cconj (mget A i j).
Proof.
  unfold mget, conj.
  change (@nil C) with (map Cconj []) at 1. rewrite map_nth.
  rewrite <- Cconj_0 at 1. rewrite map_nth. reflexivity.
Qed.

Lemma has_shape_conj (n m : nat) (A : matrix) :
  has_shape n m A = true -> has_shape n m (conj A) = true.
Proof.
  rewrite !has_shape_iff. intros [H1 H2]. unfold conj. split.
  - rewrite length_map. exact H1.
  - apply Forall_map. eapply Forall_impl; [|exact H2].
    intros r Hr. simpl. rewrite length_map. exact Hr.
Qed.

Lemma has_shape_transpose (n m : nat) (A : matrix) :
  has_shape n m A = true -> 0 < n -> has_shape m n (transpose A) = true.
Proof.
  intros H Hn. unfold transpose.
  rewrite (has_shape_ncols n m A H Hn), (has_shape_nrows n m A H).
  apply has_shape_mk.
Qed.

Lemma mget_transpose (n m : nat) (A : matrix) (i j : nat) :
  has_shape n m A = true -> i < m -> j < n -> mget (transpose A) i j = mget A j i.
Proof.
  intros H Hi Hj. unfold transpose.
  rewrite (has_shape_ncols n m A H) by lia. rewrite (has_shape_nrows n m A H).
  rewrite mget_mk by assumption. reflexivity.
Qed.

(** ** The error monad *)

Lemma mapM_ok_map {A B} (f : A -> result B) (g : A -> B) (l : list A) :
  (forall x, In x l -> f x = Ok (g x)) -> mapM f l = Ok (map g l).
Proof.
  induction l as [|x l IH]; intro H; simpl; [reflexivity|].
  rewrite (H x) by (left; reflexivity).
  rewrite IH by (intros; apply H; right; assumption). reflexivity.
Qed.

Lemma py_nth_ok {A} (l : list A) (k : nat) (d : A) :
  k < length l -> py_nth l k = Ok (nth k l d).
Proof.
  intro H. unfold py_nth. rewrite (nth_error_nth' l d H). reflexivity.
Qed.

Lemma map_seq_combine {A B D} (h : A -> B -> D) (l1 : list A) (l2 : list B)
    (d1 : A) (d2 : B) (n : nat) :
  length l1 = n -> length l2 = n ->
  map (fun k => h (nth k l1 d1) (nth k l2 d2)) (seq 0 n)
  = map (fun '(x, y) => h x y) (combine l1 l2).
Proof.
  intros H1 H2. apply (nth_ext _ _ (h d1 d2) (h d1 d2)).
  - rewrite !length_map, length_seq, length_combine. lia.
  - intros i Hi. rewrite length_map, length_seq in Hi.
    set (F := fun k => h (nth k l1 d1) (nth k l2 d2)).
    set (G := fun p : A * B => let '(x, y) := p in h x y).
    transitivity (F i).
    + rewrite (nth_indep (map F (seq 0 n)) (h d1 d2) (F 0))
        by (rewrite length_map, length_seq; exact Hi).
      rewrite (map_nth F (seq 0 n) 0 i). rewrite seq_nth by exact Hi. reflexivity.
    + change (h d1 d2) with (G (d1, d2)).
      rewrite (map_nth G (combine l1 l2) (d1, d2) i).
      rewrite combine_nth by lia. reflexivity.
Qed.

Lemma mapM_ext_in {A B} (f g : A -> result B) (l : list A) :
  (forall x, In x l -> f x = g x) -> mapM f l = mapM g l.
Proof.
  induction l as [|x l IH]; intro H; simpl; [reflexivity|].
  rewrite (H x) by (left; reflexivity).
  rewrite IH by (intros; apply H; right; assumption). reflexivity.
Qed.

(** ** make_rdm1 (C3) *)

Lemma density_block_entries (nao : nat) (mo : matrix) (occ : rvec) :
  0 < nao -> orbitals_ok nao mo occ = true ->
  density_block mo occ = mk_matrix nao nao (density_entry mo occ).
Proof.
  intros Hn H. unfold orbitals_ok in H. apply andb_true_iff in H.
  destruct H as [Hs Hm]. apply Nat.ltb_lt in Hm.
  set (nmo := length occ) in *.
  unfold density_block, mmul, ctranspose.
  assert (Hd : has_shape nmo nmo (diag occ) = true) by apply has_shape_mk.
  rewrite (has_shape_nrows _ _ _ Hs), (has_shape_ncols _ _ _ Hs Hn).
  rewrite (has_shape_ncols _ _ _ Hd Hm).
  rewrite nrows_mk, (ncols_mk nao nmo _ Hn).
  pose proof (has_shape_conj _ _ _ (has_shape_transpose _ _ _ Hs Hn)) as Ht.
  rewrite (has_shape_ncols _ _ _ Ht Hm).
  apply mk_matrix_ext. intros a b Ha Hb. unfold density_entry. fold nmo.
  apply sum_n_ext. intros j Hj.
  rewrite mget_mk by assumption.
  rewrite mget_conj, (mget_transpose nao nmo) by assumption.
  f_equal.
  rewrite (sum_n_ext nmo _ (fun l => if l =? j then (mget mo a l * RtoC (vget occ l))%C else C0)).
  - apply sum_n_delta. exact Hj.
  - intros l Hl. unfold diag. fold nmo. rewrite mget_mk by assumption.
    destruct (l =? j); ring.
Qed.

Lemma make_dm_block (nao : nat) (mo : matrix) (occ : rvec) :
  0 < nao -> orbitals_ok nao mo occ = true ->
  (scaled <- mul_cols mo occ ;; np_dot scaled (conj (transpose mo)))
  = Ok (density_block mo occ).
Proof.
  intros Hn H. rewrite (density_block_entries nao mo occ Hn H).
  unfold orbitals_ok in H. apply andb_true_iff in H.
  destruct H as [Hs Hm]. apply Nat.ltb_lt in Hm.
  set (nmo := length occ) in *.
  unfold mul_cols. rewrite (has_shape_ncols _ _ _ Hs Hn).
  fold nmo. rewrite Nat.eqb_refl. simpl.
  rewrite (has_shape_nrows _ _ _ Hs).
  pose proof (has_shape_conj _ _ _ (has_shape_transpose _ _ _ Hs Hn)) as Ht.
  unfold np_dot. rewrite (ncols_mk nao nmo _ Hn), (has_shape_nrows _ _ _ Ht).
  rewrite Nat.eqb_refl. f_equal.
  unfold mmul. rewrite nrows_mk, (ncols_mk nao nmo _ Hn).
  rewrite (has_shape_ncols _ _ _ Ht Hm).
  apply mk_matrix_ext. intros a b Ha Hb. unfold density_entry. fold nmo.
  apply sum_n_ext. intros j Hj.
  rewrite mget_mk by assumption.
  rewrite mget_conj, (mget_transpose nao nmo) by assumption.
  reflexivity.
Qed.

Lemma density_block_shape (nao : nat) (mo : matrix) (occ : rvec) :
  0 < nao -> orbitals_ok nao mo occ = true ->
  has_shape nao nao (density_block mo occ) = true.
Proof.
  intros Hn H. rewrite (density_block_entries nao mo occ Hn H). apply has_shape_mk.
Qed.

Lemma density_block_hermitian (nao : nat) (mo : matrix) (occ : rvec) :
  0 < nao -> orbitals_ok nao mo occ = true ->
  hermitian (density_block mo occ).
Proof.
  intros Hn H. unfold hermitian, ctranspose.
  pose proof (density_block_shape nao mo occ Hn H) as Hs.
  apply (matrix_ext nao nao).
  - apply has_shape_conj. apply has_shape_transpose; assumption.
  - exact Hs.
  - intros a b Ha Hb.
    rewrite mget_conj, (mget_transpose nao nao) by assumption.
    rewrite (density_block_entries nao mo occ Hn H).
    rewrite !mget_mk by assumption. unfold density_entry.
    rewrite sum_n_conj. apply sum_n_ext. intros j Hj.
    rewrite !Cconj_mul, Cconj_conj, Cconj_RtoC. ring.
Qed.

Lemma Forall2_nth_both {A B} (P : A -> B -> Prop) (l1 : list A) (l2 : list B)
    (d1 : A) (d2 : B) (k : nat) :
  Forall2 P l1 l2 -> k < length l1 -> P (nth k l1 d1) (nth k l2 d2).
Proof.
  intro H. revert k. induction H as [|x y l1 l2 Hxy _ IH]; intros k Hk; simpl in *.
  - lia.
  - destruct k as [|k]; [exact Hxy|]. apply IH. lia.
Qed.

Lemma make_dm_ok (nao : nat) (mos : list matrix) (occs : list rvec) :
  0 < nao ->
  Forall2 (fun mo occ => orbitals_ok nao mo occ = true) mos occs ->
  make_dm (length occs) mos occs
  = Ok (map (fun '(mo, occ) => density_block mo occ) (combine mos occs)).
Proof.
  intros Hn H. pose proof (Forall2_length H) as Hlen.
  unfold make_dm.
  rewrite (mapM_ok_map _ (fun k => density_block (nth k mos []) (nth k occs []))).
  - f_equal. apply map_seq_combine; auto.
  - intros k Hk. apply in_seq in Hk.
    rewrite (py_nth_ok mos k []) by lia. simpl.
    rewrite (py_nth_ok occs k []) by lia. simpl.
    apply (make_dm_block nao); [exact Hn|].
    apply (Forall2_nth_both _ mos occs [] [] k H). lia.
Qed.

Lemma reshape_2k_ok (nkpts nao : nat) (A B : list matrix) :
  length A = nkpts -> length B = nkpts ->
  Forall (fun D => has_shape nao nao D = true) (A ++ B) ->
  reshape_2k nkpts nao (A ++ B) = Ok (A, B).
Proof.
  intros HA HB H. unfold reshape_2k.
  replace (length (A ++ B) =? 2 * nkpts) with true
    by (symmetry; apply Nat.eqb_eq; rewrite length_app; lia).
  replace (forallb (has_shape nao nao) (A ++ B)) with true
    by (symmetry; apply forallb_forall; apply Forall_forall; exact H).
  simpl. rewrite <- HA at 1. rewrite firstn_app, Nat.sub_diag, firstn_all. simpl.
  rewrite <- HA. rewrite skipn_app, Nat.sub_diag, skipn_all. simpl.
  rewrite app_nil_r. reflexivity.
Qed.

Lemma density_blocks_forall (nao : nat) (mos : list matrix) (occs : list rvec) :
  0 < nao ->
  Forall2 (fun mo occ => orbitals_ok nao mo occ = true) mos occs ->
  Forall (fun D => has_shape nao nao D = true /\ hermitian D)
         (map (fun '(mo, occ) => density_block mo occ) (combine mos occs)).
Proof.
  intros Hn H. induction H as [|mo occ mos occs Hok _ IH]; simpl; constructor.
  - split; [apply density_block_shape | apply (density_block_hermitian nao)]; assumption.
  - exact IH.
Qed.

Lemma make_rdm1_eval (nao : nat) (mo_a mo_b : list matrix) (occ_a occ_b : list rvec) :
  0 < nao -> 0 < length occ_a -> length occ_b = length occ_a ->
  Forall2 (fun mo occ => orbitals_ok nao mo occ = true) mo_a occ_a ->
  Forall2 (fun mo occ => orbitals_ok nao mo occ = true) mo_b occ_b ->
  make_rdm1 (mo_a, mo_b) (occ_a, occ_b)
  = Ok (map (fun '(mo, occ) => density_block mo occ) (combine mo_a occ_a),
        map (fun '(mo, occ) => density_block mo occ) (combine mo_b occ_b)).
Proof.
  intros Hn Hk Hlen Ha Hb.
  pose proof (Forall2_length Ha) as La. pose proof (Forall2_length Hb) as Lb.
  unfold make_rdm1. cbn [fst snd].
  rewrite (py_nth_ok mo_a 0 []) by lia. cbn [bind].
  rewrite (make_dm_ok nao mo_a occ_a Hn Ha). cbn [bind].
  rewrite <- Hlen. rewrite (make_dm_ok nao mo_b occ_b Hn Hb). cbn [bind].
  assert (H0 : orbitals_ok nao (nth 0 mo_a []) (nth 0 occ_a []) = true)
    by (apply (Forall2_nth_both _ mo_a occ_a [] [] 0 Ha); lia).
  unfold orbitals_ok in H0. apply andb_true_iff in H0. destruct H0 as [H0 _].
  rewrite (has_shape_nrows _ _ _ H0).
  apply reshape_2k_ok.
  - rewrite length_map, length_combine. lia.
  - rewrite length_map, length_combine. lia.
  - apply Forall_app. split;
      (eapply Forall_impl; [|apply (density_blocks_forall nao); eassumption]);
      intros D [HD _]; exact HD.
Qed.

(** C3.  For orbital coefficients of shape (nao, nmo) and real occupations of
    length nmo at every k-point of both spins, [make_rdm1] returns the array
    whose (spin, k-point) block is [C . diag(occ) . C^H]; every block has
    shape (nao, nao) and is Hermitian. *)
Theorem make_rdm1_blocks (nao : nat) (mo_a mo_b : list matrix) (occ_a occ_b : list rvec) :
  0 < nao -> 0 < length occ_a -> length occ_b = length occ_a ->
  Forall2 (fun mo occ => orbitals_ok nao mo occ = true) mo_a occ_a ->
  Forall2 (fun mo occ => orbitals_ok nao mo occ = true) mo_b occ_b ->
  let dm_a := map (fun '(mo, occ) => density_block mo occ) (combine mo_a occ_a) in
  let dm_b := map (fun '(mo, occ) => density_block mo occ) (combine mo_b occ_b) in
  make_rdm1 (mo_a, mo_b) (occ_a, occ_b) = Ok (dm_a, dm_b)
  /\ Forall (fun D => has_shape nao nao D = true /\ hermitian D) (dm_a ++ dm_b).
Proof.
  intros Hn Hk Hlen Ha Hb dm_a dm_b. split.
  - apply (make_rdm1_eval nao); assumption.
  - apply Forall_app. split; apply density_blocks_forall; assumption.
Qed.

(** The density of the first column (1, i) of [ex_mo]. *)
Example make_rdm1_example :
  make_rdm1 ([ex_mo], [ex_mo]) ([ex_occ], [ex_occ])
  = Ok ([[[C1; Cconj Ci]; [Ci; C1]]], [[[C1; Cconj Ci]; [Ci; C1]]]).
Proof. vm_compute. reflexivity. Qed.

Lemma make_rdm1_blocks_witness :
  make_rdm1 ([ex_mo], [ex_mo]) ([ex_occ], [ex_occ])
  = Ok ([density_block ex_mo ex_occ], [density_block ex_mo ex_occ])
  /\ Forall (fun D => has_shape 2 2 D = true /\ hermitian D)
            ([density_block ex_mo ex_occ] ++ [density_block ex_mo ex_occ]).
Proof.
  apply (make_rdm1_blocks 2 [ex_mo] [ex_mo] [ex_occ] [ex_occ]).
  - lia.
  - simpl. lia.
  - reflexivity.
  - repeat constructor.
  - repeat constructor.
Defined.

(** ** energy_elec (C1, C4) *)

Lemma has_shape3_iff (k n m : nat) (A : list matrix) :
  has_shape3 k n m A = true
  <-> length A = k /\ Forall (fun a => has_shape n m a = true) A.
Proof.
  unfold has_shape3. rewrite andb_true_iff, Nat.eqb_eq, forallb_forall, Forall_forall.
  tauto.
Qed.

Lemma has_shape3_nth (k n m : nat) (A : list matrix) (i : nat) :
  has_shape3 k n m A = true -> i < k -> has_shape n m (nth i A []) = true.
Proof.
  intros H Hi. apply has_shape3_iff in H. destruct H as [H1 H2].
  rewrite Forall_forall in H2. apply H2. apply nth_In. lia.
Qed.

Lemma trace_mmul (n : nat) (A B : matrix) :
  0 < n -> has_shape n n A = true -> has_shape n n B = true ->
  trace (mmul A B)
  = sum_n n (fun i => sum_n n (fun j => (mget A i j * mget B j i)%C)).
Proof.
  intros Hn HA HB. unfold trace, mmul.
  rewrite nrows_mk, (has_shape_nrows _ _ _ HA).
  rewrite (has_shape_ncols _ _ _ HA Hn), (has_shape_ncols _ _ _ HB Hn).
  apply sum_n_ext. intros i Hi. rewrite mget_mk by assumption. reflexivity.
Qed.

Lemma einsum_kij_kji_trace (K n : nat) (A B : list matrix) :
  0 < K -> 0 < n ->
  has_shape3 K n n A = true -> has_shape3 K n n B = true ->
  einsum_kij_kji A B
  = Ok (sum_n K (fun k => trace (mmul (nth k A []) (nth k B [])))).
Proof.
  intros HK Hn HA HB. unfold einsum_kij_kji.
  pose proof (proj1 (proj1 (has_shape3_iff _ _ _ _) HA)) as LA.
  pose proof (has_shape3_nth _ _ _ _ 0 HA HK) as H0.
  replace (hd [] A) with (nth 0 A []) by (destruct A; reflexivity).
  rewrite (has_shape_nrows _ _ _ H0), (has_shape_ncols _ _ _ H0 Hn), LA.
  rewrite HA, HB. simpl. f_equal.
  apply sum_n_ext. intros k Hk. symmetry.
  apply trace_mmul; [exact Hn| |]; apply (has_shape3_nth K); assumption.
Qed.

Lemma truth_abs_bool (b : bool) : truth (abs_bool b) = b.
Proof. destruct b; reflexivity. Qed.

Lemma float_inv_ok (n : nat) : 0 < n -> float_inv n = Ok (/ of_nat n)%Qc.
Proof. destruct n; [lia|reflexivity]. Qed.

Lemma Cinv_two : Cinv (RtoC (of_nat 2)) = RtoC lit_0_5.
Proof. apply C_eq; apply Qc_is_canon; reflexivity. Qed.

Section EnergyElecProps.

Variable get_hcore : mf -> list matrix.
Variable get_veff : mf -> cell -> spin_pair (list matrix) -> spin_pair (list matrix).

(** What [energy_elec] computes on well-shaped arguments. *)
Lemma energy_elec_eval (m : mf) (nkpts nao : nat)
    (dm : spin_pair (list matrix)) (h : list matrix) (vhf : spin_pair (list matrix)) :
  energy_inputs_ok nkpts nao dm h vhf = true ->
  energy_elec get_hcore get_veff m (Some dm) (Some h) (Some vhf)
  = if Qcltb lit_1e_10 (im (spec_e_coul nkpts dm vhf))
    then Raise (RuntimeError "Coulomb energy has imaginary part, something is wrong!"
                  (im (spec_e_coul nkpts dm vhf)))
    else Ok ((re (spec_e1 nkpts dm h) + re (spec_e_coul nkpts dm vhf),
              re (spec_e_coul nkpts dm vhf))%Qc,
             logger DEBUG m "E_coul = %.15g" [re (spec_e_coul nkpts dm vhf)]).
Proof.
  unfold energy_inputs_ok. rewrite !andb_true_iff.
  intros [[[[[[HK Hn] Ha] Hb] Hh] Hva] Hvb].
  apply Nat.ltb_lt in HK. apply Nat.ltb_lt in Hn.
  unfold energy_elec. cbn [bind].
  pose proof (proj1 (proj1 (has_shape3_iff _ _ _ _) Hh)) as Lh. rewrite Lh.
  rewrite (float_inv_ok nkpts HK). cbn [bind].
  rewrite (einsum_kij_kji_trace nkpts nao _ _ HK Hn Ha Hh).
  rewrite (einsum_kij_kji_trace nkpts nao _ _ HK Hn Hb Hh).
  rewrite (einsum_kij_kji_trace nkpts nao _ _ HK Hn Ha Hva).
  rewrite (einsum_kij_kji_trace nkpts nao _ _ HK Hn Hb Hvb).
  cbn [bind]. rewrite truth_abs_bool.
  set (w := RtoC (/ of_nat nkpts)).
  assert (E1 : (w * sum_n nkpts (fun k => trace (mmul (nth k (fst dm) []) (nth k h [])))
                + w * sum_n nkpts (fun k => trace (mmul (nth k (snd dm) []) (nth k h []))))%C
               = spec_e1 nkpts dm h).
  { unfold spec_e1. fold w. rewrite sum_n_add. ring. }
  assert (E2 : (w * sum_n nkpts (fun k => trace (mmul (nth k (fst dm) []) (nth k (fst vhf) [])))
                  * RtoC lit_0_5
                + w * sum_n nkpts (fun k => trace (mmul (nth k (snd dm) []) (nth k (snd vhf) [])))
                  * RtoC lit_0_5)%C
               = spec_e_coul nkpts dm vhf).
  { unfold spec_e_coul, Cdiv. fold w. rewrite Cinv_two, sum_n_add. ring. }
  rewrite E1, E2. reflexivity.
Qed.

(** The guard of [energy_elec] fires exactly on a positive imaginary part
    above the threshold. *)
Lemma energy_elec_raises_iff (m : mf) (nkpts nao : nat)
    (dm : spin_pair (list matrix)) (h : list matrix) (vhf : spin_pair (list matrix)) :
  energy_inputs_ok nkpts nao dm h vhf = true ->
  (exists e, energy_elec get_hcore get_veff m (Some dm) (Some h) (Some vhf) = Raise e)
  <-> (lit_1e_10 < im (spec_e_coul nkpts dm vhf))%Qc.
Proof.
  intro H. rewrite (energy_elec_eval m nkpts nao dm h vhf H).
  rewrite <- Qcltb_true.
  destruct (Qcltb lit_1e_10 (im (spec_e_coul nkpts dm vhf))); split.
  - reflexivity.
  - intros _. eexists. reflexivity.
  - intros [e He]. discriminate.
  - discriminate.
Qed.

(** C4.  On well-shaped arguments whose Coulomb energy passes the guard,
    [energy_elec] returns the pair of real numbers (Re e1 + Re e_coul,
    Re e_coul) with e1 and e_coul the averages over the k-points of the
    traces the specification names. *)
Theorem energy_elec_value (m : mf) (nkpts nao : nat)
    (dm : spin_pair (list matrix)) (h : list matrix) (vhf : spin_pair (list matrix)) :
  energy_inputs_ok nkpts nao dm h vhf = true ->
  Qcltb lit_1e_10 (im (spec_e_coul nkpts dm vhf)) = false ->
  energy_elec get_hcore get_veff m (Some dm) (Some h) (Some vhf)
  = Ok ((re (spec_e1 nkpts dm h) + re (spec_e_coul nkpts dm vhf),
         re (spec_e_coul nkpts dm vhf))%Qc,
        logger DEBUG m "E_coul = %.15g" [re (spec_e_coul nkpts dm vhf)]).
Proof.
  intros H G. rewrite (energy_elec_eval m nkpts nao dm h vhf H), G. reflexivity.
Qed.

End EnergyElecProps.

(** Closed equalities between rationals, by normalisation. *)
Ltac qc_eq := apply Qc_is_canon; vm_compute; reflexivity.

(** Closed equalities between arrays of rationals, entry by entry. *)
Ltac data_eq :=
  repeat match goal with
         | |- @eq (result _) (Ok _) (Ok _) => apply (f_equal Ok)
         | |- @eq (prod _ _) (_, _) (_, _) => apply (f_equal2 pair)
         | |- @eq (list _) (_ :: _) (_ :: _) => apply (f_equal2 cons)
         | |- @eq (list _) [] [] => reflexivity
         | |- @eq bool _ _ => reflexivity
         | |- @eq nat _ _ => reflexivity
         | |- @eq C _ _ => apply C_eq; cbn [re im]
         | |- @eq Qc _ _ => apply Qc_is_canon; vm_compute; reflexivity
         end.

Lemma energy_elec_value_witness :
  energy_elec (fun _ => []) (fun _ _ d => d) ex_mf (Some ex_dm1) (Some ex_h1) (Some ex_vhf1)
  = Ok ((re (spec_e1 2 ex_dm1 ex_h1) + re (spec_e_coul 2 ex_dm1 ex_vhf1),
         re (spec_e_coul 2 ex_dm1 ex_vhf1))%Qc,
        logger DEBUG ex_mf "E_coul = %.15g" [re (spec_e_coul 2 ex_dm1 ex_vhf1)]).
Proof.
  apply (energy_elec_value (fun _ => []) (fun _ _ d => d) ex_mf 2 1 ex_dm1 ex_h1 ex_vhf1).
  - reflexivity.
  - vm_compute. reflexivity.
Defined.

(** The same call in numbers: e1 = 6, e_coul = 3. *)
Example energy_elec_example :
  energy_elec (fun _ => []) (fun _ _ d => d) ex_mf (Some ex_dm1) (Some ex_h1) (Some ex_vhf1)
  = Ok ((of_nat 9, of_nat 3), []).
Proof.
  rewrite (energy_elec_eval _ _ ex_mf 2 1) by reflexivity.
  replace (Qcltb lit_1e_10 (im (spec_e_coul 2 ex_dm1 ex_vhf1))) with false
    by (vm_compute; reflexivity).
  unfold logger. simpl (level_num DEBUG <=? verbose ex_mf)%Z. cbv iota.
  apply (f_equal Ok). apply (f_equal2 pair); [|reflexivity].
  apply (f_equal2 pair); qc_eq.
Qed.

(** C1.  A Coulomb energy with a large negative imaginary part passes the
    guard: on the density [[1]], [[0]] and the potential [[-2i]], [[0]] at
    one k-point the Coulomb energy is -i, its imaginary part exceeds 1e-10
    in magnitude, and [energy_elec] returns (0, 0) instead of raising. *)
Theorem energy_elec_negative_imaginary_part
    (get_hcore : mf -> list matrix)
    (get_veff : mf -> cell -> spin_pair (list matrix) -> spin_pair (list matrix)) :
  energy_inputs_ok 1 1 bug_dm bug_h bug_vhf = true
  /\ spec_e_coul 1 bug_dm bug_vhf = mkC 0 (- of_nat 1)
  /\ Qcltb lit_1e_10 (Qcabs (im (spec_e_coul 1 bug_dm bug_vhf))) = true
  /\ energy_elec get_hcore get_veff ex_mf (Some bug_dm) (Some bug_h) (Some bug_vhf)
     = Ok ((0%Qc, 0%Qc), []).
Proof.
  split; [reflexivity|]. split; [apply C_eq; qc_eq|]. split; [vm_compute; reflexivity|].
  rewrite (energy_elec_eval _ _ ex_mf 1 1) by reflexivity.
  replace (Qcltb lit_1e_10 (im (spec_e_coul 1 bug_dm bug_vhf))) with false
    by (vm_compute; reflexivity).
  unfold logger. simpl (level_num DEBUG <=? verbose ex_mf)%Z. cbv iota.
  apply (f_equal Ok). apply (f_equal2 pair); [|reflexivity].
  apply (f_equal2 pair); qc_eq.
Qed.

(** ** get_occ (C2) *)

Lemma of_Z_add (a b : Z) : of_Z (a + b) = (of_Z a + of_Z b)%Qc.
Proof.
  apply Qc_is_canon. unfold of_Z, Qcplus, Q2Qc. cbn [this].
  rewrite !Qred_correct. rewrite inject_Z_plus. apply Qeq_refl.
Qed.

Lemma of_nat_S (n : nat) : of_nat (S n) = (1 + of_nat n)%Qc.
Proof.
  unfold of_nat. rewrite Nat2Z.inj_succ, <- Z.add_1_l, of_Z_add. reflexivity.
Qed.

Lemma of_nat_add (a b : nat) : of_nat (a + b) = (of_nat a + of_nat b)%Qc.
Proof. unfold of_nat. rewrite Nat2Z.inj_add. apply of_Z_add. Qed.

Lemma Qcsum_app (a b : list Qc) : Qcsum (a ++ b) = (Qcsum a + Qcsum b)%Qc.
Proof. induction a as [|x a IH]; simpl; [ring|]. rewrite IH. ring. Qed.

(** *** [np.sort] returns the ascending rearrangement *)

Lemma insert_sorted_perm (x : Qc) (l : list Qc) : Permutation (insert_sorted x l) (x :: l).
Proof.
  induction l as [|y l IH]; simpl; [apply Permutation_refl|].
  destruct (Qcleb x y); [apply Permutation_refl|].
  eapply Permutation_trans; [apply perm_skip; exact IH|apply perm_swap].
Qed.

Lemma np_sort_perm (l : list Qc) : Permutation (np_sort l) l.
Proof.
  induction l as [|x l IH]; simpl; [apply Permutation_refl|].
  eapply Permutation_trans; [apply insert_sorted_perm|apply perm_skip; exact IH].
Qed.

Lemma insert_sorted_sorted (x : Qc) (l : list Qc) :
  StronglySorted Qcle l -> StronglySorted Qcle (insert_sorted x l).
Proof.
  induction 1 as [|y l Hs IH Hy]; simpl.
  - constructor; constructor.
  - destruct (Qcleb x y) eqn:E.
    + apply Qcleb_true in E. constructor; [constructor; assumption|].
      constructor; [exact E|].
      eapply Forall_impl; [|exact Hy]. intros z Hz. eapply Qcle_trans; eassumption.
    + apply Qcleb_false in E. constructor; [exact IH|].
      apply Forall_forall. intros z Hz.
      apply (Permutation_in _ (insert_sorted_perm x l)) in Hz.
      destruct Hz as [<-|Hz]; [apply Qclt_le_weak; exact E|].
      rewrite Forall_forall in Hy. apply Hy. exact Hz.
Qed.

Lemma np_sort_sorted (l : list Qc) : StronglySorted Qcle (np_sort l).
Proof.
  induction l as [|x l IH]; simpl; [constructor|]. apply insert_sorted_sorted. exact IH.
Qed.

Lemma np_sort_length (l : list Qc) : length (np_sort l) = length l.
Proof. apply Permutation_length. apply np_sort_perm. Qed.

Lemma sorted_nth_le (l : list Qc) (i j : nat) :
  StronglySorted Qcle l -> i <= j -> j < length l ->
  (nth i l 0 <= nth j l 0)%Qc.
Proof.
  intro H. revert i j. induction H as [|y l Hs IH Hy]; intros i j Hij Hj; simpl in Hj.
  - lia.
  - destruct j as [|j].
    + replace i with 0 by lia. apply Qcle_refl.
    + destruct i as [|i].
      * simpl. rewrite Forall_forall in Hy. apply Hy. apply nth_In. lia.
      * simpl. apply IH; lia.
Qed.

(** *** Counting the entries below the cutoff *)

Lemma filter_all {A} (f : A -> bool) (l : list A) :
  (forall x, In x l -> f x = true) -> filter f l = l.
Proof.
  induction l as [|x l IH]; intro H; simpl; [reflexivity|].
  rewrite (H x) by (left; reflexivity).
  rewrite IH by (intros; apply H; right; assumption). reflexivity.
Qed.

Lemma filter_none {A} (f : A -> bool) (l : list A) :
  (forall x, In x l -> f x = false) -> filter f l = [].
Proof.
  induction l as [|x l IH]; intro H; simpl; [reflexivity|].
  rewrite (H x) by (left; reflexivity).
  apply IH. intros; apply H; right; assumption.
Qed.

Lemma count_le_perm (x : Qc) (l l' : list Qc) :
  Permutation l l' -> count_le x l = count_le x l'.
Proof.
  unfold count_le. induction 1 as [|y l l' _ IH|y z l|l l' l'' _ IH1 _ IH2]; simpl.
  - reflexivity.
  - destruct (Qcleb y x); simpl; rewrite IH; reflexivity.
  - destruct (Qcleb y x), (Qcleb z x); reflexivity.
  - rewrite IH1. exact IH2.
Qed.

(** In an ascending sequence without a tie between ranks [c-1] and [c],
    exactly [c] entries are at most the entry of rank [c-1]. *)
Lemma count_le_sorted (l : list Qc) (c : nat) :
  StronglySorted Qcle l -> 0 < c -> c <= length l ->
  (c = length l \/ (nth (c - 1)%nat l 0 < nth c l 0)%Qc) ->
  count_le (nth (c - 1) l 0%Qc) l = c.
Proof.
  intros Hs Hc Hlen Htie. unfold count_le.
  set (x := nth (c - 1) l 0%Qc).
  rewrite <- (firstn_skipn c l) at 1. rewrite filter_app, length_app.
  rewrite filter_all, filter_none.
  - simpl. rewrite length_firstn. lia.
  - intros e He. apply (In_nth _ _ 0%Qc) in He. destruct He as [i [Hi <-]].
    rewrite length_skipn in Hi. rewrite nth_skipn.
    apply Qcleb_false. destruct Htie as [->|Htie]; [lia|].
    eapply Qclt_le_trans; [exact Htie|]. apply sorted_nth_le; [exact Hs|lia|lia].
  - intros e He. apply (In_nth _ _ 0%Qc) in He. destruct He as [i [Hi <-]].
    rewrite length_firstn in Hi. rewrite nth_firstn.
    replace (i <? c) with true by (symmetry; apply Nat.ltb_lt; lia).
    apply Qcleb_true. apply sorted_nth_le; [exact Hs|lia|lia].
Qed.

(** The occupations of one k-point sum to the number of entries at most
    the Fermi level. *)
Lemma Qcsum_occ_of (fermi : Qc) (e : rvec) :
  Qcsum (occ_of fermi e) = of_nat (count_le fermi e).
Proof.
  unfold occ_of, count_le. induction e as [|x e IH]; simpl; [reflexivity|].
  rewrite IH. destruct (Qcleb x fermi); simpl.
  - rewrite of_nat_S. reflexivity.
  - ring.
Qed.

Lemma total_occ_count (fermi : Qc) (es : list rvec) :
  total_occ (map (occ_of fermi) es) = of_nat (count_le fermi (concat es)).
Proof.
  unfold total_occ. induction es as [|e es IH]; simpl; [reflexivity|].
  rewrite IH, Qcsum_occ_of. unfold count_le.
  rewrite filter_app, length_app, of_nat_add. reflexivity.
Qed.

(** *** The channels of [get_occ] *)

Lemma py_index_ok (l : list Qc) (i : Z) :
  (- Z.of_nat (length l) <= i < Z.of_nat (length l))%Z ->
  py_index l i = Ok (py_get l i).
Proof.
  intro H. unfold py_index, py_get.
  destruct (0 <=? i)%Z eqn:E.
  - apply Z.leb_le in E. apply py_nth_ok. lia.
  - apply Z.leb_gt in E.
    replace (- Z.of_nat (length l) <=? i)%Z with true by (symmetry; apply Z.leb_le; lia).
    apply py_nth_ok. lia.
Qed.

Lemma np_hstack_ok (es : list rvec) : es <> [] -> np_hstack es = Ok (concat es).
Proof. destruct es; [congruence|reflexivity]. Qed.

Lemma fill_channel_ok (m : mf) (s1 s2 : string) (n : Z) (nkpts : nat) (es : list rvec) :
  cutoff_in_range n nkpts es = true ->
  exists log,
    fill_channel m s1 s2 n nkpts es
    = Ok (map (occ_of (py_get (pooled_sorted es) (n * Z.of_nat nkpts - 1))) es, log).
Proof.
  unfold cutoff_in_range. rewrite !andb_true_iff, negb_true_iff, Nat.eqb_neq.
  intros [[Hne Hlo] Hhi]. apply Z.leb_le in Hlo. apply Z.ltb_lt in Hhi.
  unfold fill_channel. rewrite np_hstack_ok by (destruct es; simpl in *; congruence).
  cbn [bind]. fold (pooled_sorted es).
  assert (L : length (pooled_sorted es) = length (concat es)) by apply np_sort_length.
  rewrite py_index_ok by (rewrite L; lia). cbn [bind].
  destruct (n * Z.of_nat nkpts <? Z.of_nat (length (pooled_sorted es)))%Z eqn:E.
  - apply Z.ltb_lt in E. rewrite py_index_ok by (rewrite L in *; lia).
    cbn [bind]. eexists. reflexivity.
  - eexists. reflexivity.
Qed.

Lemma no_tie_in_range (n : Z) (nkpts : nat) (es : list rvec) :
  no_tie_at_cutoff n nkpts es = true -> cutoff_in_range n nkpts es = true.
Proof.
  unfold no_tie_at_cutoff, cutoff_in_range, pooled_sorted.
  rewrite !andb_true_iff, negb_true_iff, Nat.eqb_neq, np_sort_length.
  intros [[[Hn Hk] Hc] _]. apply Z.ltb_lt in Hn. apply Nat.ltb_lt in Hk.
  apply Nat.leb_le in Hc.
  assert (Hpos : (0 < n * Z.of_nat nkpts)%Z) by (apply Z.mul_pos_pos; lia).
  repeat split.
  - destruct es; simpl in *; lia.
  - apply Z.leb_le. lia.
  - apply Z.ltb_lt. lia.
Qed.

Lemma no_tie_fermi (n : Z) (nkpts : nat) (es : list rvec) :
  no_tie_at_cutoff n nkpts es = true ->
  py_get (pooled_sorted es) (n * Z.of_nat nkpts - 1) = fermi_level n nkpts es.
Proof.
  unfold no_tie_at_cutoff. rewrite !andb_true_iff.
  intros [[[Hn Hk] _] _]. apply Z.ltb_lt in Hn. apply Nat.ltb_lt in Hk.
  assert (Hpos : (0 < n * Z.of_nat nkpts)%Z) by (apply Z.mul_pos_pos; lia).
  unfold py_get, fermi_level.
  replace (0 <=? n * Z.of_nat nkpts - 1)%Z with true by (symmetry; apply Z.leb_le; lia).
  f_equal. lia.
Qed.

(** Without a tie at the cutoff the occupations of the channel add up to
    [n * nkpts]. *)
Lemma no_tie_total (n : Z) (nkpts : nat) (es : list rvec) :
  no_tie_at_cutoff n nkpts es = true ->
  total_occ (map (occ_of (fermi_level n nkpts es)) es) = of_Z (n * Z.of_nat nkpts).
Proof.
  intro H. rewrite total_occ_count.
  rewrite <- (count_le_perm _ _ _ (np_sort_perm (concat es))).
  fold (pooled_sorted es). unfold fermi_level.
  unfold no_tie_at_cutoff in H. rewrite !andb_true_iff in H.
  destruct H as [[[Hn Hk] Hc] Ht]. apply Z.ltb_lt in Hn. apply Nat.ltb_lt in Hk.
  apply Nat.leb_le in Hc.
  assert (Hpos : (0 < n * Z.of_nat nkpts)%Z) by (apply Z.mul_pos_pos; lia).
  rewrite count_le_sorted.
  - unfold of_nat. rewrite Z2Nat.id by lia. reflexivity.
  - apply np_sort_sorted.
  - lia.
  - exact Hc.
  - apply orb_true_iff in Ht. destruct Ht as [Ht|Ht].
    + left. apply Nat.eqb_eq. exact Ht.
    + right. apply Qcltb_true. exact Ht.
Qed.

(** *** The debug dump *)

Lemma mapM_ok_exists {A B} (f : A -> result B) (l : list A) :
  (forall x, In x l -> exists y, f x = Ok y) -> exists ys, mapM f l = Ok ys.
Proof.
  induction l as [|x l IH]; intro H; simpl; [eexists; reflexivity|].
  destruct (H x (or_introl eq_refl)) as [y Hy]. rewrite Hy.
  destruct IH as [ys Hys]; [intros; apply H; right; assumption|].
  rewrite Hys. eexists. reflexivity.
Qed.

Lemma In_enumerate {A} (l : list A) (k : nat) (x : A) :
  In (k, x) (enumerate l) -> k < length l.
Proof.
  unfold enumerate. intro H. apply in_combine_l in H. apply in_seq in H. lia.
Qed.

Lemma dump_channel_ok (m : mf) (scaled : list kvec) (fermi : Qc) (es : list rvec) :
  length scaled <= length es ->
  exists log, dump_channel m scaled es (map (occ_of fermi) es) = Ok log.
Proof.
  intro H. unfold dump_channel.
  match goal with |- context [mapM ?f ?l] => destruct (mapM_ok_exists f l) as [ys Hys] end.
  - intros [k kpt] Hin. apply In_enumerate in Hin.
    rewrite (py_nth_ok es k []) by lia. cbn [bind].
    rewrite (py_nth_ok (map (occ_of fermi) es) k []) by (rewrite length_map; lia).
    cbn [bind].
    assert (E : nth k (map (occ_of fermi) es) [] = occ_of fermi (nth k es []))
      by (exact (map_nth (occ_of fermi) es [] k)).
    rewrite E. unfold np_mask_index.
    assert (L : forall g : Qc -> bool,
               length (map g (occ_of fermi (nth k es []))) = length (nth k es [])).
    { intro g. unfold occ_of. rewrite !length_map. reflexivity. }
    rewrite !L, Nat.eqb_refl. cbn [bind].
    eexists. reflexivity.
  - rewrite Hys. cbn [bind]. eexists. reflexivity.
Qed.

Lemma dump_channel_nil (m : mf) (es occs : list rvec) :
  dump_channel m [] es occs = Ok [].
Proof. reflexivity. Qed.

Section GetOccProps.

Variable get_scaled_kpts : cell -> list kvec -> list kvec.

Lemma get_occ_returns (m : mf) (es : spin_pair (list rvec)) :
  let nkpts := length (fst es) in
  cutoff_in_range (fst (nelec m)) nkpts (fst es) = true ->
  (snd (nelec m) <=? 0)%Z || cutoff_in_range (snd (nelec m)) nkpts (snd es) = true ->
  dump_returns get_scaled_kpts m es = true ->
  exists log,
    get_occ get_scaled_kpts m (Some es)
    = Ok ((map (occ_of (py_get (pooled_sorted (fst es))
                          (fst (nelec m) * Z.of_nat nkpts - 1))) (fst es),
           if (0 <? snd (nelec m))%Z
           then map (occ_of (py_get (pooled_sorted (snd es))
                               (snd (nelec m) * Z.of_nat nkpts - 1))) (snd es)
           else []),
          log).
Proof.
  intros nkpts Ha Hb Hd. unfold get_occ. cbn [bind]. fold nkpts.
  destruct (fill_channel_ok m "alpha HOMO = %.12g  LUMO = %.12g"
              "alpha HOMO = %.12g  (no LUMO because of small basis) "
              _ _ _ Ha) as [la Ea].
  rewrite Ea. cbn [bind].
  set (occ_a := map _ (fst es)).
  assert (Hbeta : exists lb,
            (if (0 <? snd (nelec m))%Z
             then fill_channel m "beta HOMO = %.12g  LUMO = %.12g"
                    "beta HOMO = %.12g  (no LUMO because of small basis) "
                    (snd (nelec m)) nkpts (snd es)
             else Ok ([], []))
            = Ok (if (0 <? snd (nelec m))%Z
                  then map (occ_of (py_get (pooled_sorted (snd es))
                                      (snd (nelec m) * Z.of_nat nkpts - 1))) (snd es)
                  else [], lb)).
  { destruct (0 <? snd (nelec m))%Z eqn:E.
    - apply Z.ltb_lt in E. apply orb_true_iff in Hb. destruct Hb as [Hb|Hb].
      + apply Z.leb_le in Hb. lia.
      + apply fill_channel_ok. exact Hb.
    - eexists. reflexivity. }
  destruct Hbeta as [lb Eb]. rewrite Eb. cbn [bind].
  set (occ_b := if (0 <? snd (nelec m))%Z then _ else _).
  destruct (level_num DEBUG <=? verbose m)%Z eqn:Ev.
  - unfold dump_returns in Hd. apply orb_true_iff in Hd. destruct Hd as [Hd|Hd].
    { apply Z.ltb_lt in Hd. apply Z.leb_le in Ev. lia. }
    cbv zeta in Hd. rewrite !andb_true_iff in Hd. destruct Hd as [H1 H2].
    apply Nat.leb_le in H1.
    destruct (dump_channel_ok m _ (py_get (pooled_sorted (fst es))
                (fst (nelec m) * Z.of_nat nkpts - 1)) (fst es) H1) as [da Eda].
    fold occ_a in Eda. rewrite Eda. cbn [bind].
    assert (Hdb : exists db, dump_channel m (get_scaled_kpts (mf_cell m) (mf_kpts m))
                               (snd es) occ_b = Ok db).
    { apply orb_true_iff in H2. destruct H2 as [H2|H2].
      - apply Nat.eqb_eq in H2. apply length_zero_iff_nil in H2. rewrite H2.
        eexists. apply dump_channel_nil.
      - apply andb_true_iff in H2. destruct H2 as [H2 H3]. apply Nat.leb_le in H3.
        unfold occ_b. rewrite H2. apply dump_channel_ok. exact H3. }
    destruct Hdb as [db Edb]. rewrite Edb. cbn [bind]. eexists. reflexivity.
  - cbn [bind]. eexists. reflexivity.
Qed.

(** The Fermi filling of a call that returns.  For a spin channel [s] with
    electrons whose pooled, ascending energies have no tie at the cutoff
    rank, when neither the other channel nor the debug dump stops the call,
    [get_occ] returns occupations that are 1 on the orbitals with energy at
    most the Fermi level (the pooled-sorted entry of rank
    nelec[s]*nkpts - 1) and 0 elsewhere, and they add up to nelec[s]*nkpts
    over all k-points. *)
Lemma get_occ_fermi_filling (m : mf) (es : spin_pair (list rvec)) (s : spin) :
  let nkpts := length (fst es) in
  let n := channel s (nelec m) in
  no_tie_at_cutoff n nkpts (channel s es) = true ->
  other_channel_returns m es s = true ->
  dump_returns get_scaled_kpts m es = true ->
  exists occ log,
    get_occ get_scaled_kpts m (Some es) = Ok (occ, log)
    /\ StronglySorted Qcle (pooled_sorted (channel s es))
    /\ Permutation (pooled_sorted (channel s es)) (concat (channel s es))
    /\ channel s occ = map (occ_of (fermi_level n nkpts (channel s es))) (channel s es)
    /\ total_occ (channel s occ) = of_Z (n * Z.of_nat nkpts).
Proof.
  intros nkpts n Ht Ho Hd.
  assert (Hs : StronglySorted Qcle (pooled_sorted (channel s es))) by apply np_sort_sorted.
  assert (Hp : Permutation (pooled_sorted (channel s es)) (concat (channel s es)))
    by apply np_sort_perm.
  pose proof (no_tie_in_range _ _ _ Ht) as Hr.
  pose proof (no_tie_fermi _ _ _ Ht) as Hf.
  pose proof (no_tie_total _ _ _ Ht) as Hsum.
  destruct s; cbn [channel other_channel_returns] in *; subst n.
  - destruct (get_occ_returns m es Hr Ho Hd) as [log E]. fold nkpts in E.
    rewrite Hf in E. eexists. exists log. split; [exact E|].
    cbn [channel fst]. auto.
  - assert (Hb : (snd (nelec m) <=? 0)%Z
                 || cutoff_in_range (snd (nelec m)) nkpts (snd es) = true)
      by (rewrite Hr; apply orb_true_r).
    destruct (get_occ_returns m es Ho Hb Hd) as [log E]. fold nkpts in E.
    rewrite Hf in E.
    assert (Hpos : (0 <? snd (nelec m))%Z = true).
    { unfold no_tie_at_cutoff in Ht. rewrite !andb_true_iff in Ht. tauto. }
    rewrite Hpos in E. eexists. exists log. split; [exact E|].
    cbn [channel snd]. auto.
Qed.

End GetOccProps.

Lemma get_occ_fermi_filling_witness :
  exists occ log,
    get_occ (fun _ k => k) ex_mf (Some (ex_energies, ex_energies)) = Ok (occ, log)
    /\ StronglySorted Qcle (pooled_sorted ex_energies)
    /\ Permutation (pooled_sorted ex_energies) (concat ex_energies)
    /\ fst occ = map (occ_of (fermi_level 2 2 ex_energies)) ex_energies
    /\ total_occ (fst occ) = of_Z (2 * 2).
Proof.
  apply (get_occ_fermi_filling (fun _ k => k) ex_mf (ex_energies, ex_energies) Alpha).
  - vm_compute. reflexivity.
  - vm_compute. reflexivity.
  - vm_compute. reflexivity.
Defined.

Example get_occ_example :
  get_occ (fun _ k => k) ex_mf (Some (ex_energies, ex_energies))
  = Ok (([[1; 1; 1]; [1; 0; 0]], [[1; 1; 1]; [1; 0; 0]])%Qc, []).
Proof. vm_compute. reflexivity. Qed.

(** C2.  At debug verbosity an object without beta electrons gets no
    occupations, although its alpha channel can be filled.  With nelec = (2, 0) on
    two k-points the alpha channel has electrons and its pooled energies
    -2, -1, 0, 1, 4, 5 have no tie at the cutoff rank 3.  At verbose = 0 the
    call returns the alpha occupations of the Fermi filling, which add up
    to nelec[0]*nkpts = 4, and an empty list of beta occupations; at
    verbose = 5 the same call stops with IndexError, because the dump of
    the beta channel indexes that empty list. *)
Theorem get_occ_debug_dump_loses_filling :
  (0 < fst (nelec ex_mf_no_beta_debug))%Z
  /\ no_tie_at_cutoff (fst (nelec ex_mf_no_beta_debug)) (length ex_energies) ex_energies
     = true
  /\ get_occ (fun _ k => k) ex_mf_no_beta (Some (ex_energies, ex_energies))
     = Ok ((map (occ_of (fermi_level 2 2 ex_energies)) ex_energies, []), [])
  /\ total_occ (map (occ_of (fermi_level 2 2 ex_energies)) ex_energies) = of_Z (2 * 2)
  /\ get_occ (fun _ k => k) ex_mf_no_beta_debug (Some (ex_energies, ex_energies))
     = Raise IndexError.
Proof.
  split; [reflexivity|].
  split; [vm_compute; reflexivity|].
  split; [vm_compute; data_eq|].
  split; [qc_eq|].
  vm_compute. reflexivity.
Qed.

(** ** get_fock (C5) *)

Lemma In_enumerate_nth {A} (l : list A) (k : nat) (x d : A) :
  In (k, x) (enumerate l) -> k < length l /\ nth k l d = x.
Proof.
  unfold enumerate. intro H. apply (In_nth _ _ (0, d)) in H.
  destruct H as [i [Hi E]].
  rewrite length_combine, length_seq, Nat.min_id in Hi.
  rewrite combine_nth in E by (rewrite length_seq; reflexivity).
  rewrite seq_nth in E by exact Hi. simpl in E. inversion E; subst. auto.
Qed.

Section GetFockProps.

Variable diis_t : Type.
Variable diis_update :
  diis_t -> list matrix -> spin_pair (list matrix) -> spin_pair (list matrix) ->
  mf -> list matrix -> spin_pair (list matrix) ->
  spin_pair (list matrix) * diis_t.
Variable mol_hf_level_shift : matrix -> matrix -> matrix -> Qc -> matrix.

Lemma shift_channel_ok (s_kpts dm f : list matrix) (shift : Qc) :
  length s_kpts <= length dm -> length s_kpts <= length f ->
  shift_channel mol_hf_level_shift s_kpts dm f shift
  = Ok (shifted_channel mol_hf_level_shift s_kpts dm f shift).
Proof.
  intros Hd Hf. unfold shift_channel, shifted_channel.
  apply mapM_ok_map. intros [k s] Hin. apply In_enumerate in Hin.
  rewrite (py_nth_ok dm k []) by lia. cbn [bind].
  rewrite (py_nth_ok f k []) by lia. reflexivity.
Qed.

(** A number as level shift, larger than 1e-4 in magnitude, no DIIS: both
    channels of h1e + veff are shifted with that number at every k-point. *)
Lemma get_fock_scalar_shift (m : mf) (h1e s_kpts : list matrix)
    (vhf dm : spin_pair (list matrix)) (fa fb : list matrix) (cycle : Z) (x : Qc) :
  add_kpts h1e (fst vhf) = Ok fa -> add_kpts h1e (snd vhf) = Ok fb ->
  Qcltb lit_1e_4 (Qcabs x) = true ->
  length s_kpts <= length (fst dm) -> length s_kpts <= length (snd dm) ->
  length s_kpts <= length fa -> length s_kpts <= length fb ->
  get_fock diis_t diis_update mol_hf_level_shift m h1e s_kpts vhf dm cycle None None
    (Some (LsReal x)) None
  = Ok ((shifted_channel mol_hf_level_shift s_kpts (fst dm) fa x, shifted_channel mol_hf_level_shift s_kpts (snd dm) fb x), None).
Proof.
  intros Ha Hb Hx H1 H2 H3 H4. unfold get_fock. cbn [unpack_shift bind].
  rewrite Ha, Hb. cbn [bind shift_is_large]. rewrite Hx. cbn [fst snd].
  rewrite !shift_channel_ok by assumption. reflexivity.
Qed.

(** With an extrapolator past its start cycle the shifted matrix is the
    extrapolated one. *)
Lemma get_fock_scalar_shift_diis (m : mf) (h1e s_kpts : list matrix)
    (vhf dm : spin_pair (list matrix)) (fa fb : list matrix) (cycle : Z) (x : Qc)
    (d : diis_t) :
  add_kpts h1e (fst vhf) = Ok fa -> add_kpts h1e (snd vhf) = Ok fb ->
  Qcltb lit_1e_4 (Qcabs x) = true ->
  (diis_start_cycle m <= cycle)%Z ->
  let f' := fst (diis_update d s_kpts dm (fa, fb) m h1e vhf) in
  let d' := snd (diis_update d s_kpts dm (fa, fb) m h1e vhf) in
  length s_kpts <= length (fst dm) -> length s_kpts <= length (snd dm) ->
  length s_kpts <= length (fst f') -> length s_kpts <= length (snd f') ->
  get_fock diis_t diis_update mol_hf_level_shift m h1e s_kpts vhf dm cycle (Some d) None
    (Some (LsReal x)) None
  = Ok ((shifted_channel mol_hf_level_shift s_kpts (fst dm) (fst f') x,
         shifted_channel mol_hf_level_shift s_kpts (snd dm) (snd f') x), Some d').
Proof.
  intros Ha Hb Hx Hc f' d' H1 H2 H3 H4. unfold get_fock. cbn [unpack_shift bind].
  rewrite Ha, Hb. cbn [bind].
  replace (diis_start_cycle m <=? cycle)%Z with true by (symmetry; apply Z.leb_le; exact Hc).
  subst f' d'. destruct (diis_update d s_kpts dm (fa, fb) m h1e vhf) as [f1 d1].
  cbn [fst snd] in *. cbn [bind shift_is_large]. rewrite Hx.
  rewrite !shift_channel_ok by assumption. reflexivity.
Qed.

(** C5.  A per-spin pair as level shift never reaches the shift: on
    well-shaped matrices [get_fock] stops with TypeError for a tuple or a
    list (abs of a sequence) and with ValueError for an ndarray (truth
    value of a two-entry comparison), whatever the two magnitudes are. *)
Theorem get_fock_pair_raises (a b : Qc) (cycle : Z) :
  get_fock diis_t diis_update mol_hf_level_shift ex_mf ex_h1 ex_h1 ex_vhf1 ex_dm1
    cycle None None (Some (LsSeq PyTuple [a; b])) None = Raise TypeError
  /\ get_fock diis_t diis_update mol_hf_level_shift ex_mf ex_h1 ex_h1 ex_vhf1 ex_dm1
       cycle None None (Some (LsSeq PyList [a; b])) None = Raise TypeError
  /\ get_fock diis_t diis_update mol_hf_level_shift ex_mf ex_h1 ex_h1 ex_vhf1 ex_dm1
       cycle None None (Some (LsSeq NdArray [a; b])) None = Raise ValueError.
Proof. repeat split; reflexivity. Qed.

End GetFockProps.

(** ** canonicalize (C6) *)

(** *** Boolean masks *)

Lemma count_nonzero_cons (b : bool) (mask : list bool) :
  count_nonzero (b :: mask) = (if b then 1 else 0) + count_nonzero mask.
Proof. unfold count_nonzero. destruct b; reflexivity. Qed.

Lemma mask_select_length {A} (mask : list bool) (l : list A) :
  length l = length mask -> length (mask_select mask l) = count_nonzero mask.
Proof.
  revert l. induction mask as [|b mask IH]; intros [|x l] H; simpl in *; try lia.
  - reflexivity.
  - rewrite count_nonzero_cons. destruct b; simpl; rewrite IH by lia; reflexivity.
Qed.

Lemma mask_assign_length {A} (mask : list bool) (old new : list A) :
  length (mask_assign mask old new) = length old.
Proof.
  revert old new. induction mask as [|b mask IH]; intros [|x old] new; simpl; auto.
  destruct b; [destruct new|]; simpl; rewrite IH; reflexivity.
Qed.

Lemma mask_assign_nil {A} (mask : list bool) (old : list A) :
  mask_assign mask old [] = old.
Proof.
  revert old. induction mask as [|b mask IH]; intros [|x old]; simpl; auto.
  destruct b; rewrite IH; reflexivity.
Qed.

(** Reading back what was just assigned. *)
Lemma mask_select_assign {A} (mask : list bool) (old new : list A) :
  length old = length mask -> length new = count_nonzero mask ->
  mask_select mask (mask_assign mask old new) = new.
Proof.
  revert old new. induction mask as [|b mask IH]; intros [|x old] new Ho Hn;
    simpl in *; try lia.
  - destruct new; [reflexivity|simpl in Hn; discriminate].
  - rewrite count_nonzero_cons in Hn. destruct b.
    + destruct new as [|y new]; [simpl in Hn; lia|]. simpl.
      rewrite IH; [reflexivity|lia|simpl in Hn; lia].
    + simpl. apply IH; [lia|simpl in Hn; lia].
Qed.

(** Assigning under the complementary mask does not touch the selection. *)
Lemma mask_select_assign_neg {A} (mask : list bool) (old new : list A) :
  length old = length mask ->
  mask_select mask (mask_assign (map negb mask) old new) = mask_select mask old.
Proof.
  revert old new. induction mask as [|b mask IH]; intros [|x old] new Ho;
    simpl in *; try lia; try reflexivity.
  destruct b; simpl.
  - rewrite IH by lia. reflexivity.
  - destruct new; simpl; apply IH; lia.
Qed.

Lemma mask_select_assign_neg' {A} (mask : list bool) (old new : list A) :
  length old = length mask ->
  mask_select (map negb mask) (mask_assign mask old new) = mask_select (map negb mask) old.
Proof.
  intro H.
  assert (E : map negb (map negb mask) = mask).
  { rewrite map_map. rewrite <- (map_id mask) at 2. apply map_ext.
    intro b. apply negb_involutive. }
  pose proof (mask_select_assign_neg (map negb mask) old new) as K.
  rewrite E in K. apply K. rewrite length_map. exact H.
Qed.

(** A sum weighted by the indicator of a mask is the sum over the selected
    entries. *)
Lemma masked_sum (mask : list bool) (r r' : list C) :
  length r = length mask -> length r' = length mask ->
  sum_n (length mask)
    (fun j => (nth j r C0 * RtoC (if nth j mask false then 1 else 0)
               * Cconj (nth j r' C0))%C)
  = gram (count_nonzero mask) (mask_select mask r) (mask_select mask r').
Proof.
  unfold gram. revert r r'.
  induction mask as [|b mask IH]; intros [|x r] [|x' r'] H H'; simpl in H, H'; try lia.
  - reflexivity.
  - cbn [length]. rewrite sum_n_shift. cbn [nth].
    rewrite IH by lia. rewrite count_nonzero_cons. destruct b; cbn [mask_select].
    + change (1 + count_nonzero mask) with (S (count_nonzero mask)).
      rewrite sum_n_shift. cbn [nth]. f_equal. cring.
    + cbn [Nat.add]. match goal with |- (?a + ?s)%C = ?s => assert (E : a = C0) by cring end.
      rewrite E. ring.
Qed.

(** *** Unitary matrices *)

Lemma mget_ctranspose (n m : nat) (A : matrix) (i j : nat) :
  has_shape n m A = true -> i < m -> j < n ->
  mget (ctranspose A) i j = Cconj (mget A j i).
Proof.
  intros H Hi Hj. unfold ctranspose. rewrite mget_conj.
  rewrite (mget_transpose n m) by assumption. reflexivity.
Qed.

Lemma has_shape_ctranspose (n m : nat) (A : matrix) :
  has_shape n m A = true -> 0 < n -> has_shape m n (ctranspose A) = true.
Proof.
  intros H Hn. apply has_shape_conj. apply has_shape_transpose; assumption.
Qed.

Lemma mget_mmul (n k m : nat) (A B : matrix) (i j : nat) :
  0 < n -> 0 < k ->
  has_shape n k A = true -> has_shape k m B = true -> i < n -> j < m ->
  mget (mmul A B) i j = sum_n k (fun l => (mget A i l * mget B l j)%C).
Proof.
  intros Hn Hk HA HB Hi Hj. unfold mmul.
  rewrite (has_shape_nrows _ _ _ HA), (has_shape_ncols _ _ _ HB Hk).
  rewrite (has_shape_ncols _ _ _ HA Hn).
  rewrite mget_mk by assumption. reflexivity.
Qed.

Lemma has_shape_mmul (n k m : nat) (A B : matrix) :
  0 < k -> has_shape n k A = true -> has_shape k m B = true ->
  has_shape n m (mmul A B) = true.
Proof.
  intros Hk HA HB. unfold mmul.
  rewrite (has_shape_nrows _ _ _ HA), (has_shape_ncols _ _ _ HB Hk).
  apply has_shape_mk.
Qed.

Lemma unitary_rows (n : nat) (c : matrix) (l l' : nat) :
  0 < n -> unitary n c -> l < n -> l' < n ->
  sum_n n (fun m => (mget c l m * Cconj (mget c l' m))%C)
  = if l =? l' then C1 else C0.
Proof.
  intros Hn [Hs [Hu _]] Hl Hl'.
  assert (E : mget (mmul c (ctranspose c)) l l' = mget (identity n) l l')
    by (rewrite Hu; reflexivity).
  rewrite (mget_mmul n n n) in E; try assumption;
    [|apply has_shape_ctranspose; assumption].
  unfold identity in E. rewrite mget_mk in E by assumption.
  rewrite <- E. apply sum_n_ext. intros m Hm.
  rewrite (mget_ctranspose n n) by assumption. reflexivity.
Qed.

(** Multiplying two rows by a unitary matrix keeps their Hermitian product. *)
Lemma gram_unitary (n : nat) (c : matrix) (A B : nat -> C) :
  (forall l l', l < n -> l' < n ->
     sum_n n (fun m => (mget c l m * Cconj (mget c l' m))%C)
     = if l =? l' then C1 else C0) ->
  sum_n n (fun m => (sum_n n (fun l => (A l * mget c l m)%C)
                     * Cconj (sum_n n (fun l' => (B l' * mget c l' m)%C)))%C)
  = sum_n n (fun l => (A l * Cconj (B l))%C).
Proof.
  intro Hu.
  transitivity
    (sum_n n (fun m => sum_n n (fun l => sum_n n (fun l' =>
       ((A l * Cconj (B l')) * (mget c l m * Cconj (mget c l' m)))%C)))).
  { apply sum_n_ext. intros m _. rewrite sum_n_conj, <- sum_n_mul_r.
    apply sum_n_ext. intros l _. rewrite <- sum_n_mul_l.
    apply sum_n_ext. intros l' _. rewrite Cconj_mul. ring. }
  rewrite sum_n_swap. apply sum_n_ext. intros l Hl.
  rewrite sum_n_swap.
  transitivity
    (sum_n n (fun l' => if l' =? l then (A l * Cconj (B l'))%C else C0)).
  { apply sum_n_ext. intros l' Hl'. rewrite sum_n_mul_l, (Hu l l' Hl Hl').
    rewrite Nat.eqb_sym. destruct (l' =? l); ring. }
  apply (sum_n_delta n l (fun l' => (A l * Cconj (B l'))%C)). exact Hl.
Qed.

Lemma hermitian_entry (n : nat) (F : matrix) (a b : nat) :
  0 < n -> has_shape n n F = true -> hermitian F -> a < n -> b < n ->
  Cconj (mget F a b) = mget F b a.
Proof.
  intros Hn Hs Hh Ha Hb. rewrite <- (mget_ctranspose n n F b a Hs Hb Ha).
  rewrite Hh. reflexivity.
Qed.

(** The Fock matrix projected on a set of orbitals is Hermitian. *)
Lemma projected_fock_hermitian (nao cnt : nat) (orb F : matrix) :
  0 < nao -> 0 < cnt ->
  has_shape nao cnt orb = true -> has_shape nao nao F = true -> hermitian F ->
  has_shape cnt cnt (mmul (mmul (conj (transpose orb)) F) orb) = true
  /\ hermitian (mmul (mmul (conj (transpose orb)) F) orb).
Proof.
  intros Hn Hc Ho HF Hh.
  pose proof (has_shape_ctranspose _ _ _ Ho Hn) as Hoh. unfold ctranspose in Hoh.
  pose proof (has_shape_mmul cnt nao nao _ _ Hn Hoh HF) as Ht.
  pose proof (has_shape_mmul cnt nao cnt _ _ Hn Ht Ho) as Hf1.
  split; [exact Hf1|].
  unfold hermitian. apply (matrix_ext cnt cnt).
  - apply has_shape_ctranspose; assumption.
  - exact Hf1.
  - intros p q Hp Hq.
    rewrite (mget_ctranspose cnt cnt) by assumption.
    rewrite !(mget_mmul cnt nao cnt) by assumption.
    rewrite sum_n_conj.
    transitivity
      (sum_n nao (fun b => sum_n nao (fun a =>
         (Cconj (mget orb b p) * mget F b a * mget orb a q)%C))).
    { apply sum_n_ext. intros b Hb.
      rewrite (mget_mmul cnt nao nao) by assumption.
      rewrite Cconj_mul, sum_n_conj, <- sum_n_mul_r.
      apply sum_n_ext. intros a Ha.
      fold (ctranspose orb). rewrite (mget_ctranspose nao cnt) by assumption.
      rewrite !Cconj_mul, Cconj_conj.
      rewrite (hermitian_entry nao F a b) by assumption. ring. }
    rewrite sum_n_swap. apply sum_n_ext. intros a Ha.
    rewrite (mget_mmul cnt nao nao) by assumption.
    rewrite <- sum_n_mul_r. apply sum_n_ext. intros b Hb.
    fold (ctranspose orb). rewrite (mget_ctranspose nao cnt) by assumption.
    reflexivity.
Qed.

(** *** Arrays and their dtype *)

Lemma real_entries_mget (A : matrix) (i j : nat) :
  real_entries A = true -> im (mget A i j) = 0%Qc.
Proof.
  intro H. unfold real_entries in H. rewrite forallb_forall in H. unfold mget.
  destruct (Nat.lt_ge_cases i (length A)) as [Hi|Hi].
  - pose proof (H _ (nth_In A [] Hi)) as Hr. rewrite forallb_forall in Hr.
    destruct (Nat.lt_ge_cases j (length (nth i A []))) as [Hj|Hj].
    + apply Qceqb_true. apply Hr. apply nth_In. exact Hj.
    + rewrite (nth_overflow _ C0) by exact Hj. reflexivity.
  - rewrite (nth_overflow A) by exact Hi. destruct j; reflexivity.
Qed.

Lemma real_entries_mk (n m : nat) (f : nat -> nat -> C) :
  (forall i j, im (f i j) = 0%Qc) -> real_entries (mk_matrix n m f) = true.
Proof.
  intro H. unfold real_entries, mk_matrix. apply forallb_forall. intros r Hr.
  apply in_map_iff in Hr. destruct Hr as [i [<- _]].
  apply forallb_forall. intros z Hz. apply in_map_iff in Hz. destruct Hz as [j [<- _]].
  rewrite H. apply Qceqb_refl.
Qed.

Lemma sum_n_real (n : nat) (f : nat -> C) :
  (forall l, im (f l) = 0%Qc) -> im (sum_n n f) = 0%Qc.
Proof.
  intro H. induction n as [|n IH]; [reflexivity|].
  cbn [sum_n]. unfold Cadd. cbn [im]. rewrite IH, H. ring.
Qed.

Lemma real_entries_mmul (A B : matrix) :
  real_entries A = true -> real_entries B = true -> real_entries (mmul A B) = true.
Proof.
  intros HA HB. unfold mmul. apply real_entries_mk. intros i j.
  apply sum_n_real. intro l. unfold Cmul. cbn [im].
  rewrite (real_entries_mget A i l HA), (real_entries_mget B l j HB). ring.
Qed.

Lemma mask_select_In {A} (mask : list bool) (l : list A) (x : A) :
  In x (mask_select mask l) -> In x l.
Proof.
  revert l. induction mask as [|b mask IH]; intros [|y l] H; simpl in H; try contradiction.
  destruct b.
  - destruct H as [->|H]; [left; reflexivity|right; apply IH; exact H].
  - right. apply IH. exact H.
Qed.

Lemma real_entries_select (idx : list bool) (A : matrix) :
  real_entries A = true -> real_entries (map (mask_select idx) A) = true.
Proof.
  unfold real_entries. rewrite !forallb_forall. intros H r Hr.
  apply in_map_iff in Hr. destruct Hr as [r0 [<- Hin]].
  specialize (H _ Hin). rewrite forallb_forall in *. intros z Hz. apply H.
  apply (mask_select_In idx). exact Hz.
Qed.

Lemma fits_mmul (dt : dtype) (A B : matrix) :
  fits dt A = true -> fits dt B = true -> fits dt (mmul A B) = true.
Proof. destruct dt; cbn [fits]; [apply real_entries_mmul|reflexivity]. Qed.

Lemma fits_select (dt : dtype) (idx : list bool) (A : matrix) :
  fits dt A = true -> fits dt (map (mask_select idx) A) = true.
Proof. destruct dt; cbn [fits]; [apply real_entries_select|reflexivity]. Qed.

(** Storing entries that fit the dtype changes nothing. *)
Lemma astype_fits (dt : dtype) (A : matrix) : fits dt A = true -> astype dt A = A.
Proof.
  intro H. unfold astype. rewrite <- (map_id A) at 2. apply map_ext_in. intros r Hr.
  rewrite <- (map_id r) at 2. apply map_ext_in. intros z Hz.
  destruct dt; [|reflexivity]. cbn [fits] in H.
  unfold real_entries in H. rewrite forallb_forall in H. specialize (H _ Hr).
  rewrite forallb_forall in H. specialize (H _ Hz). apply Qceqb_true in H.
  unfold cast_entry, RtoC. destruct z as [x y]. cbn [re im] in *. subst y. reflexivity.
Qed.

Lemma has_shape_astype (n m : nat) (dt : dtype) (A : matrix) :
  has_shape n m (astype dt A) = has_shape n m A.
Proof.
  unfold has_shape, astype. rewrite length_map. f_equal.
  induction A as [|r A IH]; [reflexivity|]. cbn [map forallb].
  rewrite length_map, IH. reflexivity.
Qed.

(** The selected columns of orbitals times eigenvectors that both fit the
    dtype are stored as they are. *)
Lemma rotated_fits (dt : dtype) (mo c : matrix) (idx : list bool) :
  fits dt mo = true -> fits dt c = true ->
  astype dt (mmul (map (mask_select idx) mo) c) = mmul (map (mask_select idx) mo) c.
Proof.
  intros Hm Hc. apply astype_fits. apply fits_mmul; [apply fits_select; exact Hm|exact Hc].
Qed.

(** *** One call of [eig_] *)

Lemma assign_rows_nil (idx : list bool) (cs : matrix) (n : nat) :
  length cs = n -> assign_rows idx cs (repeat [] n) = cs.
Proof.
  unfold assign_rows. revert n. induction cs as [|r cs IH]; intros [|n] H;
    simpl in *; try lia; try reflexivity.
  rewrite mask_assign_nil, IH by lia. reflexivity.
Qed.

Lemma nth_assign_rows (idx : list bool) (cs X : matrix) (n a : nat) :
  length cs = n -> length X = n -> a < n ->
  nth a (assign_rows idx cs X) [] = mask_assign idx (nth a cs []) (nth a X []).
Proof.
  intros Hc HX Ha. unfold assign_rows.
  set (G := fun p : list C * list C => let '(row, new) := p in mask_assign idx row new).
  assert (E : G ([], []) = []) by (unfold G; destruct idx; reflexivity).
  rewrite <- E at 1. rewrite (map_nth G (combine cs X) ([], []) a).
  rewrite combine_nth by lia. reflexivity.
Qed.

Lemma has_shape_assign_rows (idx : list bool) (cs X : matrix) (n m k : nat) :
  has_shape n m cs = true -> has_shape n k X = true ->
  has_shape n m (assign_rows idx cs X) = true.
Proof.
  rewrite !has_shape_iff. intros [Hc Hr] [HX _]. unfold assign_rows. split.
  - rewrite length_map, length_combine, Hc, HX. apply Nat.min_id.
  - apply Forall_forall. intros r Hin. apply in_map_iff in Hin.
    destruct Hin as [[row new] [<- Hin]]. apply in_combine_l in Hin.
    rewrite mask_assign_length. rewrite Forall_forall in Hr. apply Hr. exact Hin.
Qed.

Lemma has_shape_select (nao nmo : nat) (mo : matrix) (idx : list bool) :
  has_shape nao nmo mo = true -> length idx = nmo ->
  has_shape nao (count_nonzero idx) (map (mask_select idx) mo) = true.
Proof.
  rewrite !has_shape_iff. intros [H1 H2] Hi. split.
  - rewrite length_map. exact H1.
  - apply Forall_map. eapply Forall_impl; [|exact H2]. intros r Hr. cbv beta in *.
    apply mask_select_length. congruence.
Qed.

Lemma nth_select (mo : matrix) (idx : list bool) (a : nat) :
  nth a (map (mask_select idx) mo) [] = mask_select idx (nth a mo []).
Proof.
  assert (E : mask_select idx (@nil C) = []) by (destruct idx; reflexivity).
  rewrite <- E at 1. apply map_nth.
Qed.

Lemma has_shape_repeat_nil (n : nat) : has_shape n 0 (repeat [] n) = true.
Proof.
  apply has_shape_iff. split; [apply repeat_length|].
  apply Forall_forall. intros r Hr. apply repeat_spec in Hr. subst. reflexivity.
Qed.

Lemma binary_weight (occ : rvec) (j : nat) :
  binary occ = true -> j < length occ ->
  vget occ j = if nth j (map (fun x => Qceqb x 1) occ) false then 1%Qc else 0%Qc.
Proof.
  intros Hb Hj. unfold binary in Hb. rewrite forallb_forall in Hb.
  assert (Hin : In (vget occ j) occ) by (apply nth_In; exact Hj).
  specialize (Hb _ Hin).
  rewrite (nth_indep _ false ((fun x => Qceqb x 1) 0%Qc)) by (rewrite length_map; exact Hj).
  rewrite (map_nth (fun x => Qceqb x 1) occ 0%Qc j). fold (vget occ j).
  destruct (Qceqb (vget occ j) 1) eqn:E1.
  - apply Qceqb_true. exact E1.
  - rewrite orb_false_r in Hb. apply Qceqb_true. exact Hb.
Qed.

Lemma binary_weight_complement (occ : rvec) (j : nat) :
  binary occ = true -> j < length occ ->
  vget (complement occ) j
  = if nth j (map negb (map (fun x => Qceqb x 1) occ)) false then 1%Qc else 0%Qc.
Proof.
  intros Hb Hj. unfold binary in Hb. rewrite forallb_forall in Hb.
  assert (Hin : In (vget occ j) occ) by (apply nth_In; exact Hj).
  specialize (Hb _ Hin). rewrite map_map.
  rewrite (nth_indep _ false ((fun x => negb (Qceqb x 1)) 0%Qc))
    by (rewrite length_map; exact Hj).
  rewrite (map_nth (fun x => negb (Qceqb x 1)) occ 0%Qc j). fold (vget occ j).
  unfold complement, vget at 1.
  rewrite (nth_indep _ 0%Qc ((fun x => (1 - x)%Qc) 0%Qc)) by (rewrite length_map; exact Hj).
  rewrite (map_nth (fun x => (1 - x)%Qc) occ 0%Qc j). fold (vget occ j).
  destruct (Qceqb (vget occ j) 1) eqn:E1; cbn [negb].
  - apply Qceqb_true in E1. rewrite E1. ring.
  - rewrite orb_false_r in Hb. apply Qceqb_true in Hb. rewrite Hb. ring.
Qed.

(** The entries of a density block whose weights are the indicator of a mask. *)
Lemma density_entry_masked (nao nmo : nat) (M : matrix) (w : rvec) (mask : list bool)
    (a b : nat) :
  has_shape nao nmo M = true -> length w = nmo -> length mask = nmo ->
  (forall j, j < nmo -> vget w j = if nth j mask false then 1%Qc else 0%Qc) ->
  a < nao -> b < nao ->
  density_entry M w a b
  = gram (count_nonzero mask) (mask_select mask (nth a M [])) (mask_select mask (nth b M [])).
Proof.
  intros HM Hw Hm Hind Ha Hb. unfold density_entry. rewrite Hw.
  rewrite <- masked_sum
    by (rewrite Hm; apply (has_shape_row nao nmo M); assumption).
  rewrite Hm. apply sum_n_ext. intros j Hj. rewrite (Hind j Hj). reflexivity.
Qed.

Lemma mapM_enumerate_from {A B} (f : nat -> A -> result B) (P : nat -> B -> Prop)
    (l : list A) (a : nat) :
  (forall k x, nth_error l k = Some x -> exists y, f (a + k) x = Ok y /\ P (a + k) y) ->
  exists ys,
    mapM (fun '(k, x) => f k x) (combine (seq a (length l)) l) = Ok ys
    /\ length ys = length l
    /\ forall k d, k < length l -> P (a + k) (nth k ys d).
Proof.
  revert a. induction l as [|x l IH]; intros a H.
  - exists []. simpl. repeat split. intros; lia.
  - destruct (H 0 x eq_refl) as [y [Hy Py]]. rewrite Nat.add_0_r in Hy, Py.
    destruct (IH (S a)) as [ys [Hys [Lys Pys]]].
    { intros k z Hk. destruct (H (S k) z Hk) as [y' Hy'].
      rewrite <- Nat.add_succ_comm in Hy'. exists y'. exact Hy'. }
    exists (y :: ys). cbn [length seq combine mapM]. rewrite Hy, Hys.
    split; [reflexivity|]. split; [simpl; lia|].
    intros [|k] d Hk; cbn [nth].
    + rewrite Nat.add_0_r. exact Py.
    + rewrite <- Nat.add_succ_comm. apply Pys. simpl in Hk. lia.
Qed.

Lemma Forall2_nth_intro {A B} (P : A -> B -> Prop) (l1 : list A) (l2 : list B)
    (d1 : A) (d2 : B) :
  length l1 = length l2 ->
  (forall k, k < length l1 -> P (nth k l1 d1) (nth k l2 d2)) ->
  Forall2 P l1 l2.
Proof.
  revert l2. induction l1 as [|x l1 IH]; intros [|y l2] Hl H; simpl in Hl; try lia.
  - constructor.
  - constructor.
    + apply (H 0). simpl. lia.
    + apply IH; [lia|]. intros k Hk. apply (H (S k)). simpl. lia.
Qed.

Lemma map_combine_ext {A B D} (g : A * B -> D) (l1 l1' : list A) (l2 : list B)
    (d1 : A) (d2 : B) :
  length l1 = length l1' -> length l1 = length l2 ->
  (forall k, k < length l1 -> g (nth k l1 d1, nth k l2 d2) = g (nth k l1' d1, nth k l2 d2)) ->
  map g (combine l1 l2) = map g (combine l1' l2).
Proof.
  intros H1 H2 H. apply (nth_ext _ _ (g (d1, d2)) (g (d1, d2))).
  - rewrite !length_map, !length_combine. lia.
  - intros k Hk. rewrite length_map, length_combine in Hk.
    rewrite !(map_nth g _ (d1, d2) k). rewrite !combine_nth by lia.
    apply H. lia.
Qed.

Lemma orbitals_ok_complement (nao : nat) (mos : list matrix) (occs : list rvec) :
  Forall2 (fun mo occ => orbitals_ok nao mo occ = true) mos occs ->
  Forall2 (fun mo occ => orbitals_ok nao mo occ = true) mos (map complement occs).
Proof.
  induction 1 as [|mo occ mos occs H _ IH]; simpl; constructor; [|exact IH].
  unfold orbitals_ok, complement in *. rewrite length_map. exact H.
Qed.

(** Arrays of one shape pass [np.asarray]. *)
Lemma asarray_ok (nkpts nao nmo : nat)
    (mos : spin_pair (list matrix)) (occs : spin_pair (list rvec)) :
  0 < nao -> orbital_arrays_ok nkpts nao nmo mos occs = true ->
  asarray_blocks mos = Ok mos /\ asarray_rows occs = Ok occs.
Proof.
  intros Hn H. unfold orbital_arrays_ok in H. rewrite !andb_true_iff in H.
  destruct H as [[[[[Ha Hb] La] Lb] Hocc] Hm].
  apply Nat.eqb_eq in La, Lb. apply Nat.ltb_lt in Hm.
  pose proof (proj1 (proj1 (has_shape3_iff _ _ _ _) Ha)) as LKa.
  split.
  - unfold asarray_blocks. rewrite LKa.
    destruct nkpts as [|K].
    + apply length_zero_iff_nil in LKa. rewrite LKa. cbn [hd nrows ncols length].
      pose proof (proj1 (proj1 (has_shape3_iff _ _ _ _) Hb)) as LKb.
      apply length_zero_iff_nil in LKb. rewrite LKb. reflexivity.
    + pose proof (has_shape3_nth _ _ _ _ 0 Ha (Nat.lt_0_succ K)) as H0.
      replace (hd [] (fst mos)) with (nth 0 (fst mos) [])
        by (destruct (fst mos); reflexivity).
      rewrite (has_shape_nrows _ _ _ H0), (has_shape_ncols _ _ _ H0 Hn), Ha, Hb.
      reflexivity.
  - unfold asarray_rows. rewrite La, Lb, Nat.eqb_refl. cbn [andb].
    destruct nkpts as [|K].
    + apply length_zero_iff_nil in La, Lb. rewrite La, Lb. reflexivity.
    + assert (E : length (hd [] (fst occs)) = nmo).
      { destruct (fst occs) as [|v vs]; [discriminate|]. cbn [hd].
        cbn [app forallb] in Hocc. apply andb_true_iff in Hocc.
        apply Nat.eqb_eq. exact (proj1 Hocc). }
      rewrite E, Hocc. reflexivity.
Qed.

Lemma orbital_arrays_channel (nkpts nao nmo : nat)
    (mos : spin_pair (list matrix)) (occs : spin_pair (list rvec)) (s : spin) :
  orbital_arrays_ok nkpts nao nmo mos occs = true ->
  length (channel s mos) = nkpts /\ length (channel s occs) = nkpts
  /\ Forall (fun occ => length occ = nmo) (channel s occs)
  /\ Forall2 (fun mo occ => orbitals_ok nao mo occ = true) (channel s mos) (channel s occs).
Proof.
  intro H. unfold orbital_arrays_ok in H. rewrite !andb_true_iff in H.
  destruct H as [[[[[Ha Hb] La] Lb] Hocc] Hm].
  apply Nat.eqb_eq in La, Lb. rewrite forallb_app in Hocc.
  apply andb_true_iff in Hocc. destruct Hocc as [Oa Ob].
  assert (G : forall (M : list matrix) (O : list rvec),
            has_shape3 nkpts nao nmo M = true -> length O = nkpts ->
            forallb (fun v => length v =? nmo) O = true ->
            length M = nkpts /\ length O = nkpts
            /\ Forall (fun occ => length occ = nmo) O
            /\ Forall2 (fun mo occ => orbitals_ok nao mo occ = true) M O).
  { intros M O HM LO HO.
    pose proof (proj1 (proj1 (has_shape3_iff _ _ _ _) HM)) as LM.
    assert (FO : Forall (fun occ => length occ = nmo) O).
    { apply Forall_forall. intros v Hv. rewrite forallb_forall in HO.
      apply Nat.eqb_eq. apply HO. exact Hv. }
    split; [exact LM|]. split; [exact LO|]. split; [exact FO|].
    apply (@Forall2_nth_intro matrix rvec _ _ _ [] []); [lia|].
    intros k Hk. cbv beta. unfold orbitals_ok.
    rewrite Forall_forall in FO.
    rewrite (FO (nth k O [])) by (apply nth_In; lia).
    rewrite (has_shape3_nth _ _ _ _ k HM) by lia. exact Hm. }
  destruct s; cbn [channel]; apply G; assumption.
Qed.

Section CanonicalizeProps.

Variable eigh : matrix -> rvec * matrix.
Variable uninit_C : nat -> nat -> C.
Variable uninit_R : nat -> Qc.
Hypothesis eigh_ok : eigh_contract eigh.

Lemma eig_ok (dt : dtype) (nao nmo : nat) (F mo : matrix) (idx : list bool)
    (es : rvec) (cs : matrix) :
  0 < nao ->
  has_shape nao nmo mo = true -> has_shape nao nao F = true -> hermitian F ->
  length idx = nmo -> length es = nmo -> has_shape nao nmo cs = true ->
  fits dt mo = true ->
  (0 < count_nonzero idx -> fits dt (snd (eigh (fock_block F mo idx))) = true) ->
  exists es' X,
    eig_ eigh dt F mo idx es cs = Ok (es', assign_rows idx cs X)
    /\ length es' = nmo
    /\ has_shape nao (count_nonzero idx) X = true
    /\ (forall a b, a < nao -> b < nao ->
          gram (count_nonzero idx) (nth a X []) (nth b X [])
          = gram (count_nonzero idx) (mask_select idx (nth a mo []))
                                     (mask_select idx (nth b mo []))).
Proof.
  intros Hn Hmo HF Hh Hidx Hes Hcs Hfm Hfc. unfold eig_.
  unfold fock_block, ctranspose in Hfc.
  set (cnt := count_nonzero idx) in *.
  destruct (0 <? cnt) eqn:Ecnt.
  - apply Nat.ltb_lt in Ecnt. specialize (Hfc Ecnt).
    unfold select_cols. rewrite (has_shape_ncols _ _ _ Hmo Hn), Hidx, Nat.eqb_refl.
    cbn [bind]. set (orb := map (mask_select idx) mo) in *.
    pose proof (has_shape_select nao nmo mo idx Hmo Hidx) as Horb. fold cnt orb in Horb.
    pose proof (has_shape_ctranspose _ _ _ Horb Hn) as Hoh. unfold ctranspose in Hoh.
    unfold np_dot at 1.
    rewrite (has_shape_ncols _ _ _ Hoh Ecnt), (has_shape_nrows _ _ _ HF), Nat.eqb_refl.
    cbn [bind].
    pose proof (has_shape_mmul cnt nao nao _ _ Hn Hoh HF) as Ht.
    unfold np_dot at 1.
    rewrite (has_shape_ncols _ _ _ Ht Ecnt), (has_shape_nrows _ _ _ Horb), Nat.eqb_refl.
    cbn [bind].
    destruct (projected_fock_hermitian nao cnt orb F Hn Ecnt Horb HF Hh) as [Hf1 Hf1h].
    destruct (eigh_ok _ cnt Ecnt Hf1 Hf1h) as [He Hu].
    destruct (eigh (mmul (mmul (conj (transpose orb)) F) orb)) as [e c].
    cbn [fst snd] in He, Hu, Hfc. pose proof Hu as [Hc _].
    unfold assign_mask. rewrite Hidx, Hes, Nat.eqb_refl. cbn [negb].
    fold cnt. rewrite He, Nat.eqb_refl. cbn [bind].
    unfold np_dot. rewrite (has_shape_ncols _ _ _ Horb Hn), (has_shape_nrows _ _ _ Hc).
    rewrite Nat.eqb_refl. cbn [bind].
    pose proof (has_shape_mmul nao cnt cnt _ _ Ecnt Horb Hc) as HX.
    unfold assign_cols.
    rewrite (has_shape_ncols _ _ _ Hcs Hn), Hidx, Nat.eqb_refl. cbn [negb].
    rewrite (has_shape_nrows _ _ _ Hcs). fold cnt. rewrite HX. cbn [bind].
    assert (Ex : astype dt (mmul orb c) = mmul orb c)
      by (apply (rotated_fits dt mo c idx Hfm Hfc)).
    rewrite Ex.
    exists (mask_assign idx es e), (mmul orb c).
    split; [reflexivity|]. split; [rewrite mask_assign_length; exact Hes|].
    split; [exact HX|]. intros a b Ha Hb.
    rewrite <- !nth_select. fold orb. unfold gram.
    assert (Hrows : forall l l', l < cnt -> l' < cnt ->
              sum_n cnt (fun m => (mget c l m * Cconj (mget c l' m))%C)
              = if l =? l' then C1 else C0)
      by (intros; apply unitary_rows; assumption).
    etransitivity;
      [|exact (gram_unitary cnt c (fun l => mget orb a l) (fun l => mget orb b l) Hrows)].
    apply sum_n_ext. intros m Hm.
    change (nth m (nth a (mmul orb c) []) C0) with (mget (mmul orb c) a m).
    change (nth m (nth b (mmul orb c) []) C0) with (mget (mmul orb c) b m).
    rewrite !(mget_mmul nao cnt cnt) by assumption. reflexivity.
  - apply Nat.ltb_ge in Ecnt. assert (E0 : cnt = 0) by lia.
    exists es, (repeat [] nao).
    rewrite (assign_rows_nil idx cs nao (has_shape_nrows _ _ _ Hcs)).
    split; [reflexivity|]. split; [exact Hes|]. rewrite E0.
    split; [apply has_shape_repeat_nil|]. intros. reflexivity.
Qed.

(** *** One k-point *)

Lemma canonicalize_kpt_ok (dt : dtype) (nao : nat) (fock : list matrix) (occs : list rvec)
    (k : nat) (mo F : matrix) (occ : rvec) :
  0 < nao -> orbitals_ok nao mo occ = true -> binary occ = true ->
  nth_error occs k = Some occ -> nth_error fock k = Some F ->
  has_shape nao nao F = true -> hermitian F ->
  fits dt mo = true ->
  (forall idx, idx = occupied_mask occ \/ idx = map negb (occupied_mask occ) ->
     0 < count_nonzero idx -> fits dt (snd (eigh (fock_block F mo idx))) = true) ->
  exists e' mo',
    canonicalize_kpt eigh uninit_C uninit_R dt fock occs k mo = Ok (e', mo')
    /\ orbitals_ok nao mo' occ = true
    /\ density_block mo' occ = density_block mo occ
    /\ density_block mo' (complement occ) = density_block mo (complement occ).
Proof.
  intros Hn Hok Hbin Hocc HFk HF Hh Hfm Hfc.
  pose proof Hok as Hok'. unfold orbitals_ok in Hok'. apply andb_true_iff in Hok'.
  destruct Hok' as [Hmo Hnmo]. set (nmo := length occ) in *.
  unfold canonicalize_kpt, py_nth. rewrite Hocc, HFk. cbn [bind].
  unfold occupied_mask in Hfc.
  set (occidx := map (fun x => Qceqb x 1) occ) in *.
  set (viridx := map negb occidx) in *.
  set (mo1 := empty_like_matrix uninit_C dt mo).
  set (me := empty_like_rvec uninit_R occ).
  assert (Lo : length occidx = nmo) by (unfold occidx; apply length_map).
  assert (Lv : length viridx = nmo) by (unfold viridx; rewrite length_map; exact Lo).
  assert (Hmo1 : has_shape nao nmo mo1 = true).
  { unfold mo1, empty_like_matrix.
    rewrite (has_shape_nrows _ _ _ Hmo), (has_shape_ncols _ _ _ Hmo Hn).
    apply has_shape_mk. }
  assert (Lme : length me = nmo)
    by (unfold me, empty_like_rvec; rewrite length_map, length_seq; reflexivity).
  destruct (eig_ok dt nao nmo F mo occidx me mo1 Hn Hmo HF Hh Lo Lme Hmo1 Hfm
              (Hfc occidx (or_introl eq_refl)))
    as [es1 [Xo [E1 [L1 [HXo G1]]]]].
  rewrite E1. cbn [bind].
  set (cs1 := assign_rows occidx mo1 Xo) in *.
  pose proof (has_shape_assign_rows occidx mo1 Xo _ _ _ Hmo1 HXo) as Hcs1. fold cs1 in Hcs1.
  destruct (eig_ok dt nao nmo F mo viridx es1 cs1 Hn Hmo HF Hh Lv L1 Hcs1 Hfm
              (Hfc viridx (or_intror eq_refl)))
    as [es2 [Xv [E2 [L2 [HXv G2]]]]].
  rewrite E2. cbn [bind].
  set (cs2 := assign_rows viridx cs1 Xv) in *.
  pose proof (has_shape_assign_rows viridx cs1 Xv _ _ _ Hcs1 HXv) as Hcs2. fold cs2 in Hcs2.
  exists es2, cs2. split; [reflexivity|].
  assert (Hok2 : orbitals_ok nao cs2 occ = true)
    by (unfold orbitals_ok; fold nmo; rewrite Hcs2; exact Hnmo).
  split; [exact Hok2|].
  assert (Hrow : forall a, a < nao ->
            nth a cs2 [] = mask_assign viridx
                             (mask_assign occidx (nth a mo1 []) (nth a Xo [])) (nth a Xv [])).
  { intros a Ha. unfold cs2.
    rewrite (nth_assign_rows viridx cs1 Xv nao a)
      by (try apply (has_shape_nrows _ _ _ Hcs1); try apply (has_shape_nrows _ _ _ HXv);
          exact Ha).
    unfold cs1.
    rewrite (nth_assign_rows occidx mo1 Xo nao a)
      by (try apply (has_shape_nrows _ _ _ Hmo1); try apply (has_shape_nrows _ _ _ HXo);
          exact Ha).
    reflexivity. }
  assert (Hsel_o : forall a, a < nao -> mask_select occidx (nth a cs2 []) = nth a Xo []).
  { intros a Ha. rewrite (Hrow a Ha). unfold viridx.
    rewrite mask_select_assign_neg
      by (rewrite mask_assign_length, Lo; apply (has_shape_row nao nmo mo1); assumption).
    apply mask_select_assign.
    - rewrite Lo. apply (has_shape_row nao nmo mo1); assumption.
    - apply (has_shape_row nao _ Xo); assumption. }
  assert (Hsel_v : forall a, a < nao -> mask_select viridx (nth a cs2 []) = nth a Xv []).
  { intros a Ha. rewrite (Hrow a Ha). apply mask_select_assign.
    - rewrite mask_assign_length, Lv. apply (has_shape_row nao nmo mo1); assumption.
    - apply (has_shape_row nao _ Xv); assumption. }
  assert (Hokc : forall M, orbitals_ok nao M occ = true ->
                           orbitals_ok nao M (complement occ) = true).
  { intros M H. unfold orbitals_ok, complement in *. rewrite length_map. exact H. }
  split.
  - rewrite (density_block_entries nao cs2 occ Hn Hok2).
    rewrite (density_block_entries nao mo occ Hn Hok).
    apply mk_matrix_ext. intros a b Ha Hb.
    rewrite (density_entry_masked nao nmo cs2 occ occidx a b Hcs2 eq_refl Lo)
      by (try assumption; intros j Hj; apply binary_weight; assumption).
    rewrite (density_entry_masked nao nmo mo occ occidx a b Hmo eq_refl Lo)
      by (try assumption; intros j Hj; apply binary_weight; assumption).
    rewrite !Hsel_o by assumption. apply G1; assumption.
  - rewrite (density_block_entries nao cs2 _ Hn (Hokc _ Hok2)).
    rewrite (density_block_entries nao mo _ Hn (Hokc _ Hok)).
    assert (Lc : length (complement occ) = nmo) by (unfold complement; apply length_map).
    apply mk_matrix_ext. intros a b Ha Hb.
    rewrite (density_entry_masked nao nmo cs2 (complement occ) viridx a b Hcs2 Lc Lv)
      by (try assumption; intros j Hj; apply binary_weight_complement; assumption).
    rewrite (density_entry_masked nao nmo mo (complement occ) viridx a b Hmo Lc Lv)
      by (try assumption; intros j Hj; apply binary_weight_complement; assumption).
    rewrite !Hsel_v by assumption. apply G2; assumption.
Qed.

(** *** One spin channel *)

Lemma canonicalize_channel_ok (dt : dtype) (nao : nat) (fock mos : list matrix)
    (occs : list rvec) :
  0 < nao ->
  Forall2 (fun mo occ => orbitals_ok nao mo occ = true) mos occs ->
  Forall (fun occ => binary occ = true) occs ->
  length fock = length mos ->
  Forall (fun F => has_shape nao nao F = true /\ hermitian F) fock ->
  Forall (fun mo => fits dt mo = true) mos ->
  (forall k idx, k < length mos ->
     idx = occupied_mask (nth k occs []) \/ idx = map negb (occupied_mask (nth k occs [])) ->
     0 < count_nonzero idx ->
     fits dt (snd (eigh (fock_block (nth k fock []) (nth k mos []) idx))) = true) ->
  exists res,
    canonicalize_channel eigh uninit_C uninit_R dt fock mos occs = Ok res
    /\ Forall2 (fun mo occ => orbitals_ok nao mo occ = true) (map snd res) occs
    /\ map (fun '(mo, occ) => density_block mo occ) (combine (map snd res) occs)
       = map (fun '(mo, occ) => density_block mo occ) (combine mos occs)
    /\ map (fun '(mo, occ) => density_block mo occ)
           (combine (map snd res) (map complement occs))
       = map (fun '(mo, occ) => density_block mo occ) (combine mos (map complement occs)).
Proof.
  intros Hn Hok Hbin Hlen HF Hfm Hfc.
  pose proof (Forall2_length Hok) as Lo.
  set (P := fun (k : nat) (r : rvec * matrix) =>
              orbitals_ok nao (snd r) (nth k occs []) = true
              /\ density_block (snd r) (nth k occs [])
                 = density_block (nth k mos []) (nth k occs [])
              /\ density_block (snd r) (complement (nth k occs []))
                 = density_block (nth k mos []) (complement (nth k occs []))).
  destruct (mapM_enumerate_from
              (canonicalize_kpt eigh uninit_C uninit_R dt fock occs) P mos 0)
    as [res [Eres [Lres Pres]]].
  { intros k mo Hk. cbn [Nat.add].
    assert (Hklt : k < length mos) by (apply nth_error_Some; congruence).
    assert (Emo : nth k mos [] = mo) by (apply nth_error_nth; exact Hk).
    destruct (canonicalize_kpt_ok dt nao fock occs k mo (nth k fock []) (nth k occs []))
      as [e' [mo' [E [H1 [H2 H3]]]]].
    - exact Hn.
    - rewrite <- Emo. apply (Forall2_nth_both _ mos occs [] [] k Hok Hklt).
    - rewrite Forall_forall in Hbin. apply Hbin. apply nth_In. lia.
    - apply nth_error_nth'. lia.
    - apply nth_error_nth'. lia.
    - rewrite Forall_forall in HF. apply HF. apply nth_In. lia.
    - rewrite Forall_forall in HF. apply HF. apply nth_In. lia.
    - rewrite Forall_forall in Hfm. apply Hfm. rewrite <- Emo. apply nth_In. exact Hklt.
    - intros idx Hidx Hc. rewrite <- Emo. apply (Hfc k idx Hklt Hidx Hc).
    - exists (e', mo'). split; [exact E|]. unfold P. cbn [snd]. rewrite Emo. auto. }
  exists res. split; [exact Eres|].
  assert (Hsnd : forall k, k < length mos -> nth k (map snd res) [] = snd (nth k res ([], []))).
  { intros k Hk. exact (map_nth snd res ([], []) k). }
  split; [|split].
  - apply (@Forall2_nth_intro matrix rvec _ _ _ [] []).
    + rewrite length_map, Lres. exact Lo.
    + intros k Hk. rewrite length_map, Lres in Hk. cbv beta. rewrite (Hsnd k Hk).
      apply (Pres k ([], []) Hk).
  - apply (@map_combine_ext matrix rvec matrix _ _ _ _ [] []).
    + rewrite length_map. exact Lres.
    + rewrite length_map, Lres. exact Lo.
    + intros k Hk. rewrite length_map, Lres in Hk. cbv beta. rewrite (Hsnd k Hk).
      apply (Pres k ([], []) Hk).
  - apply (@map_combine_ext matrix rvec matrix _ _ _ _ [] []).
    + rewrite length_map. exact Lres.
    + rewrite !length_map, Lres. exact Lo.
    + intros k Hk. rewrite length_map, Lres in Hk. cbv beta. rewrite (Hsnd k Hk).
      assert (Ec : nth k (map complement occs) [] = complement (nth k occs []))
        by exact (map_nth complement occs [] k).
      rewrite !Ec. apply (Pres k ([], []) Hk).
Qed.

(** When what is stored fits the dtype of the orbital array (always so for
    complex128; for float64, real orbitals and real eigenvectors), the
    density is kept: for orbital coefficients of shape (2, nkpts, nao, nmo),
    occupations that are exactly 0 or 1 and Hermitian Fock matrices,
    [canonicalize] returns new coefficients from which [make_rdm1], with the
    unchanged occupations, rebuilds exactly the density matrix of the
    original coefficients; the density built with the complementary
    (virtual) occupations is unchanged as well. *)
Lemma canonicalize_preserves_density (m : mf) (dt : dtype) (nkpts nao nmo : nat)
    (mos : spin_pair (list matrix)) (occs : spin_pair (list rvec))
    (fock : spin_pair (list matrix)) :
  0 < nao -> 0 < nkpts ->
  orbital_arrays_ok nkpts nao nmo mos occs = true ->
  (forall s, Forall (fun occ => binary occ = true) (channel s occs)) ->
  (forall s, length (channel s fock) = nkpts) ->
  (forall s, Forall (fun F => has_shape nao nao F = true /\ hermitian F) (channel s fock)) ->
  (forall s, Forall (fun mo => fits dt mo = true) (channel s mos)) ->
  (forall s k idx, k < nkpts ->
     idx = occupied_mask (nth k (channel s occs) [])
     \/ idx = map negb (occupied_mask (nth k (channel s occs) [])) ->
     0 < count_nonzero idx ->
     fits dt (snd (eigh (fock_block (nth k (channel s fock) [])
                           (nth k (channel s mos) []) idx))) = true) ->
  exists mo_energy mo_coeff dm,
    canonicalize eigh uninit_C uninit_R m dt mos occs fock = Ok (mo_energy, mo_coeff)
    /\ make_rdm1 mos occs = Ok dm
    /\ make_rdm1 mo_coeff occs = Ok dm
    /\ make_rdm1 mo_coeff (map complement (fst occs), map complement (snd occs))
       = make_rdm1 mos (map complement (fst occs), map complement (snd occs)).
Proof.
  intros Hn HK Harr Hbin LF HF Hfm Hfc.
  destruct (asarray_ok nkpts nao nmo mos occs Hn Harr) as [Amo Aocc].
  destruct (orbital_arrays_channel nkpts nao nmo mos occs Alpha Harr)
    as [Lma [Loa [_ Ha]]].
  destruct (orbital_arrays_channel nkpts nao nmo mos occs Beta Harr)
    as [Lmb [Lob [_ Hb]]].
  cbn [channel] in Lma, Loa, Ha, Lmb, Lob, Hb.
  assert (Hch : forall s, exists res,
            canonicalize_channel eigh uninit_C uninit_R dt (channel s fock)
              (channel s mos) (channel s occs) = Ok res
            /\ Forall2 (fun mo occ => orbitals_ok nao mo occ = true)
                 (map snd res) (channel s occs)
            /\ map (fun '(mo, occ) => density_block mo occ)
                   (combine (map snd res) (channel s occs))
               = map (fun '(mo, occ) => density_block mo occ)
                   (combine (channel s mos) (channel s occs))
            /\ map (fun '(mo, occ) => density_block mo occ)
                   (combine (map snd res) (map complement (channel s occs)))
               = map (fun '(mo, occ) => density_block mo occ)
                   (combine (channel s mos) (map complement (channel s occs)))).
  { intro s.
    destruct (orbital_arrays_channel nkpts nao nmo mos occs s Harr) as [Lm [_ [_ Hs]]].
    apply (canonicalize_channel_ok dt nao); try assumption.
    - apply Hbin.
    - rewrite Lm. apply LF.
    - apply HF.
    - apply Hfm.
    - intros k idx Hk. apply Hfc. rewrite <- Lm. exact Hk. }
  destruct (Hch Alpha) as [ra [Era [Oka [Da Va]]]].
  destruct (Hch Beta) as [rb [Erb [Okb [Db Vb]]]].
  cbn [channel] in Era, Oka, Da, Va, Erb, Okb, Db, Vb.
  destruct mos as [mo_a mo_b], occs as [occ_a occ_b]. cbn [fst snd] in *.
  assert (Hk : 0 < length occ_a) by lia.
  assert (Hlen : length occ_b = length occ_a) by lia.
  exists (map fst ra, map fst rb), (map snd ra, map snd rb).
  eexists. split; [|split; [|split]].
  - unfold canonicalize. rewrite Amo, Aocc. cbn [bind fst snd]. rewrite Era, Erb.
    reflexivity.
  - apply (make_rdm1_eval nao); assumption.
  - rewrite (make_rdm1_eval nao _ _ _ _ Hn Hk Hlen Oka Okb). rewrite Da, Db. reflexivity.
  - rewrite (make_rdm1_eval nao (map snd ra) (map snd rb));
      [|exact Hn|rewrite length_map; exact Hk|rewrite !length_map; exact Hlen
       |apply orbitals_ok_complement; exact Oka|apply orbitals_ok_complement; exact Okb].
    rewrite (make_rdm1_eval nao mo_a mo_b);
      [|exact Hn|rewrite length_map; exact Hk|rewrite !length_map; exact Hlen
       |apply orbitals_ok_complement; exact Ha|apply orbitals_ok_complement; exact Hb].
    rewrite Va, Vb. reflexivity.
Qed.

End CanonicalizeProps.

Lemma identity_unitary (n : nat) : 0 < n -> unitary n (identity n).
Proof.
  intro Hn.
  assert (Hs : has_shape n n (identity n) = true) by apply has_shape_mk.
  assert (Hc : has_shape n n (ctranspose (identity n)) = true)
    by (apply has_shape_ctranspose; assumption).
  assert (Hd : forall l l', l < n -> l' < n ->
            sum_n n (fun m => ((if l =? m then C1 else C0)
                               * Cconj (if l' =? m then C1 else C0))%C)
            = if l =? l' then C1 else C0).
  { intros l l' Hl Hl'.
    rewrite (sum_n_ext n _ (fun m => if m =? l' then (if l =? m then C1 else C0) else C0)).
    - rewrite (sum_n_delta n l' (fun m => if l =? m then C1 else C0)) by exact Hl'.
      reflexivity.
    - intros m Hm. rewrite (Nat.eqb_sym l' m). destruct (m =? l'), (l =? m); cring. }
  split; [exact Hs|]. split.
  - apply (matrix_ext n n); [apply has_shape_mmul with (k := n); assumption|exact Hs|].
    intros l l' Hl Hl'. rewrite (mget_mmul n n n) by assumption.
    unfold identity at 3. rewrite mget_mk by assumption. rewrite <- (Hd l l' Hl Hl').
    apply sum_n_ext. intros m Hm. rewrite (mget_ctranspose n n) by assumption.
    unfold identity. rewrite !mget_mk by assumption. reflexivity.
  - apply (matrix_ext n n); [apply has_shape_mmul with (k := n); assumption|exact Hs|].
    intros l l' Hl Hl'. rewrite (mget_mmul n n n) by assumption.
    unfold identity at 3. rewrite mget_mk by assumption.
    rewrite (sum_n_ext n _
               (fun m => if m =? l' then Cconj (if m =? l then C1 else C0) else C0)).
    + rewrite (sum_n_delta n l' (fun m => Cconj (if m =? l then C1 else C0))) by exact Hl'.
      rewrite (Nat.eqb_sym l' l). destruct (l =? l'); cring.
    + intros m Hm. rewrite (mget_ctranspose n n) by assumption.
      unfold identity. rewrite !mget_mk by assumption.
      destruct (m =? l'), (m =? l); cring.
Qed.

Lemma eigh_diagonal_contract : eigh_contract eigh_diagonal.
Proof.
  intros f n Hn Hs _. unfold eigh_diagonal. cbn [fst snd].
  rewrite (has_shape_nrows _ _ _ Hs). split.
  - rewrite length_map, length_seq. reflexivity.
  - apply identity_unitary. exact Hn.
Qed.

Lemma canonicalize_preserves_density_witness :
  exists mo_energy mo_coeff dm,
    canonicalize eigh_diagonal (fun _ _ => C0) (fun _ => 0%Qc) ex_mf Float64
      ([ex_unit_mo], [ex_unit_mo]) ([ex_occ], [ex_occ]) ([ex_fock], [ex_fock])
    = Ok (mo_energy, mo_coeff)
    /\ make_rdm1 ([ex_unit_mo], [ex_unit_mo]) ([ex_occ], [ex_occ]) = Ok dm
    /\ make_rdm1 mo_coeff ([ex_occ], [ex_occ]) = Ok dm
    /\ make_rdm1 mo_coeff (map complement [ex_occ], map complement [ex_occ])
       = make_rdm1 ([ex_unit_mo], [ex_unit_mo])
           (map complement [ex_occ], map complement [ex_occ]).
Proof.
  apply (canonicalize_preserves_density eigh_diagonal (fun _ _ => C0) (fun _ => 0%Qc)
           eigh_diagonal_contract ex_mf Float64 1 2 2
           ([ex_unit_mo], [ex_unit_mo]) ([ex_occ], [ex_occ]) ([ex_fock], [ex_fock])).
  - lia.
  - lia.
  - reflexivity.
  - intros [|]; repeat constructor.
  - intros [|]; reflexivity.
  - intros [|]; repeat constructor.
  - intros [|]; repeat constructor.
  - intros s k idx Hk _ _. apply real_entries_mk. intros i j.
    destruct (i =? j); reflexivity.
Defined.

(** On this input the orbitals come back unchanged, with the diagonal of
    the Fock matrix as energies. *)
Example canonicalize_example :
  canonicalize eigh_diagonal (fun _ _ => C0) (fun _ => 0%Qc) ex_mf Complex128
    ([ex_unit_mo], [ex_unit_mo]) ([ex_occ], [ex_occ]) ([ex_fock], [ex_fock])
  = Ok (([[1%Qc; of_nat 2]], [[1%Qc; of_nat 2]]), ([ex_unit_mo], [ex_unit_mo])).
Proof. vm_compute. reflexivity. Qed.

(** Orbitals with two columns at one k-point and three at the other do not
    form an array: [np.asarray] raises. *)
Example canonicalize_ragged_example :
  canonicalize eigh_diagonal (fun _ _ => C0) (fun _ => 0%Qc) ex_mf Complex128
    ([ex_unit_mo; ex_mo3], [ex_unit_mo; ex_mo3])
    ([ex_occ; [1%Qc; 0%Qc; 0%Qc]], [ex_occ; [1%Qc; 0%Qc; 0%Qc]])
    ([ex_fock; ex_fock], [ex_fock; ex_fock])
  = Raise ValueError.
Proof. reflexivity. Qed.

(** *** Float64 orbitals and a complex Fock matrix *)

(** [eig_] consults the eigensolver at the Fock matrix in the selected
    orbitals only. *)
Lemma eig_eigh_ext (eigh eigh' : matrix -> rvec * matrix) (dt : dtype) (F mo : matrix)
    (idx : list bool) (es : rvec) (cs : matrix) :
  (0 < count_nonzero idx -> eigh (fock_block F mo idx) = eigh' (fock_block F mo idx)) ->
  eig_ eigh dt F mo idx es cs = eig_ eigh' dt F mo idx es cs.
Proof.
  intro H. unfold eig_. destruct (0 <? count_nonzero idx) eqn:E; [|reflexivity].
  apply Nat.ltb_lt in E. specialize (H E). unfold fock_block, ctranspose in H.
  unfold select_cols. destruct (length idx =? ncols mo); cbn [bind]; [|reflexivity].
  unfold np_dot at 1 4.
  destruct (ncols (conj (transpose (map (mask_select idx) mo))) =? nrows F);
    cbn [bind]; [|reflexivity].
  unfold np_dot at 1 3.
  destruct (ncols (mmul (conj (transpose (map (mask_select idx) mo))) F)
            =? nrows (map (mask_select idx) mo)); cbn [bind]; [|reflexivity].
  rewrite H. reflexivity.
Qed.

Lemma canonicalize_eigh_ext (eigh eigh' : matrix -> rvec * matrix)
    (uC : nat -> nat -> C) (uR : nat -> Qc) (m : mf) (dt : dtype)
    (mos : spin_pair (list matrix)) (occs : spin_pair (list rvec))
    (fock : spin_pair (list matrix)) :
  (forall s k idx, k < length (channel s mos) ->
     idx = occupied_mask (nth k (channel s occs) [])
     \/ idx = map negb (occupied_mask (nth k (channel s occs) [])) ->
     0 < count_nonzero idx ->
     eigh (fock_block (nth k (channel s fock) []) (nth k (channel s mos) []) idx)
     = eigh' (fock_block (nth k (channel s fock) []) (nth k (channel s mos) []) idx)) ->
  canonicalize eigh uC uR m dt mos occs fock = canonicalize eigh' uC uR m dt mos occs fock.
Proof.
  intro H.
  assert (Hch : forall s,
            canonicalize_channel eigh uC uR dt (channel s fock) (channel s mos)
              (channel s occs)
            = canonicalize_channel eigh' uC uR dt (channel s fock) (channel s mos)
                (channel s occs)).
  { intro s. unfold canonicalize_channel. apply mapM_ext_in. intros [k mk] Hin.
    destruct (In_enumerate_nth (channel s mos) k mk [] Hin) as [Hk Hmk].
    unfold canonicalize_kpt, py_nth.
    destruct (nth_error (channel s occs) k) as [occ|] eqn:Eo; cbn [bind]; [|reflexivity].
    destruct (nth_error (channel s fock) k) as [F|] eqn:EF; cbn [bind]; [|reflexivity].
    assert (Eo' : nth k (channel s occs) [] = occ) by (apply nth_error_nth; exact Eo).
    assert (EF' : nth k (channel s fock) [] = F) by (apply nth_error_nth; exact EF).
    specialize (H s k). rewrite Eo', EF', Hmk in H. unfold occupied_mask in H.
    rewrite (eig_eigh_ext eigh eigh' dt F mk (map (fun x => Qceqb x 1) occ))
      by (intro Hc; apply (H _ Hk (or_introl eq_refl) Hc)).
    destruct (eig_ eigh' dt F mk _ _ _) as [[e1 c1]|x]; cbn [bind]; [|reflexivity].
    rewrite (eig_eigh_ext eigh eigh' dt F mk (map negb (map (fun x => Qceqb x 1) occ)))
      by (intro Hc; apply (H _ Hk (or_intror eq_refl) Hc)).
    reflexivity. }
  unfold canonicalize, asarray_blocks, asarray_rows. cbv zeta.
  match goal with |- context [if ?b then Ok mos else _] => destruct b end;
    cbn [bind]; [|reflexivity].
  match goal with |- context [if ?b then Ok occs else _] => destruct b end;
    cbn [bind]; [|reflexivity].
  pose proof (Hch Alpha) as Ea. pose proof (Hch Beta) as Eb. cbn [channel] in Ea, Eb.
  rewrite Ea, Eb. reflexivity.
Qed.

Section CanonicalizeFloat64.

Variable eigh : matrix -> rvec * matrix.
Variable uninit_C : nat -> nat -> C.
Variable uninit_R : nat -> Qc.

(** C6.  Float64 orbitals with a complex Hermitian Fock matrix lose their
    density.  The orbitals are the two unit vectors, both occupied, in a
    float64 array; the Fock matrix [[16, 12i], [-12i, 9]] is Hermitian and
    the eigensolver returns its eigenvalues 0 and 25 with the unitary
    eigenvectors (-3/5, -4i/5) and (-4/5, 3i/5).  The buffer
    [np.empty_like(mo)] is float64 as well, so the rotated orbitals are
    stored without their imaginary parts: [canonicalize] returns the rows
    (-3/5, -4/5) and (0, 0), whose density is diag(1, 0), while the density
    of the original orbitals is the identity. *)
Theorem canonicalize_float64_orbitals_lose_density (m : mf) :
  eigh ex_fock_complex = (ex_evals, ex_evecs) ->
  binary ex_occ_full = true
  /\ hermitian ex_fock_complex
  /\ unitary 2 ex_evecs
  /\ diagonalised_by ex_fock_complex (ex_evals, ex_evecs)
  /\ canonicalize eigh uninit_C uninit_R m Float64
       ([ex_unit_mo], [ex_unit_mo]) ([ex_occ_full], [ex_occ_full])
       ([ex_fock_complex], [ex_fock_complex])
     = Ok (([ex_evals], [ex_evals]), ([ex_mo_cast], [ex_mo_cast]))
  /\ make_rdm1 ([ex_unit_mo], [ex_unit_mo]) ([ex_occ_full], [ex_occ_full])
     = Ok ([ex_unit_mo], [ex_unit_mo])
  /\ make_rdm1 ([ex_mo_cast], [ex_mo_cast]) ([ex_occ_full], [ex_occ_full])
     = Ok ([ex_dm_cast], [ex_dm_cast]).
Proof.
  intro H.
  split; [reflexivity|].
  split; [unfold hermitian; vm_compute; data_eq|].
  split; [unfold unitary; repeat split; vm_compute; data_eq|].
  split; [unfold diagonalised_by; repeat split; vm_compute; data_eq|].
  split; [|split; vm_compute; data_eq].
  rewrite (canonicalize_eigh_ext eigh (fun _ => (ex_evals, ex_evecs))).
  - vm_compute. data_eq.
  - intros s k idx Hk Hidx Hc.
    assert (k = 0) by (destruct s; simpl in Hk; lia). subst k.
    assert (E : idx = [true; true] \/ idx = [false; false])
      by (destruct s, Hidx as [-> | ->]; [left|right|left|right]; reflexivity).
    destruct E as [-> | ->]; [|vm_compute in Hc; lia].
    replace (fock_block _ _ _) with ex_fock_complex
      by (destruct s; vm_compute; data_eq).
    exact H.
Qed.

End CanonicalizeFloat64.

Lemma canonicalize_float64_orbitals_lose_density_witness :
  binary ex_occ_full = true
  /\ hermitian ex_fock_complex
  /\ unitary 2 ex_evecs
  /\ diagonalised_by ex_fock_complex (ex_evals, ex_evecs)
  /\ canonicalize (fun _ => (ex_evals, ex_evecs)) (fun _ _ => C0) (fun _ => 0%Qc)
       ex_mf Float64
       ([ex_unit_mo], [ex_unit_mo]) ([ex_occ_full], [ex_occ_full])
       ([ex_fock_complex], [ex_fock_complex])
     = Ok (([ex_evals], [ex_evals]), ([ex_mo_cast], [ex_mo_cast]))
  /\ make_rdm1 ([ex_unit_mo], [ex_unit_mo]) ([ex_occ_full], [ex_occ_full])
     = Ok ([ex_unit_mo], [ex_unit_mo])
  /\ make_rdm1 ([ex_mo_cast], [ex_mo_cast]) ([ex_occ_full], [ex_occ_full])
     = Ok ([ex_dm_cast], [ex_dm_cast]).
Proof.
  apply (canonicalize_float64_orbitals_lose_density (fun _ => (ex_evals, ex_evecs))
           (fun _ _ => C0) (fun _ => 0%Qc) ex_mf).
  reflexivity.
Defined.

(** ** KUHF.get_init_guess (C7, C8) *)

Section GetInitGuessProps.

Variable mol_uhf_init_guess_by_1e : cell -> spin_pair matrix.
Variable init_guess_by_atom : mf -> cell -> spin_pair matrix.
Variable init_guess_by_minao : mf -> cell -> spin_pair matrix.
Variable from_chk : mf -> result (dtype * spin_pair (list matrix)).
Variable get_ovlp : mf -> cell -> dtype * list matrix.

Local Abbreviation get_init_guess' :=
  (get_init_guess mol_uhf_init_guess_by_1e init_guess_by_atom init_guess_by_minao
     from_chk get_ovlp).
Local Abbreviation initial_dm_kpts' :=
  (initial_dm_kpts mol_uhf_init_guess_by_1e init_guess_by_atom init_guess_by_minao
     from_chk).

Lemma initial_dm_kpts_non_chk (self : mf) (c : cell) (key : string) :
  non_chk_key key = true ->
  let dm := selected_guess mol_uhf_init_guess_by_1e init_guess_by_atom init_guess_by_minao self c key in
  let nkpts := length (mf_kpts self) in
  let nao := ncols (fst dm) in
  (nkpts =? 0) || (has_shape nao nao (fst dm) && has_shape nao nao (snd dm)) = true ->
  exists log,
    initial_dm_kpts' self c key
    = Ok (Float64,
          (repeat (scale (RtoC lit_1_01) (fst dm)) nkpts,
           repeat (scale (RtoC lit_0_99) (snd dm)) nkpts), log).
Proof.
  intros Hkey dm nkpts nao Hshape.
  assert (Hrep : replicate_kpts nkpts dm = Ok (repeat (fst dm) nkpts, repeat (snd dm) nkpts)).
  { unfold replicate_kpts. fold nao. rewrite Hshape. reflexivity. }
  unfold initial_dm_kpts, init_guess_by_1e. fold nkpts.
  unfold non_chk_key in Hkey. subst dm nao. unfold selected_guess in *.
  destruct (String.eqb (lower key) "1e") eqn:E1.
  - cbn [orb] in *. cbn [bind]. rewrite Hrep. cbn [bind fst snd]. rewrite !map_repeat.
    eexists. reflexivity.
  - cbn [orb] in *. destruct (natm c =? 0) eqn:En.
    + cbn [bind]. rewrite Hrep. cbn [bind fst snd]. rewrite !map_repeat.
      eexists. reflexivity.
    + destruct (String.eqb (lower key) "atom") eqn:E2.
      * cbn [bind]. rewrite Hrep. cbn [bind fst snd]. rewrite !map_repeat.
        eexists. reflexivity.
      * cbn [orb] in Hkey. apply String.eqb_eq in Hkey. rewrite Hkey.
        change (startswith "minao" "chk") with false. cbn [bind].
        rewrite Hrep. cbn [bind fst snd]. rewrite !map_repeat. eexists. reflexivity.
Qed.

(** C7 (amended).  For the keys '1e', 'atom' and 'minao', when the cell has
    dimension at least 3 or every electron count of the scaled guess is
    within 1e-7 of [cell.nelec], [get_init_guess] returns the selected
    k-point-independent density copied to every k-point, alpha scaled by
    1.01 and beta by 0.99. *)
Theorem get_init_guess_replicates (self : mf) (c : option cell) (key : string) :
  non_chk_key key = true ->
  let c' := match c with Some c => c | None => mf_cell self end in
  let dm := selected_guess mol_uhf_init_guess_by_1e init_guess_by_atom init_guess_by_minao self c' key in
  let nkpts := length (mf_kpts self) in
  let nao := ncols (fst dm) in
  let dm_kpts := (repeat (scale (RtoC lit_1_01) (fst dm)) nkpts,
                  repeat (scale (RtoC lit_0_99) (snd dm)) nkpts) in
  (nkpts =? 0) || (has_shape nao nao (fst dm) && has_shape nao nao (snd dm)) = true ->
  (3 <=? dimension c')%Z || within_tolerance get_ovlp self c' dm_kpts = true ->
  exists log, get_init_guess' self c key = Ok (dm_kpts, log).
Proof.
  intros Hkey c' dm nkpts nao dm_kpts Hshape Hskip.
  destruct (initial_dm_kpts_non_chk self c' key Hkey Hshape) as [log1 E1].
  unfold get_init_guess. fold c'. rewrite E1. cbn [bind].
  fold dm nkpts dm_kpts. unfold normalize_low_dim.
  destruct (dimension c' <? 3)%Z eqn:Ed.
  - apply Z.ltb_lt in Ed.
    replace (3 <=? dimension c')%Z with false in Hskip by (symmetry; apply Z.leb_gt; lia).
    cbn [orb] in Hskip. unfold within_tolerance in Hskip.
    destruct (get_ovlp self c') as [dt_s S]. cbn [snd] in Hskip.
    destruct (einsum_xkij_kji dm_kpts S) as [ne|e]; [|discriminate].
    cbn [bind]. cbv zeta. cbn [fst snd]. apply negb_true_iff in Hskip. rewrite Hskip.
    cbn [bind]. eexists. reflexivity.
  - cbn [bind]. eexists. reflexivity.
Qed.

End GetInitGuessProps.

Lemma get_init_guess_replicates_witness :
  exists log,
    get_init_guess (fun _ => ex_guess) (fun _ _ => ex_guess) (fun _ _ => ex_guess)
      (fun _ => Raise IOError) (fun _ _ => (Float64, [[[C1]]; [[C1]]])) ex_mf_3d None "MINAO"
    = Ok ((repeat (scale (RtoC lit_1_01) [[C1]]) 2,
           repeat (scale (RtoC lit_0_99) [[C1]]) 2), log).
Proof.
  apply (get_init_guess_replicates (fun _ => ex_guess) (fun _ _ => ex_guess)
           (fun _ _ => ex_guess) (fun _ => Raise IOError) (fun _ _ => (Float64, [[[C1]]; [[C1]]]))
           ex_mf_3d None "MINAO").
  - reflexivity.
  - reflexivity.
  - reflexivity.
Defined.

(** C7, as stated, fails on a low-dimensional cell: the alpha block that is
    returned is [[1]], not 1.01 * [[1]]. *)
Lemma get_init_guess_low_dim_counterexample :
  exists dm log,
    get_init_guess (fun _ => ex_guess) (fun _ _ => ex_guess) (fun _ _ => ex_guess)
      (fun _ => Raise IOError) (fun _ _ => (Float64, [[[C1]]])) ex_mf_2d None "minao"
    = Ok (dm, log)
    /\ mget (nth 0 (fst dm) []) 0 0 = C1
    /\ mget (scale (RtoC lit_1_01) (fst ex_guess)) 0 0 = RtoC lit_1_01
    /\ C1 <> RtoC lit_1_01.
Proof.
  eexists. eexists. split; [vm_compute; reflexivity|].
  split; [apply C_eq; qc_eq|]. split; [apply C_eq; qc_eq|].
  intro H. apply (f_equal (fun z => this (re z))) in H. vm_compute in H. discriminate.
Qed.

(** *** The renormalisation of a low-dimensional guess *)

Lemma Qc_sq_nonneg (x : Qc) : (0 <= x * x)%Qc.
Proof.
  destruct (Qclt_le_dec x 0) as [H|H].
  - assert (H' : (0 <= - x)%Qc).
    { apply Qclt_le_weak in H. apply Qcopp_le_compat in H.
      replace (- 0)%Qc with 0%Qc in H by ring. exact H. }
    replace (x * x)%Qc with ((- x) * (- x))%Qc by ring.
    replace 0%Qc with (0 * - x)%Qc by ring.
    apply Qcmult_le_compat_r; assumption.
  - replace 0%Qc with (0 * x)%Qc by ring.
    apply Qcmult_le_compat_r; assumption.
Qed.

Lemma Cnorm2_eq0 (z : C) : Cnorm2 z = 0%Qc -> z = C0.
Proof.
  unfold Cnorm2. intro H.
  assert (Hr : (re z * re z = 0)%Qc).
  { apply Qcle_antisym; [|apply Qc_sq_nonneg].
    replace (re z * re z)%Qc with (0 + - (im z * im z))%Qc
      by (rewrite <- H; ring).
    replace 0%Qc with (0 + - 0)%Qc at 2 by ring.
    apply Qcplus_le_compat; [apply Qcle_refl|].
    apply Qcopp_le_compat. apply Qc_sq_nonneg. }
  assert (Hi : (im z * im z = 0)%Qc).
  { rewrite Hr in H. rewrite <- H. ring. }
  apply C_eq; cbn [re im C0].
  - destruct (Qcmult_integral _ _ Hr); assumption.
  - destruct (Qcmult_integral _ _ Hi); assumption.
Qed.

Lemma Cdiv_mul (z w : C) : w <> C0 -> (z / w * w)%C = z.
Proof.
  intro Hw. assert (Hn : Cnorm2 w <> 0%Qc) by (intro H; apply Hw, Cnorm2_eq0, H).
  unfold Cnorm2 in Hn.
  apply C_eq; unfold Cdiv, Cinv, Cmul, Cnorm2; cbn [re im]; field; exact Hn.
Qed.

Lemma mget_scale (x : C) (A : matrix) (i j : nat) :
  mget (scale x A) i j = (mget A i j * x)%C.
Proof.
  unfold mget, scale.
  change (@nil C) with (map (fun z => (z * x)%C) []) at 1. rewrite map_nth.
  destruct (Nat.lt_ge_cases j (length (nth i A []))) as [H|H].
  - rewrite (nth_indep _ C0 ((fun z => (z * x)%C) C0)) by (rewrite length_map; exact H).
    apply (map_nth (fun z => (z * x)%C)).
  - rewrite !nth_overflow by (try rewrite length_map; exact H). ring.
Qed.

Lemma has_shape_scale (n m : nat) (x : C) (A : matrix) :
  has_shape n m A = true -> has_shape n m (scale x A) = true.
Proof.
  rewrite !has_shape_iff. intros [H1 H2]. unfold scale. split.
  - rewrite length_map. exact H1.
  - apply Forall_map. eapply Forall_impl; [|exact H2].
    intros r Hr. cbv beta in *. rewrite length_map. exact Hr.
Qed.

Lemma trace_prod_count (n : nat) (D S : matrix) :
  0 < n -> has_shape n n D = true -> has_shape n n S = true ->
  trace_prod D S = electron_count D S.
Proof.
  intros Hn HD HS. unfold electron_count. rewrite (trace_mmul n) by assumption.
  unfold trace_prod. rewrite (has_shape_nrows _ _ _ HD), (has_shape_ncols _ _ _ HD Hn).
  reflexivity.
Qed.

Lemma electron_count_scale (n : nat) (x : C) (D S : matrix) :
  0 < n -> has_shape n n D = true -> has_shape n n S = true ->
  electron_count (scale x D) S = (x * electron_count D S)%C.
Proof.
  intros Hn HD HS. unfold electron_count.
  rewrite !(trace_mmul n) by (try apply has_shape_scale; assumption).
  rewrite <- sum_n_mul_l. apply sum_n_ext. intros i Hi.
  rewrite <- sum_n_mul_l. apply sum_n_ext. intros j Hj.
  rewrite mget_scale. ring.
Qed.

Lemma existsb_map {A B} (f : B -> bool) (g : A -> B) (l : list A) :
  existsb f (map g l) = existsb (fun x => f (g x)) l.
Proof. induction l as [|x l IH]; simpl; [reflexivity|]. rewrite IH. reflexivity. Qed.

Lemma einsum_xkij_kji_counts (K n : nat) (dm : spin_pair (list matrix)) (S : list matrix) :
  0 < K -> 0 < n ->
  has_shape3 K n n (fst dm) = true -> has_shape3 K n n (snd dm) = true ->
  has_shape3 K n n S = true ->
  einsum_xkij_kji dm S
  = Ok (map (fun k => electron_count (nth k (fst dm) []) (nth k S [])) (seq 0 K),
        map (fun k => electron_count (nth k (snd dm) []) (nth k S [])) (seq 0 K)).
Proof.
  intros HK Hn Ha Hb HS. unfold einsum_xkij_kji.
  pose proof (proj1 (proj1 (has_shape3_iff _ _ _ _) Ha)) as La.
  pose proof (proj1 (proj1 (has_shape3_iff _ _ _ _) Hb)) as Lb.
  pose proof (proj1 (proj1 (has_shape3_iff _ _ _ _) HS)) as LS.
  pose proof (has_shape3_nth _ _ _ _ 0 Ha HK) as H0.
  replace (hd [] (fst dm)) with (nth 0 (fst dm) []) by (destruct (fst dm); reflexivity).
  rewrite (has_shape_nrows _ _ _ H0), (has_shape_ncols _ _ _ H0 Hn), La.
  rewrite Ha, Hb, HS. cbn [andb]. f_equal.
  assert (E : forall D : list matrix, has_shape3 K n n D = true ->
            map (fun '(d, sk) => trace_prod d sk) (combine D S)
            = map (fun k => electron_count (nth k D []) (nth k S [])) (seq 0 K)).
  { intros D HD.
    pose proof (proj1 (proj1 (has_shape3_iff _ _ _ _) HD)) as LD.
    rewrite <- (map_seq_combine trace_prod D S [] [] K LD LS).
    apply map_ext_in. intros k Hk. apply in_seq in Hk.
    apply (trace_prod_count n); [exact Hn| |]; apply (has_shape3_nth K); try assumption; lia. }
  rewrite (E _ Ha), (E _ Hb). reflexivity.
Qed.

Section GetInitGuessLowDim.

Variable mol_uhf_init_guess_by_1e : cell -> spin_pair matrix.
Variable init_guess_by_atom : mf -> cell -> spin_pair matrix.
Variable init_guess_by_minao : mf -> cell -> spin_pair matrix.
Variable from_chk : mf -> result (dtype * spin_pair (list matrix)).
Variable get_ovlp : mf -> cell -> dtype * list matrix.

Lemma nth_rescaled (K : nat) (x : C) (D : list matrix) (ne : nat -> C) (k : nat) :
  length D = K -> k < K ->
  nth k (map (fun '(d, n) => scale (x / n) d) (combine D (map ne (seq 0 K)))) []
  = scale (x / ne k) (nth k D []).
Proof.
  intros HD Hk.
  set (G := fun p : matrix * C => let '(d, n) := p in scale (x / n) d).
  change (@nil (list C)) with (G ([], C0)) at 1.
  rewrite (map_nth G _ ([], C0) k).
  rewrite combine_nth by (rewrite length_map, length_seq; exact HD).
  unfold G. f_equal. f_equal.
  rewrite (nth_indep _ C0 (ne 0)) by (rewrite length_map, length_seq; exact Hk).
  rewrite (map_nth ne (seq 0 K) 0 k). rewrite seq_nth by exact Hk. reflexivity.
Qed.

(** For a cell of dimension below 3 and a guess of shape
    (2, nkpts, nao, nao) with non-zero electron counts ne[s,k] =
    tr(dm[s,k] S[k]), when the guess is complex128 or the overlap float64:
    if some count deviates from [cell.nelec[s]] by more than 1e-7,
    [get_init_guess] returns every block multiplied by nelec[s]/ne[s,k] (so
    that its electron count is nelec[s]) and passes a warning to the logger;
    otherwise it returns the guess as it is. *)
Lemma get_init_guess_low_dim (self : mf) (c : option cell) (key : string)
    (dt0 : dtype) (dm0 : spin_pair (list matrix)) (log1 : list log_event) (K n : nat) :
  let c' := match c with Some c => c | None => mf_cell self end in
  let S := snd (get_ovlp self c') in
  let ne := fun s k => electron_count (nth k (channel s dm0) []) (nth k S []) in
  initial_dm_kpts mol_uhf_init_guess_by_1e init_guess_by_atom init_guess_by_minao
    from_chk self c' key = Ok (dt0, dm0, log1) ->
  (dimension c' < 3)%Z -> 0 < K -> 0 < n ->
  has_shape3 K n n (fst dm0) = true -> has_shape3 K n n (snd dm0) = true ->
  has_shape3 K n n S = true ->
  dt0 = Complex128 \/ fst (get_ovlp self c') = Float64 ->
  (forall s k, k < K -> ne s k <> C0) ->
  exists dm,
    get_init_guess mol_uhf_init_guess_by_1e init_guess_by_atom init_guess_by_minao
      from_chk get_ovlp self c key
    = Ok (dm, log1 ++
              (if deviates c' K ne
               then logger WARN self
                      "Big error detected in the electron number of initial guess density matrix (Ne/cell = %g)!"
                      []
               else []))
    /\ (if deviates c' K ne
        then forall s k, k < K ->
               nth k (channel s dm) [] = scale (nelec_of c' s / ne s k) (nth k (channel s dm0) [])
               /\ electron_count (nth k (channel s dm) []) (nth k S []) = nelec_of c' s
        else dm = dm0).
Proof.
  intros c' S ne Hinit Hdim HK Hn Ha Hb HS Hdt Hne.
  unfold get_init_guess. fold c'. rewrite Hinit. cbn [bind].
  unfold normalize_low_dim.
  replace (dimension c' <? 3)%Z with true by (symmetry; apply Z.ltb_lt; exact Hdim).
  subst S. destruct (get_ovlp self c') as [dt_s S]. cbn [fst snd] in *.
  rewrite (einsum_xkij_kji_counts K n dm0 S HK Hn Ha Hb HS). cbn [bind].
  cbv zeta. cbn [fst snd]. rewrite !existsb_map.
  change (existsb _ (seq 0 K) || existsb _ (seq 0 K)) with (deviates c' K ne).
  pose proof (proj1 (proj1 (has_shape3_iff _ _ _ _) Ha)) as La.
  pose proof (proj1 (proj1 (has_shape3_iff _ _ _ _) Hb)) as Lb.
  assert (Hcast : can_cast_same_kind (result_type dt0 (result_type dt0 dt_s)) dt0 = true)
    by (destruct Hdt as [E | E]; rewrite E; [destruct dt_s|destruct dt0]; reflexivity).
  rewrite Hcast.
  destruct (deviates c' K ne).
  - exists (map (fun '(d, n0) => scale (RtoC (of_Z (fst (cell_nelec c'))) / n0) d)
              (combine (fst dm0) (map (ne Alpha) (seq 0 K))),
            map (fun '(d, n0) => scale (RtoC (of_Z (snd (cell_nelec c'))) / n0) d)
              (combine (snd dm0) (map (ne Beta) (seq 0 K)))).
    split; [reflexivity|].
    intros s k Hk.
    match goal with |- nth k (channel s ?d) [] = _ /\ _ => set (dm := d) end.
    assert (E : nth k (channel s dm) []
                = scale (nelec_of c' s / ne s k) (nth k (channel s dm0) [])).
    { unfold dm. destruct s; cbn [channel fst snd]; apply nth_rescaled; assumption. }
    split; [exact E|]. rewrite E.
    rewrite (electron_count_scale n).
    + apply Cdiv_mul. apply Hne. exact Hk.
    + exact Hn.
    + destruct s; cbn [channel]; apply (has_shape3_nth K); assumption.
    + apply (has_shape3_nth K); assumption.
  - eexists. split; reflexivity.
Qed.

(** C8.  The renormalisation fails for a float64 guess when the overlap
    integrals are complex128: on a cell of dimension below 3, for a float64
    guess of shape (2, nkpts, nao, nao)
    (every molecular guess copied over the k-points is one), complex128
    overlap integrals and electron counts ne[s,k] = tr(dm[s,k] S[k]) of
    which one deviates from [cell.nelec[s]] by more than 1e-7, the in-place
    product [dm_kpts *= nelec/ne] raises and [get_init_guess] returns no
    density. *)
Theorem get_init_guess_low_dim_raises (self : mf) (c : option cell) (key : string)
    (dm0 : spin_pair (list matrix)) (log1 : list log_event) (K n : nat) :
  let c' := match c with Some c => c | None => mf_cell self end in
  let S := snd (get_ovlp self c') in
  let ne := fun s k => electron_count (nth k (channel s dm0) []) (nth k S []) in
  initial_dm_kpts mol_uhf_init_guess_by_1e init_guess_by_atom init_guess_by_minao
    from_chk self c' key = Ok (Float64, dm0, log1) ->
  (dimension c' < 3)%Z -> 0 < K -> 0 < n ->
  has_shape3 K n n (fst dm0) = true -> has_shape3 K n n (snd dm0) = true ->
  has_shape3 K n n S = true ->
  fst (get_ovlp self c') = Complex128 ->
  deviates c' K ne = true ->
  get_init_guess mol_uhf_init_guess_by_1e init_guess_by_atom init_guess_by_minao
    from_chk get_ovlp self c key
  = Raise TypeError.
Proof.
  intros c' S ne Hinit Hdim HK Hn Ha Hb HS Hdt Hdev.
  unfold get_init_guess. fold c'. rewrite Hinit. cbn [bind].
  unfold normalize_low_dim.
  replace (dimension c' <? 3)%Z with true by (symmetry; apply Z.ltb_lt; exact Hdim).
  subst S. destruct (get_ovlp self c') as [dt_s S]. cbn [fst snd] in *. subst dt_s.
  rewrite (einsum_xkij_kji_counts K n dm0 S HK Hn Ha Hb HS). cbn [bind].
  cbv zeta. cbn [fst snd]. rewrite !existsb_map.
  change (existsb _ (seq 0 K) || existsb _ (seq 0 K)) with (deviates c' K ne).
  rewrite Hdev. reflexivity.
Qed.

End GetInitGuessLowDim.

Lemma get_init_guess_low_dim_witness :
  exists dm,
    get_init_guess (fun _ => ex_guess) (fun _ _ => ex_guess) (fun _ _ => ex_guess)
      (fun _ => Raise IOError) (fun _ _ => (Float64, [[[C1]]])) ex_mf_2d None "minao"
    = Ok (dm, [] ++ [])
    /\ forall s k, k < 1 ->
         nth k (channel s dm) []
         = scale (nelec_of ex_cell_2d s
                  / electron_count
                      (nth k (channel s ([scale (RtoC lit_1_01) [[C1]]],
                                          [scale (RtoC lit_0_99) [[C1]]])) [])
                      (nth k [[[C1]]] []))
             (nth k (channel s ([scale (RtoC lit_1_01) [[C1]]],
                                 [scale (RtoC lit_0_99) [[C1]]])) [])
         /\ electron_count (nth k (channel s dm) []) (nth k [[[C1]]] [])
            = nelec_of ex_cell_2d s.
Proof.
  apply (get_init_guess_low_dim (fun _ => ex_guess) (fun _ _ => ex_guess)
           (fun _ _ => ex_guess) (fun _ => Raise IOError) (fun _ _ => (Float64, [[[C1]]]))
           ex_mf_2d None "minao" Float64
           ([scale (RtoC lit_1_01) [[C1]]], [scale (RtoC lit_0_99) [[C1]]]) [] 1 1).
  - reflexivity.
  - reflexivity.
  - lia.
  - lia.
  - reflexivity.
  - reflexivity.
  - reflexivity.
  - right. reflexivity.
  - intros s k Hk H. assert (k = 0) by lia. subst k.
    apply (f_equal (fun z => this (re z))) in H.
    destruct s; vm_compute in H; discriminate.
Defined.

Lemma get_init_guess_low_dim_raises_witness :
  get_init_guess (fun _ => ex_guess) (fun _ _ => ex_guess) (fun _ _ => ex_guess)
    (fun _ => Raise IOError) (fun _ _ => (Complex128, [[[C1]]])) ex_mf_2d_k None "minao"
  = Raise TypeError.
Proof.
  apply (get_init_guess_low_dim_raises (fun _ => ex_guess) (fun _ _ => ex_guess)
           (fun _ _ => ex_guess) (fun _ => Raise IOError)
           (fun _ _ => (Complex128, [[[C1]]])) ex_mf_2d_k None "minao"
           ([scale (RtoC lit_1_01) [[C1]]], [scale (RtoC lit_0_99) [[C1]]]) [] 1 1).
  - reflexivity.
  - reflexivity.
  - lia.
  - lia.
  - reflexivity.
  - reflexivity.
  - reflexivity.
  - reflexivity.
  - vm_compute. reflexivity.
Defined.

(** ** init_guess_by_chkfile (C9, C10) *)

(** *** [np.allclose(kpts, 0)] *)

Lemma isclose_zero (x : Qc) : isclose x 0 = Qcleb (Qcabs x) lit_1e_8.
Proof.
  unfold isclose. replace (x - 0)%Qc with x by ring.
  replace (Qcabs 0) with 0%Qc by reflexivity.
  replace (lit_1e_8 + lit_1e_5 * 0)%Qc with lit_1e_8 by ring. reflexivity.
Qed.

Lemma kclose_zero (k : kvec) : kclose k kzero = negb (outside_tolerance k).
Proof.
  unfold kclose, outside_tolerance, kzero. cbn [kx ky kz].
  rewrite !isclose_zero, !negb_orb.
  assert (E : forall x y, Qcleb x y = negb (Qcltb y x)).
  { intros x y. unfold Qcleb, Qcltb. destruct (Qclt_le_dec y x); reflexivity. }
  rewrite !E. reflexivity.
Qed.

Lemma allclose_zero_exact (kpts : list kvec) :
  Forall (fun k => k = kzero) kpts -> allclose_zero kpts = true.
Proof.
  intro H. unfold allclose_zero. apply forallb_forall. intros k Hk.
  rewrite Forall_forall in H. rewrite (H k Hk). reflexivity.
Qed.

Lemma allclose_zero_outside (kpts : list kvec) :
  existsb outside_tolerance kpts = true -> allclose_zero kpts = false.
Proof.
  intro H. apply existsb_exists in H. destruct H as [k [Hk Ho]].
  unfold allclose_zero. apply not_true_is_false. intro Hall.
  rewrite forallb_forall in Hall. specialize (Hall k Hk).
  rewrite kclose_zero, Ho in Hall. discriminate.
Qed.

Lemma mget_real (A : matrix) (i j : nat) : mget (real A) i j = RtoC (re (mget A i j)).
Proof.
  unfold mget, real.
  change (@nil C) with (map (fun z => RtoC (re z)) []) at 1. rewrite map_nth.
  change C0 with ((fun z => RtoC (re z)) C0) at 1. rewrite map_nth. reflexivity.
Qed.

Lemma real_purely_real (dm : spin_pair (list matrix)) :
  purely_real (map real (fst dm), map real (snd dm)).
Proof.
  intros s k i j.
  assert (E : forall l : list matrix, nth k (map real l) [] = real (nth k l []))
    by (intro l; exact (map_nth real l [] k)).
  destruct s; cbn [channel fst snd]; rewrite E, mget_real; reflexivity.
Qed.

Section InitGuessByChkfileProps.

Variable project_mo_nr2nr : cell -> matrix -> cell -> matrix.
Variable project_mo_nr2nr_kpts : cell -> list matrix -> cell -> list kvec -> list matrix.

(** C9 (amended).  When the projection yields the density [dm0]:
    [init_guess_by_chkfile] returns its real part when every coordinate of
    every target k-point is within 1e-8 of zero (in particular when every
    target k-point is the zero vector), and [dm0] itself when some
    coordinate exceeds 1e-8 in magnitude. *)
Theorem init_guess_by_chkfile_real_at_gamma (cell_ : cell) (chk : cell * scf_rec)
    (project : bool) (kpts : list kvec) (dm0 : spin_pair (list matrix)) :
  chk_density project_mo_nr2nr project_mo_nr2nr_kpts cell_ chk project kpts = Ok dm0 ->
  init_guess_by_chkfile project_mo_nr2nr project_mo_nr2nr_kpts cell_ chk project (Some kpts)
  = Ok (if existsb outside_tolerance kpts then dm0
        else (map real (fst dm0), map real (snd dm0)))
  /\ purely_real (map real (fst dm0), map real (snd dm0))
  /\ (Forall (fun k => k = kzero) kpts -> existsb outside_tolerance kpts = false).
Proof.
  intro H. split; [|split].
  - unfold init_guess_by_chkfile. cbn [bind]. rewrite H. cbn [bind].
    destruct (existsb outside_tolerance kpts) eqn:E.
    + rewrite (allclose_zero_outside kpts E). reflexivity.
    + replace (allclose_zero kpts) with true; [reflexivity|].
      symmetry. unfold allclose_zero. apply forallb_forall. intros k Hk.
      rewrite kclose_zero. apply negb_true_iff.
      apply not_true_is_false. intro Ho.
      assert (Hex : existsb outside_tolerance kpts = true)
        by (apply existsb_exists; exists k; auto).
      congruence.
  - apply real_purely_real.
  - intro Hz. apply not_true_is_false. intro Hex.
    pose proof (allclose_zero_outside kpts Hex) as Hf.
    rewrite (allclose_zero_exact kpts Hz) in Hf. discriminate.
Qed.

End InitGuessByChkfileProps.

Lemma init_guess_by_chkfile_real_at_gamma_witness :
  init_guess_by_chkfile (fun _ mo _ => mo) (fun _ mo _ _ => mo) ex_cell
    (ex_cell, ex_rec_tiny) false (Some [k_tiny])
  = Ok (if existsb outside_tolerance [k_tiny]
        then ([density_block ex_mo ex_occ], [density_block ex_mo ex_occ])
        else (map real [density_block ex_mo ex_occ], map real [density_block ex_mo ex_occ]))
  /\ purely_real (map real [density_block ex_mo ex_occ],
                  map real [density_block ex_mo ex_occ])
  /\ (Forall (fun k => k = kzero) [k_tiny] -> existsb outside_tolerance [k_tiny] = false).
Proof.
  apply (init_guess_by_chkfile_real_at_gamma (fun _ mo _ => mo) (fun _ mo _ _ => mo)
           ex_cell (ex_cell, ex_rec_tiny) false [k_tiny]
           ([density_block ex_mo ex_occ], [density_block ex_mo ex_occ])).
  reflexivity.
Defined.

(** C9, as stated, fails for a target k-point that is not the zero vector
    but within the tolerance of [np.allclose]: the density has the entry -i
    before the last step and 0 in what is returned. *)
Lemma init_guess_by_chkfile_tiny_kpt_counterexample :
  exists dm0 dm,
    k_tiny <> kzero
    /\ chk_density (fun _ mo _ => mo) (fun _ mo _ _ => mo) ex_cell
         (ex_cell, ex_rec_tiny) false [k_tiny] = Ok dm0
    /\ init_guess_by_chkfile (fun _ mo _ => mo) (fun _ mo _ _ => mo) ex_cell
         (ex_cell, ex_rec_tiny) false (Some [k_tiny]) = Ok dm
    /\ mget (nth 0 (fst dm0) []) 0 1 = mkC 0 (- of_nat 1)
    /\ mget (nth 0 (fst dm) []) 0 1 = C0.
Proof.
  eexists. eexists. split.
  { intro H. apply (f_equal (fun k => this (kx k))) in H. vm_compute in H. discriminate. }
  split; [vm_compute; reflexivity|]. split; [vm_compute; reflexivity|].
  split; apply C_eq; qc_eq.
Qed.

(** *** [np.argmin] *)

Lemma argmin_from_spec (l pre : list Qc) (best : nat) (vbest : Qc) :
  best < length pre -> nth best pre 0%Qc = vbest ->
  (forall j, j < length pre -> (vbest <= nth j pre 0)%Qc) ->
  (forall j, j < best -> (vbest < nth j pre 0)%Qc) ->
  let r := argmin_from best vbest (length pre) l in
  r < length (pre ++ l)
  /\ (forall j, j < length (pre ++ l) -> (nth r (pre ++ l) 0 <= nth j (pre ++ l) 0)%Qc)
  /\ (forall j, j < r -> (nth r (pre ++ l) 0 < nth j (pre ++ l) 0)%Qc).
Proof.
  revert pre best vbest. induction l as [|x l IH]; intros pre best vbest Hb Hv Hle Hlt.
  - cbn [argmin_from]. rewrite app_nil_r. rewrite Hv. auto.
  - cbn [argmin_from].
    assert (Lp : length (pre ++ [x]) = S (length pre)) by (rewrite length_app; simpl; lia).
    assert (Ea : pre ++ x :: l = (pre ++ [x]) ++ l) by (rewrite <- app_assoc; reflexivity).
    assert (Nx : nth (length pre) (pre ++ [x]) 0%Qc = x)
      by (rewrite app_nth2, Nat.sub_diag by lia; reflexivity).
    destruct (Qcltb x vbest) eqn:E.
    + apply Qcltb_true in E. rewrite Ea, <- Lp. apply IH.
      * rewrite Lp. lia.
      * exact Nx.
      * intros j Hj. rewrite Lp in Hj. destruct (Nat.eq_dec j (length pre)) as [->|Hne].
        -- rewrite Nx. apply Qcle_refl.
        -- rewrite app_nth1 by lia. apply Qclt_le_weak.
           eapply Qclt_le_trans; [exact E|]. apply Hle. lia.
      * intros j Hj. rewrite app_nth1 by lia.
        eapply Qclt_le_trans; [exact E|]. apply Hle. lia.
    + apply Qcltb_false in E. rewrite Ea, <- Lp. apply IH.
      * rewrite Lp. lia.
      * rewrite app_nth1 by lia. exact Hv.
      * intros j Hj. rewrite Lp in Hj. destruct (Nat.eq_dec j (length pre)) as [->|Hne].
        -- rewrite Nx. exact E.
        -- rewrite app_nth1 by lia. apply Hle. lia.
      * intros j Hj. rewrite app_nth1 by lia. apply Hlt. exact Hj.
Qed.

Lemma np_argmin_ok (l : list Qc) : l <> [] -> np_argmin l = Ok (argmin l).
Proof. destruct l; [congruence|reflexivity]. Qed.

(** It is the first index of a least entry. *)
Lemma argmin_spec (l : list Qc) :
  l <> [] ->
  argmin l < length l
  /\ (forall j, j < length l -> (nth (argmin l) l 0 <= nth j l 0)%Qc)
  /\ (forall j, j < argmin l -> (nth (argmin l) l 0 < nth j l 0)%Qc).
Proof.
  destruct l as [|x l]; [congruence|]. intros _.
  apply (argmin_from_spec l [x] 0 x).
  - simpl. lia.
  - reflexivity.
  - intros j Hj. simpl in Hj. replace j with 0 by lia. apply Qcle_refl.
  - intros j Hj. lia.
Qed.

Lemma nearest_spec (chk_kpts : list kvec) (kpt : kvec) :
  chk_kpts <> [] ->
  nearest chk_kpts kpt < length chk_kpts
  /\ (forall j, j < length chk_kpts ->
        (dist2 (nth (nearest chk_kpts kpt) chk_kpts kzero) kpt
         <= dist2 (nth j chk_kpts kzero) kpt)%Qc)
  /\ (forall j, j < nearest chk_kpts kpt ->
        (dist2 (nth (nearest chk_kpts kpt) chk_kpts kzero) kpt
         < dist2 (nth j chk_kpts kzero) kpt)%Qc).
Proof.
  intro Hne. unfold nearest.
  set (l := map (fun c => dist2 c kpt) chk_kpts).
  assert (Hl : l <> []) by (unfold l; destruct chk_kpts; [congruence|discriminate]).
  assert (Ll : length l = length chk_kpts) by (unfold l; apply length_map).
  assert (N : forall j, j < length chk_kpts ->
            nth j l 0%Qc = dist2 (nth j chk_kpts kzero) kpt).
  { intros j Hj. unfold l.
    rewrite (nth_indep _ 0%Qc ((fun c => dist2 c kpt) kzero)) by (rewrite length_map; exact Hj).
    apply (map_nth (fun c => dist2 c kpt)). }
  destruct (argmin_spec l Hl) as [H1 [H2 H3]]. rewrite Ll in H1, H2.
  split; [exact H1|]. split.
  - intros j Hj. rewrite <- !N by assumption. apply H2. exact Hj.
  - intros j Hj. rewrite <- !N by lia. apply H3. exact Hj.
Qed.

(** *** The nearest-k-point branch of [makedm] *)

Lemma length_enumerate {A} (l : list A) : length (enumerate l) = length l.
Proof. unfold enumerate. rewrite length_combine, length_seq. apply Nat.min_id. Qed.

Lemma nth_enumerate {A} (l : list A) (i : nat) (d : A) :
  i < length l -> nth i (enumerate l) (0, d) = (i, nth i l d).
Proof.
  intro H. unfold enumerate. rewrite combine_nth by (rewrite length_seq; reflexivity).
  rewrite seq_nth by exact H. reflexivity.
Qed.

Lemma displacements_enumerate (chk_kpts kpts : list kvec) :
  map (fun '(i, w) => ksub (nth w chk_kpts kzero) (nth i kpts kzero))
      (enumerate (nearest_indices chk_kpts kpts))
  = displacements chk_kpts kpts.
Proof.
  unfold nearest_indices, displacements.
  set (G := fun p : nat * nat => let '(i, w) := p in
                                 ksub (nth w chk_kpts kzero) (nth i kpts kzero)).
  set (H := fun kpt => ksub (nth (nearest chk_kpts kpt) chk_kpts kzero) kpt).
  apply (nth_ext _ _ (G (0, 0)) (H kzero)).
  - rewrite !length_map, length_enumerate, length_map. reflexivity.
  - intros i Hi. rewrite length_map, length_enumerate, length_map in Hi.
    rewrite (map_nth G _ (0, 0) i), (map_nth H kpts kzero i).
    rewrite nth_enumerate by (rewrite length_map; exact Hi).
    unfold G, H.
    rewrite (nth_indep _ 0 (nearest chk_kpts kzero)) by (rewrite length_map; exact Hi).
    rewrite (map_nth (nearest chk_kpts) kpts kzero i). reflexivity.
Qed.

Section InitGuessNearest.

Variable project_mo_nr2nr : cell -> matrix -> cell -> matrix.
Variable project_mo_nr2nr_kpts : cell -> list matrix -> cell -> list kvec -> list matrix.

Lemma mapM_py_nth_pick {A} (l : list (list A)) (w : list nat) :
  Forall (fun i => i < length l) w -> mapM (py_nth l) w = Ok (pick l w).
Proof.
  intro H. apply mapM_ok_map. intros i Hi. rewrite Forall_forall in H.
  apply py_nth_ok. apply H. exact Hi.
Qed.

Lemma makedm_nearest_eval (cell_ chk_cell : cell) (project : bool)
    (kpts chk_kpts : list kvec) (moa mob : list matrix) (occa occb : list rvec) :
  0 < length chk_kpts ->
  length chk_kpts <= length moa -> length chk_kpts <= length mob ->
  length chk_kpts <= length occa -> length chk_kpts <= length occb ->
  let w := nearest_indices chk_kpts kpts in
  let dk := displacements chk_kpts kpts in
  makedm_nearest project_mo_nr2nr_kpts cell_ chk_cell project kpts chk_kpts
    (moa, mob) (occa, occb)
  = make_rdm1 (fproj_kpts project_mo_nr2nr_kpts cell_ chk_cell project (pick moa w) dk,
               fproj_kpts project_mo_nr2nr_kpts cell_ chk_cell project (pick mob w) dk)
              (pick occa w, pick occb w).
Proof.
  intros Hc Ha Hb Hoa Hob w dk.
  assert (Hne : chk_kpts <> []) by (destruct chk_kpts; simpl in Hc; [lia|discriminate]).
  assert (Hw : Forall (fun i => i < length chk_kpts) w).
  { unfold w, nearest_indices. apply Forall_map. apply Forall_forall. intros kpt _.
    apply (nearest_spec chk_kpts kpt Hne). }
  unfold makedm_nearest.
  rewrite (mapM_ok_map _ (nearest chk_kpts)).
  2:{ intros kpt _. apply np_argmin_ok. destruct chk_kpts; [congruence|discriminate]. }
  cbn [bind]. fold (nearest_indices chk_kpts kpts). fold w.
  rewrite (mapM_ok_map _
             (fun '(i, wi) => ksub (nth wi chk_kpts kzero) (nth i kpts kzero))).
  2:{ intros [i wi] Hin. destruct (In_enumerate_nth w i wi 0 Hin) as [Hi Hwi].
      assert (Li : i < length kpts)
        by (unfold w, nearest_indices in Hi; rewrite length_map in Hi; exact Hi).
      rewrite (py_nth_ok chk_kpts wi kzero).
      - cbn [bind]. rewrite (py_nth_ok kpts i kzero Li). reflexivity.
      - rewrite Forall_forall in Hw. apply Hw. rewrite <- Hwi. apply nth_In. exact Hi. }
  cbn [bind]. rewrite !displacements_enumerate. fold w dk.
  assert (Hle : forall n, length chk_kpts <= n -> Forall (fun i => i < n) w).
  { intros n Hn. eapply Forall_impl; [|exact Hw]. intros i Hi. cbv beta in *. lia. }
  replace (mapM (py_nth moa) w) with (Ok (pick moa w))
    by (symmetry; apply mapM_py_nth_pick, Hle, Ha).
  replace (mapM (py_nth mob) w) with (Ok (pick mob w))
    by (symmetry; apply mapM_py_nth_pick, Hle, Hb).
  replace (mapM (py_nth occa) w) with (Ok (pick occa w))
    by (symmetry; apply mapM_py_nth_pick, Hle, Hoa).
  replace (mapM (py_nth occb) w) with (Ok (pick occb w))
    by (symmetry; apply mapM_py_nth_pick, Hle, Hob).
  reflexivity.
Qed.

(** C10 (amended).  When the target mesh has another number of k-points
    than the checkpoint, or some coordinate is not within the tolerance of
    [np.allclose] of the checkpoint's, [init_guess_by_chkfile] takes for
    every target k-point the first checkpoint k-point at the least
    Euclidean distance, projects its alpha and beta orbitals with the
    displacement chk_kpt - target_kpt, copies its occupations, builds the
    density with [make_rdm1], and keeps the real part for a gamma-point
    target. *)
Theorem init_guess_by_chkfile_nearest (cell_ chk_cell : cell) (rec : scf_rec)
    (project : bool) (kpts : list kvec)
    (moa mob : list matrix) (occa occb : list rvec) :
  let chk_kpts := rec_chk_kpts rec in
  chk_orbitals rec = Ok ((moa, mob), (occa, occb)) ->
  (length kpts =? length chk_kpts) && allclose_kpts kpts chk_kpts = false ->
  0 < length chk_kpts ->
  length chk_kpts <= length moa -> length chk_kpts <= length mob ->
  length chk_kpts <= length occa -> length chk_kpts <= length occb ->
  let w := nearest_indices chk_kpts kpts in
  let dk := displacements chk_kpts kpts in
  init_guess_by_chkfile project_mo_nr2nr project_mo_nr2nr_kpts cell_ (chk_cell, rec)
    project (Some kpts)
  = (dm <- make_rdm1
             (fproj_kpts project_mo_nr2nr_kpts cell_ chk_cell project (pick moa w) dk,
              fproj_kpts project_mo_nr2nr_kpts cell_ chk_cell project (pick mob w) dk)
             (pick occa w, pick occb w) ;;
     if allclose_zero kpts then Ok (map real (fst dm), map real (snd dm)) else Ok dm)
  /\ Forall (fun kpt =>
       nearest chk_kpts kpt < length chk_kpts
       /\ (forall j, j < length chk_kpts ->
             (dist2 (nth (nearest chk_kpts kpt) chk_kpts kzero) kpt
              <= dist2 (nth j chk_kpts kzero) kpt)%Qc)
       /\ (forall j, j < nearest chk_kpts kpt ->
             (dist2 (nth (nearest chk_kpts kpt) chk_kpts kzero) kpt
              < dist2 (nth j chk_kpts kzero) kpt)%Qc)) kpts.
Proof.
  intros chk_kpts Horb Hmesh Hc Ha Hb Hoa Hob w dk. split.
  - unfold init_guess_by_chkfile, chk_density. cbn [bind]. fold chk_kpts.
    rewrite Horb. cbn [bind]. unfold makedm. rewrite Hmesh.
    rewrite (makedm_nearest_eval cell_ chk_cell project kpts chk_kpts
               moa mob occa occb Hc Ha Hb Hoa Hob).
    reflexivity.
  - apply Forall_forall. intros kpt _. apply nearest_spec.
    destruct chk_kpts; simpl in Hc; [lia|discriminate].
Qed.

End InitGuessNearest.

Lemma init_guess_by_chkfile_nearest_witness :
  init_guess_by_chkfile (fun _ mo _ => mo) (fun _ mo _ _ => mo) ex_cell
    (ex_cell, ex_rec2) true (Some [k_near])
  = (dm <- make_rdm1
             (fproj_kpts (fun _ mo _ _ => mo) ex_cell ex_cell true
                (pick ex_mos2 (nearest_indices ex_kpts [k_near]))
                (displacements ex_kpts [k_near]),
              fproj_kpts (fun _ mo _ _ => mo) ex_cell ex_cell true
                (pick ex_mos2 (nearest_indices ex_kpts [k_near]))
                (displacements ex_kpts [k_near]))
             (pick ex_occs2 (nearest_indices ex_kpts [k_near]),
              pick ex_occs2 (nearest_indices ex_kpts [k_near])) ;;
     if allclose_zero [k_near] then Ok (map real (fst dm), map real (snd dm)) else Ok dm)
  /\ Forall (fun kpt =>
       nearest ex_kpts kpt < length ex_kpts
       /\ (forall j, j < length ex_kpts ->
             (dist2 (nth (nearest ex_kpts kpt) ex_kpts kzero) kpt
              <= dist2 (nth j ex_kpts kzero) kpt)%Qc)
       /\ (forall j, j < nearest ex_kpts kpt ->
             (dist2 (nth (nearest ex_kpts kpt) ex_kpts kzero) kpt
              < dist2 (nth j ex_kpts kzero) kpt)%Qc)) [k_near].
Proof.
  apply (init_guess_by_chkfile_nearest (fun _ mo _ => mo) (fun _ mo _ _ => mo)
           ex_cell ex_cell ex_rec2 true [k_near] ex_mos2 ex_mos2 ex_occs2 ex_occs2).
  - reflexivity.
  - reflexivity.
  - simpl. lia.
  - simpl. lia.
  - simpl. lia.
  - simpl. lia.
  - simpl. lia.
Defined.

(** The same call in numbers: the orbital [[2]] of the second checkpoint
    k-point is selected, with the displacement (1/10, 0, 0). *)
Example init_guess_by_chkfile_nearest_example :
  nearest_indices ex_kpts [k_near] = [1]
  /\ displacements ex_kpts [k_near] = [K3 (Q2Qc (1 # 10)) 0 0]
  /\ init_guess_by_chkfile (fun _ mo _ => mo) (fun _ mo _ _ => mo) ex_cell
       (ex_cell, ex_rec2) true (Some [k_near])
     = Ok ([[[RtoC (of_nat 4)]]], [[[RtoC (of_nat 4)]]]).
Proof.
  split; [reflexivity|]. split.
  - vm_compute. reflexivity.
  - vm_compute. reflexivity.
Qed.

(** C10, as stated, fails for a target mesh whose values differ from the
    checkpoint's within the tolerance of [np.allclose]: the two k-points
    are exchanged, the orbitals are taken in checkpoint order, and the
    nearest-k-point rule would have taken them in the other order. *)
Lemma init_guess_by_chkfile_close_mesh_counterexample :
  exists dm dm',
    [k_tiny; kzero] <> [kzero; k_tiny]
    /\ nearest_indices [kzero; k_tiny] [k_tiny; kzero] = [1; 0]
    /\ init_guess_by_chkfile (fun _ mo _ => mo) (fun _ mo _ _ => mo) ex_cell
         (ex_cell, ex_rec_swapped) false (Some [k_tiny; kzero]) = Ok dm
    /\ make_rdm1 (pick ex_mos2 [1; 0], pick ex_mos2 [1; 0])
                 (pick ex_occs2 [1; 0], pick ex_occs2 [1; 0]) = Ok dm'
    /\ mget (nth 0 (fst dm) []) 0 0 = C1
    /\ mget (nth 0 (fst dm') []) 0 0 = RtoC (of_nat 4)
    /\ C1 <> RtoC (of_nat 4).
Proof.
  eexists. eexists. split.
  { intro H. apply (f_equal (fun l => this (kx (nth 0 l kzero)))) in H.
    vm_compute in H. discriminate. }
  split; [reflexivity|].
  split; [vm_compute; reflexivity|]. split; [vm_compute; reflexivity|].
  split; [apply C_eq; qc_eq|]. split; [apply C_eq; qc_eq|].
  intro H. apply (f_equal (fun z => this (re z))) in H. vm_compute in H. discriminate.
Qed.

(* ================================================================== *)
(** * Further properties of the code *)
(* ================================================================== *)

(** ** KUHF.__init__ *)

(** The two electron numbers always add up to [cell.nelectron]; their
    difference is [cell.spin] when the two have the same parity and
    [cell.spin + 1] otherwise (the floor division leaves the odd electron
    in the alpha channel). *)
Theorem KUHF_init_nelec_sum_and_difference (nelectron cell_spin : Z) :
  (fst (KUHF_init_nelec nelectron cell_spin) + snd (KUHF_init_nelec nelectron cell_spin)
   = nelectron
   /\ fst (KUHF_init_nelec nelectron cell_spin) - snd (KUHF_init_nelec nelectron cell_spin)
      = cell_spin + (nelectron - cell_spin) mod 2)%Z.
Proof.
  unfold KUHF_init_nelec. cbn [fst snd].
  pose proof (Z.div_mod (nelectron - cell_spin) 2 ltac:(lia)) as H.
  split; lia.
Qed.

(** ** get_occ: edge cases *)

Lemma sorted_last_max (l : list Qc) (x : Qc) :
  StronglySorted Qcle l -> In x l -> (x <= nth (length l - 1) l 0)%Qc.
Proof.
  intros Hs Hin. apply (In_nth _ _ 0%Qc) in Hin. destruct Hin as [i [Hi <-]].
  apply sorted_nth_le; [exact Hs|lia|lia].
Qed.

Lemma occ_of_all (fermi : Qc) (e : rvec) :
  (forall x, In x e -> (x <= fermi)%Qc) -> occ_of fermi e = map (fun _ => 1%Qc) e.
Proof.
  intro H. unfold occ_of. apply map_ext_in. intros x Hx.
  replace (Qcleb x fermi) with true by (symmetry; apply Qcleb_true; auto).
  reflexivity.
Qed.

Section GetOccEdges.

Variable get_scaled_kpts : cell -> list kvec -> list kvec.

(** Without alpha electrons the cutoff index [nocc_a - 1] is [-1], which
    Python reads from the end: the Fermi level is the highest alpha energy
    and every alpha orbital is labelled occupied. *)
Theorem get_occ_no_alpha_electrons (m : mf) (es : spin_pair (list rvec)) :
  fst (nelec m) = 0%Z ->
  0 < length (concat (fst es)) ->
  (snd (nelec m) <=? 0)%Z
  || cutoff_in_range (snd (nelec m)) (length (fst es)) (snd es) = true ->
  dump_returns get_scaled_kpts m es = true ->
  exists occ log,
    get_occ get_scaled_kpts m (Some es) = Ok (occ, log)
    /\ fst occ = map (map (fun _ => 1%Qc)) (fst es).
Proof.
  intros Hn Hlen Hb Hd.
  assert (Ha : cutoff_in_range (fst (nelec m)) (length (fst es)) (fst es) = true).
  { unfold cutoff_in_range. rewrite Hn, !andb_true_iff, negb_true_iff, Nat.eqb_neq.
    repeat split.
    - destruct (fst es); [simpl in Hlen; lia|simpl; lia].
    - apply Z.leb_le. lia.
    - apply Z.ltb_lt. lia. }
  destruct (get_occ_returns get_scaled_kpts m es Ha Hb Hd) as [log E].
  eexists. exists log. split; [exact E|]. cbn [fst].
  apply map_ext_in. intros e He. apply occ_of_all. intros x Hx.
  rewrite Hn. unfold py_get. cbn [Z.mul Z.sub Z.add Z.leb Z.compare Z.opp].
  unfold pooled_sorted.
  replace (Z.to_nat (Z.of_nat (length (np_sort (concat (fst es)))) + -1))
    with (length (np_sort (concat (fst es))) - 1) by lia.
  apply sorted_last_max; [apply np_sort_sorted|].
  apply (Permutation_in _ (Permutation_sym (np_sort_perm _))).
  apply in_concat. exists e. split; assumption.
Qed.

End GetOccEdges.

Lemma get_occ_no_alpha_electrons_witness :
  exists occ log,
    get_occ (fun _ k => k) ex_mf_no_alpha (Some (ex_energies, ex_energies)) = Ok (occ, log)
    /\ fst occ = map (map (fun _ => 1%Qc)) ex_energies.
Proof.
  apply (get_occ_no_alpha_electrons (fun _ k => k) ex_mf_no_alpha (ex_energies, ex_energies)).
  - reflexivity.
  - simpl. lia.
  - vm_compute. reflexivity.
  - vm_compute. reflexivity.
Defined.

Lemma of_Z_le (a b : Z) : (a <= b)%Z -> (of_Z a <= of_Z b)%Qc.
Proof.
  intro H. unfold Qcle, of_Z, Q2Qc. cbn [this].
  rewrite !Qred_correct. rewrite <- Zle_Qle. exact H.
Qed.

Lemma of_nat_le (a b : nat) : a <= b -> (of_nat a <= of_nat b)%Qc.
Proof. intro H. unfold of_nat. apply of_Z_le. lia. Qed.

(** In an ascending sequence at least [c] entries are at most the entry of
    rank [c-1], and at least [c+1] when the next entry equals it. *)
Lemma count_le_sorted_ge (l : list Qc) (c : nat) :
  StronglySorted Qcle l -> 0 < c -> c <= length l ->
  c <= count_le (nth (c - 1) l 0%Qc) l.
Proof.
  intros Hs Hc Hlen. unfold count_le.
  rewrite <- (firstn_skipn c l) at 1. rewrite filter_app, length_app.
  rewrite filter_all.
  - rewrite length_firstn. lia.
  - intros e He. apply (In_nth _ _ 0%Qc) in He. destruct He as [i [Hi <-]].
    rewrite length_firstn in Hi. rewrite nth_firstn.
    replace (i <? c) with true by (symmetry; apply Nat.ltb_lt; lia).
    apply Qcleb_true. apply sorted_nth_le; [exact Hs|lia|lia].
Qed.

Lemma count_le_sorted_tie (l : list Qc) (c : nat) :
  StronglySorted Qcle l -> 0 < c -> c < length l ->
  nth (c - 1) l 0%Qc = nth c l 0%Qc ->
  S c <= count_le (nth (c - 1) l 0%Qc) l.
Proof.
  intros Hs Hc Hlen Htie. rewrite Htie.
  replace c with (S c - 1) at 2 by lia.
  apply count_le_sorted_ge; [exact Hs|lia|lia].
Qed.

Lemma occ_of_binary (fermi : Qc) (e : rvec) : binary (occ_of fermi e) = true.
Proof.
  unfold binary, occ_of. apply forallb_forall. intros x Hx.
  apply in_map_iff in Hx. destruct Hx as [y [<- _]].
  destruct (Qcleb y fermi); reflexivity.
Qed.

Lemma orbitals_ok_occ_of (nao : nat) (fermi : Qc) (mos : list matrix) (es : list rvec) :
  Forall2 (fun mo e => orbitals_ok nao mo e = true) mos es ->
  Forall2 (fun mo occ => orbitals_ok nao mo occ = true) mos (map (occ_of fermi) es).
Proof.
  induction 1 as [|mo e mos' es' H _ IH]; simpl; constructor; [|exact IH].
  unfold orbitals_ok, occ_of in *. rewrite length_map. exact H.
Qed.

Section GetOccMore.

Variable get_scaled_kpts : cell -> list kvec -> list kvec.

(** Every orbital whose energy equals the Fermi level is filled: for a
    channel with electrons the occupations are 0 or 1 and add up to at
    least nelec[s]*nkpts, and to more than that when the pooled energies
    are degenerate at the cutoff rank. *)
Theorem get_occ_fills_degenerate_levels (m : mf) (es : spin_pair (list rvec)) (s : spin) :
  let nkpts := length (fst es) in
  let n := channel s (nelec m) in
  (0 < n)%Z -> 0 < nkpts ->
  cutoff_in_range n nkpts (channel s es) = true ->
  other_channel_returns m es s = true ->
  dump_returns get_scaled_kpts m es = true ->
  exists occ log,
    get_occ get_scaled_kpts m (Some es) = Ok (occ, log)
    /\ Forall (fun o => binary o = true) (channel s occ)
    /\ (of_Z (n * Z.of_nat nkpts) <= total_occ (channel s occ))%Qc
    /\ (tie_at_cutoff n nkpts (channel s es) = true ->
        (of_Z (n * Z.of_nat nkpts) + 1 <= total_occ (channel s occ))%Qc).
Proof.
  intros nkpts n Hn Hk Hr Ho Hd.
  assert (Hpos : (0 < n * Z.of_nat nkpts)%Z) by (apply Z.mul_pos_pos; lia).
  set (c := Z.to_nat (n * Z.of_nat nkpts)).
  set (l := pooled_sorted (channel s es)).
  assert (Hs : StronglySorted Qcle l) by apply np_sort_sorted.
  assert (Hc : 0 < c <= length l).
  { unfold cutoff_in_range in Hr. rewrite !andb_true_iff in Hr.
    destruct Hr as [[_ _] Hhi]. apply Z.ltb_lt in Hhi.
    unfold l, pooled_sorted. rewrite np_sort_length. unfold c. lia. }
  assert (Hf : py_get l (n * Z.of_nat nkpts - 1) = nth (c - 1) l 0%Qc).
  { unfold py_get.
    replace (0 <=? n * Z.of_nat nkpts - 1)%Z with true by (symmetry; apply Z.leb_le; lia).
    f_equal. unfold c. lia. }
  assert (Ec : of_Z (n * Z.of_nat nkpts) = of_nat c)
    by (unfold of_nat, c; f_equal; lia).
  assert (Hcount : count_le (nth (c - 1) l 0%Qc) (concat (channel s es))
                   = count_le (nth (c - 1) l 0%Qc) l)
    by (symmetry; apply count_le_perm; apply np_sort_perm).
  assert (Main : forall occ_s,
            occ_s = map (occ_of (py_get l (n * Z.of_nat nkpts - 1))) (channel s es) ->
            Forall (fun o => binary o = true) occ_s
            /\ (of_Z (n * Z.of_nat nkpts) <= total_occ occ_s)%Qc
            /\ (tie_at_cutoff n nkpts (channel s es) = true ->
                (of_Z (n * Z.of_nat nkpts) + 1 <= total_occ occ_s)%Qc)).
  { intros occ_s ->. rewrite Hf, total_occ_count, Hcount, Ec. split; [|split].
    - apply Forall_forall. intros o Ho'. apply in_map_iff in Ho'.
      destruct Ho' as [e [<- _]]. apply occ_of_binary.
    - apply of_nat_le. apply count_le_sorted_ge; [exact Hs|lia|lia].
    - intro Ht. unfold tie_at_cutoff in Ht. fold l c in Ht.
      rewrite !andb_true_iff in Ht. destruct Ht as [[_ Hlt] Heq].
      apply Nat.ltb_lt in Hlt. apply Qceqb_true in Heq.
      replace (of_nat c + 1)%Qc with (of_nat (S c)) by (rewrite of_nat_S; ring).
      apply of_nat_le. apply count_le_sorted_tie; [exact Hs|lia|exact Hlt|exact Heq]. }
  destruct s; cbn [channel other_channel_returns] in *.
  - destruct (get_occ_returns get_scaled_kpts m es Hr Ho Hd) as [log E].
    eexists. exists log. split; [exact E|]. cbn [fst]. apply Main. reflexivity.
  - assert (Hb : (snd (nelec m) <=? 0)%Z
                 || cutoff_in_range (snd (nelec m)) (length (fst es)) (snd es) = true)
      by (fold nkpts n; rewrite Hr; apply orb_true_r).
    destruct (get_occ_returns get_scaled_kpts m es Ho Hb Hd) as [log E].
    replace (0 <? snd (nelec m))%Z with true in E by (symmetry; apply Z.ltb_lt; exact Hn).
    eexists. exists log. split; [exact E|]. cbn [snd]. apply Main. reflexivity.
Qed.

(** Without beta electrons the beta occupations are the empty list, not a
    list of zero arrays, so [make_rdm1] cannot use the result: it stops
    with IndexError at the first beta k-point. *)
Theorem get_occ_no_beta_electrons (m : mf) (es : spin_pair (list rvec))
    (mos : spin_pair (list matrix)) (nao : nat) :
  (snd (nelec m) <= 0)%Z ->
  cutoff_in_range (fst (nelec m)) (length (fst es)) (fst es) = true ->
  dump_returns get_scaled_kpts m es = true ->
  0 < nao ->
  Forall2 (fun mo e => orbitals_ok nao mo e = true) (fst mos) (fst es) ->
  exists occ log,
    get_occ get_scaled_kpts m (Some es) = Ok (occ, log)
    /\ snd occ = []
    /\ make_rdm1 mos occ = Raise IndexError.
Proof.
  intros Hb Ha Hd Hnao Hok.
  assert (Hb' : (snd (nelec m) <=? 0)%Z
                || cutoff_in_range (snd (nelec m)) (length (fst es)) (snd es) = true)
    by (replace (snd (nelec m) <=? 0)%Z with true by (symmetry; apply Z.leb_le; exact Hb);
        reflexivity).
  destruct (get_occ_returns get_scaled_kpts m es Ha Hb' Hd) as [log E].
  replace (0 <? snd (nelec m))%Z with false in E by (symmetry; apply Z.ltb_ge; exact Hb).
  eexists. exists log. split; [exact E|]. split; [reflexivity|].
  set (fermi := py_get _ _).
  assert (Hne : 0 < length (fst es)).
  { unfold cutoff_in_range in Ha. rewrite !andb_true_iff, negb_true_iff, Nat.eqb_neq in Ha.
    lia. }
  pose proof (Forall2_length Hok) as Lm.
  pose proof (orbitals_ok_occ_of nao fermi _ _ Hok) as Hok'.
  unfold make_rdm1. cbn [fst snd].
  rewrite (py_nth_ok (fst mos) 0 []) by lia. cbn [bind].
  rewrite length_map.
  pose proof (make_dm_ok nao (fst mos) (map (occ_of fermi) (fst es)) Hnao Hok') as Ea.
  rewrite length_map in Ea. rewrite Ea. cbn [bind].
  destruct (length (fst es)) as [|k] eqn:Ek; [lia|].
  unfold make_dm. cbn [seq mapM].
  unfold py_nth at 1. destruct (nth_error (snd mos) 0); reflexivity.
Qed.

(** At debug verbosity a call without beta electrons does not return: the
    dump of the beta channel indexes the empty list of beta occupations. *)
Theorem get_occ_debug_without_beta_electrons (m : mf) (es : spin_pair (list rvec)) :
  (snd (nelec m) <= 0)%Z ->
  (level_num DEBUG <= verbose m)%Z ->
  cutoff_in_range (fst (nelec m)) (length (fst es)) (fst es) = true ->
  0 < length (get_scaled_kpts (mf_cell m) (mf_kpts m)) <= length (fst es) ->
  get_occ get_scaled_kpts m (Some es) = Raise IndexError.
Proof.
  intros Hb Hv Ha [Hs1 Hs2]. unfold get_occ. cbn [bind].
  destruct (fill_channel_ok m "alpha HOMO = %.12g  LUMO = %.12g"
              "alpha HOMO = %.12g  (no LUMO because of small basis) "
              _ _ _ Ha) as [la Ea].
  rewrite Ea. cbn [bind].
  replace (0 <? snd (nelec m))%Z with false by (symmetry; apply Z.ltb_ge; exact Hb).
  cbn [bind].
  replace (level_num DEBUG <=? verbose m)%Z with true by (symmetry; apply Z.leb_le; exact Hv).
  destruct (dump_channel_ok m _ (py_get (pooled_sorted (fst es))
              (fst (nelec m) * Z.of_nat (length (fst es)) - 1)) (fst es) Hs2) as [da Eda].
  rewrite Eda. cbn [bind].
  destruct (get_scaled_kpts (mf_cell m) (mf_kpts m)) as [|kpt scaled]; [simpl in Hs1; lia|].
  unfold dump_channel, enumerate. cbn [length seq combine mapM].
  unfold py_nth at 1. destruct (nth_error (snd es) 0); reflexivity.
Qed.

(** A call that asks for more alpha electrons than there are alpha orbitals
    stops with IndexError at the cutoff index. *)
Theorem get_occ_too_many_electrons (m : mf) (es : spin_pair (list rvec)) :
  0 < length (fst es) ->
  (Z.of_nat (length (concat (fst es))) < fst (nelec m) * Z.of_nat (length (fst es)))%Z ->
  get_occ get_scaled_kpts m (Some es) = Raise IndexError.
Proof.
  intros Hk Hlen. unfold get_occ. cbn [bind]. unfold fill_channel.
  rewrite np_hstack_ok by (destruct (fst es); [simpl in Hk; lia|congruence]).
  cbn [bind]. unfold py_index. rewrite np_sort_length.
  replace (0 <=? fst (nelec m) * Z.of_nat (length (fst es)) - 1)%Z with true
    by (symmetry; apply Z.leb_le; lia).
  unfold py_nth.
  replace (nth_error _ _) with (@None Qc); [reflexivity|].
  symmetry. apply nth_error_None. rewrite np_sort_length. lia.
Qed.

End GetOccMore.

Lemma get_occ_fills_degenerate_levels_witness :
  exists occ log,
    get_occ (fun _ k => k) ex_mf_one (Some (ex_energies_tie, ex_energies_tie)) = Ok (occ, log)
    /\ Forall (fun o => binary o = true) (fst occ)
    /\ (of_Z (1 * Z.of_nat 2) <= total_occ (fst occ))%Qc
    /\ (tie_at_cutoff 1 2 ex_energies_tie = true ->
        (of_Z (1 * Z.of_nat 2) + 1 <= total_occ (fst occ))%Qc).
Proof.
  apply (get_occ_fills_degenerate_levels (fun _ k => k) ex_mf_one
           (ex_energies_tie, ex_energies_tie) Alpha).
  - reflexivity.
  - simpl. lia.
  - vm_compute. reflexivity.
  - vm_compute. reflexivity.
  - vm_compute. reflexivity.
Defined.

(** The degenerate example in numbers: one electron per cell and spin on
    two k-points, three orbitals filled. *)
Example get_occ_tie_example :
  get_occ (fun _ k => k) ex_mf_one (Some (ex_energies_tie, ex_energies_tie))
  = Ok (([[1; 1]; [1; 0]], [[1; 1]; [1; 0]])%Qc, []).
Proof. vm_compute. reflexivity. Qed.

Lemma get_occ_no_beta_electrons_witness :
  exists occ log,
    get_occ (fun _ k => k) ex_mf_no_beta (Some (ex_energies, ex_energies)) = Ok (occ, log)
    /\ snd occ = []
    /\ make_rdm1 ([ex_mo3; ex_mo3], [ex_mo3; ex_mo3]) occ = Raise IndexError.
Proof.
  apply (get_occ_no_beta_electrons (fun _ k => k) ex_mf_no_beta (ex_energies, ex_energies)
           ([ex_mo3; ex_mo3], [ex_mo3; ex_mo3]) 2).
  - simpl. lia.
  - vm_compute. reflexivity.
  - vm_compute. reflexivity.
  - lia.
  - repeat constructor.
Defined.

Lemma get_occ_debug_without_beta_electrons_witness :
  get_occ (fun _ k => k) ex_mf_no_beta_debug (Some (ex_energies, ex_energies))
  = Raise IndexError.
Proof.
  apply (get_occ_debug_without_beta_electrons (fun _ k => k) ex_mf_no_beta_debug
           (ex_energies, ex_energies)).
  - simpl. lia.
  - simpl. lia.
  - vm_compute. reflexivity.
  - simpl. lia.
Defined.

Lemma get_occ_too_many_electrons_witness :
  get_occ (fun _ k => k) ex_mf_crowded (Some (ex_energies, ex_energies)) = Raise IndexError.
Proof.
  apply (get_occ_too_many_electrons (fun _ k => k) ex_mf_crowded (ex_energies, ex_energies)).
  - simpl. lia.
  - simpl. lia.
Defined.

(** ** energy_elec: Hermitian arguments *)

Lemma Qc_double_zero (x : Qc) : (x = - x)%Qc -> x = 0%Qc.
Proof.
  intro H. assert (E : ((1 + 1) * x = 0)%Qc).
  { transitivity (x + x)%Qc; [ring|]. rewrite H at 1. ring. }
  apply Qcmult_integral in E. destruct E as [E|E]; [|exact E].
  exfalso. apply (f_equal this) in E. vm_compute in E. discriminate.
Qed.

Lemma Cconj_fixed_real (z : C) : Cconj z = z -> im z = 0%Qc.
Proof.
  intro H. apply (f_equal im) in H. cbn [Cconj im] in H.
  apply Qc_double_zero. symmetry. exact H.
Qed.

Lemma im_sum_n (n : nat) (f : nat -> C) :
  (forall i, i < n -> im (f i) = 0%Qc) -> im (sum_n n f) = 0%Qc.
Proof.
  induction n as [|n IH]; intro H; simpl; [reflexivity|].
  rewrite IH by (intros; apply H; lia). rewrite H by lia. ring.
Qed.

(** The trace of the product of two Hermitian matrices is real. *)
Lemma trace_hermitian_real (n : nat) (A B : matrix) :
  0 < n -> has_shape n n A = true -> has_shape n n B = true ->
  hermitian A -> hermitian B -> im (trace (mmul A B)) = 0%Qc.
Proof.
  intros Hn HA HB HhA HhB. apply Cconj_fixed_real.
  rewrite (trace_mmul n A B Hn HA HB). rewrite sum_n_conj.
  rewrite (sum_n_ext n _ (fun i => sum_n n (fun j => (mget A j i * mget B i j)%C))).
  - rewrite sum_n_swap. reflexivity.
  - intros i Hi. rewrite sum_n_conj. apply sum_n_ext. intros j Hj.
    rewrite Cconj_mul.
    rewrite (hermitian_entry n A i j) by assumption.
    rewrite (hermitian_entry n B j i) by assumption. reflexivity.
Qed.

Section EnergyElecMore.

Variable get_hcore : mf -> list matrix.
Variable get_veff : mf -> cell -> spin_pair (list matrix) -> spin_pair (list matrix).

(** For Hermitian density and effective-potential blocks the Coulomb energy
    is real, so the guard on its imaginary part cannot fire and
    [energy_elec] returns. *)
Theorem energy_elec_hermitian_returns (m : mf) (nkpts nao : nat)
    (dm : spin_pair (list matrix)) (h : list matrix) (vhf : spin_pair (list matrix)) :
  energy_inputs_ok nkpts nao dm h vhf = true ->
  Forall hermitian (fst dm ++ snd dm) ->
  Forall hermitian (fst vhf ++ snd vhf) ->
  im (spec_e_coul nkpts dm vhf) = 0%Qc
  /\ energy_elec get_hcore get_veff m (Some dm) (Some h) (Some vhf)
     = Ok ((re (spec_e1 nkpts dm h) + re (spec_e_coul nkpts dm vhf),
            re (spec_e_coul nkpts dm vhf))%Qc,
           logger DEBUG m "E_coul = %.15g" [re (spec_e_coul nkpts dm vhf)]).
Proof.
  intros Hok Hd Hv.
  assert (Him : im (spec_e_coul nkpts dm vhf) = 0%Qc).
  { unfold energy_inputs_ok in Hok. rewrite !andb_true_iff in Hok.
    destruct Hok as [[[[[[HK Hn] Ha] Hb] Hh] Hva] Hvb].
    apply Nat.ltb_lt in HK. apply Nat.ltb_lt in Hn.
    apply Forall_app in Hd. destruct Hd as [Hda Hdb].
    apply Forall_app in Hv. destruct Hv as [Hvha Hvhb].
    pose proof (proj1 (proj1 (has_shape3_iff _ _ _ _) Ha)) as La.
    pose proof (proj1 (proj1 (has_shape3_iff _ _ _ _) Hb)) as Lb.
    pose proof (proj1 (proj1 (has_shape3_iff _ _ _ _) Hva)) as Lva.
    pose proof (proj1 (proj1 (has_shape3_iff _ _ _ _) Hvb)) as Lvb.
    rewrite Forall_forall in Hda, Hdb, Hvha, Hvhb.
    assert (Hsum : im (sum_n nkpts (fun k =>
                     trace (mmul (nth k (fst dm) []) (nth k (fst vhf) []))
                     + trace (mmul (nth k (snd dm) []) (nth k (snd vhf) [])))%C) = 0%Qc).
    { apply im_sum_n. intros k Hk. cbn [Cadd im].
      rewrite (trace_hermitian_real nao), (trace_hermitian_real nao);
        try assumption; try (apply (has_shape3_nth nkpts); assumption);
        try (apply Hda; apply nth_In; lia); try (apply Hdb; apply nth_In; lia);
        try (apply Hvha; apply nth_In; lia); try (apply Hvhb; apply nth_In; lia).
      ring. }
    unfold spec_e_coul. unfold Cdiv, Cinv, Cmul, RtoC. cbn [re im].
    rewrite Hsum. unfold Qcdiv. ring. }
  split; [exact Him|].
  rewrite (energy_elec_eval get_hcore get_veff m nkpts nao dm h vhf Hok), Him.
  reflexivity.
Qed.

End EnergyElecMore.

Lemma energy_elec_hermitian_returns_witness :
  im (spec_e_coul 2 ex_dm1 ex_vhf1) = 0%Qc
  /\ energy_elec (fun _ => []) (fun _ _ d => d) ex_mf (Some ex_dm1) (Some ex_h1) (Some ex_vhf1)
     = Ok ((re (spec_e1 2 ex_dm1 ex_h1) + re (spec_e_coul 2 ex_dm1 ex_vhf1),
            re (spec_e_coul 2 ex_dm1 ex_vhf1))%Qc,
           logger DEBUG ex_mf "E_coul = %.15g" [re (spec_e_coul 2 ex_dm1 ex_vhf1)]).
Proof.
  apply (energy_elec_hermitian_returns (fun _ => []) (fun _ _ d => d) ex_mf 2 1
           ex_dm1 ex_h1 ex_vhf1).
  - reflexivity.
  - repeat constructor.
  - repeat constructor; apply (f_equal (fun x => [[x]])); apply C_eq; apply Qc_is_canon; reflexivity.
Defined.

(** ** get_fock: the plain Fock matrix *)

Lemma madd_ok (n : nat) (A B : matrix) :
  0 < n -> has_shape n n A = true -> has_shape n n B = true ->
  madd A B = Ok (mk_matrix n n (fun i j => (mget A i j + mget B i j)%C)).
Proof.
  intros Hn HA HB. unfold madd.
  rewrite (has_shape_nrows _ _ _ HA), (has_shape_ncols _ _ _ HA Hn), HB. reflexivity.
Qed.

Lemma mapM_combine_ok {A B D} (f : A * B -> result D) (g : A * B -> D)
    (P : A -> Prop) (Q : B -> Prop) (l1 : list A) (l2 : list B) :
  Forall P l1 -> Forall Q l2 ->
  (forall a b, P a -> Q b -> f (a, b) = Ok (g (a, b))) ->
  mapM f (combine l1 l2) = Ok (map g (combine l1 l2)).
Proof.
  intros H1 H2 H. apply mapM_ok_map. intros [a b] Hin.
  rewrite Forall_forall in H1, H2.
  apply H; [apply H1; eapply in_combine_l; exact Hin|apply H2; eapply in_combine_r; exact Hin].
Qed.

Lemma add_kpts_ok (K n : nat) (A B : list matrix) :
  0 < n -> has_shape3 K n n A = true -> has_shape3 K n n B = true ->
  add_kpts A B = Ok (kpts_sum n A B).
Proof.
  intros Hn HA HB. apply has_shape3_iff in HA, HB.
  destruct HA as [LA FA], HB as [LB FB].
  unfold add_kpts, kpts_sum. rewrite LA, LB, Nat.eqb_refl.
  apply (mapM_combine_ok _ _ _ _ A B FA FB).
  intros a b Ha Hb. apply madd_ok; assumption.
Qed.

Lemma kpts_sum_shape (K n : nat) (A B : list matrix) :
  length A = K -> length B = K -> has_shape3 K n n (kpts_sum n A B) = true.
Proof.
  intros LA LB. apply has_shape3_iff. unfold kpts_sum. split.
  - rewrite length_map, length_combine. lia.
  - apply Forall_forall. intros x Hx. apply in_map_iff in Hx.
    destruct Hx as [[a b] [<- _]]. apply has_shape_mk.
Qed.

Section GetFockMore.

Variable diis_t : Type.
Variable diis_update :
  diis_t -> list matrix -> spin_pair (list matrix) -> spin_pair (list matrix) ->
  mf -> list matrix -> spin_pair (list matrix) ->
  spin_pair (list matrix) * diis_t.
Variable mol_hf_level_shift : matrix -> matrix -> matrix -> Qc -> matrix.

(** Without an extrapolator, or before its start cycle, and with a number
    of magnitude at most 1e-4 as level shift, [get_fock] returns
    h1e + veff for both spins and leaves the extrapolator as it was:
    neither [diis.update] nor [level_shift] is consulted. *)
Theorem get_fock_plain (m : mf) (K n : nat) (h1e s_kpts : list matrix)
    (vhf dm : spin_pair (list matrix)) (cycle : Z) (diis : option diis_t)
    (start : option Z) (shift : option level_shift_factor) (damp_ : option Qc) (x : Qc) :
  0 < n ->
  has_shape3 K n n h1e = true ->
  has_shape3 K n n (fst vhf) = true -> has_shape3 K n n (snd vhf) = true ->
  match shift with Some f => f | None => level_shift m end = LsReal x ->
  (Qcabs x <= lit_1e_4)%Qc ->
  diis = None
  \/ (cycle < match start with Some c => c | None => diis_start_cycle m end)%Z ->
  get_fock diis_t diis_update mol_hf_level_shift m h1e s_kpts vhf dm cycle diis
    start shift damp_
  = Ok ((kpts_sum n h1e (fst vhf), kpts_sum n h1e (snd vhf)), diis).
Proof.
  intros Hn Hh Hva Hvb Hs Hx Hd. unfold get_fock. rewrite Hs.
  cbn [unpack_shift bind].
  rewrite (add_kpts_ok K n _ _ Hn Hh Hva), (add_kpts_ok K n _ _ Hn Hh Hvb).
  cbn [bind shift_is_large].
  replace (Qcltb lit_1e_4 (Qcabs x)) with false by (symmetry; apply Qcltb_false; exact Hx).
  destruct diis as [d|].
  - destruct Hd as [Hd|Hd]; [discriminate|].
    replace (_ <=? cycle)%Z with false by (symmetry; apply Z.leb_gt; exact Hd).
    reflexivity.
  - reflexivity.
Qed.

End GetFockMore.

Lemma get_fock_plain_witness :
  get_fock nat ex_diis_update (fun _ _ f _ => f) ex_mf ex_h1 ex_h1 ex_vhf1 ex_dm1
    0%Z (Some 7) None None None
  = Ok ((kpts_sum 1 ex_h1 (fst ex_vhf1), kpts_sum 1 ex_h1 (snd ex_vhf1)), Some 7).
Proof.
  apply (get_fock_plain nat ex_diis_update (fun _ _ f _ => f) ex_mf 2 1 ex_h1 ex_h1
           ex_vhf1 ex_dm1 0%Z (Some 7) None None None 0%Qc).
  - lia.
  - reflexivity.
  - reflexivity.
  - reflexivity.
  - reflexivity.
  - vm_compute. discriminate.
  - right. simpl. lia.
Defined.

(** ** KUHF.get_init_guess: the checkpoint key and cells without atoms *)

Lemma chk_key_not_1e (s : string) :
  startswith s "chk" = true -> String.eqb s "1e" = false.
Proof.
  intro H. destruct (String.eqb_spec s "1e") as [->|]; [|reflexivity].
  vm_compute in H. discriminate.
Qed.

Lemma chk_key_not_atom (s : string) :
  startswith s "chk" = true -> String.eqb s "atom" = false.
Proof.
  intro H. destruct (String.eqb_spec s "atom") as [->|]; [|reflexivity].
  vm_compute in H. discriminate.
Qed.

Section GetInitGuessMore.

Variable mol_uhf_init_guess_by_1e : cell -> spin_pair matrix.
Variable init_guess_by_atom : mf -> cell -> spin_pair matrix.
Variable init_guess_by_minao : mf -> cell -> spin_pair matrix.
Variable from_chk : mf -> result (dtype * spin_pair (list matrix)).
Variable get_ovlp : mf -> cell -> dtype * list matrix.

Local Abbreviation get_init_guess'' :=
  (get_init_guess mol_uhf_init_guess_by_1e init_guess_by_atom init_guess_by_minao
     from_chk get_ovlp).

(** A key that starts with 'chk' (in any letter case), on a cell with
    atoms, whose checkpoint cannot be read (IOError or KeyError): the call
    gives what the key 'minao' gives, after a warning. *)
Theorem get_init_guess_chk_fallback (self : mf) (c : option cell) (key : string) :
  startswith (lower key) "chk" = true ->
  0 < natm (match c with Some c => c | None => mf_cell self end) ->
  from_chk self = Raise IOError \/ from_chk self = Raise KeyError ->
  get_init_guess'' self c key
  = match get_init_guess'' self c "minao" with
    | Ok (dm, log) =>
        Ok (dm, logger WARN self "Fail in reading %s. Use MINAO initial guess" [] ++ log)
    | Raise e => Raise e
    end.
Proof.
  intros Hkey Hn Hchk. unfold get_init_guess, initial_dm_kpts.
  set (c' := match c with Some c => c | None => mf_cell self end) in *.
  rewrite (chk_key_not_1e _ Hkey), (chk_key_not_atom _ Hkey), Hkey.
  replace (natm c' =? 0) with false by (symmetry; apply Nat.eqb_neq; lia).
  change (String.eqb (lower "minao") "1e") with false.
  change (String.eqb (lower "minao") "atom") with false.
  change (startswith (lower "minao") "chk") with false.
  cbv iota.
  assert (E : match from_chk self with
              | Ok d => Ok (Some d, None, [])
              | Raise IOError | Raise KeyError =>
                  Ok (None, Some (init_guess_by_minao self c'),
                      logger WARN self "Fail in reading %s. Use MINAO initial guess" [])
              | Raise e => Raise e
              end
              = Ok (@None (dtype * spin_pair (list matrix)),
                    Some (init_guess_by_minao self c'),
                    logger WARN self "Fail in reading %s. Use MINAO initial guess" []))
    by (destruct Hchk as [-> | ->]; reflexivity).
  rewrite E. cbn [bind].
  destruct (replicate_kpts (length (mf_kpts self)) (init_guess_by_minao self c'))
    as [d|e]; [|reflexivity].
  cbn [bind].
  destruct (normalize_low_dim get_ovlp self c' _ _) as [[dm log2]|e]; reflexivity.
Qed.

(** Any other exception of the checkpoint reader is not caught. *)
Theorem get_init_guess_chk_error_propagates (self : mf) (c : option cell)
    (key : string) (e : exn) :
  startswith (lower key) "chk" = true ->
  0 < natm (match c with Some c => c | None => mf_cell self end) ->
  from_chk self = Raise e -> e <> IOError -> e <> KeyError ->
  get_init_guess'' self c key = Raise e.
Proof.
  intros Hkey Hn Hchk H1 H2. unfold get_init_guess, initial_dm_kpts.
  set (c' := match c with Some c => c | None => mf_cell self end) in *.
  rewrite (chk_key_not_1e _ Hkey), (chk_key_not_atom _ Hkey), Hkey.
  replace (natm c' =? 0) with false by (symmetry; apply Nat.eqb_neq; lia).
  rewrite Hchk. destruct e; try reflexivity; congruence.
Qed.

(** A density read from the checkpoint is returned as it is on a cell of
    dimension 3: it is neither copied over the k-points nor scaled by 1.01
    and 0.99. *)
Theorem get_init_guess_chk_density (self : mf) (c : option cell) (key : string)
    (dt : dtype) (d : spin_pair (list matrix)) :
  startswith (lower key) "chk" = true ->
  0 < natm (match c with Some c => c | None => mf_cell self end) ->
  (3 <= dimension (match c with Some c => c | None => mf_cell self end))%Z ->
  from_chk self = Ok (dt, d) ->
  get_init_guess'' self c key = Ok (d, []).
Proof.
  intros Hkey Hn Hdim Hchk. unfold get_init_guess, initial_dm_kpts.
  set (c' := match c with Some c => c | None => mf_cell self end) in *.
  rewrite (chk_key_not_1e _ Hkey), (chk_key_not_atom _ Hkey), Hkey.
  replace (natm c' =? 0) with false by (symmetry; apply Nat.eqb_neq; lia).
  rewrite Hchk. cbn [bind]. unfold normalize_low_dim.
  replace (dimension c' <? 3)%Z with false by (symmetry; apply Z.ltb_ge; exact Hdim).
  reflexivity.
Qed.

(** On a cell without atoms every key other than '1e' gives what '1e'
    gives, after a note: the checkpoint is not read and the atomic and
    minimal-basis guesses are not built. *)
Theorem get_init_guess_no_atoms (self : mf) (c : option cell) (key : string) :
  natm (match c with Some c => c | None => mf_cell self end) = 0 ->
  String.eqb (lower key) "1e" = false ->
  get_init_guess'' self c key
  = match get_init_guess'' self c "1e" with
    | Ok (dm, log) =>
        Ok (dm, logger INFO self "No atom found in cell. Use 1e initial guess" [] ++ log)
    | Raise e => Raise e
    end.
Proof.
  intros Hn Hkey. unfold get_init_guess, initial_dm_kpts.
  set (c' := match c with Some c => c | None => mf_cell self end) in *.
  rewrite Hkey, Hn. change (String.eqb (lower "1e") "1e") with true.
  cbv iota. change (0 =? 0) with true. cbv iota.
  destruct (init_guess_by_1e mol_uhf_init_guess_by_1e self (Some c')) as [d w].
  cbn [bind].
  destruct (replicate_kpts (length (mf_kpts self)) d) as [dk|e]; [|reflexivity].
  cbn [bind].
  destruct (normalize_low_dim get_ovlp self c' _ _) as [[dm log2]|e]; [|reflexivity].
  cbn [bind]. rewrite <- app_assoc. reflexivity.
Qed.

End GetInitGuessMore.

Lemma get_init_guess_chk_fallback_witness :
  get_init_guess (fun _ => ex_guess) (fun _ _ => ex_guess) (fun _ _ => ex_guess)
    (fun _ => Raise IOError) (fun _ _ => (Float64, [[[C1]]; [[C1]]])) ex_mf_3d None "CHKFILE"
  = match get_init_guess (fun _ => ex_guess) (fun _ _ => ex_guess) (fun _ _ => ex_guess)
            (fun _ => Raise IOError) (fun _ _ => (Float64, [[[C1]]; [[C1]]])) ex_mf_3d None "minao" with
    | Ok (dm, log) =>
        Ok (dm, logger WARN ex_mf_3d "Fail in reading %s. Use MINAO initial guess" [] ++ log)
    | Raise e => Raise e
    end.
Proof.
  apply (get_init_guess_chk_fallback (fun _ => ex_guess) (fun _ _ => ex_guess)
           (fun _ _ => ex_guess) (fun _ => Raise IOError) (fun _ _ => (Float64, [[[C1]]; [[C1]]]))
           ex_mf_3d None "CHKFILE").
  - reflexivity.
  - simpl. lia.
  - left. reflexivity.
Defined.

Lemma get_init_guess_chk_error_propagates_witness :
  get_init_guess (fun _ => ex_guess) (fun _ _ => ex_guess) (fun _ _ => ex_guess)
    (fun _ => Raise ValueError) (fun _ _ => (Float64, [[[C1]]; [[C1]]])) ex_mf_3d None "chk"
  = Raise ValueError.
Proof.
  apply (get_init_guess_chk_error_propagates (fun _ => ex_guess) (fun _ _ => ex_guess)
           (fun _ _ => ex_guess) (fun _ => Raise ValueError) (fun _ _ => (Float64, [[[C1]]; [[C1]]]))
           ex_mf_3d None "chk" ValueError).
  - reflexivity.
  - simpl. lia.
  - reflexivity.
  - discriminate.
  - discriminate.
Defined.

Lemma get_init_guess_chk_density_witness :
  get_init_guess (fun _ => ex_guess) (fun _ _ => ex_guess) (fun _ _ => ex_guess)
    (fun _ => Ok (Complex128, ex_dm1)) (fun _ _ => (Float64, [[[C1]]; [[C1]]])) ex_mf_3d None "chkfile"
  = Ok (ex_dm1, []).
Proof.
  apply (get_init_guess_chk_density (fun _ => ex_guess) (fun _ _ => ex_guess)
           (fun _ _ => ex_guess) (fun _ => Ok (Complex128, ex_dm1))
           (fun _ _ => (Float64, [[[C1]]; [[C1]]]))
           ex_mf_3d None "chkfile" Complex128 ex_dm1).
  - reflexivity.
  - simpl. lia.
  - simpl. lia.
  - reflexivity.
Defined.

Lemma get_init_guess_no_atoms_witness :
  get_init_guess (fun _ => ex_guess) (fun _ _ => ex_guess) (fun _ _ => ex_guess)
    (fun _ => Ok (Complex128, ex_dm1)) (fun _ _ => (Float64, [[[C1]]; [[C1]]])) ex_mf_no_atoms None "chk"
  = match get_init_guess (fun _ => ex_guess) (fun _ _ => ex_guess) (fun _ _ => ex_guess)
            (fun _ => Ok (Complex128, ex_dm1)) (fun _ _ => (Float64, [[[C1]]; [[C1]]])) ex_mf_no_atoms None "1e" with
    | Ok (dm, log) =>
        Ok (dm, logger INFO ex_mf_no_atoms "No atom found in cell. Use 1e initial guess" []
                ++ log)
    | Raise e => Raise e
    end.
Proof.
  apply (get_init_guess_no_atoms (fun _ => ex_guess) (fun _ _ => ex_guess)
           (fun _ _ => ex_guess) (fun _ => Ok (Complex128, ex_dm1)) (fun _ _ => (Float64, [[[C1]]; [[C1]]]))
           ex_mf_no_atoms None "chk").
  - reflexivity.
  - reflexivity.
Defined.

(** ** make_rdm1: the number of electrons *)

Lemma sum_n_RtoC (v : rvec) :
  sum_n (length v) (fun j => RtoC (vget v j)) = RtoC (Qcsum v).
Proof.
  induction v as [|x v IH]; [reflexivity|].
  cbn [length]. rewrite sum_n_shift. unfold vget in *. cbn [nth].
  rewrite IH. change (Qcsum (x :: v)) with (x + Qcsum v)%Qc. cring.
Qed.

(** The (j, j') entry of [C^H S C]. *)
Lemma mget_metric (nao nmo : nat) (S mo : matrix) (j j' : nat) :
  0 < nao -> 0 < nmo ->
  has_shape nao nmo mo = true -> has_shape nao nao S = true ->
  j < nmo -> j' < nmo ->
  mget (mmul (mmul (ctranspose mo) S) mo) j j'
  = sum_n nao (fun a => sum_n nao (fun b =>
      (Cconj (mget mo b j) * mget S b a * mget mo a j')%C)).
Proof.
  intros Hn Hm Hmo HS Hj Hj'.
  pose proof (has_shape_ctranspose _ _ _ Hmo Hn) as Hct.
  pose proof (has_shape_mmul nmo nao nao _ _ Hn Hct HS) as Ht.
  rewrite (mget_mmul nmo nao nmo) by assumption.
  apply sum_n_ext. intros a Ha.
  rewrite (mget_mmul nmo nao nao) by assumption.
  rewrite <- sum_n_mul_r. apply sum_n_ext. intros b Hb.
  rewrite (mget_ctranspose nao nmo) by assumption. reflexivity.
Qed.

(** The trace of a density block against the overlap is the sum of the
    occupations when the orbitals are orthonormal. *)
Lemma density_block_electron_count (nao : nat) (S mo : matrix) (occ : rvec) :
  0 < nao -> orbitals_ok nao mo occ = true -> has_shape nao nao S = true ->
  orthonormal S mo (length occ) ->
  electron_count (density_block mo occ) S = RtoC (Qcsum occ).
Proof.
  intros Hn Hok HS Ho.
  pose proof Hok as Hok'. unfold orbitals_ok in Hok'. apply andb_true_iff in Hok'.
  destruct Hok' as [Hmo Hm]. apply Nat.ltb_lt in Hm. set (nmo := length occ) in *.
  unfold electron_count.
  rewrite (trace_mmul nao _ _ Hn (density_block_shape nao mo occ Hn Hok) HS).
  rewrite (density_block_entries nao mo occ Hn Hok).
  transitivity (sum_n nmo (fun j =>
                  (RtoC (vget occ j) * mget (mmul (mmul (ctranspose mo) S) mo) j j)%C)).
  - transitivity (sum_n nao (fun a => sum_n nao (fun b => sum_n nmo (fun j =>
                    (RtoC (vget occ j)
                     * (Cconj (mget mo b j) * mget S b a * mget mo a j))%C)))).
    + apply sum_n_ext. intros a Ha. apply sum_n_ext. intros b Hb.
      rewrite mget_mk by assumption. unfold density_entry. fold nmo.
      rewrite <- sum_n_mul_r. apply sum_n_ext. intros j Hj. ring.
    + rewrite (sum_n_ext nao _ (fun a => sum_n nmo (fun j => sum_n nao (fun b =>
                 (RtoC (vget occ j)
                  * (Cconj (mget mo b j) * mget S b a * mget mo a j))%C))))
        by (intros a Ha; apply sum_n_swap).
      rewrite sum_n_swap. apply sum_n_ext. intros j Hj.
      rewrite (mget_metric nao nmo) by assumption.
      rewrite <- sum_n_mul_l. apply sum_n_ext. intros a Ha.
      rewrite <- sum_n_mul_l. reflexivity.
  - unfold orthonormal in Ho. rewrite Ho. rewrite <- sum_n_RtoC. fold nmo.
    apply sum_n_ext. intros j Hj. unfold identity. rewrite mget_mk by assumption.
    rewrite Nat.eqb_refl. ring.
Qed.

Lemma make_rdm1_counts (nao : nat) (mos : spin_pair (list matrix))
    (occs : spin_pair (list rvec)) (S : list matrix) :
  0 < nao -> 0 < length (fst occs) -> length (snd occs) = length (fst occs) ->
  Forall2 (fun mo occ => orbitals_ok nao mo occ = true) (fst mos) (fst occs) ->
  Forall2 (fun mo occ => orbitals_ok nao mo occ = true) (snd mos) (snd occs) ->
  has_shape3 (length (fst occs)) nao nao S = true ->
  (forall s k, k < length (fst occs) ->
     orthonormal (nth k S []) (nth k (channel s mos) []) (length (nth k (channel s occs) []))) ->
  exists dm,
    make_rdm1 mos occs = Ok dm
    /\ forall s k, k < length (fst occs) ->
         electron_count (nth k (channel s dm) []) (nth k S [])
         = RtoC (Qcsum (nth k (channel s occs) [])).
Proof.
  destruct mos as [mo_a mo_b], occs as [occ_a occ_b]. cbn [fst snd].
  intros Hn Hk Hlen Ha Hb HS Ho.
  eexists. split; [apply (make_rdm1_eval nao); assumption|].
  pose proof (Forall2_length Ha) as La. pose proof (Forall2_length Hb) as Lb.
  intros s k Hklt.
  assert (Hblock : forall (mo : list matrix) (occ : list rvec),
            Forall2 (fun mo occ => orbitals_ok nao mo occ = true) mo occ ->
            length occ = length occ_a ->
            orthonormal (nth k S []) (nth k mo []) (length (nth k occ [])) ->
            electron_count
              (nth k (map (fun '(mo, occ) => density_block mo occ) (combine mo occ)) [])
              (nth k S [])
            = RtoC (Qcsum (nth k occ []))).
  { intros mo occ Hok Hl Hor. pose proof (Forall2_length Hok) as Lm.
    set (G := fun p : matrix * rvec => let '(mo, occ) := p in density_block mo occ).
    assert (E : nth k (map G (combine mo occ)) [] = G (nth k mo [], nth k occ [])).
    { transitivity (nth k (map G (combine mo occ)) (G ([], []))).
      - apply nth_indep. rewrite length_map, length_combine. lia.
      - rewrite <- (combine_nth mo occ k [] []) by lia.
        exact (map_nth G (combine mo occ) ([], []) k). }
    rewrite E. unfold G.
    apply (density_block_electron_count nao); try assumption.
    - apply (Forall2_nth_both _ mo occ [] [] k Hok). lia.
    - apply (has_shape3_nth _ _ _ _ k HS Hklt). }
  destruct s; cbn [channel fst snd].
  - apply Hblock; [exact Ha|reflexivity|exact (Ho Alpha k Hklt)].
  - apply Hblock; [exact Hb|exact Hlen|exact (Ho Beta k Hklt)].
Qed.

(** For orbitals that are orthonormal in the metric of the overlap
    matrices, every block of the density [make_rdm1] returns holds as many
    electrons as its occupations add up to: tr(D S) = sum(occ). *)
Theorem make_rdm1_electron_count (nao : nat) (mos : spin_pair (list matrix))
    (occs : spin_pair (list rvec)) (S : list matrix) :
  0 < nao -> 0 < length (fst occs) -> length (snd occs) = length (fst occs) ->
  Forall2 (fun mo occ => orbitals_ok nao mo occ = true) (fst mos) (fst occs) ->
  Forall2 (fun mo occ => orbitals_ok nao mo occ = true) (snd mos) (snd occs) ->
  has_shape3 (length (fst occs)) nao nao S = true ->
  (forall s k, k < length (fst occs) ->
     orthonormal (nth k S []) (nth k (channel s mos) []) (length (nth k (channel s occs) []))) ->
  exists dm,
    make_rdm1 mos occs = Ok dm
    /\ forall s k, k < length (fst occs) ->
         electron_count (nth k (channel s dm) []) (nth k S [])
         = RtoC (Qcsum (nth k (channel s occs) [])).
Proof. apply make_rdm1_counts. Qed.

Lemma make_rdm1_electron_count_witness :
  exists dm,
    make_rdm1 ([ex_mo_metric], [ex_mo_metric]) ([ex_occ], [ex_occ]) = Ok dm
    /\ forall s k, k < 1 ->
         electron_count (nth k (channel s dm) []) (nth k [ex_ovlp] [])
         = RtoC (Qcsum (nth k (channel s ([ex_occ], [ex_occ])) [])).
Proof.
  apply (make_rdm1_electron_count 2 ([ex_mo_metric], [ex_mo_metric]) ([ex_occ], [ex_occ])
           [ex_ovlp]).
  - lia.
  - simpl. lia.
  - reflexivity.
  - repeat constructor.
  - repeat constructor.
  - reflexivity.
  - intros s k Hk. assert (k = 0) by (simpl in Hk; lia). subst k.
    destruct s; unfold orthonormal; vm_compute; reflexivity.
Defined.

(** ** get_occ and make_rdm1 together *)

Lemma sum_n_Qcsum (occs : list rvec) :
  sum_n (length occs) (fun k => RtoC (Qcsum (nth k occs []))) = RtoC (total_occ occs).
Proof.
  unfold total_occ. rewrite <- sum_n_RtoC. rewrite length_map.
  apply sum_n_ext. intros k Hk. unfold vget.
  change 0%Qc with (Qcsum []). rewrite (map_nth Qcsum occs [] k). reflexivity.
Qed.

Section FermiFillingCount.

Variable get_scaled_kpts : cell -> list kvec -> list kvec.

(** The occupations of [get_occ] and orthonormal orbitals give, through
    [make_rdm1], a density whose electron numbers tr(D S), added over the
    k-points, are nelec[s]*nkpts in each spin channel (no tie at either
    cutoff). *)
Theorem get_occ_make_rdm1_electron_number (m : mf) (es : spin_pair (list rvec))
    (mos : spin_pair (list matrix)) (S : list matrix) (nao : nat) :
  let nkpts := length (fst es) in
  no_tie_at_cutoff (fst (nelec m)) nkpts (fst es) = true ->
  no_tie_at_cutoff (snd (nelec m)) nkpts (snd es) = true ->
  dump_returns get_scaled_kpts m es = true ->
  0 < nao -> length (snd es) = nkpts ->
  Forall2 (fun mo e => orbitals_ok nao mo e = true) (fst mos) (fst es) ->
  Forall2 (fun mo e => orbitals_ok nao mo e = true) (snd mos) (snd es) ->
  has_shape3 nkpts nao nao S = true ->
  (forall s k, k < nkpts ->
     orthonormal (nth k S []) (nth k (channel s mos) []) (length (nth k (channel s es) []))) ->
  exists occ log dm,
    get_occ get_scaled_kpts m (Some es) = Ok (occ, log)
    /\ make_rdm1 mos occ = Ok dm
    /\ forall s,
         sum_n nkpts (fun k => electron_count (nth k (channel s dm) []) (nth k S []))
         = RtoC (of_Z (channel s (nelec m) * Z.of_nat nkpts)).
Proof.
  intros nkpts Ta Tb Hd Hn Hlen Ha Hb HS Ho.
  pose proof (no_tie_in_range _ _ _ Ta) as Ra.
  pose proof (no_tie_in_range _ _ _ Tb) as Rb.
  assert (Hb' : (snd (nelec m) <=? 0)%Z
                || cutoff_in_range (snd (nelec m)) nkpts (snd es) = true)
    by (rewrite Rb; apply orb_true_r).
  destruct (get_occ_returns get_scaled_kpts m es Ra Hb' Hd) as [log E].
  fold nkpts in E. rewrite (no_tie_fermi _ _ _ Ta), (no_tie_fermi _ _ _ Tb) in E.
  assert (Hpos : (0 <? snd (nelec m))%Z = true).
  { unfold no_tie_at_cutoff in Tb. rewrite !andb_true_iff in Tb. tauto. }
  rewrite Hpos in E.
  assert (Hk : 0 < nkpts).
  { unfold no_tie_at_cutoff in Ta. rewrite !andb_true_iff in Ta.
    destruct Ta as [[[_ Hk] _] _]. apply Nat.ltb_lt in Hk. exact Hk. }
  set (fa := fermi_level (fst (nelec m)) nkpts (fst es)) in *.
  set (fb := fermi_level (snd (nelec m)) nkpts (snd es)) in *.
  set (occ := (map (occ_of fa) (fst es), map (occ_of fb) (snd es))).
  assert (Lo : forall f e, length (occ_of f e) = length e)
    by (intros; unfold occ_of; apply length_map).
  assert (Hnth : forall (f : Qc) (l : list rvec) k,
            nth k (map (occ_of f) l) [] = occ_of f (nth k l []))
    by (intros f l k; exact (map_nth (occ_of f) l [] k)).
  destruct (make_rdm1_counts nao mos occ S) as [dm [Edm Hcount]];
    unfold occ; cbn [fst snd]; rewrite ?length_map; try assumption.
  - apply orbitals_ok_occ_of. exact Ha.
  - apply orbitals_ok_occ_of. exact Hb.
  - intros s k Hklt. specialize (Ho s k Hklt).
    destruct s; cbn [channel fst snd] in *; rewrite Hnth, Lo; exact Ho.
  - exists occ, log, dm. split; [exact E|]. split; [exact Edm|].
    intro s.
    rewrite (sum_n_ext nkpts _ (fun k => RtoC (Qcsum (nth k (channel s occ) [])))).
    + destruct s; cbn [channel]; unfold occ; cbn [fst snd].
      * replace nkpts with (length (map (occ_of fa) (fst es))) at 1
          by (rewrite length_map; reflexivity).
        rewrite sum_n_Qcsum. f_equal. apply no_tie_total. exact Ta.
      * replace nkpts with (length (map (occ_of fb) (snd es))) at 1
          by (rewrite length_map; exact Hlen).
        rewrite sum_n_Qcsum. f_equal. apply no_tie_total. exact Tb.
    + intros k Hklt. apply Hcount. unfold occ. cbn [fst]. rewrite length_map. exact Hklt.
Qed.

End FermiFillingCount.

Lemma get_occ_make_rdm1_electron_number_witness :
  exists occ log dm,
    get_occ (fun _ k => k) ex_mf (Some (ex_energies, ex_energies)) = Ok (occ, log)
    /\ make_rdm1 ([identity 3; identity 3], [identity 3; identity 3]) occ = Ok dm
    /\ forall s,
         sum_n 2 (fun k => electron_count (nth k (channel s dm) [])
                             (nth k [identity 3; identity 3] []))
         = RtoC (of_Z (channel s (nelec ex_mf) * Z.of_nat 2)).
Proof.
  apply (get_occ_make_rdm1_electron_number (fun _ k => k) ex_mf (ex_energies, ex_energies)
           ([identity 3; identity 3], [identity 3; identity 3])
           [identity 3; identity 3] 3).
  - vm_compute. reflexivity.
  - vm_compute. reflexivity.
  - vm_compute. reflexivity.
  - lia.
  - reflexivity.
  - repeat constructor.
  - repeat constructor.
  - reflexivity.
  - intros s k Hk. simpl in Hk.
    assert (Hk' : k = 0 \/ k = 1) by lia.
    destruct s, Hk' as [-> | ->]; unfold orthonormal; vm_compute; reflexivity.
Defined.

(** ** init_guess_by_chkfile: the record of a restricted run *)

Lemma mapM_enumerate_map {A B} (f : nat -> A -> result B) (g : A -> B) (l : list A) (a : nat) :
  (forall k x, nth_error l k = Some x -> f (a + k) x = Ok (g x)) ->
  mapM (fun '(k, x) => f k x) (combine (seq a (length l)) l) = Ok (map g l).
Proof.
  revert a. induction l as [|x l IH]; intros a H; [reflexivity|].
  cbn [length seq combine mapM map].
  pose proof (H 0 x eq_refl) as H0. rewrite Nat.add_0_r in H0. rewrite H0.
  rewrite (IH (S a)); [reflexivity|].
  intros k y Hk. rewrite Nat.add_succ_comm. apply (H (S k)). exact Hk.
Qed.

Lemma vsub_alpha_part (occ : rvec) : vsub occ (alpha_part occ) = Ok (beta_part occ).
Proof.
  unfold vsub, alpha_part, beta_part. rewrite length_map, Nat.eqb_refl. f_equal.
  induction occ as [|x occ IH]; [reflexivity|]. simpl. rewrite IH. reflexivity.
Qed.

Lemma rhf_occb_ok (mo_occ : list rvec) :
  rhf_occb mo_occ (rhf_occa mo_occ) = Ok (map beta_part mo_occ).
Proof.
  unfold rhf_occb, enumerate. apply mapM_enumerate_map.
  intros k occ Hk. cbn [Nat.add]. unfold rhf_occa, py_nth.
  rewrite nth_error_map. unfold rvec in *. rewrite Hk. cbn [option_map bind].
  apply vsub_alpha_part.
Qed.

Lemma density_entry_split (mo : matrix) (occ : rvec) (a b : nat) :
  (density_entry mo (alpha_part occ) a b + density_entry mo (beta_part occ) a b)%C
  = density_entry mo occ a b.
Proof.
  unfold density_entry, alpha_part, beta_part. rewrite !length_map.
  rewrite <- sum_n_add. apply sum_n_ext. intros j Hj. unfold vget.
  set (fa := fun x : Qc => if Qcltb lit_1e_8 x then 1%Qc else 0%Qc).
  set (fb := fun x : Qc => (x - (if Qcltb lit_1e_8 x then 1 else 0))%Qc).
  rewrite (nth_indep (map fa occ) 0%Qc (fa 0%Qc)) by (rewrite length_map; exact Hj).
  rewrite (nth_indep (map fb occ) 0%Qc (fb 0%Qc)) by (rewrite length_map; exact Hj).
  rewrite !map_nth. unfold fa, fb.
  destruct (Qcltb lit_1e_8 (nth j occ 0%Qc)); cring.
Qed.

Lemma orbitals_ok_parts (nao : nat) (mos : list matrix) (occs : list rvec) (f : rvec -> rvec) :
  (forall o, length (f o) = length o) ->
  Forall2 (fun mo occ => orbitals_ok nao mo occ = true) mos occs ->
  Forall2 (fun mo occ => orbitals_ok nao mo occ = true) mos (map f occs).
Proof.
  intros Hf. induction 1 as [|mo occ mos' occs' H _ IH]; simpl; constructor; [|exact IH].
  unfold orbitals_ok in *. rewrite Hf. exact H.
Qed.

Section ChkRestricted.

Variable project_mo_nr2nr : cell -> matrix -> cell -> matrix.
Variable project_mo_nr2nr_kpts : cell -> list matrix -> cell -> list kvec -> list matrix.

(** The checkpoint of a restricted k-point run, read on its own mesh
    without projection: the alpha and the beta density that are returned
    add up to the spin-summed density C diag(occ) C^H of the record (to its
    real part for a gamma-point target). *)
Theorem init_guess_by_chkfile_restricted_record (cell_ chk_cell : cell) (nao : nat)
    (ks kpts : list kvec) (mo : list matrix) (occ : list rvec) :
  0 < nao -> 0 < length occ ->
  Forall2 (fun mo occ => orbitals_ok nao mo occ = true) mo occ ->
  (length kpts =? length ks) && allclose_kpts kpts ks = true ->
  exists dm,
    init_guess_by_chkfile project_mo_nr2nr project_mo_nr2nr_kpts cell_
      (chk_cell, RecKpts None ks (KptsRHF mo occ)) false (Some kpts) = Ok dm
    /\ forall k i j, k < length occ -> i < nao -> j < nao ->
         (mget (nth k (fst dm) []) i j + mget (nth k (snd dm) []) i j)%C
         = let d := mget (density_block (nth k mo []) (nth k occ [])) i j in
           if allclose_zero kpts then RtoC (re d) else d.
Proof.
  intros Hn Hk Hok Hmesh. pose proof (Forall2_length Hok) as Lm.
  assert (La : forall o, length (alpha_part o) = length o)
    by (intro; unfold alpha_part; apply length_map).
  assert (Lb : forall o, length (beta_part o) = length o)
    by (intro; unfold beta_part; apply length_map).
  pose proof (orbitals_ok_parts nao mo occ alpha_part La Hok) as Hoka.
  pose proof (orbitals_ok_parts nao mo occ beta_part Lb Hok) as Hokb.
  assert (Edm : chk_density project_mo_nr2nr project_mo_nr2nr_kpts cell_
                  (chk_cell, RecKpts None ks (KptsRHF mo occ)) false kpts
                = Ok (map (fun '(mo, occ) => density_block mo occ)
                          (combine mo (map alpha_part occ)),
                      map (fun '(mo, occ) => density_block mo occ)
                          (combine mo (map beta_part occ)))).
  { unfold chk_density, chk_orbitals. cbn [rec_chk_kpts].
    assert (Hmo0 : 0 < length mo) by (rewrite Lm; exact Hk).
    rewrite (py_nth_ok mo 0 [] Hmo0). cbn [bind].
    rewrite rhf_occb_ok. cbn [bind].
    unfold makedm. rewrite Hmesh. unfold makedm_same, fproj.
    rewrite map_id.
    apply (make_rdm1_eval nao); try assumption.
    - unfold rhf_occa. rewrite length_map. exact Hk.
    - unfold rhf_occa. rewrite !length_map. reflexivity. }
  assert (Hnth : forall (f : rvec -> rvec) k, k < length occ ->
            nth k (map (fun '(mo, occ) => density_block mo occ) (combine mo (map f occ))) []
            = density_block (nth k mo []) (f (nth k occ []))).
  { intros f k Hklt.
    set (G := fun p : matrix * rvec => let '(mo, occ) := p in density_block mo occ).
    transitivity (nth k (map G (combine mo (map f occ))) (G ([], f []))).
    - apply nth_indep. rewrite length_map, length_combine, length_map. lia.
    - rewrite (map_nth G (combine mo (map f occ)) ([], f []) k).
      rewrite combine_nth by (rewrite length_map; exact Lm).
      rewrite (map_nth f occ [] k). reflexivity. }
  assert (Hsum : forall k i j, k < length occ -> i < nao -> j < nao ->
            (mget (density_block (nth k mo []) (alpha_part (nth k occ []))) i j
             + mget (density_block (nth k mo []) (beta_part (nth k occ []))) i j)%C
            = mget (density_block (nth k mo []) (nth k occ [])) i j).
  { intros k i j Hklt Hi Hj.
    assert (Hokk : orbitals_ok nao (nth k mo []) (nth k occ []) = true)
      by (apply (Forall2_nth_both _ mo occ [] [] k Hok); lia).
    assert (Hoa : orbitals_ok nao (nth k mo []) (alpha_part (nth k occ [])) = true)
      by (unfold orbitals_ok in *; rewrite La; exact Hokk).
    assert (Hob : orbitals_ok nao (nth k mo []) (beta_part (nth k occ [])) = true)
      by (unfold orbitals_ok in *; rewrite Lb; exact Hokk).
    rewrite !(density_block_entries nao) by assumption.
    rewrite !mget_mk by assumption. apply density_entry_split. }
  unfold init_guess_by_chkfile. cbn [bind]. rewrite Edm. cbn [bind].
  destruct (allclose_zero kpts).
  - eexists. split; [reflexivity|]. intros k i j Hklt Hi Hj. cbn [fst snd].
    assert (Hr : forall l : list matrix, nth k (map real l) [] = real (nth k l []))
      by (intro l; exact (map_nth real l [] k)).
    rewrite !Hr, !mget_real, !Hnth by exact Hklt.
    rewrite <- (Hsum k i j Hklt Hi Hj). cring.
  - eexists. split; [reflexivity|]. intros k i j Hklt Hi Hj. cbn [fst snd].
    rewrite !Hnth by exact Hklt. apply Hsum; assumption.
Qed.

End ChkRestricted.

Lemma init_guess_by_chkfile_restricted_record_witness :
  exists dm,
    init_guess_by_chkfile (fun _ mo _ => mo) (fun _ mo _ _ => mo) ex_cell
      (ex_cell, ex_rec_rhf) false (Some ex_kpts) = Ok dm
    /\ forall k i j, k < 2 -> i < 2 -> j < 2 ->
         (mget (nth k (fst dm) []) i j + mget (nth k (snd dm) []) i j)%C
         = let d := mget (density_block (nth k [ex_mo3; ex_mo3] [])
                            (nth k [[of_nat 2; 1%Qc; 0%Qc]; [of_nat 2; 1%Qc; 0%Qc]] [])) i j in
           if allclose_zero ex_kpts then RtoC (re d) else d.
Proof.
  apply (init_guess_by_chkfile_restricted_record (fun _ mo _ => mo) (fun _ mo _ _ => mo)
           ex_cell ex_cell 2 ex_kpts ex_kpts [ex_mo3; ex_mo3]
           [[of_nat 2; 1%Qc; 0%Qc]; [of_nat 2; 1%Qc; 0%Qc]]).
  - lia.
  - simpl. lia.
  - repeat constructor.
  - vm_compute. reflexivity.
Defined.

(** ** canonicalize: the uninitialised buffers *)

Lemma agree_on_weaken {A} (P Q : nat -> bool) (l l' : list A) :
  (forall j, Q j = true -> P j = true) -> agree_on P l l' -> agree_on Q l l'.
Proof. intros H [H1 H2]. split; [exact H1|]. intros j d Hj. apply H2. auto. Qed.

Lemma agree_on_nil {A} (P : nat -> bool) : agree_on P (@nil A) [].
Proof. split; reflexivity. Qed.

Lemma agree_on_tail {A} (P : nat -> bool) (x x' : A) (l l' : list A) :
  agree_on P (x :: l) (x' :: l') -> agree_on (fun j => P (S j)) l l'.
Proof.
  intros [H1 H2]. split; [simpl in H1; lia|].
  intros j d Hj. exact (H2 (S j) d Hj).
Qed.

Lemma agree_on_eq {A} (P : nat -> bool) (l l' : list A) :
  agree_on P l l' -> (forall j, j < length l -> P j = true) -> l = l'.
Proof.
  intros [H1 H2] H. destruct l as [|x l].
  - destruct l'; [reflexivity|discriminate].
  - apply (nth_ext _ _ x x); [exact H1|]. intros j Hj. apply H2. apply H. exact Hj.
Qed.

Lemma nth_nil_false (j : nat) : nth j (@nil bool) false = false.
Proof. destruct j; reflexivity. Qed.

(** Assigning the same values under a mask makes two lists agree on the
    mask as well. *)
Lemma mask_assign_agree {A} (idx : list bool) (P : nat -> bool) (old old' new : list A) :
  agree_on P old old' -> count_nonzero idx <= length new ->
  agree_on (fun j => P j || nth j idx false)
           (mask_assign idx old new) (mask_assign idx old' new).
Proof.
  revert P old old' new.
  induction idx as [|b idx IH]; intros P old old' new Hag Hnew.
  - destruct old, old'; cbn [mask_assign];
      (eapply agree_on_weaken; [|exact Hag]);
      intros j Hj; rewrite nth_nil_false, orb_false_r in Hj; exact Hj.
  - destruct old as [|x old], old' as [|x' old'];
      try (destruct Hag as [Hl _]; simpl in Hl; discriminate).
    + cbn [mask_assign]. apply agree_on_nil.
    + pose proof (agree_on_tail _ _ _ _ _ Hag) as Htl.
      rewrite count_nonzero_cons in Hnew. cbn [mask_assign]. destruct b.
      * destruct new as [|y new]; [simpl in Hnew; lia|].
        destruct (IH (fun j => P (S j)) old old' new Htl) as [L1 L2];
          [simpl in Hnew; lia|].
        split; [simpl; rewrite L1; reflexivity|].
        intros [|j] d Hj; cbn [nth] in *; [reflexivity|]. apply L2. exact Hj.
      * destruct (IH (fun j => P (S j)) old old' new Htl) as [L1 L2];
          [simpl in Hnew; lia|].
        split; [simpl; rewrite L1; reflexivity|].
        intros [|j] d Hj; cbn [nth] in *.
        -- rewrite orb_false_r in Hj. destruct Hag as [_ H2]. exact (H2 0 d Hj).
        -- apply L2. exact Hj.
Qed.

Lemma hd_nth0 {A} (l : list A) (d : A) : hd d l = nth 0 l d.
Proof. destruct l; reflexivity. Qed.

Lemma agree_rows_ncols (P : nat -> bool) (cs cs' : matrix) :
  agree_rows P cs cs' -> ncols cs = ncols cs'.
Proof. intros [_ H]. unfold ncols. rewrite !hd_nth0. exact (proj1 (H 0)). Qed.

Lemma count_zero_nth (idx : list bool) (j : nat) :
  count_nonzero idx = 0 -> nth j idx false = false.
Proof.
  revert j. induction idx as [|b idx IH]; intros j H; [apply nth_nil_false|].
  rewrite count_nonzero_cons in H. destruct b; [simpl in H; lia|].
  destruct j; [reflexivity|]. simpl. apply IH. simpl in H. exact H.
Qed.

Lemma assign_rows_agree (idx : list bool) (P : nat -> bool) (cs cs' X : matrix) (n : nat) :
  agree_rows P cs cs' -> has_shape (length cs) n X = true -> count_nonzero idx <= n ->
  agree_rows (fun j => P j || nth j idx false)
    (map (fun '(row, new) => mask_assign idx row new) (combine cs X))
    (map (fun '(row, new) => mask_assign idx row new) (combine cs' X)).
Proof.
  intros [Hl Hr] HX Hn.
  pose proof (has_shape_nrows _ _ _ HX) as LX. unfold nrows in LX.
  set (G := fun p : list C * list C => let '(row, new) := p in mask_assign idx row new).
  assert (EG : G ([], []) = []) by (unfold G; destruct idx; reflexivity).
  split; [rewrite !length_map, !length_combine, Hl; reflexivity|].
  intro a.
  assert (Ea : forall c : matrix, length c = length X ->
            nth a (map G (combine c X)) [] = mask_assign idx (nth a c []) (nth a X [])).
  { intros c Hc. rewrite <- EG at 1. rewrite (map_nth G (combine c X) ([], []) a).
    rewrite combine_nth by exact Hc. reflexivity. }
  rewrite (Ea cs) by (symmetry; exact LX).
  rewrite (Ea cs') by (rewrite <- Hl; symmetry; exact LX).
  destruct (Nat.lt_ge_cases a (length cs)) as [Ha|Ha].
  - apply mask_assign_agree; [apply Hr|].
    rewrite (has_shape_row _ _ X a HX Ha). exact Hn.
  - rewrite (nth_overflow cs) by exact Ha.
    rewrite (nth_overflow cs') by (rewrite <- Hl; exact Ha).
    destruct idx; cbn [mask_assign]; apply agree_on_nil.
Qed.

(** One call of [eig_] on two pairs of buffers that agree on [P]: the two
    calls stop with the same exception, or their results agree on [P] and
    on the mask. *)
Lemma eig_agree (eigh : matrix -> rvec * matrix) (dt : dtype) (F mo : matrix)
    (idx : list bool) (P : nat -> bool) (es es' : rvec) (cs cs' : matrix) :
  agree_on P es es' -> agree_rows P cs cs' ->
  match eig_ eigh dt F mo idx es cs, eig_ eigh dt F mo idx es' cs' with
  | Ok (e1, c1), Ok (e2, c2) =>
      agree_on (fun j => P j || nth j idx false) e1 e2
      /\ agree_rows (fun j => P j || nth j idx false) c1 c2
  | Raise a, Raise b => a = b
  | _, _ => False
  end.
Proof.
  intros He Hc. unfold eig_.
  destruct (0 <? count_nonzero idx) eqn:Ecnt.
  - destruct (select_cols mo idx) as [orb|e]; cbn [bind]; [|reflexivity].
    destruct (np_dot (conj (transpose orb)) F) as [t|e]; cbn [bind]; [|reflexivity].
    destruct (np_dot t orb) as [f1|e]; cbn [bind]; [|reflexivity].
    destruct (eigh f1) as [e c].
    unfold assign_mask. rewrite <- (proj1 He).
    destruct (negb (length idx =? length es)); cbn [bind]; [reflexivity|].
    destruct (length e =? count_nonzero idx) eqn:Ee; cbn [bind]; [|reflexivity].
    apply Nat.eqb_eq in Ee.
    destruct (np_dot orb c) as [x|e']; cbn [bind]; [|reflexivity].
    unfold assign_cols. rewrite <- (agree_rows_ncols P cs cs' Hc).
    destruct (negb (length idx =? ncols cs)); cbn [bind]; [reflexivity|].
    unfold nrows. rewrite <- (proj1 Hc).
    destruct (has_shape (length cs) (count_nonzero idx) x) eqn:Hx; cbn [bind];
      [|reflexivity].
    split.
    + apply mask_assign_agree; [exact He|lia].
    + apply (assign_rows_agree idx P cs cs' (astype dt x) (count_nonzero idx));
        [exact Hc|rewrite has_shape_astype; exact Hx|lia].
  - apply Nat.ltb_ge in Ecnt. assert (E0 : count_nonzero idx = 0) by lia.
    assert (Hw : forall j, P j || nth j idx false = true -> P j = true)
      by (intros j Hj; rewrite (count_zero_nth idx j E0), orb_false_r in Hj; exact Hj).
    split.
    + eapply agree_on_weaken; [|exact He]. exact Hw.
    + destruct Hc as [Hl Hr]. split; [exact Hl|]. intro a.
      eapply agree_on_weaken; [|apply Hr]. exact Hw.
Qed.

Lemma eig_keeps_shape (eigh : matrix -> rvec * matrix) (dt : dtype) (F mo : matrix)
    (idx : list bool) (es es1 : rvec) (cs cs1 : matrix) (n m : nat) :
  eig_ eigh dt F mo idx es cs = Ok (es1, cs1) ->
  has_shape n m cs = true ->
  length es1 = length es /\ has_shape n m cs1 = true.
Proof.
  unfold eig_. intros H Hs.
  destruct (0 <? count_nonzero idx).
  - destruct (select_cols mo idx) as [orb|e]; cbn [bind] in H; [|discriminate].
    destruct (np_dot (conj (transpose orb)) F) as [t|e]; cbn [bind] in H; [|discriminate].
    destruct (np_dot t orb) as [f1|e]; cbn [bind] in H; [|discriminate].
    destruct (eigh f1) as [e c].
    unfold assign_mask in H.
    destruct (negb (length idx =? length es)); cbn [bind] in H; [discriminate|].
    destruct (length e =? count_nonzero idx); cbn [bind] in H; [|discriminate].
    destruct (np_dot orb c) as [x|e']; cbn [bind] in H; [|discriminate].
    unfold assign_cols in H.
    destruct (negb (length idx =? ncols cs)); cbn [bind] in H; [discriminate|].
    destruct (has_shape (nrows cs) (count_nonzero idx) x) eqn:Hx; cbn [bind] in H;
      [|discriminate].
    inversion H; subst. split; [apply mask_assign_length|].
    rewrite (has_shape_nrows _ _ _ Hs) in Hx. rewrite <- (has_shape_astype _ _ dt) in Hx.
    apply (has_shape_assign_rows idx cs (astype dt x) n m _ Hs Hx).
  - inversion H; subst. auto.
Qed.

Lemma nth_negb_mask (idx : list bool) (j : nat) :
  j < length idx -> nth j idx false || nth j (map negb idx) false = true.
Proof.
  revert j. induction idx as [|b idx IH]; intros j Hj; simpl in Hj; [lia|].
  destruct j; simpl; [destruct b; reflexivity|]. apply IH. lia.
Qed.

Section CanonicalizeBuffers.

Variable eigh : matrix -> rvec * matrix.

Lemma canonicalize_kpt_buffers (uC uC' : nat -> nat -> C) (uR uR' : nat -> Qc)
    (dt : dtype) (nao : nat) (fock : list matrix) (occs : list rvec) (k : nat)
    (mo : matrix) (occ : rvec) :
  0 < nao -> nth_error occs k = Some occ -> orbitals_ok nao mo occ = true ->
  canonicalize_kpt eigh uC uR dt fock occs k mo
  = canonicalize_kpt eigh uC' uR' dt fock occs k mo.
Proof.
  intros Hn Hocc Hok.
  unfold orbitals_ok in Hok. apply andb_true_iff in Hok. destruct Hok as [Hmo _].
  unfold canonicalize_kpt, py_nth. rewrite Hocc. cbn [bind].
  destruct (nth_error fock k) as [F|]; cbn [bind]; [|reflexivity].
  set (occidx := map (fun x => Qceqb x 1) occ).
  set (nmo := length occ) in *.
  assert (Lo : length occidx = nmo) by (unfold occidx; apply length_map).
  assert (Hsh : forall u, has_shape nao nmo (empty_like_matrix u dt mo) = true).
  { intro u. unfold empty_like_matrix.
    rewrite (has_shape_nrows _ _ _ Hmo), (has_shape_ncols _ _ _ Hmo Hn).
    apply has_shape_mk. }
  assert (Lr : forall u, length (empty_like_rvec u occ) = nmo)
    by (intro u; unfold empty_like_rvec; rewrite length_map, length_seq; reflexivity).
  assert (A0 : agree_on (fun _ => false) (empty_like_rvec uR occ) (empty_like_rvec uR' occ))
    by (split; [rewrite !Lr; reflexivity|discriminate]).
  assert (B0 : agree_rows (fun _ => false)
                 (empty_like_matrix uC dt mo) (empty_like_matrix uC' dt mo)).
  { unfold empty_like_matrix. split.
    - rewrite !mk_matrix_length. reflexivity.
    - intro a. split; [|discriminate].
      destruct (Nat.lt_ge_cases a (nrows mo)) as [Ha|Ha].
      + rewrite !(has_shape_row (nrows mo) (ncols mo) _ a (has_shape_mk _ _ _) Ha).
        reflexivity.
      + rewrite !nth_overflow by (rewrite mk_matrix_length; exact Ha). reflexivity. }
  pose proof (eig_agree eigh dt F mo occidx _ _ _ _ _ A0 B0) as H1.
  destruct (eig_ eigh dt F mo occidx (empty_like_rvec uR occ) (empty_like_matrix uC dt mo))
    as [[e1 c1]|x1] eqn:E1;
    destruct (eig_ eigh dt F mo occidx (empty_like_rvec uR' occ)
                (empty_like_matrix uC' dt mo))
      as [[e1' c1']|x1'] eqn:E1'; try contradiction; cbn [bind];
    [|rewrite H1; reflexivity].
  destruct H1 as [A1 B1].
  destruct (eig_keeps_shape _ _ _ _ _ _ _ _ _ nao nmo E1 (Hsh uC)) as [Le1 Hc1].
  destruct (eig_keeps_shape _ _ _ _ _ _ _ _ _ nao nmo E1' (Hsh uC')) as [Le1' Hc1'].
  pose proof (eig_agree eigh dt F mo (map negb occidx) _ _ _ _ _ A1 B1) as H2.
  destruct (eig_ eigh dt F mo (map negb occidx) e1 c1) as [[e2 c2]|x2] eqn:E2;
    destruct (eig_ eigh dt F mo (map negb occidx) e1' c1') as [[e2' c2']|x2'] eqn:E2';
    try contradiction; cbn [bind]; [|rewrite H2; reflexivity].
  destruct H2 as [A2 B2].
  destruct (eig_keeps_shape _ _ _ _ _ _ _ _ _ nao nmo E2 Hc1) as [Le2 Hc2].
  assert (Hall : forall j, j < nmo ->
            (false || nth j occidx false) || nth j (map negb occidx) false = true)
    by (intros j Hj; cbn [orb]; apply nth_negb_mask; rewrite Lo; exact Hj).
  assert (Ee : e2 = e2').
  { apply (agree_on_eq _ _ _ A2). intros j Hj. apply Hall.
    rewrite Le2, Le1, Lr in Hj. exact Hj. }
  assert (Ec : c2 = c2').
  { destruct B2 as [Hl Hr]. apply (nth_ext _ _ [] []); [exact Hl|].
    intros a Ha. apply (agree_on_eq _ _ _ (Hr a)). intros j Hj. apply Hall.
    change (length c2) with (nrows c2) in Ha. rewrite (has_shape_nrows _ _ _ Hc2) in Ha.
    rewrite (has_shape_row _ _ _ a Hc2 Ha) in Hj. exact Hj. }
  rewrite Ee, Ec. reflexivity.
Qed.

(** No entry of the uninitialised arrays ([np.empty_like]) survives: for
    coefficients of shape (nao, nmo) with nmo occupations at every k-point,
    whatever the dtype of the orbital array, the result of [canonicalize]
    (an exception included) does not depend on what the two buffers held. *)
Theorem canonicalize_overwrites_buffers (uC uC' : nat -> nat -> C) (uR uR' : nat -> Qc)
    (m : mf) (dt : dtype) (nao : nat) (mos : spin_pair (list matrix))
    (occs : spin_pair (list rvec)) (fock : spin_pair (list matrix)) :
  0 < nao ->
  Forall2 (fun mo occ => orbitals_ok nao mo occ = true) (fst mos) (fst occs) ->
  Forall2 (fun mo occ => orbitals_ok nao mo occ = true) (snd mos) (snd occs) ->
  canonicalize eigh uC uR m dt mos occs fock = canonicalize eigh uC' uR' m dt mos occs fock.
Proof.
  intros Hn Ha Hb.
  assert (Hch : forall (f mo : list matrix) (occ : list rvec),
            Forall2 (fun mo occ => orbitals_ok nao mo occ = true) mo occ ->
            canonicalize_channel eigh uC uR dt f mo occ
            = canonicalize_channel eigh uC' uR' dt f mo occ).
  { intros f mo occ Hok. pose proof (Forall2_length Hok) as L.
    unfold canonicalize_channel. apply mapM_ext_in. intros [k mk] Hin.
    destruct (In_enumerate_nth mo k mk [] Hin) as [Hk Hmk].
    assert (Hk' : k < length occ) by (rewrite <- L; exact Hk).
    apply (canonicalize_kpt_buffers uC uC' uR uR' dt nao f occ k mk (nth k occ [])).
    - exact Hn.
    - apply nth_error_nth'. exact Hk'.
    - rewrite <- Hmk. apply (Forall2_nth_both _ mo occ [] [] k Hok Hk). }
  unfold canonicalize, asarray_blocks, asarray_rows. cbv zeta.
  match goal with |- context [if ?b then Ok mos else _] => destruct b end;
    cbn [bind]; [|reflexivity].
  match goal with |- context [if ?b then Ok occs else _] => destruct b end;
    cbn [bind]; [|reflexivity].
  rewrite (Hch _ _ _ Ha), (Hch _ _ _ Hb). reflexivity.
Qed.

End CanonicalizeBuffers.

Lemma canonicalize_overwrites_buffers_witness :
  canonicalize eigh_diagonal (fun _ _ => C0) (fun _ => 0%Qc) ex_mf Complex128
    ([ex_unit_mo], [ex_unit_mo]) ([ex_occ], [ex_occ]) ([ex_fock], [ex_fock])
  = canonicalize eigh_diagonal (fun _ _ => Ci) (fun _ => 1%Qc) ex_mf Complex128
      ([ex_unit_mo], [ex_unit_mo]) ([ex_occ], [ex_occ]) ([ex_fock], [ex_fock]).
Proof.
  apply (canonicalize_overwrites_buffers eigh_diagonal (fun _ _ => C0) (fun _ _ => Ci)
           (fun _ => 0%Qc) (fun _ => 1%Qc) ex_mf Complex128 2
           ([ex_unit_mo], [ex_unit_mo]) ([ex_occ], [ex_occ]) ([ex_fock], [ex_fock])).
  - lia.
  - repeat constructor.
  - repeat constructor.
Defined.

(** ** Matrix products *)

Lemma mmul_assoc (n k l m : nat) (A B D : matrix) :
  0 < k -> 0 < l ->
  has_shape n k A = true -> has_shape k l B = true -> has_shape l m D = true ->
  mmul (mmul A B) D = mmul A (mmul B D).
Proof.
  intros Hk Hl HA HB HD.
  pose proof (has_shape_mmul n k l A B Hk HA HB) as HAB.
  pose proof (has_shape_mmul k l m B D Hl HB HD) as HBD.
  apply (matrix_ext n m).
  - apply (has_shape_mmul n l m); assumption.
  - apply (has_shape_mmul n k m); assumption.
  - intros i j Hi Hj. assert (Hn : 0 < n) by lia.
    rewrite (mget_mmul n l m) by assumption.
    rewrite (mget_mmul n k m) by assumption.
    rewrite (sum_n_ext l _ (fun b => sum_n k (fun a =>
               (mget A i a * mget B a b * mget D b j)%C))).
    2:{ intros b Hb. rewrite (mget_mmul n k l) by assumption.
        rewrite <- sum_n_mul_r. reflexivity. }
    rewrite sum_n_swap. apply sum_n_ext. intros a Ha.
    rewrite (mget_mmul k l m) by assumption.
    rewrite <- sum_n_mul_l. apply sum_n_ext. intros b Hb. ring.
Qed.

Lemma ctranspose_mmul (n k m : nat) (A B : matrix) :
  0 < n -> 0 < k ->
  has_shape n k A = true -> has_shape k m B = true ->
  ctranspose (mmul A B) = mmul (ctranspose B) (ctranspose A).
Proof.
  intros Hn Hk HA HB.
  pose proof (has_shape_mmul n k m A B Hk HA HB) as HAB.
  pose proof (has_shape_ctranspose _ _ _ HA Hn) as HAh.
  pose proof (has_shape_ctranspose _ _ _ HB Hk) as HBh.
  apply (matrix_ext m n).
  - apply has_shape_ctranspose; assumption.
  - apply (has_shape_mmul m k n); assumption.
  - intros j i Hj Hi. assert (Hm : 0 < m) by lia.
    rewrite (mget_ctranspose n m) by assumption.
    rewrite (mget_mmul n k m) by assumption.
    rewrite (mget_mmul m k n) by assumption.
    rewrite sum_n_conj. apply sum_n_ext. intros a Ha.
    rewrite (mget_ctranspose k m), (mget_ctranspose n k) by assumption.
    rewrite Cconj_mul. ring.
Qed.

(** [(orb c)^H F (orb c) = c^H (orb^H F orb) c]. *)
Lemma rotated_block (nao cnt : nat) (orb F c : matrix) :
  0 < nao -> 0 < cnt ->
  has_shape nao cnt orb = true -> has_shape nao nao F = true ->
  has_shape cnt cnt c = true ->
  mmul (mmul (ctranspose (mmul orb c)) F) (mmul orb c)
  = mmul (mmul (ctranspose c) (mmul (mmul (ctranspose orb) F) orb)) c.
Proof.
  intros Hn Hc Ho HF Hcs.
  pose proof (has_shape_ctranspose _ _ _ Ho Hn) as Hoh.
  pose proof (has_shape_ctranspose _ _ _ Hcs Hc) as Hch.
  pose proof (has_shape_mmul cnt nao nao _ _ Hn Hoh HF) as HoF.
  pose proof (has_shape_mmul cnt nao cnt _ _ Hn HoF Ho) as Hf1.
  pose proof (has_shape_mmul nao cnt cnt _ _ Hc Ho Hcs) as Hoc.
  rewrite (ctranspose_mmul nao cnt cnt orb c Hn Hc Ho Hcs).
  rewrite (mmul_assoc cnt cnt nao nao _ _ F Hc Hn Hch Hoh HF).
  rewrite (mmul_assoc cnt cnt nao cnt _ _ (mmul orb c) Hc Hn Hch HoF Hoc).
  rewrite <- (mmul_assoc cnt nao cnt cnt _ orb c Hn Hc HoF Ho Hcs).
  rewrite <- (mmul_assoc cnt cnt cnt cnt _ _ c Hc Hc Hch Hf1 Hcs).
  reflexivity.
Qed.

(** ** canonicalize: the Fock matrix in the new orbitals *)

Lemma mask_select_none {A} (idx : list bool) (l : list A) :
  count_nonzero idx = 0 -> mask_select idx l = [].
Proof.
  revert l. induction idx as [|b idx IH]; intros l H; [destruct l; reflexivity|].
  rewrite count_nonzero_cons in H. destruct b; [simpl in H; lia|].
  destruct l; [reflexivity|]. simpl. apply IH. simpl in H. exact H.
Qed.

Lemma negb_negb_mask (idx : list bool) : map negb (map negb idx) = idx.
Proof.
  rewrite map_map. rewrite <- (map_id idx) at 2. apply map_ext. apply negb_involutive.
Qed.

(** The block of a mask without entries is the empty matrix. *)
Lemma fock_block_empty (F mo : matrix) (idx : list bool) :
  count_nonzero idx = 0 -> fock_block F mo idx = [].
Proof.
  intro H. unfold fock_block.
  set (orb := map (mask_select idx) mo).
  assert (Hc : ncols orb = 0).
  { unfold ncols, orb. destruct mo as [|r mo]; [reflexivity|].
    cbn [map hd]. rewrite (mask_select_none idx r H). reflexivity. }
  assert (E : ctranspose orb = []).
  { unfold ctranspose, transpose. rewrite Hc. reflexivity. }
  rewrite E. reflexivity.
Qed.

(** The block depends on the selected columns only. *)
Lemma fock_block_ext (F mo mo' : matrix) (idx : list bool) :
  map (mask_select idx) mo = map (mask_select idx) mo' ->
  fock_block F mo idx = fock_block F mo' idx.
Proof. intro H. unfold fock_block. rewrite H. reflexivity. Qed.

Lemma select_assign_rows (idx : list bool) (cs X : matrix) (n m : nat) :
  has_shape n m cs = true -> has_shape n (count_nonzero idx) X = true ->
  length idx = m ->
  map (mask_select idx) (assign_rows idx cs X) = X.
Proof.
  intros Hcs HX Hi.
  pose proof (has_shape_nrows _ _ _ Hcs) as Lc. pose proof (has_shape_nrows _ _ _ HX) as LX.
  unfold nrows in Lc, LX.
  apply (nth_ext _ _ [] []).
  - unfold assign_rows. rewrite !length_map, length_combine. lia.
  - intros a Ha. unfold assign_rows in Ha.
    rewrite !length_map, length_combine in Ha.
    assert (Han : a < n) by lia.
    rewrite nth_select. rewrite (nth_assign_rows idx cs X n a Lc LX Han).
    apply mask_select_assign.
    + rewrite Hi. apply (has_shape_row n m cs a Hcs Han).
    + apply (has_shape_row n _ X a HX Han).
Qed.

Lemma select_neg_assign_rows (idx : list bool) (cs X : matrix) (n m k : nat) :
  has_shape n m cs = true -> has_shape n k X = true -> length idx = m ->
  map (mask_select (map negb idx)) (assign_rows idx cs X)
  = map (mask_select (map negb idx)) cs.
Proof.
  intros Hcs HX Hi.
  pose proof (has_shape_nrows _ _ _ Hcs) as Lc. pose proof (has_shape_nrows _ _ _ HX) as LX.
  unfold nrows in Lc, LX.
  apply (nth_ext _ _ [] []).
  - unfold assign_rows. rewrite !length_map, length_combine. lia.
  - intros a Ha. unfold assign_rows in Ha.
    rewrite !length_map, length_combine in Ha.
    assert (Han : a < n) by lia.
    rewrite !nth_select. rewrite (nth_assign_rows idx cs X n a Lc LX Han).
    apply mask_select_assign_neg'.
    rewrite Hi. apply (has_shape_row n m cs a Hcs Han).
Qed.

Lemma fock_block_shape (nao nmo : nat) (F mo : matrix) (idx : list bool) :
  0 < nao -> 0 < count_nonzero idx ->
  has_shape nao nmo mo = true -> has_shape nao nao F = true -> length idx = nmo ->
  has_shape (count_nonzero idx) (count_nonzero idx) (fock_block F mo idx) = true.
Proof.
  intros Hn Hc Hmo HF Hi. unfold fock_block.
  pose proof (has_shape_select nao nmo mo idx Hmo Hi) as Horb.
  pose proof (has_shape_ctranspose _ _ _ Horb Hn) as Hoh.
  apply (has_shape_mmul _ nao); [exact Hn| |exact Horb].
  apply (has_shape_mmul _ nao); assumption.
Qed.

Section CanonicalizeDiagonal.

Variable eigh : matrix -> rvec * matrix.
Variable uninit_C : nat -> nat -> C.
Variable uninit_R : nat -> Qc.

(** One call of [eig_]: the block of the mask becomes diagonal, with the
    new entries of [es] on the diagonal; outside the mask nothing changes. *)
Lemma eig_step (dt : dtype) (nao nmo : nat) (F mo : matrix) (idx : list bool)
    (es : rvec) (cs : matrix) :
  0 < nao ->
  has_shape nao nmo mo = true -> has_shape nao nao F = true ->
  length idx = nmo -> length es = nmo -> has_shape nao nmo cs = true ->
  fits dt mo = true ->
  (0 < count_nonzero idx ->
   diagonalised_by (fock_block F mo idx) (eigh (fock_block F mo idx))
   /\ fits dt (snd (eigh (fock_block F mo idx))) = true) ->
  exists es' cs',
    eig_ eigh dt F mo idx es cs = Ok (es', cs')
    /\ length es' = nmo /\ has_shape nao nmo cs' = true
    /\ fock_block F cs' idx = diag (mask_select idx es')
    /\ mask_select (map negb idx) es' = mask_select (map negb idx) es
    /\ map (mask_select (map negb idx)) cs' = map (mask_select (map negb idx)) cs.
Proof.
  intros Hn Hmo HF Hidx Hes Hcs Hfm Hd. unfold eig_.
  set (cnt := count_nonzero idx) in *.
  destruct (0 <? cnt) eqn:Ecnt.
  - apply Nat.ltb_lt in Ecnt. destruct (Hd Ecnt) as [Hd' Hfc]. clear Hd.
    rename Hd' into Hd.
    pose proof (fock_block_shape nao nmo F mo idx Hn Ecnt Hmo HF Hidx) as Hf1.
    fold cnt in Hf1. unfold fock_block, ctranspose in Hd, Hf1, Hfc.
    unfold select_cols. rewrite (has_shape_ncols _ _ _ Hmo Hn), Hidx, Nat.eqb_refl.
    cbn [bind]. set (orb := map (mask_select idx) mo) in *.
    pose proof (has_shape_select nao nmo mo idx Hmo Hidx) as Horb. fold cnt orb in Horb.
    pose proof (has_shape_ctranspose _ _ _ Horb Hn) as Hoh. unfold ctranspose in Hoh.
    unfold np_dot at 1.
    rewrite (has_shape_ncols _ _ _ Hoh Ecnt), (has_shape_nrows _ _ _ HF), Nat.eqb_refl.
    cbn [bind].
    pose proof (has_shape_mmul cnt nao nao _ _ Hn Hoh HF) as Ht.
    unfold np_dot at 1.
    rewrite (has_shape_ncols _ _ _ Ht Ecnt), (has_shape_nrows _ _ _ Horb), Nat.eqb_refl.
    cbn [bind].
    set (f1 := mmul (mmul (conj (transpose orb)) F) orb) in *.
    destruct Hd as [He [Hc Hdiag]]. rewrite (has_shape_nrows _ _ _ Hf1) in He, Hc.
    destruct (eigh f1) as [e c]. cbn [fst snd] in He, Hc, Hdiag, Hfc.
    unfold assign_mask. rewrite Hidx, Hes, Nat.eqb_refl. cbn [negb].
    fold cnt. rewrite He, Nat.eqb_refl. cbn [bind].
    unfold np_dot. rewrite (has_shape_ncols _ _ _ Horb Hn), (has_shape_nrows _ _ _ Hc).
    rewrite Nat.eqb_refl. cbn [bind].
    pose proof (has_shape_mmul nao cnt cnt _ _ Ecnt Horb Hc) as HX.
    unfold assign_cols.
    rewrite (has_shape_ncols _ _ _ Hcs Hn), Hidx, Nat.eqb_refl. cbn [negb].
    rewrite (has_shape_nrows _ _ _ Hcs). fold cnt. rewrite HX. cbn [bind].
    assert (Ex : astype dt (mmul orb c) = mmul orb c)
      by (apply (rotated_fits dt mo c idx Hfm Hfc)).
    rewrite Ex.
    fold (assign_rows idx cs (mmul orb c)).
    exists (mask_assign idx es e), (assign_rows idx cs (mmul orb c)).
    split; [reflexivity|]. split; [rewrite mask_assign_length; exact Hes|].
    split; [apply (has_shape_assign_rows idx cs _ nao nmo cnt Hcs HX)|].
    split; [|split].
    + unfold fock_block.
      rewrite (select_assign_rows idx cs (mmul orb c) nao nmo Hcs HX Hidx).
      rewrite (mask_select_assign idx es e) by (try rewrite Hes, Hidx; auto).
      rewrite (rotated_block nao cnt orb F c Hn Ecnt Horb HF Hc). exact Hdiag.
    + apply mask_select_assign_neg'. rewrite Hes, Hidx. reflexivity.
    + apply (select_neg_assign_rows idx cs _ nao nmo cnt Hcs HX Hidx).
  - apply Nat.ltb_ge in Ecnt. assert (E0 : cnt = 0) by lia.
    exists es, cs. split; [reflexivity|]. split; [exact Hes|]. split; [exact Hcs|].
    split; [|split; reflexivity].
    rewrite (fock_block_empty F cs idx E0), (mask_select_none idx es E0). reflexivity.
Qed.

Lemma canonicalize_kpt_diagonal (dt : dtype) (nao : nat) (fock : list matrix)
    (occs : list rvec) (k : nat) (mo F : matrix) (occ : rvec) :
  0 < nao -> orbitals_ok nao mo occ = true ->
  nth_error occs k = Some occ -> nth_error fock k = Some F ->
  has_shape nao nao F = true ->
  fits dt mo = true ->
  (forall idx, idx = occupied_mask occ \/ idx = map negb (occupied_mask occ) ->
     0 < count_nonzero idx ->
     diagonalised_by (fock_block F mo idx) (eigh (fock_block F mo idx))
     /\ fits dt (snd (eigh (fock_block F mo idx))) = true) ->
  exists e' mo',
    canonicalize_kpt eigh uninit_C uninit_R dt fock occs k mo = Ok (e', mo')
    /\ length e' = length occ /\ has_shape nao (length occ) mo' = true
    /\ forall idx, idx = occupied_mask occ \/ idx = map negb (occupied_mask occ) ->
         fock_block F mo' idx = diag (mask_select idx e').
Proof.
  intros Hn Hok Hocc HFk HF Hfm Hd.
  unfold orbitals_ok in Hok. apply andb_true_iff in Hok.
  destruct Hok as [Hmo Hnmo]. set (nmo := length occ) in *.
  unfold canonicalize_kpt, py_nth. rewrite Hocc, HFk. cbn [bind].
  fold (occupied_mask occ).
  set (occidx := occupied_mask occ) in *.
  set (viridx := map negb occidx) in *.
  set (mo1 := empty_like_matrix uninit_C dt mo).
  set (me := empty_like_rvec uninit_R occ).
  assert (Lo : length occidx = nmo) by (unfold occidx, occupied_mask; apply length_map).
  assert (Lv : length viridx = nmo) by (unfold viridx; rewrite length_map; exact Lo).
  assert (Hmo1 : has_shape nao nmo mo1 = true).
  { unfold mo1, empty_like_matrix.
    rewrite (has_shape_nrows _ _ _ Hmo), (has_shape_ncols _ _ _ Hmo Hn).
    apply has_shape_mk. }
  assert (Lme : length me = nmo)
    by (unfold me, empty_like_rvec; rewrite length_map, length_seq; reflexivity).
  destruct (eig_step dt nao nmo F mo occidx me mo1 Hn Hmo HF Lo Lme Hmo1 Hfm
              (Hd occidx (or_introl eq_refl)))
    as [es1 [cs1 [E1 [L1 [Hcs1 [D1 _]]]]]].
  rewrite E1. cbn [bind].
  destruct (eig_step dt nao nmo F mo viridx es1 cs1 Hn Hmo HF Lv L1 Hcs1 Hfm
              (Hd viridx (or_intror eq_refl)))
    as [es2 [cs2 [E2 [L2 [Hcs2 [D2 [K2 S2]]]]]]].
  rewrite E2. cbn [bind].
  exists es2, cs2. split; [reflexivity|]. split; [exact L2|]. split; [exact Hcs2|].
  intros idx [-> | ->].
  - unfold viridx in K2, S2. rewrite negb_negb_mask in K2, S2.
    rewrite (fock_block_ext F cs2 cs1 occidx S2), K2. exact D1.
  - exact D2.
Qed.

(** When the eigensolver diagonalises the blocks it is given and what is
    stored fits the dtype of the orbital array (complex128, or float64
    with real orbitals and real eigenvectors), the Fock matrix is diagonal
    in the occupied and in the virtual orbitals [canonicalize] returns,
    with the returned orbital energies of those orbitals on the diagonal. *)
Theorem canonicalize_diagonalises_blocks (m : mf) (dt : dtype) (nkpts nao nmo : nat)
    (mos : spin_pair (list matrix)) (occs : spin_pair (list rvec))
    (fock : spin_pair (list matrix)) :
  0 < nao ->
  orbital_arrays_ok nkpts nao nmo mos occs = true ->
  (forall s, has_shape3 nkpts nao nao (channel s fock) = true) ->
  (forall s k, k < nkpts -> fits dt (nth k (channel s mos) []) = true) ->
  (forall s k idx, k < nkpts ->
     idx = occupied_mask (nth k (channel s occs) [])
     \/ idx = map negb (occupied_mask (nth k (channel s occs) [])) ->
     0 < count_nonzero idx ->
     diagonalised_by
       (fock_block (nth k (channel s fock) []) (nth k (channel s mos) []) idx)
       (eigh (fock_block (nth k (channel s fock) []) (nth k (channel s mos) []) idx))
     /\ fits dt (snd (eigh (fock_block (nth k (channel s fock) [])
                              (nth k (channel s mos) []) idx))) = true) ->
  exists mo_energy mo_coeff,
    canonicalize eigh uninit_C uninit_R m dt mos occs fock = Ok (mo_energy, mo_coeff)
    /\ forall s k idx, k < nkpts ->
         idx = occupied_mask (nth k (channel s occs) [])
         \/ idx = map negb (occupied_mask (nth k (channel s occs) [])) ->
         fock_block (nth k (channel s fock) []) (nth k (channel s mo_coeff) []) idx
         = diag (mask_select idx (nth k (channel s mo_energy) [])).
Proof.
  intros Hn Harr HF Hfm Hd.
  destruct (asarray_ok nkpts nao nmo mos occs Hn Harr) as [Amo Aocc].
  assert (Hch : forall s, exists res,
            canonicalize_channel eigh uninit_C uninit_R dt (channel s fock)
              (channel s mos) (channel s occs) = Ok res
            /\ length res = nkpts
            /\ forall k d, k < nkpts ->
                 forall idx,
                   idx = occupied_mask (nth k (channel s occs) [])
                   \/ idx = map negb (occupied_mask (nth k (channel s occs) [])) ->
                   fock_block (nth k (channel s fock) []) (snd (nth k res d)) idx
                   = diag (mask_select idx (fst (nth k res d)))).
  { intro s. specialize (HF s).
    destruct (orbital_arrays_channel nkpts nao nmo mos occs s Harr) as [Lm [Lo [_ Hok]]].
    apply has_shape3_iff in HF. destruct HF as [LF HFs]. rewrite Forall_forall in HFs.
    set (P := fun (k : nat) (r : rvec * matrix) =>
                forall idx,
                  idx = occupied_mask (nth k (channel s occs) [])
                  \/ idx = map negb (occupied_mask (nth k (channel s occs) [])) ->
                  fock_block (nth k (channel s fock) []) (snd r) idx
                  = diag (mask_select idx (fst r))).
    destruct (mapM_enumerate_from
                (canonicalize_kpt eigh uninit_C uninit_R dt (channel s fock)
                   (channel s occs))
                P (channel s mos) 0) as [res [Eres [Lres Pres]]].
    { intros k mo Hk. cbn [Nat.add].
      assert (Hklt : k < length (channel s mos)) by (apply nth_error_Some; congruence).
      assert (Hkn : k < nkpts) by (rewrite <- Lm; exact Hklt).
      assert (Emo : nth k (channel s mos) [] = mo) by (apply nth_error_nth; exact Hk).
      destruct (canonicalize_kpt_diagonal dt nao (channel s fock) (channel s occs) k mo
                  (nth k (channel s fock) []) (nth k (channel s occs) []))
        as [e' [mo' [E [_ [_ HD]]]]].
      - exact Hn.
      - rewrite <- Emo. apply (Forall2_nth_both _ _ _ [] [] k Hok Hklt).
      - apply nth_error_nth'. rewrite Lo. exact Hkn.
      - apply nth_error_nth'. rewrite LF. exact Hkn.
      - apply HFs. apply nth_In. rewrite LF. exact Hkn.
      - rewrite <- Emo. apply (Hfm s k Hkn).
      - intros idx Hidx Hc. rewrite <- Emo. apply (Hd s k idx Hkn Hidx Hc).
      - exists (e', mo'). split; [exact E|]. exact HD. }
    exists res. split; [exact Eres|]. split; [rewrite Lres; exact Lm|].
    intros k d Hk. apply (Pres k d). rewrite Lm. exact Hk. }
  destruct (Hch Alpha) as [ra [Era [Lra Pa]]].
  destruct (Hch Beta) as [rb [Erb [Lrb Pb]]].
  cbn [channel] in Era, Erb.
  exists (map fst ra, map fst rb), (map snd ra, map snd rb).
  split; [unfold canonicalize; rewrite Amo, Aocc; cbn [bind]; rewrite Era, Erb;
          reflexivity|].
  intros s k idx Hk Hidx.
  assert (Hf : forall r : list (rvec * matrix),
            nth k (map fst r) [] = fst (nth k r ([], [])))
    by (intro r; exact (map_nth fst r ([], []) k)).
  assert (Hs : forall r : list (rvec * matrix),
            nth k (map snd r) [] = snd (nth k r ([], [])))
    by (intro r; exact (map_nth snd r ([], []) k)).
  destruct s; cbn [channel fst snd] in *; rewrite Hf, Hs.
  - apply Pa; assumption.
  - apply Pb; assumption.
Qed.

End CanonicalizeDiagonal.

Lemma canonicalize_diagonalises_blocks_witness :
  exists mo_energy mo_coeff,
    canonicalize eigh_diagonal (fun _ _ => C0) (fun _ => 0%Qc) ex_mf Float64
      ([ex_unit_mo], [ex_unit_mo]) ([ex_occ], [ex_occ]) ([ex_fock], [ex_fock])
    = Ok (mo_energy, mo_coeff)
    /\ forall s k idx, k < 1 ->
         idx = occupied_mask (nth k (channel s ([ex_occ], [ex_occ])) [])
         \/ idx = map negb (occupied_mask (nth k (channel s ([ex_occ], [ex_occ])) [])) ->
         fock_block (nth k (channel s ([ex_fock], [ex_fock])) [])
           (nth k (channel s mo_coeff) []) idx
         = diag (mask_select idx (nth k (channel s mo_energy) [])).
Proof.
  apply (canonicalize_diagonalises_blocks eigh_diagonal (fun _ _ => C0) (fun _ => 0%Qc)
           ex_mf Float64 1 2 2
           ([ex_unit_mo], [ex_unit_mo]) ([ex_occ], [ex_occ]) ([ex_fock], [ex_fock])).
  - lia.
  - reflexivity.
  - intros [|]; reflexivity.
  - intros s k Hk. assert (k = 0) by lia. subst k. destruct s; reflexivity.
  - intros s k idx Hk Hidx _. assert (k = 0) by lia. subst k.
    destruct s, Hidx as [-> | ->]; (split; [unfold diagonalised_by|]); vm_compute;
      repeat split; reflexivity.
Defined.

(** ** KUHF.get_grad *)

(** *** Masks and positions *)

Lemma positions_from_length (i : nat) (mask : list bool) :
  length (positions_from i mask) = count_nonzero mask.
Proof.
  revert i. induction mask as [|b mask IH]; intro i; [reflexivity|].
  rewrite count_nonzero_cons. destruct b; simpl; rewrite IH; reflexivity.
Qed.

Lemma positions_from_spec (i : nat) (mask : list bool) (p : nat) :
  In p (positions_from i mask)
  <-> i <= p /\ p - i < length mask /\ nth (p - i) mask false = true.
Proof.
  revert i. induction mask as [|b mask IH]; intro i; simpl.
  - split; [tauto|lia].
  - assert (Hrec : In p (positions_from (S i) mask)
                   <-> i < p /\ p - i < S (length mask)
                       /\ nth (p - i) (b :: mask) false = true).
    { rewrite IH. split.
      - intros [H1 [H2 H3]]. replace (p - i) with (S (p - S i)) by lia.
        repeat split; [lia|lia|exact H3].
      - intros [H1 [H2 H3]]. replace (p - i) with (S (p - S i)) in H3 by lia.
        repeat split; [lia|lia|exact H3]. }
    destruct b.
    + simpl. rewrite Hrec. split.
      * intros [<-|[H1 [H2 H3]]].
        -- rewrite Nat.sub_diag. repeat split; [lia|lia].
        -- repeat split; [lia|lia|exact H3].
      * intros [H1 [H2 H3]]. destruct (Nat.eq_dec i p) as [E|E]; [left; exact E|].
        right. repeat split; [lia|lia|exact H3].
    + rewrite Hrec. split.
      * intros [H1 [H2 H3]]. repeat split; [lia|lia|exact H3].
      * intros [H1 [H2 H3]]. destruct (Nat.eq_dec i p) as [E|E].
        -- subst. rewrite Nat.sub_diag in H3. discriminate.
        -- repeat split; [lia|lia|exact H3].
Qed.

Lemma positions_spec (mask : list bool) (p : nat) :
  In p (positions mask) <-> p < length mask /\ nth p mask false = true.
Proof.
  unfold positions. rewrite positions_from_spec, Nat.sub_0_r. split.
  - intros [_ H]. exact H.
  - intro H. split; [lia|exact H].
Qed.

(** The entry of rank [a] of a selection is the entry at the position of
    rank [a] of the mask. *)
Lemma nth_mask_select_from {A} (i : nat) (mask : list bool) (l : list A) (a : nat) (d : A) :
  length l = length mask -> a < count_nonzero mask ->
  nth a (mask_select mask l) d = nth (nth a (positions_from i mask) 0 - i) l d.
Proof.
  revert i l a. induction mask as [|b mask IH]; intros i [|x l] a Hl Ha; simpl in Hl;
    try lia; try (unfold count_nonzero in Ha; simpl in Ha; lia).
  rewrite count_nonzero_cons in Ha. cbn [mask_select positions_from]. destruct b.
  - destruct a as [|a]; cbn [nth].
    + rewrite Nat.sub_diag. reflexivity.
    + rewrite (IH (S i) l a) by (simpl in Ha; lia).
      assert (Hin : In (nth a (positions_from (S i) mask) 0) (positions_from (S i) mask))
        by (apply nth_In; rewrite positions_from_length; simpl in Ha; lia).
      apply positions_from_spec in Hin. destruct Hin as [H1 _].
      replace (nth a (positions_from (S i) mask) 0 - i)
        with (S (nth a (positions_from (S i) mask) 0 - S i)) by lia.
      reflexivity.
  - rewrite (IH (S i) l a) by (simpl in Ha; lia).
    assert (Hin : In (nth a (positions_from (S i) mask) 0) (positions_from (S i) mask))
      by (apply nth_In; rewrite positions_from_length; simpl in Ha; lia).
    apply positions_from_spec in Hin. destruct Hin as [H1 _].
    replace (nth a (positions_from (S i) mask) 0 - i)
      with (S (nth a (positions_from (S i) mask) 0 - S i)) by lia.
    reflexivity.
Qed.

Lemma nth_mask_select {A} (mask : list bool) (l : list A) (a : nat) (d : A) :
  length l = length mask -> a < count_nonzero mask ->
  nth a (mask_select mask l) d = nth (nth a (positions mask) 0) l d.
Proof.
  intros Hl Ha. rewrite (nth_mask_select_from 0 mask l a d Hl Ha).
  rewrite Nat.sub_0_r. reflexivity.
Qed.

Lemma nth_positions (mask : list bool) (a : nat) :
  a < count_nonzero mask ->
  nth a (positions mask) 0 < length mask
  /\ nth (nth a (positions mask) 0) mask false = true.
Proof.
  intro Ha. apply positions_spec. apply nth_In.
  unfold positions. rewrite positions_from_length. exact Ha.
Qed.

Lemma mget_select (nao nmo : nat) (mo : matrix) (idx : list bool) (p a : nat) :
  has_shape nao nmo mo = true -> length idx = nmo -> p < nao ->
  a < count_nonzero idx ->
  mget (map (mask_select idx) mo) p a = mget mo p (nth a (positions idx) 0).
Proof.
  intros Hmo Hi Hp Ha. unfold mget. rewrite nth_select.
  apply nth_mask_select; [|exact Ha].
  rewrite Hi. apply (has_shape_row nao nmo mo p Hmo Hp).
Qed.

(** *** Products of three matrices *)

Lemma mget_dot3 (nao p q : nat) (L F R : matrix) (a b : nat) :
  0 < nao ->
  has_shape nao p L = true -> has_shape nao nao F = true -> has_shape nao q R = true ->
  a < p -> b < q ->
  mget (mmul (mmul (conj (transpose L)) F) R) a b
  = sum_n nao (fun y => sum_n nao (fun x =>
      (Cconj (mget L x a) * mget F x y * mget R y b)%C)).
Proof.
  intros Hn HL HF HR Ha Hb. assert (Hp : 0 < p) by lia.
  pose proof (has_shape_ctranspose _ _ _ HL Hn) as HLh. unfold ctranspose in HLh.
  pose proof (has_shape_mmul p nao nao _ _ Hn HLh HF) as Ht.
  rewrite (mget_mmul p nao q) by assumption.
  apply sum_n_ext. intros y Hy.
  rewrite (mget_mmul p nao nao) by assumption.
  rewrite <- sum_n_mul_r. apply sum_n_ext. intros x Hx.
  fold (ctranspose L). rewrite (mget_ctranspose nao p) by assumption. reflexivity.
Qed.

Lemma dot3_shape (nao p q : nat) (L F R : matrix) :
  0 < nao ->
  has_shape nao p L = true -> has_shape nao q R = true ->
  has_shape p q (mmul (mmul (conj (transpose L)) F) R) = true.
Proof.
  intros Hn HL HR.
  assert (E : nrows (mmul (conj (transpose L)) F) = p).
  { unfold mmul. rewrite nrows_mk. unfold nrows, conj. rewrite length_map.
    unfold transpose. rewrite mk_matrix_length. apply (has_shape_ncols _ _ _ HL Hn). }
  unfold mmul at 1. rewrite E, (has_shape_ncols _ _ _ HR Hn). apply has_shape_mk.
Qed.

Lemma concat_length_shape (n m : nat) (A : matrix) :
  has_shape n m A = true -> length (concat A) = n * m.
Proof.
  intro H. apply has_shape_iff in H. destruct H as [H1 H2]. subst n.
  induction A as [|r A IH]; [reflexivity|].
  inversion H2; subst. simpl. rewrite length_app, IH by assumption. reflexivity.
Qed.

(** *** One k-point *)

(** The gradient of one k-point is the virtual-occupied block of the Fock
    matrix in the orbital basis, row by row. *)
Lemma grad_eval (nao : nat) (mo : matrix) (occ : rvec) (F : matrix) :
  0 < nao -> orbitals_ok nao mo occ = true -> has_shape nao nao F = true ->
  let occidx := positive_mask occ in
  let viridx := map negb occidx in
  grad mo occ F = Ok (ravel (ov_block F mo occ))
  /\ has_shape (count_nonzero viridx) (count_nonzero occidx) (ov_block F mo occ) = true
  /\ forall a b, a < count_nonzero viridx -> b < count_nonzero occidx ->
       mget (ov_block F mo occ) a b
       = mget (fock_mo F mo) (nth a (positions viridx) 0) (nth b (positions occidx) 0).
Proof.
  intros Hn Hok HF occidx viridx.
  unfold orbitals_ok in Hok. apply andb_true_iff in Hok. destruct Hok as [Hmo Hm].
  apply Nat.ltb_lt in Hm. set (nmo := length occ) in *.
  assert (Lo : length occidx = nmo) by (unfold occidx, positive_mask; apply length_map).
  assert (Lv : length viridx = nmo) by (unfold viridx; rewrite length_map; exact Lo).
  pose proof (has_shape_select nao nmo mo viridx Hmo Lv) as Hv.
  pose proof (has_shape_select nao nmo mo occidx Hmo Lo) as Ho.
  unfold ov_block. fold occidx viridx. split; [|split].
  - unfold grad. fold (positive_mask occ). fold occidx viridx.
    unfold select_cols. rewrite (has_shape_ncols _ _ _ Hmo Hn), Lv, Lo, Nat.eqb_refl.
    cbn [bind]. unfold dot3_ctrans.
    rewrite (has_shape_nrows _ _ _ Hv), (has_shape_nrows _ _ _ HF), Nat.eqb_refl.
    rewrite (has_shape_ncols _ _ _ HF Hn), (has_shape_nrows _ _ _ Ho), Nat.eqb_refl.
    reflexivity.
  - apply (dot3_shape nao); assumption.
  - intros a b Ha Hb.
    rewrite (mget_dot3 nao _ _ _ F _ a b Hn Hv HF Ho Ha Hb).
    destruct (nth_positions viridx a Ha) as [Pa _].
    destruct (nth_positions occidx b Hb) as [Pb _].
    rewrite Lv in Pa. rewrite Lo in Pb.
    unfold fock_mo, ctranspose.
    rewrite (mget_dot3 nao nmo nmo mo F mo _ _ Hn Hmo HF Hmo Pa Pb).
    apply sum_n_ext. intros y Hy. apply sum_n_ext. intros x Hx.
    rewrite (mget_select nao nmo mo viridx x a Hmo Lv Hx Ha).
    rewrite (mget_select nao nmo mo occidx y b Hmo Lo Hy Hb).
    reflexivity.
Qed.

Lemma Forall_matrix (P : C -> Prop) (n m : nat) (g : matrix) :
  has_shape n m g = true ->
  (Forall P (concat g) <-> forall a b, a < n -> b < m -> P (mget g a b)).
Proof.
  intro H. pose proof H as H0. apply has_shape_iff in H. destruct H as [H1 H2].
  rewrite Forall_concat. split.
  - intros HF a b Ha Hb. rewrite Forall_forall in HF.
    assert (Hr : In (nth a g []) g) by (apply nth_In; lia).
    specialize (HF _ Hr). rewrite Forall_forall in HF. apply HF.
    apply nth_In. rewrite (has_shape_row n m g a H0 Ha). exact Hb.
  - intro Hab. apply Forall_forall. intros r Hr. apply Forall_forall. intros z Hz.
    apply (In_nth _ _ []) in Hr. destruct Hr as [a [Ha <-]].
    apply (In_nth _ _ C0) in Hz. destruct Hz as [b [Hb <-]].
    rewrite H1 in Ha. rewrite (has_shape_row n m g a H0 Ha) in Hb.
    apply Hab; assumption.
Qed.

Lemma nth_negb_false (idx : list bool) (p : nat) :
  p < length idx -> nth p (map negb idx) false = negb (nth p idx false).
Proof.
  revert p. induction idx as [|b idx IH]; intros p Hp; simpl in Hp; [lia|].
  destruct p; [reflexivity|]. simpl. apply IH. lia.
Qed.

(** The gradient of one k-point vanishes exactly when the Fock matrix in
    the orbital basis has no entry between a virtual and an occupied
    orbital. *)
Lemma grad_zero_iff (nao : nat) (mo : matrix) (occ : rvec) (F : matrix) :
  0 < nao -> orbitals_ok nao mo occ = true -> has_shape nao nao F = true ->
  (Forall (fun z => z = C0) (ravel (ov_block F mo occ))
   <-> forall p q, p < length occ -> q < length occ ->
         nth p (positive_mask occ) false = false ->
         nth q (positive_mask occ) false = true ->
         mget (fock_mo F mo) p q = C0).
Proof.
  intros Hn Hok HF.
  destruct (grad_eval nao mo occ F Hn Hok HF) as [_ [Hs He]].
  set (occidx := positive_mask occ) in *. set (viridx := map negb occidx) in *.
  assert (Lo : length occidx = length occ)
    by (unfold occidx, positive_mask; apply length_map).
  unfold ravel. rewrite (Forall_matrix _ _ _ _ Hs). split.
  - intros H p q Hp Hq Hpv Hqo.
    assert (Pv : In p (positions viridx)).
    { apply positions_spec. unfold viridx. rewrite length_map, Lo. split; [exact Hp|].
      rewrite nth_negb_false by (rewrite Lo; exact Hp). rewrite Hpv. reflexivity. }
    assert (Po : In q (positions occidx)).
    { apply positions_spec. rewrite Lo. split; assumption. }
    apply (In_nth _ _ 0) in Pv. destruct Pv as [a [Ha Ea]].
    apply (In_nth _ _ 0) in Po. destruct Po as [b [Hb Eb]].
    unfold positions in Ha, Hb. rewrite positions_from_length in Ha, Hb.
    rewrite <- Ea, <- Eb, <- (He a b Ha Hb). apply H; assumption.
  - intros H a b Ha Hb. rewrite (He a b Ha Hb).
    destruct (nth_positions viridx a Ha) as [Pa Pa'].
    destruct (nth_positions occidx b Hb) as [Pb Pb'].
    unfold viridx in Pa. rewrite length_map, Lo in Pa. rewrite Lo in Pb.
    apply H; try assumption.
    unfold viridx in Pa'. rewrite nth_negb_false in Pa' by (rewrite Lo; exact Pa).
    apply negb_true_iff in Pa'. exact Pa'.
Qed.

(** *** One spin channel *)

Lemma grad_channel_eval (nao nkpts : nat) (mos : list matrix) (occs : list rvec)
    (fock : list matrix) :
  0 < nao -> length occs = nkpts ->
  Forall2 (fun mo occ => orbitals_ok nao mo occ = true) mos occs ->
  has_shape3 nkpts nao nao fock = true ->
  grad_channel nkpts mos occs fock
  = Ok (map (fun k => ravel (ov_block (nth k fock []) (nth k mos []) (nth k occs [])))
            (seq 0 nkpts)).
Proof.
  intros Hn Lo Hok HF. pose proof (Forall2_length Hok) as Lm.
  unfold grad_channel. apply mapM_ok_map. intros k Hk. apply in_seq in Hk.
  assert (Hk1 : k < length mos) by (rewrite Lm, Lo; lia).
  assert (Hk2 : k < length occs) by (rewrite Lo; lia).
  assert (Hk3 : k < length fock)
    by (rewrite (proj1 (proj1 (has_shape3_iff _ _ _ _) HF)); lia).
  rewrite (py_nth_ok mos k [] Hk1). cbn [bind].
  rewrite (py_nth_ok occs k [] Hk2). cbn [bind].
  rewrite (py_nth_ok fock k [] Hk3). cbn [bind].
  apply (grad_eval nao).
  - exact Hn.
  - apply (Forall2_nth_both _ mos occs [] [] k Hok Hk1).
  - apply (has_shape3_nth nkpts); [exact HF|lia].
Qed.

Lemma grad_channel_length (nao nkpts : nat) (mos : list matrix) (occs : list rvec)
    (fock : list matrix) :
  0 < nao -> length occs = nkpts ->
  Forall2 (fun mo occ => orbitals_ok nao mo occ = true) mos occs ->
  has_shape3 nkpts nao nao fock = true ->
  length (concat (map (fun k => ravel (ov_block (nth k fock []) (nth k mos [])
                                         (nth k occs [])))
                      (seq 0 nkpts)))
  = grad_size occs.
Proof.
  intros Hn Lo Hok HF. subst nkpts. unfold grad_size.
  assert (Hgen : forall (f : nat -> list C) (h : rvec -> nat) (l : list rvec) (i : nat),
            (forall k, k < length l -> length (f (i + k)) = h (nth k l [])) ->
            length (concat (map f (seq i (length l)))) = fold_right Nat.add 0 (map h l)).
  { intros f h l. induction l as [|o l IH]; intros i H; [reflexivity|].
    cbn [length seq map concat fold_right]. rewrite length_app.
    pose proof (H 0 ltac:(simpl; lia)) as H0. rewrite Nat.add_0_r in H0.
    cbn [nth] in H0. rewrite H0. f_equal. apply IH. intros k Hk.
    rewrite Nat.add_succ_comm. apply (H (S k)). simpl. lia. }
  apply Hgen. intros k Hk. cbn [Nat.add].
  pose proof (Forall2_length Hok) as Lm.
  assert (Hokk : orbitals_ok nao (nth k mos []) (nth k occs []) = true).
  { apply (Forall2_nth_both _ mos occs [] [] k Hok). rewrite Lm. exact Hk. }
  destruct (grad_eval nao _ _ (nth k fock []) Hn Hokk
              (has_shape3_nth _ _ _ _ k HF Hk)) as [_ [Hs _]].
  unfold ravel. apply (concat_length_shape _ _ _ Hs).
Qed.

Lemma Forall_concat_seq (P : C -> Prop) (f : nat -> list C) (n : nat) :
  Forall P (concat (map f (seq 0 n))) <-> forall k, k < n -> Forall P (f k).
Proof.
  rewrite Forall_concat, Forall_map, Forall_forall. split.
  - intros H k Hk. apply H. apply in_seq. lia.
  - intros H k Hk. apply in_seq in Hk. apply H. lia.
Qed.

Section GetGradProps.

Variable get_hcore : mf -> cell -> list kvec -> list matrix.
Variable get_jk :
  mf -> option cell -> option (spin_pair (list matrix)) -> Z ->
  option (list kvec) -> option (list kvec) ->
  spin_pair (list matrix) * spin_pair (list matrix).

(** For orbitals of shape (nao, nmo) and a Fock matrix of shape
    (2, nkpts, nao, nao), [get_grad] returns a vector with
    nvir * nocc entries per spin and k-point, and this vector is zero
    exactly when the Fock matrix in the orbital basis couples no virtual
    orbital to an occupied one, at any k-point of either spin. *)
Theorem get_grad_zero_iff_brillouin (self : mf) (nao : nat)
    (mos : spin_pair (list matrix)) (occs : spin_pair (list rvec))
    (fock : spin_pair (list matrix)) :
  0 < nao -> 0 < length (mf_kpts self) ->
  (forall s, length (channel s occs) = length (mf_kpts self)) ->
  (forall s, Forall2 (fun mo occ => orbitals_ok nao mo occ = true)
               (channel s mos) (channel s occs)) ->
  (forall s, has_shape3 (length (mf_kpts self)) nao nao (channel s fock) = true) ->
  exists g,
    get_grad get_hcore get_jk self mos occs (Some fock) = Ok g
    /\ length g = grad_size (fst occs) + grad_size (snd occs)
    /\ (Forall (fun z => z = C0) g
        <-> forall s, brillouin (channel s fock) (channel s mos) (channel s occs)).
Proof.
  intros Hn Hk Lo Hok HF.
  set (nkpts := length (mf_kpts self)) in *.
  unfold get_grad. cbn [bind]. fold nkpts.
  pose proof (grad_channel_eval nao nkpts _ _ _ Hn (Lo Alpha) (Hok Alpha) (HF Alpha)) as Ea.
  pose proof (grad_channel_eval nao nkpts _ _ _ Hn (Lo Beta) (Hok Beta) (HF Beta)) as Eb.
  cbn [channel] in Ea, Eb. rewrite Ea. cbn [bind]. rewrite Eb. cbn [bind].
  clear Ea Eb.
  set (ga := map _ (seq 0 nkpts)). set (gb := map _ (seq 0 nkpts)).
  assert (Hne : ga ++ gb <> []).
  { unfold ga. destruct nkpts; [lia|]. discriminate. }
  assert (E : np_hstack_complex (ga ++ gb) = Ok (concat (ga ++ gb)))
    by (unfold np_hstack_complex; destruct (ga ++ gb); [congruence|reflexivity]).
  rewrite E. eexists. split; [reflexivity|]. rewrite concat_app. split.
  - rewrite length_app. unfold ga, gb.
    pose proof (grad_channel_length nao nkpts _ _ _ Hn (Lo Alpha) (Hok Alpha) (HF Alpha))
      as Ga.
    pose proof (grad_channel_length nao nkpts _ _ _ Hn (Lo Beta) (Hok Beta) (HF Beta))
      as Gb.
    cbn [channel] in Ga, Gb. rewrite Ga, Gb. reflexivity.
  - rewrite Forall_app. unfold ga, gb. rewrite !Forall_concat_seq.
    assert (Hone : forall s,
              (forall k, k < nkpts ->
                 Forall (fun z => z = C0)
                   (ravel (ov_block (nth k (channel s fock) []) (nth k (channel s mos) [])
                             (nth k (channel s occs) []))))
              <-> brillouin (channel s fock) (channel s mos) (channel s occs)).
    { intro s. unfold brillouin. rewrite (Lo s).
      assert (Hkk : forall k, k < nkpts ->
                orbitals_ok nao (nth k (channel s mos) []) (nth k (channel s occs) []) = true).
      { intros k Hklt. apply (Forall2_nth_both _ _ _ [] [] k (Hok s)).
        pose proof (Forall2_length (Hok s)) as Lm. pose proof (Lo s) as Ls.
        unfold matrix, rvec in *. lia. }
      split.
      - intros H k p q Hklt. 
        apply (proj1 (grad_zero_iff nao _ _ _ Hn (Hkk k Hklt)
                        (has_shape3_nth _ _ _ _ k (HF s) Hklt)) (H k Hklt)).
      - intros H k Hklt.
        apply (proj2 (grad_zero_iff nao _ _ _ Hn (Hkk k Hklt)
                        (has_shape3_nth _ _ _ _ k (HF s) Hklt))).
        intros p q. apply (H k p q Hklt). }
    split.
    + intros [Ha Hb] s. destruct s; [apply (Hone Alpha)|apply (Hone Beta)]; assumption.
    + intro H. split; [apply (Hone Alpha)|apply (Hone Beta)]; apply H.
Qed.

End GetGradProps.

Lemma get_grad_zero_iff_brillouin_witness :
  exists g,
    get_grad (fun _ _ _ => []) (fun _ _ _ _ _ _ => (ex_dm1, ex_dm1)) ex_mf_2d
      ([ex_unit_mo], [ex_unit_mo]) ([ex_occ], [ex_occ]) (Some ([ex_fock], [ex_fock])) = Ok g
    /\ length g = grad_size [ex_occ] + grad_size [ex_occ]
    /\ (Forall (fun z => z = C0) g
        <-> forall s, brillouin (channel s ([ex_fock], [ex_fock]))
                        (channel s ([ex_unit_mo], [ex_unit_mo]))
                        (channel s ([ex_occ], [ex_occ]))).
Proof.
  apply (get_grad_zero_iff_brillouin (fun _ _ _ => []) (fun _ _ _ _ _ _ => (ex_dm1, ex_dm1)) ex_mf_2d 2
           ([ex_unit_mo], [ex_unit_mo]) ([ex_occ], [ex_occ]) ([ex_fock], [ex_fock])).
  - lia.
  - simpl. lia.
  - intros [|]; reflexivity.
  - intros [|]; repeat constructor.
  - intros [|]; reflexivity.
Defined.

(** Two examples in numbers: a Fock matrix that is diagonal in the
    orbitals, and one that couples the occupied orbital to the virtual one
    by the entry -i. *)
Example get_grad_example :
  get_grad (fun _ _ _ => []) (fun _ _ _ _ _ _ => (ex_dm1, ex_dm1)) ex_mf_2d
    ([ex_unit_mo], [ex_unit_mo]) ([ex_occ], [ex_occ]) (Some ([ex_fock], [ex_fock]))
  = Ok [C0; C0]
  /\ get_grad (fun _ _ _ => []) (fun _ _ _ _ _ _ => (ex_dm1, ex_dm1)) ex_mf_2d
       ([ex_unit_mo], [ex_unit_mo]) ([ex_occ], [ex_occ])
       (Some ([[[C1; Ci]; [Cconj Ci; C1]]], [ex_fock]))
     = Ok [Cconj Ci; C0].
Proof. split; vm_compute; reflexivity. Qed.

(** ** KUHF.spin_square *)

Lemma sum_n_const (n : nat) (c : C) : sum_n n (fun _ => c) = (RtoC (of_nat n) * c)%C.
Proof.
  induction n as [|n IH]; simpl.
  - assert (E : RtoC (of_nat 0) = C0) by (apply C_eq; apply Qc_is_canon; reflexivity).
    rewrite E. ring.
  - rewrite IH.
    assert (E : RtoC (of_nat (S n)) = (C1 + RtoC (of_nat n))%C)
      by (rewrite of_nat_S; cring).
    rewrite E. ring.
Qed.

Lemma half_double (x : Qc) : ((x + x) * lit_0_5 = x)%Qc.
Proof.
  assert (E : (lit_0_5 + lit_0_5 = 1)%Qc) by (apply Qc_is_canon; reflexivity).
  transitivity (x * (lit_0_5 + lit_0_5))%Qc; [ring|]. rewrite E. ring.
Qed.

Lemma of_Z_0 : of_Z 0 = 0%Qc.
Proof. apply Qc_is_canon. reflexivity. Qed.

Lemma map_seq_nth {A B} (f : A -> B) (l : list A) (d : A) :
  map (fun k => f (nth k l d)) (seq 0 (length l)) = map f l.
Proof.
  apply (nth_ext _ _ (f d) (f d)).
  - rewrite !length_map, length_seq. reflexivity.
  - intros k Hk. rewrite length_map, length_seq in Hk.
    rewrite (map_nth f l d k).
    set (G := fun k => f (nth k l d)).
    rewrite (nth_indep (map G (seq 0 (length l))) (f d) (G 0))
      by (rewrite length_map, length_seq; exact Hk).
    rewrite (map_nth G (seq 0 (length l)) 0 k), seq_nth by exact Hk. reflexivity.
Qed.

Lemma count_columns_ok (mo : list matrix) :
  count_columns (length mo) mo = Ok (n_columns mo).
Proof.
  unfold count_columns, n_columns.
  rewrite (mapM_ok_map _ (fun k => ncols (nth k mo []))).
  - cbn [bind]. rewrite (map_seq_nth ncols mo []). reflexivity.
  - intros k Hk. apply in_seq in Hk. rewrite (py_nth_ok mo k []) by lia. reflexivity.
Qed.

(** [einsum('ij,ij->', I.conj(), I)] for the identity of order n. *)
Lemma einsum_identity (n : nat) :
  einsum_ij_ij (conj (identity n)) (identity n) = Ok (RtoC (of_nat n)).
Proof.
  destruct n as [|n'].
  - vm_compute. reflexivity.
  - set (n := S n'). assert (Hn : 0 < n) by (unfold n; lia).
    assert (HI : has_shape n n (identity n) = true) by apply has_shape_mk.
    pose proof (has_shape_conj _ _ _ HI) as HIc.
    unfold einsum_ij_ij.
    rewrite (has_shape_nrows _ _ _ HIc), (has_shape_ncols _ _ _ HIc Hn), HI.
    f_equal.
    rewrite (sum_n_ext n _ (fun _ => C1)).
    + rewrite sum_n_const. ring.
    + intros i Hi.
      rewrite (sum_n_ext n _ (fun j => if j =? i then C1 else C0)).
      * apply (sum_n_delta n i (fun _ => C1) Hi).
      * intros j Hj. rewrite mget_conj. unfold identity. rewrite mget_mk by assumption.
        rewrite (Nat.eqb_sym j i). destruct (i =? j); cring.
Qed.

(** The same contraction for an array without columns. *)
Lemma einsum_no_columns (p : nat) (f : nat -> nat -> C) :
  einsum_ij_ij (conj (mk_matrix p 0 f)) (mk_matrix p 0 f) = Ok C0.
Proof.
  unfold einsum_ij_ij.
  assert (Hs : has_shape p 0 (conj (mk_matrix p 0 f)) = true)
    by (apply has_shape_conj, has_shape_mk).
  assert (Hc : ncols (conj (mk_matrix p 0 f)) = 0).
  { destruct p; [reflexivity|]. apply (has_shape_ncols _ _ _ Hs). lia. }
  rewrite (has_shape_nrows _ _ _ Hs), Hc, has_shape_mk. f_equal.
  rewrite (sum_n_ext p _ (fun _ => C0)) by reflexivity. apply sum_n_zero.
Qed.

Section SpinSquareProps.

Variable get_ovlp : mf -> list matrix.
Variable np_sqrt : Qc -> Qc.

(** The loop over the k-points when every [sij] contributes [c k]. *)
Lemma ssxy_loop_eval (mo_a mo_b s : list matrix) (c : nat -> Qc) (n k0 : nat) (acc : Qc) :
  k0 + n <= length mo_a -> k0 + n <= length mo_b -> k0 + n <= length s ->
  (forall k, k0 <= k < k0 + n ->
     (sij <- dot3_ctrans (nth k mo_a []) (nth k s []) (nth k mo_b []) ;;
      einsum_ij_ij (conj sij) sij) = Ok (RtoC (c k))) ->
  ssxy_loop mo_a mo_b s k0 n acc
  = Ok (acc - Qcsum (map c (seq k0 n)))%Qc.
Proof.
  revert k0 acc. induction n as [|n IH]; intros k0 acc Ha Hb Hs H.
  - cbn [ssxy_loop seq map Qcsum fold_right]. f_equal. ring.
  - cbn [ssxy_loop].
    rewrite (py_nth_ok mo_a k0 []) by lia. cbn [bind].
    rewrite (py_nth_ok s k0 []) by lia. cbn [bind].
    rewrite (py_nth_ok mo_b k0 []) by lia. cbn [bind].
    pose proof (H k0 ltac:(lia)) as H0.
    destruct (dot3_ctrans (nth k0 mo_a []) (nth k0 s []) (nth k0 mo_b [])) as [sij|e];
      cbn [bind] in *; [|discriminate].
    rewrite H0. cbn [bind].
    rewrite (IH (S k0)) by (try lia; intros k Hk; apply H; lia).
    f_equal. cbn [seq map]. change (Qcsum (c k0 :: ?l)) with (c k0 + Qcsum l)%Qc.
    cbn [re RtoC]. ring.
Qed.

Lemma Qcsum_of_nat (f : nat -> nat) (l : list nat) :
  Qcsum (map (fun k => of_nat (f k)) l) = of_nat (fold_right Nat.add 0 (map f l)).
Proof.
  induction l as [|x l IH]; [symmetry; apply of_Z_0|].
  cbn [map fold_right]. change (Qcsum (?a :: ?r)) with (a + Qcsum r)%Qc.
  rewrite IH, of_nat_add. reflexivity.
Qed.

Lemma n_columns_seq (mo : list matrix) :
  fold_right Nat.add 0 (map (fun k => ncols (nth k mo [])) (seq 0 (length mo)))
  = n_columns mo.
Proof. unfold n_columns. rewrite (map_seq_nth ncols mo []). reflexivity. Qed.

(** A closed-shell determinant: with the same orbitals for both spins,
    orthonormal in the metric of the overlap at every k-point, [spin_square]
    returns S^2 = 0 and the multiplicity 1 (given that the square root of
    0.25 is 0.5). *)
Theorem spin_square_closed_shell (self : mf) (nao : nat) (mo s : list matrix) :
  0 < nao -> length mo = length (mf_kpts self) ->
  has_shape3 (length (mf_kpts self)) nao nao s = true ->
  (forall k, k < length (mf_kpts self) ->
     has_shape nao (ncols (nth k mo [])) (nth k mo []) = true
     /\ orthonormal (nth k s []) (nth k mo []) (ncols (nth k mo []))) ->
  np_sqrt lit_0_25 = lit_0_5 ->
  spin_square get_ovlp np_sqrt self (Some (mo, mo)) (Some s) = Ok (0%Qc, 1%Qc).
Proof.
  intros Hn Lm Hs Hmo Hsq. unfold spin_square. cbn [bind]. rewrite <- Lm in *.
  rewrite count_columns_ok. cbn [bind].
  pose proof (proj1 (proj1 (has_shape3_iff _ _ _ _) Hs)) as Ls.
  rewrite (ssxy_loop_eval mo mo s (fun k => of_nat (ncols (nth k mo []))) (length mo) 0).
  - cbn [bind]. rewrite Qcsum_of_nat, n_columns_seq.
    rewrite Z.sub_diag. cbn [Z.mul]. rewrite of_Z_0.
    rewrite of_nat_add, half_double.
    assert (E : (of_nat (n_columns mo) - of_nat (n_columns mo) + 0 * lit_0_25 = 0)%Qc) by ring.
    rewrite E.
    assert (E2 : (0 + lit_0_25 = lit_0_25)%Qc) by ring. rewrite E2, Hsq.
    apply (f_equal Ok). apply (f_equal2 pair); [reflexivity|].
    apply Qc_is_canon. reflexivity.
  - lia.
  - lia.
  - lia.
  - intros k Hk. destruct (Hmo k ltac:(lia)) as [Hsh Ho].
    pose proof (has_shape3_nth _ _ _ _ k Hs ltac:(lia)) as Hsk.
    unfold dot3_ctrans.
    rewrite (has_shape_nrows _ _ _ Hsh), (has_shape_nrows _ _ _ Hsk), Nat.eqb_refl.
    rewrite (has_shape_ncols _ _ _ Hsk Hn), Nat.eqb_refl. cbn [negb bind].
    unfold orthonormal, ctranspose in Ho. rewrite Ho. apply einsum_identity.
Qed.

(** A determinant without beta electrons: [spin_square] returns
    S^2 = S (S + 1) with S = N_alpha / 2, for any overlap, and the
    multiplicity N_alpha + 1 when the square root of (S + 1/2)^2 is
    S + 1/2. *)
Theorem spin_square_no_beta (self : mf) (nao : nat) (mo_a mo_b s : list matrix) :
  0 < nao ->
  length mo_a = length (mf_kpts self) -> length mo_b = length (mf_kpts self) ->
  has_shape3 (length (mf_kpts self)) nao nao s = true ->
  (forall k, k < length (mf_kpts self) ->
     has_shape nao (ncols (nth k mo_a [])) (nth k mo_a []) = true
     /\ has_shape nao 0 (nth k mo_b []) = true) ->
  let S := (of_nat (n_columns mo_a) * lit_0_5)%Qc in
  np_sqrt ((S + lit_0_5) * (S + lit_0_5)) = (S + lit_0_5)%Qc ->
  spin_square get_ovlp np_sqrt self (Some (mo_a, mo_b)) (Some s)
  = Ok ((S * (S + 1))%Qc, (of_nat (n_columns mo_a) + 1)%Qc).
Proof.
  intros Hn La Lb Hs Hmo S Hsq. unfold spin_square. cbn [bind].
  rewrite <- La at 1. rewrite count_columns_ok. cbn [bind].
  rewrite <- Lb at 1. rewrite count_columns_ok. cbn [bind].
  pose proof (proj1 (proj1 (has_shape3_iff _ _ _ _) Hs)) as Ls.
  assert (Nb : n_columns mo_b = 0).
  { unfold n_columns.
    assert (H0 : forall m, In m mo_b -> ncols m = 0).
    { intros m Hin. apply (In_nth _ _ []) in Hin. destruct Hin as [k [Hk <-]].
      destruct (Hmo k ltac:(rewrite <- Lb; exact Hk)) as [_ Hb].
      apply (has_shape_ncols _ _ _ Hb Hn). }
    clear -H0. induction mo_b as [|m l IH]; [reflexivity|].
    cbn [map fold_right]. rewrite (H0 m) by (left; reflexivity).
    rewrite IH by (intros; apply H0; right; assumption). reflexivity. }
  rewrite Nb, Nat.add_0_r.
  rewrite (ssxy_loop_eval mo_a mo_b s (fun _ => 0%Qc) (length (mf_kpts self)) 0).
  - cbn [bind].
    assert (Ez : Qcsum (map (fun _ : nat => 0%Qc) (seq 0 (length (mf_kpts self)))) = 0%Qc).
    { generalize (seq 0 (length (mf_kpts self))). intro l.
      induction l as [|x l IH]; [reflexivity|].
      cbn [map]. change (Qcsum (?a :: ?r)) with (a + Qcsum r)%Qc. rewrite IH. ring. }
    rewrite Ez.
    assert (Ed : of_Z ((Z.of_nat 0 - Z.of_nat (n_columns mo_a))
                        * (Z.of_nat 0 - Z.of_nat (n_columns mo_a)))
                 = (of_nat (n_columns mo_a) * of_nat (n_columns mo_a))%Qc).
    { unfold of_nat.
      replace ((Z.of_nat 0 - Z.of_nat (n_columns mo_a))
               * (Z.of_nat 0 - Z.of_nat (n_columns mo_a)))%Z
        with (Z.of_nat (n_columns mo_a) * Z.of_nat (n_columns mo_a))%Z by lia.
      apply Qc_is_canon. unfold of_Z, Qcmult, Q2Qc. cbn [this].
      rewrite !Qred_correct. rewrite inject_Z_mult. apply Qeq_refl. }
    rewrite Ed.
    assert (Eq : (lit_0_25 = lit_0_5 * lit_0_5)%Qc) by (apply Qc_is_canon; reflexivity).
    assert (Eh : (lit_0_5 + lit_0_5 = 1)%Qc) by (apply Qc_is_canon; reflexivity).
    assert (E2 : (of_nat 2 = 1 + 1)%Qc) by (apply Qc_is_canon; reflexivity).
    set (N := of_nat (n_columns mo_a)) in *.
    assert (Ess : (N * lit_0_5 - 0 + N * N * lit_0_25 = S * (S + 1))%Qc).
    { unfold S. rewrite Eq.
      transitivity (N * lit_0_5 * 1 + N * lit_0_5 * (N * lit_0_5))%Qc; [ring|].
      ring. }
    rewrite Ess.
    assert (Earg : (S * (S + 1) + lit_0_25 = (S + lit_0_5) * (S + lit_0_5))%Qc).
    { rewrite Eq. transitivity (S * S + S * 1 + lit_0_5 * lit_0_5)%Qc; [ring|].
      rewrite <- Eh. ring. }
    rewrite Earg, Hsq. apply (f_equal Ok). apply (f_equal2 pair); [reflexivity|].
    rewrite E2.
    transitivity (S * (1 + 1) + 1)%Qc; [ring|]. unfold S.
    transitivity (N * (lit_0_5 + lit_0_5) + 1)%Qc; [ring|]. rewrite Eh. ring.
  - rewrite La. lia.
  - rewrite Lb. lia.
  - rewrite Ls. lia.
  - intros k Hk. destruct (Hmo k ltac:(lia)) as [Hsa Hsb].
    pose proof (has_shape3_nth _ _ _ _ k Hs ltac:(lia)) as Hsk.
    unfold dot3_ctrans.
    rewrite (has_shape_nrows _ _ _ Hsa), (has_shape_nrows _ _ _ Hsk), Nat.eqb_refl.
    rewrite (has_shape_ncols _ _ _ Hsk Hn), (has_shape_nrows _ _ _ Hsb), Nat.eqb_refl.
    cbn [negb bind].
    set (T := mmul (conj (transpose (nth k mo_a []))) (nth k s [])).
    unfold mmul. rewrite (has_shape_ncols _ _ _ Hsb Hn).
    rewrite einsum_no_columns. reflexivity.
Qed.

End SpinSquareProps.

Lemma spin_square_closed_shell_witness :
  spin_square (fun _ => []) (fun _ => lit_0_5) ex_mf_2d
    (Some ([ex_mo_metric], [ex_mo_metric])) (Some [ex_ovlp])
  = Ok (0%Qc, 1%Qc).
Proof.
  apply (spin_square_closed_shell (fun _ => []) (fun _ => lit_0_5) ex_mf_2d 2
           [ex_mo_metric] [ex_ovlp]).
  - lia.
  - reflexivity.
  - reflexivity.
  - intros k Hk. assert (k = 0) by (simpl in Hk; lia). subst k.
    split; [reflexivity|]. unfold orthonormal. vm_compute. reflexivity.
  - reflexivity.
Defined.

Lemma spin_square_no_beta_witness :
  spin_square (fun _ => []) (fun _ => (of_nat 2 * lit_0_5 + lit_0_5)%Qc) ex_mf_2d
    (Some ([ex_mo_metric], [ex_mo_none])) (Some [ex_ovlp])
  = Ok ((of_nat (n_columns [ex_mo_metric]) * lit_0_5
         * (of_nat (n_columns [ex_mo_metric]) * lit_0_5 + 1))%Qc,
        (of_nat (n_columns [ex_mo_metric]) + 1)%Qc).
Proof.
  apply (spin_square_no_beta (fun _ => []) (fun _ => (of_nat 2 * lit_0_5 + lit_0_5)%Qc)
           ex_mf_2d 2 [ex_mo_metric] [ex_mo_none] [ex_ovlp]).
  - lia.
  - reflexivity.
  - reflexivity.
  - reflexivity.
  - intros k Hk. assert (k = 0) by (simpl in Hk; lia). subst k.
    split; reflexivity.
  - reflexivity.
Defined.

(** The two alpha electrons of this example form a triplet: S^2 = 2 and
    2S + 1 = 3. *)
Example spin_square_example :
  spin_square (fun _ => []) (fun _ => (of_nat 2 * lit_0_5 + lit_0_5)%Qc) ex_mf_2d
    (Some ([ex_mo_metric], [ex_mo_none])) (Some [ex_ovlp])
  = Ok (of_nat 2, of_nat 3).
Proof. vm_compute. reflexivity. Qed.

(** ** make_rdm1: idempotency *)

Lemma mmul_identity_l (n m : nat) (M : matrix) :
  0 < n -> has_shape n m M = true -> mmul (identity n) M = M.
Proof.
  intros Hn HM.
  assert (HI : has_shape n n (identity n) = true) by apply has_shape_mk.
  apply (matrix_ext n m); [apply (has_shape_mmul n n m); assumption|exact HM|].
  intros i j Hi Hj. rewrite (mget_mmul n n m) by assumption.
  rewrite (sum_n_ext n _ (fun l => if l =? i then mget M l j else C0)).
  - apply (sum_n_delta n i (fun l => mget M l j) Hi).
  - intros l Hl. unfold identity. rewrite mget_mk by assumption.
    rewrite (Nat.eqb_sym i l). destruct (l =? i); ring.
Qed.

Lemma has_shape_diag (v : rvec) : has_shape (length v) (length v) (diag v) = true.
Proof. apply has_shape_mk. Qed.

Lemma binary_square (occ : rvec) (i : nat) :
  binary occ = true -> i < length occ -> (vget occ i * vget occ i = vget occ i)%Qc.
Proof.
  intros Hb Hi. unfold binary in Hb. rewrite forallb_forall in Hb.
  assert (Hin : In (vget occ i) occ) by (apply nth_In; exact Hi).
  specialize (Hb _ Hin). apply orb_true_iff in Hb.
  destruct Hb as [H|H]; apply Qceqb_true in H; rewrite H; ring.
Qed.

Lemma diag_idempotent (occ : rvec) :
  0 < length occ -> binary occ = true -> mmul (diag occ) (diag occ) = diag occ.
Proof.
  intros Hm Hb. set (n := length occ) in *.
  pose proof (has_shape_diag occ) as Hd. fold n in Hd.
  apply (matrix_ext n n); [apply (has_shape_mmul n n n); assumption|exact Hd|].
  intros i j Hi Hj. rewrite (mget_mmul n n n) by assumption.
  rewrite (sum_n_ext n _ (fun l => if l =? i then (RtoC (vget occ i) * mget (diag occ) i j)%C
                                   else C0)).
  - rewrite (sum_n_delta n i (fun _ => (RtoC (vget occ i) * mget (diag occ) i j)%C) Hi).
    unfold diag. fold n. rewrite mget_mk by assumption.
    destruct (i =? j); [|ring].
    apply C_eq; cbn [Cmul RtoC re im]; [|ring].
    transitivity (vget occ i * vget occ i)%Qc; [ring|]. apply binary_square; assumption.
  - intros l Hl. unfold diag at 1. fold n. rewrite mget_mk by assumption.
    destruct (Nat.eqb_spec i l) as [<-|Hne].
    + rewrite Nat.eqb_refl. reflexivity.
    + destruct (Nat.eqb_spec l i) as [->|_]; [congruence|]. ring.
Qed.

(** [D S D = D] for the density block of orthonormal orbitals with
    occupations 0 and 1. *)
Lemma density_block_idempotent (nao : nat) (S mo : matrix) (occ : rvec) :
  0 < nao -> orbitals_ok nao mo occ = true -> has_shape nao nao S = true ->
  binary occ = true -> orthonormal S mo (length occ) ->
  mmul (mmul (density_block mo occ) S) (density_block mo occ) = density_block mo occ.
Proof.
  intros Hn Hok HS Hb Ho.
  unfold orbitals_ok in Hok. apply andb_true_iff in Hok. destruct Hok as [Hmo Hm].
  apply Nat.ltb_lt in Hm. set (nmo := length occ) in *.
  pose proof (has_shape_diag occ) as HO. fold nmo in HO.
  pose proof (has_shape_ctranspose _ _ _ Hmo Hn) as HB.
  pose proof (has_shape_mmul nao nmo nmo _ _ Hm Hmo HO) as HA.
  pose proof (has_shape_mmul nmo nao nao _ _ Hn HB HS) as HBS.
  pose proof (has_shape_mmul nao nmo nao _ _ Hm HA HB) as HD.
  unfold density_block.
  set (A := mmul mo (diag occ)) in *. set (B := ctranspose mo) in *.
  rewrite (mmul_assoc nao nmo nao nao A B S Hm Hn HA HB HS).
  rewrite (mmul_assoc nao nmo nao nao A (mmul B S) (mmul A B) Hm Hn HA HBS HD).
  rewrite <- (mmul_assoc nmo nao nmo nao (mmul B S) A B Hn Hm HBS HA HB).
  assert (E : mmul (mmul B S) A = diag occ).
  { unfold A.
    rewrite <- (mmul_assoc nmo nao nmo nmo (mmul B S) mo (diag occ) Hn Hm HBS Hmo HO).
    unfold orthonormal in Ho. unfold B. rewrite Ho.
    apply (mmul_identity_l nmo nmo); assumption. }
  rewrite E.
  rewrite <- (mmul_assoc nao nmo nmo nao A (diag occ) B Hm Hm HA HO HB).
  assert (E2 : mmul A (diag occ) = A).
  { unfold A. rewrite (mmul_assoc nao nmo nmo nmo mo _ _ Hm Hm Hmo HO HO).
    rewrite (diag_idempotent occ Hm Hb). reflexivity. }
  rewrite E2. reflexivity.
Qed.

(** For occupations 0 and 1 and orbitals that are orthonormal in the
    metric of the overlap, every block of the density [make_rdm1] returns
    is idempotent: D S D = D. *)
Theorem make_rdm1_idempotent (nao : nat) (mos : spin_pair (list matrix))
    (occs : spin_pair (list rvec)) (S : list matrix) :
  0 < nao -> 0 < length (fst occs) -> length (snd occs) = length (fst occs) ->
  Forall2 (fun mo occ => orbitals_ok nao mo occ = true) (fst mos) (fst occs) ->
  Forall2 (fun mo occ => orbitals_ok nao mo occ = true) (snd mos) (snd occs) ->
  Forall (fun occ => binary occ = true) (fst occs ++ snd occs) ->
  has_shape3 (length (fst occs)) nao nao S = true ->
  (forall s k, k < length (fst occs) ->
     orthonormal (nth k S []) (nth k (channel s mos) []) (length (nth k (channel s occs) []))) ->
  exists dm,
    make_rdm1 mos occs = Ok dm
    /\ forall s k, k < length (fst occs) ->
         mmul (mmul (nth k (channel s dm) []) (nth k S [])) (nth k (channel s dm) [])
         = nth k (channel s dm) [].
Proof.
  destruct mos as [mo_a mo_b], occs as [occ_a occ_b]. cbn [fst snd].
  intros Hn Hk Hlen Ha Hb Hbin HS Ho.
  apply Forall_app in Hbin. destruct Hbin as [Ba Bb]. rewrite Forall_forall in Ba, Bb.
  eexists. split; [apply (make_rdm1_eval nao); assumption|].
  intros s k Hklt.
  assert (Hblock : forall (mo : list matrix) (occ : list rvec),
            Forall2 (fun mo occ => orbitals_ok nao mo occ = true) mo occ ->
            length occ = length occ_a ->
            (forall o, In o occ -> binary o = true) ->
            orthonormal (nth k S []) (nth k mo []) (length (nth k occ [])) ->
            let D := nth k (map (fun '(mo, occ) => density_block mo occ) (combine mo occ)) [] in
            mmul (mmul D (nth k S [])) D = D).
  { intros mo occ Hok Hl Hbo Hor D. pose proof (Forall2_length Hok) as Lm.
    set (G := fun p : matrix * rvec => let '(mo, occ) := p in density_block mo occ).
    assert (E : D = G (nth k mo [], nth k occ [])).
    { unfold D. transitivity (nth k (map G (combine mo occ)) (G ([], []))).
      - apply nth_indep. rewrite length_map, length_combine. lia.
      - rewrite <- (combine_nth mo occ k [] []) by lia.
        exact (map_nth G (combine mo occ) ([], []) k). }
    rewrite E. unfold G.
    apply (density_block_idempotent nao); try assumption.
    - apply (Forall2_nth_both _ mo occ [] [] k Hok). lia.
    - apply (has_shape3_nth _ _ _ _ k HS Hklt).
    - apply Hbo. apply nth_In. lia. }
  destruct s; cbn [channel fst snd].
  - apply Hblock; [exact Ha|reflexivity|exact Ba|exact (Ho Alpha k Hklt)].
  - apply Hblock; [exact Hb|exact Hlen|exact Bb|exact (Ho Beta k Hklt)].
Qed.

Lemma make_rdm1_idempotent_witness :
  exists dm,
    make_rdm1 ([ex_mo_metric], [ex_mo_metric]) ([ex_occ], [ex_occ]) = Ok dm
    /\ forall s k, k < 1 ->
         mmul (mmul (nth k (channel s dm) []) (nth k [ex_ovlp] [])) (nth k (channel s dm) [])
         = nth k (channel s dm) [].
Proof.
  apply (make_rdm1_idempotent 2 ([ex_mo_metric], [ex_mo_metric]) ([ex_occ], [ex_occ])
           [ex_ovlp]).
  - lia.
  - simpl. lia.
  - reflexivity.
  - repeat constructor.
  - repeat constructor.
  - repeat constructor.
  - reflexivity.
  - intros s k Hk. assert (k = 0) by (simpl in Hk; lia). subst k.
    destruct s; unfold orthonormal; vm_compute; reflexivity.
Defined.

(** ** KUHF.init_guess_by_chkfile: a gamma-point checkpoint *)

Section KUHFInitGuessByChkfileProps.

Variable project_mo_nr2nr : cell -> matrix -> cell -> matrix.
Variable project_mo_nr2nr_kpts : cell -> list matrix -> cell -> list kvec -> list matrix.
Variable load_scf : string -> result (cell * scf_rec).

(** The checkpoint of an unrestricted single-point run without a ['kpt']
    entry, read without projection by an object whose only k-point is the
    zero vector: the method returns the real parts of the two densities
    C diag(occ) C^H of the stored orbitals, each with a k-point axis of
    length one. *)
Theorem KUHF_init_guess_by_chkfile_gamma (self : mf) (chk : option string)
    (chk_cell : cell) (nao : nat) (mo : spin_pair matrix) (occ : spin_pair rvec) :
  load_scf (match chk with Some c => c | None => chkfile self end)
  = Ok (chk_cell, RecKpt None (GammaUHF mo occ)) ->
  mf_kpts self = [kzero] ->
  0 < nao ->
  orbitals_ok nao (fst mo) (fst occ) = true ->
  orbitals_ok nao (snd mo) (snd occ) = true ->
  KUHF_init_guess_by_chkfile project_mo_nr2nr project_mo_nr2nr_kpts load_scf
    self chk false None
  = Ok ([real (density_block (fst mo) (fst occ))],
        [real (density_block (snd mo) (snd occ))]).
Proof.
  intros Hload Hk Hn Ha Hb. unfold KUHF_init_guess_by_chkfile.
  rewrite Hload, Hk. cbn [bind].
  unfold init_guess_by_chkfile. cbn [bind].
  unfold chk_density, chk_orbitals. cbn [rec_chk_kpts expand_dims bind].
  unfold makedm.
  change ((length [kzero] =? length [kzero]) && allclose_kpts [kzero] [kzero]) with true.
  cbv iota. unfold makedm_same, fproj. cbn [map].
  rewrite (make_rdm1_eval nao [fst mo] [snd mo] [fst occ] [snd occ]);
    [|exact Hn|simpl; lia|reflexivity|repeat constructor; assumption
     |repeat constructor; assumption].
  cbn [bind combine map].
  change (allclose_zero [kzero]) with true. reflexivity.
Qed.

End KUHFInitGuessByChkfileProps.

Lemma KUHF_init_guess_by_chkfile_gamma_witness :
  KUHF_init_guess_by_chkfile (fun _ mo _ => mo) (fun _ mo _ _ => mo)
    (fun _ => Ok (ex_cell, RecKpt None (GammaUHF (ex_mo, ex_mo) (ex_occ, ex_occ))))
    ex_mf_2d None false None
  = Ok ([real (density_block ex_mo ex_occ)], [real (density_block ex_mo ex_occ)]).
Proof.
  apply (KUHF_init_guess_by_chkfile_gamma (fun _ mo _ => mo) (fun _ mo _ _ => mo)
           (fun _ => Ok (ex_cell, RecKpt None (GammaUHF (ex_mo, ex_mo) (ex_occ, ex_occ))))
           ex_mf_2d None ex_cell 2 (ex_mo, ex_mo) (ex_occ, ex_occ)).
  - reflexivity.
  - reflexivity.
  - lia.
  - reflexivity.
  - reflexivity.
Defined.

(** ** canonicalize: orthonormal orbitals *)

Lemma positions_from_NoDup (i : nat) (mask : list bool) : NoDup (positions_from i mask).
Proof.
  revert i. induction mask as [|b mask IH]; intro i; simpl; [constructor|].
  destruct b; [|apply IH]. constructor; [|apply IH].
  intro Hin. apply positions_from_spec in Hin. lia.
Qed.

Lemma positions_inj (mask : list bool) (a b : nat) :
  a < count_nonzero mask -> b < count_nonzero mask ->
  nth a (positions mask) 0 = nth b (positions mask) 0 -> a = b.
Proof.
  intros Ha Hb H.
  apply (proj1 (NoDup_nth (positions mask) 0) (positions_from_NoDup 0 mask));
    unfold positions; rewrite ?positions_from_length; assumption.
Qed.

Lemma position_rank (mask : list bool) (p : nat) :
  p < length mask -> nth p mask false = true ->
  exists a, a < count_nonzero mask /\ nth a (positions mask) 0 = p.
Proof.
  intros Hp Ht.
  assert (Hin : In p (positions mask)) by (apply positions_spec; auto).
  apply (In_nth _ _ 0) in Hin. destruct Hin as [a [Ha Ea]].
  unfold positions in Ha. rewrite positions_from_length in Ha. exists a. auto.
Qed.

(** The block of two masks in the matrix [mo^H F mo]. *)
Lemma mget_block (nao nmo : nat) (F mo : matrix) (idx1 idx2 : list bool) (a b : nat) :
  0 < nao -> has_shape nao nmo mo = true -> has_shape nao nao F = true ->
  length idx1 = nmo -> length idx2 = nmo ->
  a < count_nonzero idx1 -> b < count_nonzero idx2 ->
  mget (mmul (mmul (conj (transpose (map (mask_select idx1) mo))) F)
             (map (mask_select idx2) mo)) a b
  = mget (fock_mo F mo) (nth a (positions idx1) 0) (nth b (positions idx2) 0).
Proof.
  intros Hn Hmo HF L1 L2 Ha Hb.
  pose proof (has_shape_select nao nmo mo idx1 Hmo L1) as H1.
  pose proof (has_shape_select nao nmo mo idx2 Hmo L2) as H2.
  rewrite (mget_dot3 nao _ _ _ F _ a b Hn H1 HF H2 Ha Hb).
  destruct (nth_positions idx1 a Ha) as [Pa _].
  destruct (nth_positions idx2 b Hb) as [Pb _].
  rewrite L1 in Pa. rewrite L2 in Pb.
  unfold fock_mo, ctranspose.
  rewrite (mget_dot3 nao nmo nmo mo F mo _ _ Hn Hmo HF Hmo Pa Pb).
  apply sum_n_ext. intros y Hy. apply sum_n_ext. intros x Hx.
  rewrite (mget_select nao nmo mo idx1 x a Hmo L1 Hx Ha).
  rewrite (mget_select nao nmo mo idx2 y b Hmo L2 Hy Hb).
  reflexivity.
Qed.

(** [(orb1 c1)^H S (orb2 c2) = c1^H (orb1^H S orb2) c2]. *)
Lemma rotated_block2 (nao n1 n2 : nat) (orb1 orb2 S c1 c2 : matrix) :
  0 < nao -> 0 < n1 -> 0 < n2 ->
  has_shape nao n1 orb1 = true -> has_shape nao n2 orb2 = true ->
  has_shape nao nao S = true ->
  has_shape n1 n1 c1 = true -> has_shape n2 n2 c2 = true ->
  mmul (mmul (ctranspose (mmul orb1 c1)) S) (mmul orb2 c2)
  = mmul (mmul (ctranspose c1) (mmul (mmul (ctranspose orb1) S) orb2)) c2.
Proof.
  intros Hn H1 H2 Ho1 Ho2 HS Hc1 Hc2.
  pose proof (has_shape_ctranspose _ _ _ Ho1 Hn) as Ho1h.
  pose proof (has_shape_ctranspose _ _ _ Hc1 H1) as Hc1h.
  pose proof (has_shape_mmul n1 nao nao _ _ Hn Ho1h HS) as HoS.
  pose proof (has_shape_mmul n1 nao n2 _ _ Hn HoS Ho2) as HG.
  pose proof (has_shape_mmul nao n2 n2 _ _ H2 Ho2 Hc2) as Hoc2.
  rewrite (ctranspose_mmul nao n1 n1 orb1 c1 Hn H1 Ho1 Hc1).
  rewrite (mmul_assoc n1 n1 nao nao _ _ S H1 Hn Hc1h Ho1h HS).
  rewrite (mmul_assoc n1 n1 nao n2 _ _ (mmul orb2 c2) H1 Hn Hc1h HoS Hoc2).
  rewrite <- (mmul_assoc n1 nao n2 n2 _ orb2 c2 Hn H2 HoS Ho2 Hc2).
  rewrite <- (mmul_assoc n1 n1 n2 n2 _ _ c2 H1 H2 Hc1h HG Hc2).
  reflexivity.
Qed.

(** Two column blocks of [cs] that are column blocks of orthonormal [mo]
    times unitary matrices: the metric of [cs] between a column of the
    first and a column of the second is that of orthonormal columns.  The
    blocks are the same one, or they share no column. *)
Lemma rotated_blocks_entry (nao nmo : nat) (S mo cs : matrix) (idx1 idx2 : list bool)
    (c1 c2 : matrix) (a b : nat) :
  0 < nao -> has_shape nao nmo mo = true -> has_shape nao nmo cs = true ->
  has_shape nao nao S = true -> orthonormal S mo nmo ->
  length idx1 = nmo -> length idx2 = nmo ->
  unitary (count_nonzero idx1) c1 -> unitary (count_nonzero idx2) c2 ->
  map (mask_select idx1) cs = mmul (map (mask_select idx1) mo) c1 ->
  map (mask_select idx2) cs = mmul (map (mask_select idx2) mo) c2 ->
  (idx1 = idx2 /\ c1 = c2)
  \/ (forall p, p < nmo -> nth p idx1 false = negb (nth p idx2 false)) ->
  a < count_nonzero idx1 -> b < count_nonzero idx2 ->
  mget (fock_mo S cs) (nth a (positions idx1) 0) (nth b (positions idx2) 0)
  = if Nat.eqb (nth a (positions idx1) 0) (nth b (positions idx2) 0) then C1 else C0.
Proof.
  intros Hn Hmo Hcs HS Hort L1 L2 Hu1 Hu2 Hs1 Hs2 Hrel Ha Hb.
  assert (Hc1 : 0 < count_nonzero idx1) by lia.
  assert (Hc2 : 0 < count_nonzero idx2) by lia.
  set (n1 := count_nonzero idx1) in *. set (n2 := count_nonzero idx2) in *.
  pose proof (has_shape_select nao nmo mo idx1 Hmo L1) as Ho1. fold n1 in Ho1.
  pose proof (has_shape_select nao nmo mo idx2 Hmo L2) as Ho2. fold n2 in Ho2.
  destruct Hu1 as [Hsc1 [_ Hcc1]]. destruct Hu2 as [Hsc2 _].
  rewrite <- (mget_block nao nmo S cs idx1 idx2 a b Hn Hcs HS L1 L2 Ha Hb).
  rewrite Hs1, Hs2.
  fold (ctranspose (mmul (map (mask_select idx1) mo) c1)).
  rewrite (rotated_block2 nao n1 n2 _ _ S c1 c2 Hn Hc1 Hc2 Ho1 Ho2 HS Hsc1 Hsc2).
  set (G := mmul (mmul (ctranspose (map (mask_select idx1) mo)) S)
                 (map (mask_select idx2) mo)).
  assert (HG : has_shape n1 n2 G = true)
    by (unfold G, ctranspose; apply (dot3_shape nao); assumption).
  assert (EG : forall a' b', a' < n1 -> b' < n2 ->
            mget G a' b'
            = if Nat.eqb (nth a' (positions idx1) 0) (nth b' (positions idx2) 0)
              then C1 else C0).
  { intros a' b' Ha' Hb'. unfold G, ctranspose.
    rewrite (mget_block nao nmo S mo idx1 idx2 a' b' Hn Hmo HS L1 L2 Ha' Hb').
    unfold orthonormal in Hort. unfold fock_mo. rewrite Hort.
    destruct (nth_positions idx1 a' Ha') as [P1 _].
    destruct (nth_positions idx2 b' Hb') as [P2 _].
    rewrite L1 in P1. rewrite L2 in P2.
    unfold identity. rewrite mget_mk by assumption. reflexivity. }
  pose proof (has_shape_ctranspose _ _ _ Hsc1 Hc1) as Hc1h.
  pose proof (has_shape_mmul n1 n1 n2 _ _ Hc1 Hc1h HG) as HcG.
  destruct Hrel as [[Eidx Ec] | Hdis].
  - (* the same block *)
    subst idx2 c2. subst n2. fold n1 in Hb, HG, EG, HcG.
    assert (EGI : G = identity n1).
    { apply (matrix_ext n1 n1); [exact HG|apply has_shape_mk|].
      intros a' b' Ha' Hb'. rewrite (EG a' b' Ha' Hb').
      unfold identity. rewrite mget_mk by assumption.
      destruct (Nat.eqb_spec a' b') as [->|Nab].
      - rewrite Nat.eqb_refl. reflexivity.
      - destruct (Nat.eqb_spec (nth a' (positions idx1) 0) (nth b' (positions idx1) 0))
          as [E|_]; [|reflexivity].
        exfalso. apply Nab. apply (positions_inj idx1); assumption. }
    rewrite EGI.
    assert (HI : has_shape n1 n1 (identity n1) = true) by apply has_shape_mk.
    rewrite (mmul_assoc n1 n1 n1 n1 (ctranspose c1) (identity n1) c1 Hc1 Hc1 Hc1h HI Hsc1).
    rewrite (mmul_identity_l n1 n1 c1 Hc1 Hsc1), Hcc1.
    unfold identity. rewrite mget_mk by assumption.
    destruct (Nat.eqb_spec a b) as [->|Nab].
    + rewrite Nat.eqb_refl. reflexivity.
    + destruct (Nat.eqb_spec (nth a (positions idx1) 0) (nth b (positions idx1) 0))
        as [E|_]; [|reflexivity].
      exfalso. apply Nab. apply (positions_inj idx1); assumption.
  - (* two blocks without a common column *)
    assert (Hne : forall a' b', a' < n1 -> b' < n2 ->
              Nat.eqb (nth a' (positions idx1) 0) (nth b' (positions idx2) 0) = false).
    { intros a' b' Ha' Hb'. apply Nat.eqb_neq. intro E.
      destruct (nth_positions idx1 a' Ha') as [P1 T1].
      destruct (nth_positions idx2 b' Hb') as [P2 T2].
      rewrite L1 in P1. rewrite (Hdis _ P1), E, T2 in T1. discriminate. }
    rewrite (Hne a b Ha Hb).
    rewrite (mget_mmul n1 n2 n2) by assumption.
    rewrite (sum_n_ext n2 _ (fun _ => C0)); [apply sum_n_zero|].
    intros l Hl.
    rewrite (mget_mmul n1 n1 n2) by assumption.
    rewrite (sum_n_ext n1 _ (fun _ => C0)); [rewrite sum_n_zero; ring|].
    intros l' Hl'. rewrite (EG l' l Hl' Hl), (Hne l' l Hl' Hl). ring.
Qed.

Section CanonicalizeOrthonormal.

Variable eigh : matrix -> rvec * matrix.
Variable uninit_C : nat -> nat -> C.
Variable uninit_R : nat -> Qc.
Hypothesis eigh_ok : eigh_contract eigh.

(** One call of [eig_]: the selected columns become the selected columns
    of [mo] times a unitary matrix; the other columns are left alone. *)
Lemma eig_step_unitary (dt : dtype) (nao nmo : nat) (F mo : matrix) (idx : list bool)
    (es : rvec) (cs : matrix) :
  0 < nao ->
  has_shape nao nmo mo = true -> has_shape nao nao F = true -> hermitian F ->
  length idx = nmo -> length es = nmo -> has_shape nao nmo cs = true ->
  fits dt mo = true ->
  (0 < count_nonzero idx -> fits dt (snd (eigh (fock_block F mo idx))) = true) ->
  exists es' cs' c,
    eig_ eigh dt F mo idx es cs = Ok (es', cs')
    /\ length es' = nmo /\ has_shape nao nmo cs' = true
    /\ map (mask_select (map negb idx)) cs' = map (mask_select (map negb idx)) cs
    /\ (0 < count_nonzero idx ->
        unitary (count_nonzero idx) c
        /\ map (mask_select idx) cs' = mmul (map (mask_select idx) mo) c).
Proof.
  intros Hn Hmo HF Hh Hidx Hes Hcs Hfm Hfc. unfold eig_.
  unfold fock_block, ctranspose in Hfc.
  set (cnt := count_nonzero idx) in *.
  destruct (0 <? cnt) eqn:Ecnt.
  - apply Nat.ltb_lt in Ecnt. specialize (Hfc Ecnt).
    unfold select_cols. rewrite (has_shape_ncols _ _ _ Hmo Hn), Hidx, Nat.eqb_refl.
    cbn [bind]. set (orb := map (mask_select idx) mo) in *.
    pose proof (has_shape_select nao nmo mo idx Hmo Hidx) as Horb. fold cnt orb in Horb.
    pose proof (has_shape_ctranspose _ _ _ Horb Hn) as Hoh. unfold ctranspose in Hoh.
    unfold np_dot at 1.
    rewrite (has_shape_ncols _ _ _ Hoh Ecnt), (has_shape_nrows _ _ _ HF), Nat.eqb_refl.
    cbn [bind].
    pose proof (has_shape_mmul cnt nao nao _ _ Hn Hoh HF) as Ht.
    unfold np_dot at 1.
    rewrite (has_shape_ncols _ _ _ Ht Ecnt), (has_shape_nrows _ _ _ Horb), Nat.eqb_refl.
    cbn [bind].
    destruct (projected_fock_hermitian nao cnt orb F Hn Ecnt Horb HF Hh) as [Hf1 Hf1h].
    destruct (eigh_ok _ cnt Ecnt Hf1 Hf1h) as [He Hu].
    destruct (eigh (mmul (mmul (conj (transpose orb)) F) orb)) as [e c].
    cbn [fst snd] in He, Hu, Hfc. pose proof Hu as [Hc _].
    unfold assign_mask. rewrite Hidx, Hes, Nat.eqb_refl. cbn [negb].
    fold cnt. rewrite He, Nat.eqb_refl. cbn [bind].
    unfold np_dot. rewrite (has_shape_ncols _ _ _ Horb Hn), (has_shape_nrows _ _ _ Hc).
    rewrite Nat.eqb_refl. cbn [bind].
    pose proof (has_shape_mmul nao cnt cnt _ _ Ecnt Horb Hc) as HX.
    unfold assign_cols.
    rewrite (has_shape_ncols _ _ _ Hcs Hn), Hidx, Nat.eqb_refl. cbn [negb].
    rewrite (has_shape_nrows _ _ _ Hcs). fold cnt. rewrite HX. cbn [bind].
    assert (Ex : astype dt (mmul orb c) = mmul orb c)
      by (apply (rotated_fits dt mo c idx Hfm Hfc)).
    rewrite Ex.
    fold (assign_rows idx cs (mmul orb c)).
    exists (mask_assign idx es e), (assign_rows idx cs (mmul orb c)), c.
    split; [reflexivity|]. split; [rewrite mask_assign_length; exact Hes|].
    split; [apply (has_shape_assign_rows idx cs _ nao nmo cnt Hcs HX)|].
    split; [apply (select_neg_assign_rows idx cs _ nao nmo cnt Hcs HX Hidx)|].
    intros _. split; [exact Hu|].
    apply (select_assign_rows idx cs (mmul orb c) nao nmo Hcs HX Hidx).
  - apply Nat.ltb_ge in Ecnt.
    exists es, cs, []. split; [reflexivity|]. split; [exact Hes|]. split; [exact Hcs|].
    split; [reflexivity|]. intro H. lia.
Qed.
Lemma canonicalize_kpt_orthonormal (dt : dtype) (nao : nat) (fock : list matrix)
    (occs : list rvec) (k : nat) (mo F S : matrix) (occ : rvec) :
  0 < nao -> orbitals_ok nao mo occ = true ->
  nth_error occs k = Some occ -> nth_error fock k = Some F ->
  has_shape nao nao F = true -> hermitian F ->
  has_shape nao nao S = true -> orthonormal S mo (length occ) ->
  fits dt mo = true ->
  (forall idx, idx = occupied_mask occ \/ idx = map negb (occupied_mask occ) ->
     0 < count_nonzero idx -> fits dt (snd (eigh (fock_block F mo idx))) = true) ->
  exists e' mo',
    canonicalize_kpt eigh uninit_C uninit_R dt fock occs k mo = Ok (e', mo')
    /\ orthonormal S mo' (length occ).
Proof.
  intros Hn Hok Hocc HFk HF Hh HS Hort Hfm Hfc.
  unfold orbitals_ok in Hok. apply andb_true_iff in Hok.
  destruct Hok as [Hmo Hnmo]. apply Nat.ltb_lt in Hnmo. set (nmo := length occ) in *.
  unfold canonicalize_kpt, py_nth. rewrite Hocc, HFk. cbn [bind].
  unfold occupied_mask in Hfc.
  set (occidx := map (fun x => Qceqb x 1) occ) in *.
  set (viridx := map negb occidx) in *.
  set (mo1 := empty_like_matrix uninit_C dt mo).
  set (me := empty_like_rvec uninit_R occ).
  assert (Lo : length occidx = nmo) by (unfold occidx; apply length_map).
  assert (Lv : length viridx = nmo) by (unfold viridx; rewrite length_map; exact Lo).
  assert (Hmo1 : has_shape nao nmo mo1 = true).
  { unfold mo1, empty_like_matrix.
    rewrite (has_shape_nrows _ _ _ Hmo), (has_shape_ncols _ _ _ Hmo Hn).
    apply has_shape_mk. }
  assert (Lme : length me = nmo)
    by (unfold me, empty_like_rvec; rewrite length_map, length_seq; reflexivity).
  destruct (eig_step_unitary dt nao nmo F mo occidx me mo1 Hn Hmo HF Hh Lo Lme Hmo1 Hfm
              (Hfc occidx (or_introl eq_refl)))
    as [es1 [cs1 [co [E1 [L1 [Hcs1 [_ Ro]]]]]]].
  rewrite E1. cbn [bind].
  destruct (eig_step_unitary dt nao nmo F mo viridx es1 cs1 Hn Hmo HF Hh Lv L1 Hcs1 Hfm
              (Hfc viridx (or_intror eq_refl)))
    as [es2 [cs2 [cv [E2 [L2 [Hcs2 [K2 Rv]]]]]]].
  rewrite E2. cbn [bind].
  exists es2, cs2. split; [reflexivity|].
  unfold viridx in K2. rewrite negb_negb_mask in K2. fold viridx in K2.
  assert (Ro' : 0 < count_nonzero occidx ->
            unitary (count_nonzero occidx) co
            /\ map (mask_select occidx) cs2 = mmul (map (mask_select occidx) mo) co).
  { intro Hc. destruct (Ro Hc) as [Hu Hsel]. split; [exact Hu|].
    rewrite K2. exact Hsel. }
  assert (Hov : forall p, p < nmo -> nth p occidx false = negb (nth p viridx false)).
  { intros p Hp. unfold viridx. rewrite nth_negb_false by (rewrite Lo; exact Hp).
    rewrite negb_involutive. reflexivity. }
  assert (Hvo : forall p, p < nmo -> nth p viridx false = negb (nth p occidx false)).
  { intros p Hp. unfold viridx. apply nth_negb_false. rewrite Lo. exact Hp. }
  unfold orthonormal. fold (fock_mo S cs2).
  apply (matrix_ext nmo nmo).
  - unfold fock_mo, ctranspose. apply (dot3_shape nao); assumption.
  - apply has_shape_mk.
  - intros p q Hp Hq. unfold identity. rewrite mget_mk by assumption.
    destruct (nth p occidx false) eqn:Tp; destruct (nth q occidx false) eqn:Tq.
    + destruct (position_rank occidx p) as [a [Ha <-]]; [rewrite Lo; exact Hp|exact Tp|].
      destruct (position_rank occidx q) as [b [Hb <-]]; [rewrite Lo; exact Hq|exact Tq|].
      destruct Ro' as [Hu Hs]; [lia|].
      apply (rotated_blocks_entry nao nmo S mo cs2 occidx occidx co co a b); auto.
    + destruct (position_rank occidx p) as [a [Ha <-]]; [rewrite Lo; exact Hp|exact Tp|].
      destruct (position_rank viridx q) as [b [Hb <-]];
        [rewrite Lv; exact Hq|rewrite (Hvo q Hq), Tq; reflexivity|].
      destruct Ro' as [Hu Hs]; [lia|]. destruct Rv as [Hu' Hs']; [lia|].
      apply (rotated_blocks_entry nao nmo S mo cs2 occidx viridx co cv a b); auto.
    + destruct (position_rank viridx p) as [a [Ha <-]];
        [rewrite Lv; exact Hp|rewrite (Hvo p Hp), Tp; reflexivity|].
      destruct (position_rank occidx q) as [b [Hb <-]]; [rewrite Lo; exact Hq|exact Tq|].
      destruct Ro' as [Hu Hs]; [lia|]. destruct Rv as [Hu' Hs']; [lia|].
      apply (rotated_blocks_entry nao nmo S mo cs2 viridx occidx cv co a b); auto.
    + destruct (position_rank viridx p) as [a [Ha <-]];
        [rewrite Lv; exact Hp|rewrite (Hvo p Hp), Tp; reflexivity|].
      destruct (position_rank viridx q) as [b [Hb <-]];
        [rewrite Lv; exact Hq|rewrite (Hvo q Hq), Tq; reflexivity|].
      destruct Rv as [Hu' Hs']; [lia|].
      apply (rotated_blocks_entry nao nmo S mo cs2 viridx viridx cv cv a b); auto.
Qed.

(** Orbitals that are orthonormal in the overlap metric of their k-point
    ([C^H S C] is the identity) stay orthonormal under [canonicalize],
    for a Hermitian Fock matrix and an eigensolver that returns unitary
    eigenvector matrices, when what is stored fits the dtype of the orbital
    array (complex128, or float64 with real orbitals and real
    eigenvectors). *)
Theorem canonicalize_keeps_orthonormality (m : mf) (dt : dtype) (nkpts nao nmo : nat)
    (mos : spin_pair (list matrix)) (occs : spin_pair (list rvec))
    (fock : spin_pair (list matrix)) (ovlp : list matrix) :
  0 < nao ->
  orbital_arrays_ok nkpts nao nmo mos occs = true ->
  (forall s, has_shape3 nkpts nao nao (channel s fock) = true) ->
  (forall s k, k < nkpts -> hermitian (nth k (channel s fock) [])) ->
  (forall s k, k < nkpts ->
     has_shape nao nao (nth k ovlp []) = true
     /\ orthonormal (nth k ovlp []) (nth k (channel s mos) []) nmo) ->
  (forall s k, k < nkpts -> fits dt (nth k (channel s mos) []) = true) ->
  (forall s k idx, k < nkpts ->
     idx = occupied_mask (nth k (channel s occs) [])
     \/ idx = map negb (occupied_mask (nth k (channel s occs) [])) ->
     0 < count_nonzero idx ->
     fits dt (snd (eigh (fock_block (nth k (channel s fock) [])
                           (nth k (channel s mos) []) idx))) = true) ->
  exists mo_energy mo_coeff,
    canonicalize eigh uninit_C uninit_R m dt mos occs fock = Ok (mo_energy, mo_coeff)
    /\ forall s k, k < nkpts ->
         orthonormal (nth k ovlp []) (nth k (channel s mo_coeff) []) nmo.
Proof.
  intros Hn Harr HF Hh Hort Hfm Hfc.
  destruct (asarray_ok nkpts nao nmo mos occs Hn Harr) as [Amo Aocc].
  assert (Hch : forall s, exists res,
            canonicalize_channel eigh uninit_C uninit_R dt (channel s fock)
              (channel s mos) (channel s occs) = Ok res
            /\ length res = nkpts
            /\ forall k d, k < nkpts ->
                 orthonormal (nth k ovlp []) (snd (nth k res d)) nmo).
  { intro s. specialize (HF s).
    destruct (orbital_arrays_channel nkpts nao nmo mos occs s Harr)
      as [Lm [Lo [Hlen Hok]]].
    rewrite Forall_forall in Hlen.
    apply has_shape3_iff in HF. destruct HF as [LF HFs]. rewrite Forall_forall in HFs.
    set (P := fun (k : nat) (r : rvec * matrix) =>
                orthonormal (nth k ovlp []) (snd r) nmo).
    destruct (mapM_enumerate_from
                (canonicalize_kpt eigh uninit_C uninit_R dt (channel s fock)
                   (channel s occs))
                P (channel s mos) 0) as [res [Eres [Lres Pres]]].
    { intros k mo Hk. cbn [Nat.add].
      assert (Hklt : k < length (channel s mos)) by (apply nth_error_Some; congruence).
      assert (Hkn : k < nkpts) by (rewrite <- Lm; exact Hklt).
      assert (Emo : nth k (channel s mos) [] = mo) by (apply nth_error_nth; exact Hk).
      assert (Lk : length (nth k (channel s occs) []) = nmo)
        by (apply Hlen; apply nth_In; rewrite Lo; exact Hkn).
      destruct (Hort s k Hkn) as [HS HO]. rewrite Emo in HO.
      destruct (canonicalize_kpt_orthonormal dt nao (channel s fock) (channel s occs) k mo
                  (nth k (channel s fock) []) (nth k ovlp [])
                  (nth k (channel s occs) []))
        as [e' [mo' [E HD]]].
      - exact Hn.
      - rewrite <- Emo. apply (Forall2_nth_both _ _ _ [] [] k Hok Hklt).
      - apply nth_error_nth'. rewrite Lo. exact Hkn.
      - apply nth_error_nth'. rewrite LF. exact Hkn.
      - apply HFs. apply nth_In. rewrite LF. exact Hkn.
      - apply (Hh s k Hkn).
      - exact HS.
      - rewrite Lk. exact HO.
      - rewrite <- Emo. apply (Hfm s k Hkn).
      - intros idx Hidx Hc. rewrite <- Emo. apply (Hfc s k idx Hkn Hidx Hc).
      - exists (e', mo'). split; [exact E|]. unfold P. cbn [snd].
        rewrite <- Lk. exact HD. }
    exists res. split; [exact Eres|]. split; [rewrite Lres; exact Lm|].
    intros k d Hk. apply (Pres k d). rewrite Lm. exact Hk. }
  destruct (Hch Alpha) as [ra [Era [Lra Pa]]].
  destruct (Hch Beta) as [rb [Erb [Lrb Pb]]].
  cbn [channel] in Era, Erb.
  exists (map fst ra, map fst rb), (map snd ra, map snd rb).
  split; [unfold canonicalize; rewrite Amo, Aocc; cbn [bind]; rewrite Era, Erb;
          reflexivity|].
  intros s k Hk.
  assert (Hs : forall r : list (rvec * matrix),
            nth k (map snd r) [] = snd (nth k r ([], [])))
    by (intro r; exact (map_nth snd r ([], []) k)).
  destruct s; cbn [channel fst snd] in *; rewrite Hs.
  - apply Pa; assumption.
  - apply Pb; assumption.
Qed.

End CanonicalizeOrthonormal.

Lemma canonicalize_keeps_orthonormality_witness :
  exists mo_energy mo_coeff,
    canonicalize eigh_diagonal (fun _ _ => C0) (fun _ => 0%Qc) ex_mf Complex128
      ([ex_mo_metric], [ex_mo_metric]) ([ex_occ], [ex_occ]) ([ex_fock], [ex_fock])
    = Ok (mo_energy, mo_coeff)
    /\ forall s k, k < 1 ->
         orthonormal (nth k [ex_ovlp] []) (nth k (channel s mo_coeff) []) 2.
Proof.
  apply (canonicalize_keeps_orthonormality eigh_diagonal (fun _ _ => C0) (fun _ => 0%Qc)
           eigh_diagonal_contract ex_mf Complex128 1 2 2
           ([ex_mo_metric], [ex_mo_metric]) ([ex_occ], [ex_occ]) ([ex_fock], [ex_fock])
           [ex_ovlp]).
  - lia.
  - reflexivity.
  - intros [|]; reflexivity.
  - intros s k Hk. assert (k = 0) by lia. subst k.
    destruct s; unfold hermitian; vm_compute; reflexivity.
  - intros s k Hk. assert (k = 0) by lia. subst k.
    destruct s; (split; [reflexivity|unfold orthonormal; vm_compute; reflexivity]).
  - intros s k Hk. reflexivity.
  - intros s k idx Hk Hidx Hc. reflexivity.
Defined.
